(** * chord-sight: the SF2 playback core

    A shallow embedding of the SoundFont-2 services of chord-sight
    (SF2Parser, PitchCalculator, EnvelopeCalculator, SampleManager,
    StereoManager, SoundEngine), of the MIDI manager and of the part of the
    audio engine that builds and drives them, and the properties their
    design document states about them.

    Conventions of the embedding.
    - A JavaScript [number] that the code only ever fills with integers
      (MIDI notes, velocities, byte offsets, sample indices, generator
      amounts, [Date.now()] milliseconds) is a [Z].
    - A [number] that carries a time on the audio clock, a gain or a
      playback rate is a real [R]; [Math.pow(2, x)] is [Rpower 2 x].  The
      arithmetic of the reals is exact where that of the doubles rounds:
      what is stated of such a number either does not depend on the last
      digits, or carries the rounding error as an argument.
    - An optional field ([x?: T], or a value that may be [undefined]) is an
      [option].
    - A [Map] or [Set] is a list in insertion order, which is the order
      JavaScript iterates them in.
    - A [throw] is the [Throw] constructor of [Result]; [console.warn] and
      [console.error] append to an explicit log.
    - An [async] function is given twice: run to its end, as when the call
      is awaited and nothing else runs meanwhile, and in the parts between
      its [await]s, which other calls can run between. *)

From Stdlib Require Import ZArith List String Ascii Bool Lia.
From Stdlib Require Import Strings.Byte DecimalString.
From Stdlib Require Import Reals Lra.
Import ListNotations.

Local Open Scope Z_scope.

(** ** Shared types ([sf2.types.ts]) *)

Record Range : Type := mkRange { low : Z; high : Z }.

(** [GeneratorMap]: the six generators the piano bank uses, all optional. *)
Record GeneratorMap : Type := mkGeneratorMap {
  g_keyRange : option Range;      (* 43 *)
  g_velRange : option Range;      (* 44 *)
  g_sampleID : option Z;          (* 53 *)
  pan : option Z;                 (* 17 *)
  fineTune : option Z;            (* 52 *)
  releaseVolEnv : option Z        (* 38 *)
}.

Definition emptyGenerators : GeneratorMap :=
  mkGeneratorMap None None None None None None.

Record Zone : Type := mkZone {
  keyRange : Range;
  velRange : Range;
  generators : GeneratorMap;
  sampleId : option Z;
  instrumentId : option Z
}.

(** [SampleHeader].  The records the parser stores in [Sample.header] carry
    no [sampleLink] and no [sampleType]; the records [parseSampleHeaders]
    reads carry both. *)
Record SampleHeader : Type := mkSampleHeader {
  sh_start : Z;
  sh_end : Z;
  startLoop : Z;
  endLoop : Z;
  sampleRate : Z;
  originalPitch : Z;
  pitchCorrection : Z;
  sampleLink : option Z;
  sampleType : option Z
}.

Record Sample : Type := mkSample {
  sampleName : string;
  data : list Z;                  (* Int16Array *)
  header : SampleHeader
}.

Record Preset : Type := mkPreset {
  presetName : string;
  preset : Z;
  bank : Z;
  library : Z;
  genre : Z;
  morphology : Z;
  presetZones : list Zone
}.

Record Instrument : Type := mkInstrument {
  instrumentName : string;
  instrumentZones : list Zone
}.

Record Version : Type := mkVersion { major : Z; minor : Z }.

Record SF2Info : Type := mkSF2Info {
  version : Version;
  soundEngine : string;
  bankName : string;
  romName : option string;
  romVersion : option Version;
  creationDate : option string;
  engineers : option string;
  product : option string;
  copyright : option string;
  comments : option string;
  software : option string
}.

Record SF2Data : Type := mkSF2Data {
  info : SF2Info;
  samples : list Sample;
  presets : list Preset;
  instruments : list Instrument
}.

(** [x || 0] on an optional integer: [undefined] and [0] both give [0]. *)
Definition orZero (x : option Z) : Z :=
  match x with
  | Some v => v
  | None => 0
  end.

(** What the services read of the [AudioContext]: its output rate, and
    the sample rates [createBuffer] accepts (the nominal range is the
    browser's). *)
Record AudioContext : Type := mkAudioContext {
  contextSampleRate : R;
  supportsSampleRate : Z -> bool
}.

(** ** PitchCalculator *)

Module PitchCalculator.
Local Open Scope R_scope.

Definition adjustForSampleRate (playbackRate sampleRate contextRate : R) : R :=
  if Req_dec_T sampleRate contextRate then playbackRate
  else
    let rateFactor := sampleRate / contextRate in
    playbackRate * rateFactor.

Definition calculatePlaybackRate
    (audioContext : AudioContext) (midiNote : Z) (sample : Sample) (zone : Zone) : R :=
  let originalPitch := originalPitch (header sample) in
  let pitchCorrection := pitchCorrection (header sample) in
  let fineTune := orZero (fineTune (generators zone)) in
  let semitoneDiff := (midiNote - originalPitch)%Z in
  let totalCents := (semitoneDiff * 100 + pitchCorrection + fineTune)%Z in
  let playbackRate := Rpower 2 (IZR totalCents / 1200) in
  adjustForSampleRate playbackRate
    (IZR (sampleRate (header sample))) (contextSampleRate audioContext).

(** [440 * Math.pow(2, (midiNote - 69) / 12)] *)
Definition midiToFrequency (midiNote : Z) : R :=
  440 * Rpower 2 (IZR (midiNote - 69) / 12).

(** The [sampleRate] argument is not used. *)
Definition playbackRateToFrequency (playbackRate : R) (originalPitch sampleRate : Z) : R :=
  let originalFreq := midiToFrequency originalPitch in
  originalFreq * playbackRate.

(** [Math.log2(x)].  [None] stands for the two results that are not a real
    number, [-Infinity] at 0 and [NaN] below it; a comparison
    [Math.abs(...) <= 5] made of either is false. *)
Definition log2 (x : R) : option R :=
  if Rlt_dec 0 x then Some (ln x / ln 2) else None.

(** [validatePitchAccuracy].  The frequencies, their quotient and its
    logarithm are computed in double precision; [rounding] is the error that
    leaves in [centError], so that the comparison with 5 is made of the value
    the code holds and not of the exact one. *)
Definition validatePitchAccuracy
    (audioContext : AudioContext) (rounding : R)
    (midiNote : Z) (sample : Sample) (zone : Zone) : bool :=
  let playbackRate := calculatePlaybackRate audioContext midiNote sample zone in
  let targetFreq := midiToFrequency midiNote in
  let actualFreq :=
    playbackRateToFrequency playbackRate
      (originalPitch (header sample)) (sampleRate (header sample)) in
  match log2 (actualFreq / targetFreq) with
  | Some l =>
      let centError := 1200 * l + rounding in
      if Rle_dec (Rabs centError) 5 then true else false
  | None => false
  end.

End PitchCalculator.

(** ** EnvelopeCalculator *)

Module EnvelopeCalculator.
Local Open Scope R_scope.

Definition timecentsToSeconds (timecents : R) : R :=
  Rpower 2 (timecents / 1200).

Definition calculateReleaseTime (releaseVolEnv : option R) : R :=
  match releaseVolEnv with
  | None => 0.2
  | Some tc =>
      let releaseTime := timecentsToSeconds tc in
      if Rlt_dec releaseTime 0.01 then 0.01
      else if Rgt_dec releaseTime 10 then 10
      else releaseTime
  end.

Definition calculateAttackTime (attackVolEnv : option R) : R :=
  match attackVolEnv with
  | None => 0.001
  | Some tc =>
      let attackTime := timecentsToSeconds tc in
      if Rlt_dec attackTime 0.001 then 0.001
      else if Rgt_dec attackTime 5 then 5
      else attackTime
  end.

(** [Math.pow(2, x)] is [Rpower 2 x] here, which is positive for every
    [x]; the double it stands for is 0 when [x] is below -1074 or so, and
    never negative. *)
Definition calculateHoldTime (holdVolEnv : option R) : R :=
  match holdVolEnv with
  | None => 0
  | Some tc =>
      let holdTime := timecentsToSeconds tc in
      if Rlt_dec holdTime 0 then 0
      else if Rgt_dec holdTime 5 then 5
      else holdTime
  end.

Definition calculateDecayTime (decayVolEnv : option R) : R :=
  match decayVolEnv with
  | None => 0.1
  | Some tc =>
      let decayTime := timecentsToSeconds tc in
      if Rlt_dec decayTime 0.001 then 0.001
      else if Rgt_dec decayTime 10 then 10
      else decayTime
  end.

(** [static readonly PRESETS] *)
Module PRESETS.
Definition INSTANT : R := -12000.
Definition VERY_FAST : R := -7200.
Definition FAST : R := -4800.
Definition MEDIUM : R := -1200.
Definition SLOW : R := 0.
Definition VERY_SLOW : R := 1200.
Definition EXTREMELY_SLOW : R := 3600.
End PRESETS.

End EnvelopeCalculator.

(** ** Exceptions *)

(** The outcome of a call that may throw.  [Diverge] is what a [while] loop
    of the model returns when it has not ended within its fuel.  The loops of
    the parser always end ([SF2ParserFacts.parse_total]); the eviction loop
    of the cache ends when the capacity is at least 1
    ([SampleManagerFacts.evictWhileFull_ends]) and otherwise never does. *)
Inductive Result (A : Type) : Type :=
| Ok (a : A)
| Throw (message : string)
| Diverge.
Arguments Ok {A} a.
Arguments Throw {A} message.
Arguments Diverge {A}.

Definition bind {A B : Type} (r : Result A) (k : A -> Result B) : Result B :=
  match r with
  | Ok a => k a
  | Throw m => Throw m
  | Diverge => Diverge
  end.

Declare Scope result_scope.
Delimit Scope result_scope with result.
Notation "x <- c ;; k" := (bind c (fun x => k))
  (at level 61, c at next level, right associativity) : result_scope.

(** [String(n)] for an integer. *)
Definition showZ (n : Z) : string :=
  DecimalString.NilZero.string_of_int (Z.to_int n).

(** ** SF2Parser *)

Module SF2Parser.
Local Open Scope string_scope.
Local Open Scope Z_scope.
Local Open Scope result_scope.

(** *** The DataView *)

(** [new DataView(arrayBuffer)]: the whole buffer, [byteOffset] 0. *)
Definition DataView : Type := list byte.

Definition byteLength (view : DataView) : Z := Z.of_nat (List.length view).

Definition RangeError : string := "Offset is outside the bounds of the DataView".

Definition byteAt (view : DataView) (offset : Z) : option Z :=
  if (0 <=? offset) && (offset <? byteLength view)
  then option_map (fun b => Z.of_N (Byte.to_N b)) (nth_error view (Z.to_nat offset))
  else None.

Definition getUint8 (view : DataView) (offset : Z) : Result Z :=
  match byteAt view offset with
  | Some b => Ok b
  | None => Throw RangeError
  end.

Definition getInt8 (view : DataView) (offset : Z) : Result Z :=
  b <- getUint8 view offset ;;
  Ok (if b >? 127 then b - 256 else b).

(** [getUint16(offset, true)]: little endian. *)
Definition getUint16 (view : DataView) (offset : Z) : Result Z :=
  match byteAt view offset, byteAt view (offset + 1) with
  | Some b0, Some b1 => Ok (b0 + 256 * b1)
  | _, _ => Throw RangeError
  end.

(** [getUint32(offset, true)]: little endian. *)
Definition getUint32 (view : DataView) (offset : Z) : Result Z :=
  match byteAt view offset, byteAt view (offset + 1),
        byteAt view (offset + 2), byteAt view (offset + 3) with
  | Some b0, Some b1, Some b2, Some b3 =>
      Ok (b0 + 256 * b1 + 65536 * b2 + 16777216 * b3)
  | _, _, _, _ => Throw RangeError
  end.

Definition fromCharCode (c : Z) : ascii := ascii_of_N (Z.to_N c).

Definition readFourCC (view : DataView) (offset : Z) : Result string :=
  c0 <- getUint8 view offset ;;
  c1 <- getUint8 view (offset + 1) ;;
  c2 <- getUint8 view (offset + 2) ;;
  c3 <- getUint8 view (offset + 3) ;;
  Ok (String (fromCharCode c0) (String (fromCharCode c1)
       (String (fromCharCode c2) (String (fromCharCode c3) EmptyString)))).

(** [readString]: the [for] loop over [i < maxLength], breaking at a NUL.
    [n] counts the iterations left. *)
Fixpoint readStringLoop (view : DataView) (offset : Z) (n : nat) : Result string :=
  match n with
  | O => Ok EmptyString
  | S n' =>
      char <- getUint8 view offset ;;
      if char =? 0 then Ok EmptyString
      else
        rest <- readStringLoop view (offset + 1) n' ;;
        Ok (String (fromCharCode char) rest)
  end.

Definition readString (view : DataView) (offset maxLength : Z) : Result string :=
  readStringLoop view offset (Z.to_nat maxLength).

(** *** RIFF header and top-level lists *)

Definition validateRIFF (view : DataView) : Result unit :=
  riff <- readFourCC view 0 ;;
  if negb (riff =? "RIFF")%string
  then Throw ("Invalid RIFF header: expected 'RIFF', got '" ++ riff ++ "'")
  else
    fileSize <- getUint32 view 4 ;;
    sfbk <- readFourCC view 8 ;;
    if negb (sfbk =? "sfbk")%string
    then Throw ("Invalid sfbk chunk: expected 'sfbk', got '" ++ sfbk ++ "'")
    else Ok tt.

Record Chunks : Type := mkChunks { INFO : Z; SDTA : Z; PDTA : Z }.

(** The [while (currentOffset < byteLength - 8)] loop of [findChunks]. *)
Fixpoint findChunksLoop (fuel : nat) (view : DataView)
    (chunks : Chunks) (currentOffset : Z) : Result Chunks :=
  match fuel with
  | O => Diverge
  | S fuel' =>
      if currentOffset <? byteLength view - 8 then
        listID <- readFourCC view currentOffset ;;
        listSize <- getUint32 view (currentOffset + 4) ;;
        listType <- readFourCC view (currentOffset + 8) ;;
        let chunks' :=
          if (listID =? "LIST")%string then
            if (listType =? "INFO")%string
            then mkChunks currentOffset (SDTA chunks) (PDTA chunks)
            else if (listType =? "sdta")%string
            then mkChunks (INFO chunks) currentOffset (PDTA chunks)
            else if (listType =? "pdta")%string
            then mkChunks (INFO chunks) (SDTA chunks) currentOffset
            else chunks
          else chunks in
        findChunksLoop fuel' view chunks' (currentOffset + 8 + listSize)
      else Ok chunks
  end.

Definition findChunks (view : DataView) : Result Chunks :=
  chunks <- findChunksLoop (S (List.length view)) view (mkChunks (-1) (-1) (-1)) 12 ;;
  if INFO chunks =? -1 then Throw "INFO chunk not found"
  else if SDTA chunks =? -1 then Throw "SDTA chunk not found"
  else if PDTA chunks =? -1 then Throw "PDTA chunk not found"
  else Ok chunks.

(** *** INFO *)

Definition emptyInfo : SF2Info :=
  mkSF2Info (mkVersion 0 0) "" "" None None None None None None None None.

Definition parseINFOChunk (view : DataView) (chunkID : string)
    (currentOffset chunkSize : Z) (info : SF2Info) : Result SF2Info :=
  let '(mkSF2Info ver eng name rom romv date engs prod copy cmt soft) := info in
  if (chunkID =? "ifil")%string then
    maj <- getUint16 view currentOffset ;;
    min <- getUint16 view (currentOffset + 2) ;;
    Ok (mkSF2Info (mkVersion maj min) eng name rom romv date engs prod copy cmt soft)
  else if (chunkID =? "isng")%string then
    s <- readString view currentOffset chunkSize ;;
    Ok (mkSF2Info ver s name rom romv date engs prod copy cmt soft)
  else if (chunkID =? "INAM")%string then
    s <- readString view currentOffset chunkSize ;;
    Ok (mkSF2Info ver eng s rom romv date engs prod copy cmt soft)
  else if (chunkID =? "irom")%string then
    s <- readString view currentOffset chunkSize ;;
    Ok (mkSF2Info ver eng name (Some s) romv date engs prod copy cmt soft)
  else if (chunkID =? "iver")%string then
    maj <- getUint16 view currentOffset ;;
    min <- getUint16 view (currentOffset + 2) ;;
    Ok (mkSF2Info ver eng name rom (Some (mkVersion maj min)) date engs prod copy cmt soft)
  else if (chunkID =? "ICRD")%string then
    s <- readString view currentOffset chunkSize ;;
    Ok (mkSF2Info ver eng name rom romv (Some s) engs prod copy cmt soft)
  else if (chunkID =? "IENG")%string then
    s <- readString view currentOffset chunkSize ;;
    Ok (mkSF2Info ver eng name rom romv date (Some s) prod copy cmt soft)
  else if (chunkID =? "IPRD")%string then
    s <- readString view currentOffset chunkSize ;;
    Ok (mkSF2Info ver eng name rom romv date engs (Some s) copy cmt soft)
  else if (chunkID =? "ICOP")%string then
    s <- readString view currentOffset chunkSize ;;
    Ok (mkSF2Info ver eng name rom romv date engs prod (Some s) cmt soft)
  else if (chunkID =? "ICMT")%string then
    s <- readString view currentOffset chunkSize ;;
    Ok (mkSF2Info ver eng name rom romv date engs prod copy (Some s) soft)
  else if (chunkID =? "ISFT")%string then
    s <- readString view currentOffset chunkSize ;;
    Ok (mkSF2Info ver eng name rom romv date engs prod copy cmt (Some s))
  else Ok info.

(** The [while (currentOffset < endOffset - 8)] loop of [parseINFO]. *)
Fixpoint parseINFOLoop (fuel : nat) (view : DataView)
    (endOffset currentOffset : Z) (info : SF2Info) : Result SF2Info :=
  match fuel with
  | O => Diverge
  | S fuel' =>
      if currentOffset <? endOffset - 8 then
        chunkID <- readFourCC view currentOffset ;;
        chunkSize <- getUint32 view (currentOffset + 4) ;;
        let currentOffset := currentOffset + 8 in
        info' <- parseINFOChunk view chunkID currentOffset chunkSize info ;;
        parseINFOLoop fuel' view endOffset (currentOffset + chunkSize) info'
      else Ok info
  end.

Definition parseINFO (view : DataView) (offset : Z) : Result SF2Info :=
  listSize <- getUint32 view (offset + 4) ;;
  let endOffset := offset + 8 + listSize in
  parseINFOLoop (S (List.length view)) view endOffset (offset + 12) emptyInfo.

(** *** Typed arrays *)

(** The elements of an [Int16Array] laid over [bytes] (little endian, as on
    every platform the application runs on). *)
Fixpoint decodeInt16 (bytes : list byte) : list Z :=
  match bytes with
  | b0 :: b1 :: rest =>
      let u := Z.of_N (Byte.to_N b0) + 256 * Z.of_N (Byte.to_N b1) in
      (if u >? 32767 then u - 65536 else u) :: decodeInt16 rest
  | _ => []
  end.

(** [new Int16Array(view.buffer, byteOffset, size / 2)]: the length is
    truncated to an integer; a misaligned offset or a length that runs past
    the buffer is a [RangeError]. *)
Definition newInt16Array (view : DataView) (byteOffset size : Z) : Result (list Z) :=
  let length := size / 2 in
  if negb (byteOffset mod 2 =? 0)
  then Throw "start offset of Int16Array should be a multiple of 2"
  else if byteOffset + length * 2 >? byteLength view
  then Throw ("Invalid typed array length: " ++ showZ length)
  else Ok (decodeInt16 (firstn (Z.to_nat (length * 2))
                          (skipn (Z.to_nat byteOffset) view))).

(** [array.slice(start, end)] for non-negative integer bounds. *)
Definition slice {A : Type} (l : list A) (start end_ : Z) : list A :=
  firstn (Z.to_nat (end_ - start)) (skipn (Z.to_nat start) l).

(** *** SDTA *)

Definition parseSDTA (view : DataView) (offset : Z) : Result (list Sample) :=
  listSize <- getUint32 view (offset + 4) ;;
  let currentOffset := offset + 12 in
  smplID <- readFourCC view currentOffset ;;
  if negb (smplID =? "smpl")%string
  then Throw ("Expected 'smpl' chunk, got '" ++ smplID ++ "'")
  else
    smplSize <- getUint32 view (currentOffset + 4) ;;
    let currentOffset := currentOffset + 8 in
    sampleData <- newInt16Array view currentOffset smplSize ;;
    Ok [].

(** *** Fixed-width records *)

Record Chunk : Type := mkChunk { offset : Z; size : Z }.

(** A [for (let i = 0; i < size / width - k; i++)] loop runs for the [i]
    with [width * (i + k) < size]: [recordCount width k size] of them. *)
Definition recordCount (width k size : Z) : nat :=
  Z.to_nat ((size - 1) / width + 1 - k).

Record ParsedHeader : Type := mkParsedHeader {
  ph_name : string;
  ph_header : SampleHeader
}.

Fixpoint parseSampleHeadersLoop (view : DataView) (chunk : Chunk)
    (i : Z) (n : nat) : Result (list ParsedHeader) :=
  match n with
  | O => Ok []
  | S n' =>
      let offset := offset chunk + i * 46 in
      name <- readString view offset 20 ;;
      start <- getUint32 view (offset + 20) ;;
      end_ <- getUint32 view (offset + 24) ;;
      startLoop <- getUint32 view (offset + 28) ;;
      endLoop <- getUint32 view (offset + 32) ;;
      sampleRate <- getUint32 view (offset + 36) ;;
      originalPitch <- getUint8 view (offset + 40) ;;
      pitchCorrection <- getInt8 view (offset + 41) ;;
      sampleLink <- getUint16 view (offset + 42) ;;
      sampleType <- getUint16 view (offset + 44) ;;
      rest <- parseSampleHeadersLoop view chunk (i + 1) n' ;;
      Ok (mkParsedHeader name
            (mkSampleHeader start end_ startLoop endLoop sampleRate
               originalPitch pitchCorrection (Some sampleLink) (Some sampleType))
          :: rest)
  end.

(** The last 46-byte record is the terminator and is not read. *)
Definition parseSampleHeaders (view : DataView) (chunk : Chunk)
    : Result (list ParsedHeader) :=
  parseSampleHeadersLoop view chunk 0 (recordCount 46 1 (size chunk)).

Record Bag : Type := mkBag { genIndex : Z; modIndex : Z }.

Fixpoint parseBagsLoop (view : DataView) (chunk : Chunk)
    (i : Z) (n : nat) : Result (list Bag) :=
  match n with
  | O => Ok []
  | S n' =>
      let offset := offset chunk + i * 4 in
      genIndex <- getUint16 view offset ;;
      modIndex <- getUint16 view (offset + 2) ;;
      rest <- parseBagsLoop view chunk (i + 1) n' ;;
      Ok (mkBag genIndex modIndex :: rest)
  end.

Definition parseBags (view : DataView) (chunk : Chunk) : Result (list Bag) :=
  parseBagsLoop view chunk 0 (recordCount 4 0 (size chunk)).

(** [amount: number | { low, high }]. *)
Inductive Amount : Type :=
| Num (n : Z)
| Rng (r : Range).

Record Generator : Type := mkGenerator { gtype : Z; amount : Amount }.

Fixpoint parseGeneratorsLoop (view : DataView) (chunk : Chunk)
    (i : Z) (n : nat) : Result (list Generator) :=
  match n with
  | O => Ok []
  | S n' =>
      let offset := offset chunk + i * 4 in
      type <- getUint16 view offset ;;
      rawAmount <- getUint16 view (offset + 2) ;;
      let gen :=
        if (type =? 43) || (type =? 44) then
          mkGenerator type
            (Rng (mkRange (Z.land rawAmount 255)
                          (Z.land (Z.shiftr rawAmount 8) 255)))
        else
          let signedAmount :=
            if rawAmount >? 32767 then rawAmount - 65536 else rawAmount in
          mkGenerator type (Num signedAmount) in
      rest <- parseGeneratorsLoop view chunk (i + 1) n' ;;
      Ok (gen :: rest)
  end.

Definition parseGenerators (view : DataView) (chunk : Chunk)
    : Result (list Generator) :=
  parseGeneratorsLoop view chunk 0 (recordCount 4 0 (size chunk)).

(** *** Zones *)

Definition defaultZone : Zone :=
  mkZone (mkRange 0 127) (mkRange 0 127) emptyGenerators None None.

(** One turn of the [switch (gen.type)] of [buildZone]: each [case] tests
    [typeof gen.amount] before it stores the amount. *)
Definition applyGenerator (zone : Zone) (gen : Generator) : Zone :=
  let '(mkZone kr vr gm sid iid) := zone in
  let '(mkGeneratorMap gkr gvr gsid gpan gft grel) := gm in
  let type := gtype gen in
  if type =? 43 then                                    (* KeyRange *)
    match amount gen with
    | Rng r => mkZone r vr (mkGeneratorMap (Some r) gvr gsid gpan gft grel) sid iid
    | Num _ => zone
    end
  else if type =? 44 then                               (* VelRange *)
    match amount gen with
    | Rng r => mkZone kr r (mkGeneratorMap gkr (Some r) gsid gpan gft grel) sid iid
    | Num _ => zone
    end
  else if type =? 17 then                               (* Pan *)
    match amount gen with
    | Num a => mkZone kr vr (mkGeneratorMap gkr gvr gsid (Some a) gft grel) sid iid
    | Rng _ => zone
    end
  else if type =? 52 then                               (* FineTune *)
    match amount gen with
    | Num a => mkZone kr vr (mkGeneratorMap gkr gvr gsid gpan (Some a) grel) sid iid
    | Rng _ => zone
    end
  else if type =? 38 then                               (* ReleaseVolEnv *)
    match amount gen with
    | Num a => mkZone kr vr (mkGeneratorMap gkr gvr gsid gpan gft (Some a)) sid iid
    | Rng _ => zone
    end
  else if type =? 53 then                               (* SampleID *)
    match amount gen with
    | Num a => mkZone kr vr (mkGeneratorMap gkr gvr (Some a) gpan gft grel) (Some a) iid
    | Rng _ => zone
    end
  else if type =? 41 then                               (* Instrument *)
    match amount gen with
    | Num a => mkZone kr vr gm sid (Some a)
    | Rng _ => zone
    end
  else zone.

Definition buildZone (generators : list Generator) : Zone :=
  fold_left applyGenerator generators defaultZone.

Definition TypeError (prop : string) : string :=
  "Cannot read properties of undefined (reading '" ++ prop ++ "')".

Definition lengthZ {A : Type} (l : list A) : Z := Z.of_nat (List.length l).

(** [array[i]] for an integer index: [undefined] out of range. *)
Definition index {A : Type} (l : list A) (i : Z) : option A :=
  if i <? 0 then None else nth_error l (Z.to_nat i).

(** The body of the [for (let b = bagIndex; b < nextBagIndex; b++)] loops:
    the zone of bag [b]. *)
Definition zoneOfBag (bags : list Bag) (generators : list Generator) (b : Z)
    : Result Zone :=
  let bag := index bags b in
  nextGenIndex <-
    (if b <? lengthZ bags - 1 then
       match index bags (b + 1) with
       | Some next => Ok (genIndex next)
       | None => Throw (TypeError "genIndex")
       end
     else Ok (lengthZ generators)) ;;
  match bag with
  | Some bag => Ok (buildZone (slice generators (genIndex bag) nextGenIndex))
  | None => Throw (TypeError "genIndex")
  end.

Fixpoint instrumentZonesLoop (bags : list Bag) (generators : list Generator)
    (b : Z) (n : nat) : Result (list Zone) :=
  match n with
  | O => Ok []
  | S n' =>
      zone <- zoneOfBag bags generators b ;;
      rest <- instrumentZonesLoop bags generators (b + 1) n' ;;
      Ok (zone :: rest)
  end.

Fixpoint parseInstrumentsLoop (view : DataView) (instChunk : Chunk)
    (bags : list Bag) (generators : list Generator)
    (i : Z) (n : nat) : Result (list Instrument) :=
  match n with
  | O => Ok []
  | S n' =>
      let offset := offset instChunk + i * 22 in
      name <- readString view offset 20 ;;
      bagIndex <- getUint16 view (offset + 20) ;;
      nextBagIndex <-
        (if 22 * (i + 2) <? size instChunk
         then getUint16 view (SF2Parser.offset instChunk + (i + 1) * 22 + 20)
         else Ok (lengthZ bags)) ;;
      zones <- instrumentZonesLoop bags generators bagIndex
                 (Z.to_nat (nextBagIndex - bagIndex)) ;;
      rest <- parseInstrumentsLoop view instChunk bags generators (i + 1) n' ;;
      Ok (mkInstrument name zones :: rest)
  end.

Definition parseInstruments (view : DataView) (instChunk ibagChunk igenChunk : Chunk)
    : Result (list Instrument) :=
  bags <- parseBags view ibagChunk ;;
  generators <- parseGenerators view igenChunk ;;
  parseInstrumentsLoop view instChunk bags generators 0
    (recordCount 22 1 (size instChunk)).

(** A preset zone that names an instrument is replaced by that instrument's
    zones; one that names an instrument the bank does not have is dropped. *)
Fixpoint presetZonesLoop (bags : list Bag) (generators : list Generator)
    (instruments : list Instrument) (b : Z) (n : nat) : Result (list Zone) :=
  match n with
  | O => Ok []
  | S n' =>
      zone <- zoneOfBag bags generators b ;;
      let pushed :=
        match instrumentId zone with
        | Some id =>
            match index instruments id with
            | Some instrument => instrumentZones instrument
            | None => []
            end
        | None => [zone]
        end in
      rest <- presetZonesLoop bags generators instruments (b + 1) n' ;;
      Ok (pushed ++ rest)%list
  end.

Fixpoint parsePresetsLoop (view : DataView) (phdrChunk : Chunk)
    (bags : list Bag) (generators : list Generator) (instruments : list Instrument)
    (i : Z) (n : nat) : Result (list Preset) :=
  match n with
  | O => Ok []
  | S n' =>
      let offset := offset phdrChunk + i * 38 in
      name <- readString view offset 20 ;;
      preset <- getUint16 view (offset + 20) ;;
      bank <- getUint16 view (offset + 22) ;;
      bagIndex <- getUint16 view (offset + 24) ;;
      library <- getUint32 view (offset + 26) ;;
      genre <- getUint32 view (offset + 30) ;;
      morphology <- getUint32 view (offset + 34) ;;
      nextBagIndex <-
        (if 38 * (i + 2) <? size phdrChunk
         then getUint16 view (SF2Parser.offset phdrChunk + (i + 1) * 38 + 24)
         else Ok (lengthZ bags)) ;;
      zones <- presetZonesLoop bags generators instruments bagIndex
                 (Z.to_nat (nextBagIndex - bagIndex)) ;;
      rest <- parsePresetsLoop view phdrChunk bags generators instruments (i + 1) n' ;;
      Ok (mkPreset name preset bank library genre morphology zones :: rest)
  end.

Definition parsePresets (view : DataView) (phdrChunk pbagChunk pgenChunk : Chunk)
    (instruments : list Instrument) : Result (list Preset) :=
  bags <- parseBags view pbagChunk ;;
  generators <- parseGenerators view pgenChunk ;;
  parsePresetsLoop view phdrChunk bags generators instruments 0
    (recordCount 38 1 (size phdrChunk)).

(** *** PDTA *)

(** [chunks: Record<string, { offset, size }>], keys in insertion order. *)
Definition ChunkTable : Type := list (string * Chunk).

Fixpoint getChunk (chunks : ChunkTable) (id : string) : option Chunk :=
  match chunks with
  | [] => None
  | (k, c) :: rest => if (k =? id)%string then Some c else getChunk rest id
  end.

(** [chunks[id] = chunk]: a second chunk of the same id replaces the first. *)
Fixpoint setChunk (chunks : ChunkTable) (id : string) (chunk : Chunk) : ChunkTable :=
  match chunks with
  | [] => [(id, chunk)]
  | (k, c) :: rest =>
      if (k =? id)%string then (k, chunk) :: rest
      else (k, c) :: setChunk rest id chunk
  end.

(** The [while (currentOffset < endOffset - 8)] loop of [parsePDTA]. *)
Fixpoint scanSubChunks (fuel : nat) (view : DataView)
    (endOffset currentOffset : Z) (chunks : ChunkTable) : Result ChunkTable :=
  match fuel with
  | O => Diverge
  | S fuel' =>
      if currentOffset <? endOffset - 8 then
        chunkID <- readFourCC view currentOffset ;;
        chunkSize <- getUint32 view (currentOffset + 4) ;;
        let chunks' := setChunk chunks chunkID (mkChunk (currentOffset + 8) chunkSize) in
        scanSubChunks fuel' view endOffset (currentOffset + 8 + chunkSize) chunks'
      else Ok chunks
  end.

Definition requiredChunks : list string :=
  ["phdr"; "pbag"; "pgen"; "inst"; "ibag"; "igen"; "shdr"].

(** The sub-chunks of the [pdta] list at [offset], as [parsePDTA] finds them. *)
Definition subChunks (view : DataView) (offset : Z) : Result ChunkTable :=
  listSize <- getUint32 view (offset + 4) ;;
  let endOffset := offset + 8 + listSize in
  scanSubChunks (S (List.length view)) view endOffset (offset + 12) [].

(** The [for (const chunk of requiredChunks)] check. *)
Fixpoint checkRequired (chunks : ChunkTable) (required : list string) : Result unit :=
  match required with
  | [] => Ok tt
  | chunk :: rest =>
      match getChunk chunks chunk with
      | None => Throw ("Required PDTA chunk '" ++ chunk ++ "' not found")
      | Some _ => checkRequired chunks rest
      end
  end.

(** [chunks.shdr] and the like, used as a chunk. *)
Definition chunkProp (chunks : ChunkTable) (id : string) : Result Chunk :=
  match getChunk chunks id with
  | Some c => Ok c
  | None => Throw (TypeError "size")
  end.

(** [s || fallback] on a string: the empty string is falsy. *)
Definition orString (s fallback : string) : string :=
  match s with
  | EmptyString => fallback
  | _ => s
  end.

(** [n || fallback] on a number. *)
Definition orNumber (n fallback : Z) : Z := if n =? 0 then fallback else n.

(** The bounds check of one sample header against the [smpl] block. *)
Definition invalidIndices (start end_ smplLength : Z) : bool :=
  (start <? 0) || (end_ <? 0) || (start >=? smplLength)
  || (end_ >? smplLength) || (start >=? end_).

(** The line written with [console.warn] for a header that fails the check. *)
Definition invalidIndicesWarning (i : Z) (h : ParsedHeader) (max : Z) : string :=
  "Sample " ++ showZ i ++ " (" ++ ph_name h ++ "): Invalid indices (start="
  ++ showZ (sh_start (ph_header h)) ++ ", end=" ++ showZ (sh_end (ph_header h))
  ++ ", max=" ++ showZ max ++ ")".

(** One turn of the [for] loop over the sample headers: the sample pushed,
    and the warning logged if there is one. *)
Definition extractSample (smplData : list Z) (i : Z) (h : ParsedHeader)
    : Sample * list string :=
  let header := ph_header h in
  let start := sh_start header in
  let end_ := sh_end header in
  if invalidIndices start end_ (lengthZ smplData) then
    (mkSample (orString (ph_name h) ("Sample " ++ showZ i)) []
       (mkSampleHeader 0 0 0 0
          (orNumber (sampleRate header) 44100)
          (orNumber (originalPitch header) 60)
          0 None None),
     [invalidIndicesWarning i h (lengthZ smplData)])
  else
    (mkSample (orString (ph_name h) ("Sample " ++ showZ i))
       (slice smplData start end_)
       (mkSampleHeader (sh_start header) (sh_end header)
          (startLoop header) (endLoop header) (sampleRate header)
          (originalPitch header) (pitchCorrection header) None None),
     []).

(** The whole loop: [samples.push] for every header, in order. *)
Fixpoint extractSamples (smplData : list Z) (i : Z) (headers : list ParsedHeader)
    (samples : list Sample) : list Sample * list string :=
  match headers with
  | [] => (samples, [])
  | h :: rest =>
      let '(sample, warned) := extractSample smplData i h in
      let '(samples', warnings) :=
        extractSamples smplData (i + 1) rest (samples ++ [sample])%list in
      (samples', (warned ++ warnings)%list)
  end.

Record PDTAResult : Type := mkPDTAResult {
  pdtaSamples : list Sample;      (* the [samples] array of the caller, filled *)
  pdtaPresets : list Preset;
  pdtaInstruments : list Instrument
}.

(** Everything [parsePDTA] does before it fills [samples]. *)
Definition locateSamples (view : DataView) (offset : Z)
    : Result (ChunkTable * list ParsedHeader * list Z) :=
  chunks <- subChunks view offset ;;
  _ <- checkRequired chunks requiredChunks ;;
  shdr <- chunkProp chunks "shdr" ;;
  sampleHeaders <- parseSampleHeaders view shdr ;;
  found <- findChunks view ;;
  let sdtaOffset := SDTA found in
  let smplDataOffset := sdtaOffset + 20 in
  smplSize <- getUint32 view (sdtaOffset + 16) ;;
  let bufferEnd := 0 + smplDataOffset + smplSize in
  if bufferEnd >? byteLength view
  then Throw "Invalid SDTA chunk size: exceeds buffer bounds"
  else
    smplData <- newInt16Array view smplDataOffset smplSize ;;
    Ok (chunks, sampleHeaders, smplData).

(** [parsePDTA(offset, samples)].  It pushes onto the [samples] array it is
    given; the second component is what it wrote with [console.warn]. *)
Definition parsePDTA (view : DataView) (offset : Z) (samples : list Sample)
    : Result PDTAResult * list string :=
  match locateSamples view offset with
  | Ok (chunks, sampleHeaders, smplData) =>
      let '(samples', warnings) := extractSamples smplData 0 sampleHeaders samples in
      (inst <- chunkProp chunks "inst" ;;
       ibag <- chunkProp chunks "ibag" ;;
       igen <- chunkProp chunks "igen" ;;
       instruments <- parseInstruments view inst ibag igen ;;
       phdr <- chunkProp chunks "phdr" ;;
       pbag <- chunkProp chunks "pbag" ;;
       pgen <- chunkProp chunks "pgen" ;;
       presets <- parsePresets view phdr pbag pgen instruments ;;
       Ok (mkPDTAResult samples' presets instruments),
       warnings)
  | Throw m => (Throw m, [])
  | Diverge => (Diverge, [])
  end.

(** *** parse *)

(** What [parse] does inside its [try]: the samples array [parseSDTA]
    returns is the one [parsePDTA] fills and the one returned. *)
Definition parseBody (view : DataView) : Result SF2Data * list string :=
  match
    (_ <- validateRIFF view ;;
     chunks <- findChunks view ;;
     info <- parseINFO view (INFO chunks) ;;
     samples <- parseSDTA view (SDTA chunks) ;;
     Ok (chunks, info, samples))
  with
  | Ok (chunks, info, samples) =>
      let '(r, console) := parsePDTA view (PDTA chunks) samples in
      (pdta <- r ;;
       Ok (mkSF2Data info (pdtaSamples pdta) (pdtaPresets pdta) (pdtaInstruments pdta)),
       console)
  | Throw m => (Throw m, [])
  | Diverge => (Diverge, [])
  end.

(** [parse(arrayBuffer)]: the parsed bank or the error thrown, and the
    console output. *)
Definition parse (arrayBuffer : list byte) : Result SF2Data * list string :=
  let '(r, console) := parseBody arrayBuffer in
  (match r with
   | Ok d => Ok d
   | Throw message => Throw ("SF2 Parse Error: " ++ message)
   | Diverge => Diverge
   end, console).

(** *** validate *)

(** The [for] loop of [validate] from index [i] on: [false] and the warning
    written at the first sample that has no data or no sample rate. *)
Fixpoint validateLoop (samples : list Sample) (i : Z) : bool * list string :=
  match samples with
  | [] => (true, [])
  | sample :: rest =>
      if lengthZ (data sample) =? 0 then
        (false, ["Sample " ++ showZ i ++ " (" ++ sampleName sample ++ "): No data"])
      else if sampleRate (header sample) <=? 0 then
        (false,
         ["Sample " ++ showZ i ++ " (" ++ sampleName sample ++ "): Invalid sample rate"])
      else validateLoop rest (i + 1)
  end.

(** [validate(sf2Data)]: the verdict and what it wrote with [console.warn]. *)
Definition validate (sf2Data : SF2Data) : bool * list string :=
  if lengthZ (samples sf2Data) =? 0
  then (false, ["No samples found in SF2 file"])
  else validateLoop (samples sf2Data) 0.

End SF2Parser.

(** ** SampleManager *)

Module SampleManager.
Local Open Scope string_scope.
Local Open Scope Z_scope.
Local Open Scope result_scope.

(** A mono [AudioBuffer] and its channel. *)
Record AudioBuffer : Type := mkAudioBuffer {
  bufferLength : Z;
  numberOfChannels : Z;
  bufferSampleRate : Z;
  channelData : list R
}.

Record CacheEntry : Type := mkCacheEntry {
  buffer : AudioBuffer;
  lastAccessed : Z;               (* Date.now() *)
  entrySize : Z                   (* bytes *)
}.

(** [Map<number, CacheEntry>], keys in insertion order. *)
Definition Cache : Type := list (Z * CacheEntry).

Record State : Type := mkState {
  sf2Data : SF2Data;
  cache : Cache;
  maxCacheSize : Z;
  totalMemoryUsage : Z
}.

Record SampleManagerConfig : Type := mkConfig { configMaxCacheSize : option Z }.

(** [config.maxCacheSize || 150] *)
Definition new (sf2Data : SF2Data) (config : SampleManagerConfig) : State :=
  mkState sf2Data []
    (match configMaxCacheSize config with
     | Some n => if n =? 0 then 150 else n
     | None => 150
     end)
    0.

Definition cacheSize (st : State) : Z := Z.of_nat (List.length (cache st)).

Fixpoint cacheGet (c : Cache) (id : Z) : option CacheEntry :=
  match c with
  | [] => None
  | (k, e) :: rest => if k =? id then Some e else cacheGet rest id
  end.

(** [cache.set(id, entry)]: an existing key keeps its place. *)
Fixpoint cacheSet (c : Cache) (id : Z) (entry : CacheEntry) : Cache :=
  match c with
  | [] => [(id, entry)]
  | (k, e) :: rest =>
      if k =? id then (k, entry) :: rest else (k, e) :: cacheSet rest id entry
  end.

Fixpoint cacheDelete (c : Cache) (id : Z) : Cache :=
  match c with
  | [] => []
  | (k, e) :: rest => if k =? id then rest else (k, e) :: cacheDelete rest id
  end.

(** [x < bound] where [bound] starts at [Infinity] ([None]). *)
Definition belowBound (x : Z) (bound : option Z) : bool :=
  match bound with
  | None => true
  | Some b => x <? b
  end.

(** The [for] loop of [evictLRU]: [(oldestId, oldestTime)] after the entries. *)
Fixpoint findOldest (entries : Cache) (oldestId oldestTime : option Z)
    : option Z * option Z :=
  match entries with
  | [] => (oldestId, oldestTime)
  | (id, entry) :: rest =>
      if belowBound (lastAccessed entry) oldestTime
      then findOldest rest (Some id) (Some (lastAccessed entry))
      else findOldest rest oldestId oldestTime
  end.

Definition evictLRU (st : State) : State :=
  match fst (findOldest (cache st) None None) with
  | Some oldestId =>
      match cacheGet (cache st) oldestId with
      | Some entry =>
          mkState (sf2Data st) (cacheDelete (cache st) oldestId)
            (maxCacheSize st) (totalMemoryUsage st - entrySize entry)
      | None => st
      end
  | None => st
  end.

(** [while (this.cache.size >= this.maxCacheSize) this.evictLRU()].  Out of
    fuel, the loop has not ended: with a capacity below 1 it never does. *)
Fixpoint evictWhileFull (fuel : nat) (st : State) : Result State :=
  match fuel with
  | O => Diverge
  | S fuel' =>
      if cacheSize st >=? maxCacheSize st
      then evictWhileFull fuel' (evictLRU st)
      else Ok st
  end.

Definition addToCache (st : State) (sampleId : Z) (buffer : AudioBuffer) (now : Z)
    : Result State :=
  let size := bufferLength buffer * numberOfChannels buffer * 4 in
  st' <- evictWhileFull (S (List.length (cache st))) st ;;
  Ok (mkState (sf2Data st')
        (cacheSet (cache st') sampleId (mkCacheEntry buffer now size))
        (maxCacheSize st')
        (totalMemoryUsage st' + size)).

Definition getSampleData (st : State) (sampleId : Z) : option Sample :=
  if (sampleId <? 0) || (sampleId >=? Z.of_nat (List.length (samples (sf2Data st))))
  then None
  else nth_error (samples (sf2Data st)) (Z.to_nat sampleId).

(** [audioContext.createBuffer(1, length, sampleRate)] refuses an empty
    buffer and a sample rate outside the supported range. *)
Definition createBuffer (audioContext : AudioContext)
    (numberOfChannels length sampleRate : Z) : Result unit :=
  if (length <=? 0) || negb (supportsSampleRate audioContext sampleRate)
  then Throw "NotSupportedError"
  else Ok tt.

Definition createAudioBuffer (audioContext : AudioContext) (sample : Sample)
    : Result AudioBuffer :=
  let sampleRate := sampleRate (header sample) in
  let length := Z.of_nat (List.length (data sample)) in
  _ <- createBuffer audioContext 1 length sampleRate ;;
  Ok (mkAudioBuffer length 1 sampleRate
        (map (fun d => (IZR d / 32768)%R) (data sample))).

(** [cached.lastAccessed = Date.now()] on the entry of [id]. *)
Definition touch (st : State) (id : Z) (entry : CacheEntry) (now : Z) : State :=
  mkState (sf2Data st)
    (cacheSet (cache st) id (mkCacheEntry (buffer entry) now (entrySize entry)))
    (maxCacheSize st) (totalMemoryUsage st).

(** [getSample]: the synchronous lookup. *)
Definition getSample (st : State) (sampleId now : Z) : option AudioBuffer * State :=
  match cacheGet (cache st) sampleId with
  | Some cached => (Some (buffer cached), touch st sampleId cached now)
  | None => (None, st)
  end.

(** [loadSample] up to its [await]: a hit is answered at once, a miss has
    its buffer built and [addToCache] still to run. *)
Inductive Pending : Type :=
| Hit (buffer : AudioBuffer)
| Miss (buffer : AudioBuffer).

Definition loadSampleBegin (audioContext : AudioContext) (st : State)
    (sampleId now : Z) : Result Pending * State :=
  match cacheGet (cache st) sampleId with
  | Some cached => (Ok (Hit (buffer cached)), touch st sampleId cached now)
  | None =>
      match getSampleData st sampleId with
      | None => (Throw ("Sample " ++ showZ sampleId ++ " not found"), st)
      | Some sample =>
          (buffer <- createAudioBuffer audioContext sample ;; Ok (Miss buffer), st)
      end
  end.

(** [loadSample] after its [await]. *)
Definition loadSampleEnd (st : State) (sampleId : Z) (pending : Pending) (now : Z)
    : Result (AudioBuffer * State) :=
  match pending with
  | Hit buffer => Ok (buffer, st)
  | Miss buffer =>
      st' <- addToCache st sampleId buffer now ;;
      Ok (buffer, st')
  end.

(** [await loadSample(sampleId)] with nothing running in between.  A load
    that throws leaves the manager as it was. *)
Definition loadSample (audioContext : AudioContext) (st : State)
    (sampleId now : Z) : Result (AudioBuffer * State) :=
  let '(r, st1) := loadSampleBegin audioContext st sampleId now in
  pending <- r ;;
  loadSampleEnd st1 sampleId pending now.

Definition clearCache (st : State) : State :=
  mkState (sf2Data st) [] (maxCacheSize st) 0.

(** [getCacheStats().size] and [.maxSize]. *)
Definition statsSize (st : State) : Z := cacheSize st.
Definition statsMaxSize (st : State) : Z := maxCacheSize st.

(** The calls that reach the cache.  [AddToCache] on its own is the second
    half of a [loadSample] that other calls ran in between. *)
Inductive Op : Type :=
| LoadSample (sampleId now : Z)
| GetSample (sampleId now : Z)
| AddToCache (sampleId : Z) (buffer : AudioBuffer) (now : Z)
| ClearCache.

(** One call; [Throw] when the call throws, which leaves the manager
    unchanged. *)
Definition step (audioContext : AudioContext) (st : State) (op : Op) : Result State :=
  match op with
  | LoadSample sampleId now =>
      r <- loadSample audioContext st sampleId now ;; Ok (snd r)
  | GetSample sampleId now => Ok (snd (getSample st sampleId now))
  | AddToCache sampleId buffer now => addToCache st sampleId buffer now
  | ClearCache => Ok (clearCache st)
  end.

(** A sequence of calls; a call that throws is skipped. *)
Fixpoint run (audioContext : AudioContext) (st : State) (ops : list Op) : Result State :=
  match ops with
  | [] => Ok st
  | op :: rest =>
      match step audioContext st op with
      | Ok st' => run audioContext st' rest
      | Throw _ => run audioContext st rest
      | Diverge => Diverge
      end
  end.

(** *** Statistics *)

Definition getMemoryUsage (st : State) : R :=
  (IZR (totalMemoryUsage st) / (1024 * 1024))%R.

Record CacheStats : Type := mkCacheStats {
  size : Z;
  maxSize : Z;
  memoryUsageMB : R
}.

Definition getCacheStats (st : State) : CacheStats :=
  mkCacheStats (cacheSize st) (maxCacheSize st) (getMemoryUsage st).

(** *** Preloading *)

(** [sampleIds.map((id) => this.loadSample(id))]: every load runs up to its
    [await], in the order of the ids. *)
Fixpoint beginAll (audioContext : AudioContext) (st : State) (sampleIds : list Z)
    (now : Z) : list (Z * Result Pending) * State :=
  match sampleIds with
  | [] => ([], st)
  | sampleId :: rest =>
      let '(p, st1) := loadSampleBegin audioContext st sampleId now in
      let '(ps, st2) := beginAll audioContext st1 rest now in
      ((sampleId, p) :: ps, st2)
  end.

(** The loads go on past their [await], in the same order; one that has
    thrown has nothing left to do. *)
Fixpoint endAll (st : State) (pending : list (Z * Result Pending)) (now : Z)
    : Result State :=
  match pending with
  | [] => Ok st
  | (sampleId, Ok p) :: rest =>
      r <- loadSampleEnd st sampleId p now ;;
      endAll (snd r) rest now
  | (_, _) :: rest => endAll st rest now
  end.

(** What [Promise.all] rejects with: the error of the first load that threw. *)
Fixpoint firstThrow (pending : list (Z * Result Pending)) : Result unit :=
  match pending with
  | [] => Ok tt
  | (_, p) :: rest => _ <- p ;; firstThrow rest
  end.

(** [await preloadSamples(sampleIds)]: whether it throws, and the manager
    once every load has settled. *)
Definition preloadSamples (audioContext : AudioContext) (st : State)
    (sampleIds : list Z) (now : Z) : Result unit * Result State :=
  let '(pending, st1) := beginAll audioContext st sampleIds now in
  (firstThrow pending, endAll st1 pending now).

(** [sampleIds.add(id)] on the [Set<number>] of [preloadForMIDIRange]. *)
Definition idsAdd (sampleIds : list Z) (sampleId : Z) : list Z :=
  if existsb (Z.eqb sampleId) sampleIds then sampleIds
  else (sampleIds ++ [sampleId])%list.

(** The ids [preloadForMIDIRange] collects from the first preset. *)
Definition rangeSampleIds (sf2Data : SF2Data) (midiStart midiEnd : Z) : list Z :=
  match presets sf2Data with
  | [] => []
  | preset :: _ =>
      fold_left
        (fun sampleIds zone =>
           let keyRange := keyRange zone in
           if (low keyRange <=? midiEnd) && (high keyRange >=? midiStart) then
             match sampleId zone with
             | Some sampleId => idsAdd sampleIds sampleId
             | None => sampleIds
             end
           else sampleIds)
        (presetZones preset) []
  end.

Definition preloadForMIDIRange (audioContext : AudioContext) (st : State)
    (midiStart midiEnd : Z) (now : Z) : Result unit * Result State :=
  preloadSamples audioContext st (rangeSampleIds (sf2Data st) midiStart midiEnd) now.

End SampleManager.

(** ** Voices and the audio graph ([audio.types.ts]) *)

(** A [Voice].  [id] stands for the identity of the object (which is what
    [indexOf] compares); [gainValue] is what [gainNode.gain.value] reads at
    the moment.  The nodes a voice owns are not data of the model: the calls
    made on them are recorded as [AudioEvent]s. *)
Record Voice : Type := mkVoice {
  id : Z;
  midiNote : Z;
  velocity : Z;
  startTime : R;
  releaseTime : option R;
  isReleasing : bool;
  zones : list Zone;
  gainValue : R
}.

Inductive Channel : Type := LeftSource | RightSource.

(** A call on an audio node of the voice [voice]. *)
Inductive AudioEvent : Type :=
| CancelScheduledValues (voice : Z) (time : R)
| SetValueAtTime (voice : Z) (value time : R)
| LinearRampToValueAtTime (voice : Z) (value time : R)
| ExponentialRampToValueAtTime (voice : Z) (value time : R)
| Start (voice : Z) (source : Channel) (playbackRate time : R)
| Stop (voice : Z) (source : Channel) (time : option R)
| Disconnect (voice : Z).

(** ** StereoManager *)

Module StereoManager.
Local Open Scope string_scope.
Local Open Scope Z_scope.
Local Open Scope result_scope.

Definition hasPan (p : Z) (z : Zone) : bool :=
  match pan (generators z) with
  | Some q => q =? p
  | None => false
  end.

Definition showBool (b : bool) : string := if b then "true" else "false".

Definition isSome {A : Type} (o : option A) : bool :=
  match o with Some _ => true | None => false end.

(** The two zones of the pair and their sample ids, or the error thrown
    before any sample is loaded. *)
Definition stereoZones (midiNote : Z) (zones : list Zone) : Result (Zone * Z * Z) :=
  let leftZone := find (hasPan (-500)) zones in
  let rightZone := find (hasPan 500) zones in
  match leftZone, rightZone with
  | Some leftZone, Some rightZone =>
      match sampleId leftZone, sampleId rightZone with
      | Some l, Some r => Ok (leftZone, l, r)
      | _, _ => Throw ("Sample ID missing in stereo zones for MIDI " ++ showZ midiNote)
      end
  | _, _ =>
      Throw ("Stereo pair not found for MIDI " ++ showZ midiNote
             ++ " (L=" ++ showBool (isSome leftZone)
             ++ ", R=" ++ showBool (isSome rightZone) ++ ")")
  end.

(** [await Promise.all([loadSample(left), loadSample(right)])]: both loads
    run up to their [await] first, left then right, and then each adds its
    buffer to the cache, a load that failed excepted.  The first failure is
    the one thrown. *)
Definition loadPair (audioContext : AudioContext) (sm : SampleManager.State)
    (leftId rightId dateNow : Z) : Result unit * Result SampleManager.State :=
  let '(pl, sm1) := SampleManager.loadSampleBegin audioContext sm leftId dateNow in
  let '(pr, sm2) := SampleManager.loadSampleBegin audioContext sm1 rightId dateNow in
  let sm3 :=
    match pl with
    | Ok p => r <- SampleManager.loadSampleEnd sm2 leftId p dateNow ;; Ok (snd r)
    | _ => Ok sm2
    end in
  let sm4 :=
    sm3' <- sm3 ;;
    match pr with
    | Ok p => r <- SampleManager.loadSampleEnd sm3' rightId p dateNow ;; Ok (snd r)
    | _ => Ok sm3'
    end in
  (_ <- pl ;; _ <- pr ;; Ok tt, sm4).

(** [playStereoPair]: the voice (its identity [fresh]) and the calls that
    start it, or the error thrown; and the sample manager afterwards
    ([Diverge] if a cache insertion does not end). *)
Definition playStereoPair (audioContext : AudioContext) (sm : SampleManager.State)
    (fresh : Z) (dateNow : Z) (currentTime : R)
    (midiNote velocity : Z) (zones : list Zone)
    : Result (Result (Voice * list AudioEvent) * SampleManager.State) :=
  match stereoZones midiNote zones with
  | Ok (leftZone, leftId, rightId) =>
      let '(loaded, sm') := loadPair audioContext sm leftId rightId dateNow in
      sm' <- sm' ;;
      Ok (_ <- loaded ;;
          match SampleManager.getSampleData sm' leftId with
          | None => Throw ("Sample data " ++ showZ leftId ++ " not found")
          | Some leftSample =>
              let playbackRate :=
                PitchCalculator.calculatePlaybackRate audioContext midiNote
                  leftSample leftZone in
              let gain := ((IZR velocity / 127) ^ 2)%R in
              let startTime := currentTime in
              Ok (mkVoice fresh midiNote velocity startTime None false zones gain,
                  [Start fresh LeftSource playbackRate startTime;
                   Start fresh RightSource playbackRate startTime])
          end,
          sm')
  | Throw m => Ok (Throw m, sm)
  | Diverge => Diverge
  end.

Definition hasStereoPair (zones : list Zone) : bool :=
  existsb (hasPan (-500)) zones && existsb (hasPan 500) zones.

End StereoManager.

(** ** SoundEngine *)

Module SoundEngine.
Local Open Scope string_scope.
Local Open Scope Z_scope.
Local Open Scope result_scope.

(** The engine: its fields, the sample manager it shares, the calls it has
    made on audio nodes and the lines it has written to the console (both
    oldest first), and the identity the next voice object gets. *)
Record State : Type := mkState {
  sampleManager : SampleManager.State;
  sf2Data : SF2Data;
  voices : list (Z * list Voice);       (* Map<number, Voice[]> *)
  sustainPedal : bool;
  sustainedNotes : list Z;              (* Set<number> *)
  maxPolyphony : Z;
  masterGain : R;
  audio : list AudioEvent;
  console : list string;
  nextVoice : Z
}.

Record SoundEngineConfig : Type := mkConfig { configMaxPolyphony : option Z }.

(** [config.maxPolyphony || 64] *)
Definition new (sampleManager : SampleManager.State) (sf2Data : SF2Data)
    (config : SoundEngineConfig) : State :=
  mkState sampleManager sf2Data [] false []
    (match configMaxPolyphony config with
     | Some n => if n =? 0 then 64 else n
     | None => 64
     end)
    1%R [] [] 0.

Definition setVoices (st : State) (vs : list (Z * list Voice)) : State :=
  mkState (sampleManager st) (sf2Data st) vs (sustainPedal st) (sustainedNotes st)
    (maxPolyphony st) (masterGain st) (audio st) (console st) (nextVoice st).

Definition setSustainedNotes (st : State) (notes : list Z) : State :=
  mkState (sampleManager st) (sf2Data st) (voices st) (sustainPedal st) notes
    (maxPolyphony st) (masterGain st) (audio st) (console st) (nextVoice st).

Definition emit (st : State) (events : list AudioEvent) : State :=
  mkState (sampleManager st) (sf2Data st) (voices st) (sustainPedal st)
    (sustainedNotes st) (maxPolyphony st) (masterGain st)
    (audio st ++ events)%list (console st) (nextVoice st).

Definition log (st : State) (line : string) : State :=
  mkState (sampleManager st) (sf2Data st) (voices st) (sustainPedal st)
    (sustainedNotes st) (maxPolyphony st) (masterGain st)
    (audio st) (console st ++ [line])%list (nextVoice st).

(** *** The registry and the sustain set *)

Fixpoint voicesGet (m : list (Z * list Voice)) (note : Z) : option (list Voice) :=
  match m with
  | [] => None
  | (k, vs) :: rest => if k =? note then Some vs else voicesGet rest note
  end.

Fixpoint voicesSet (m : list (Z * list Voice)) (note : Z) (vs : list Voice)
    : list (Z * list Voice) :=
  match m with
  | [] => [(note, vs)]
  | (k, old) :: rest =>
      if k =? note then (k, vs) :: rest else (k, old) :: voicesSet rest note vs
  end.

Definition setHas (s : list Z) (note : Z) : bool := existsb (Z.eqb note) s.

Definition setAdd (s : list Z) (note : Z) : list Z :=
  if setHas s note then s else (s ++ [note])%list.

Definition setDelete (s : list Z) (note : Z) : list Z :=
  filter (fun n => negb (n =? note)) s.

(** [for (const voices of this.voices.values()) total += voices.length] *)
Definition totalVoices (st : State) : Z :=
  fold_left (fun total entry => total + Z.of_nat (List.length (snd entry)))
    (voices st) 0.

(** *** selectZones *)

Definition zoneMatches (midiNote velocity : Z) (zone : Zone) : bool :=
  let kr := keyRange zone in
  let vr := velRange zone in
  (midiNote >=? low kr) && (midiNote <=? high kr)
  && (velocity >=? low vr) && (velocity <=? high vr).

Definition selectZones (sf2Data : SF2Data) (midiNote velocity : Z) : list Zone :=
  match presets sf2Data with
  | [] => []
  | preset :: _ => filter (zoneMatches midiNote velocity) (presetZones preset)
  end.

(** *** removeVoice *)

Definition isVoice (voice : Voice) (v : Voice) : bool := id v =? id voice.

(** [voices.splice(voices.indexOf(voice), 1)] *)
Fixpoint spliceVoice (voice : Voice) (vs : list Voice) : list Voice :=
  match vs with
  | [] => []
  | v :: rest => if isVoice voice v then rest else v :: spliceVoice voice rest
  end.

(** The [for] loop of [removeVoice] over the entries of the registry: the
    registry afterwards, and the key deleted if one was. *)
Fixpoint removeFromRegistry (voice : Voice) (m : list (Z * list Voice))
    : list (Z * list Voice) * option Z :=
  match m with
  | [] => ([], None)
  | (midiNote, vs) :: rest =>
      if existsb (isVoice voice) vs then
        match spliceVoice voice vs with
        | [] => (rest, Some midiNote)
        | vs' => ((midiNote, vs') :: rest, None)
        end
      else
        let '(rest', deleted) := removeFromRegistry voice rest in
        ((midiNote, vs) :: rest', deleted)
  end.

Definition removeVoice (voice : Voice) (st : State) : State :=
  let st := emit st [Disconnect (id voice)] in
  let '(m, deleted) := removeFromRegistry voice (voices st) in
  let st := setVoices st m in
  match deleted with
  | Some midiNote => setSustainedNotes st (setDelete (sustainedNotes st) midiNote)
  | None => st
  end.

(** *** Voice stealing *)

(** The priority [stealOldestVoice] computes for a voice: the lowest is
    stolen. *)
Definition priority (currentTime : R) (voice : Voice) : R :=
  let priority := 0%R in
  let priority := if isReleasing voice then (priority - 1000)%R else priority in
  let priority := (priority - IZR (velocity voice))%R in
  let age := (currentTime - startTime voice)%R in
  (priority + age * 10)%R.

(** [priority < lowestPriority], [None] being [Infinity]. *)
Definition below (priority : R) (lowestPriority : option R) : bool :=
  match lowestPriority with
  | None => true
  | Some lowest => if Rlt_dec priority lowest then true else false
  end.

(** One turn of the inner loop: [(targetVoice, lowestPriority)] afterwards. *)
Definition consider (currentTime : R) (acc : option Voice * option R) (voice : Voice)
    : option Voice * option R :=
  let p := priority currentTime voice in
  if below p (snd acc) then (Some voice, Some p) else acc.

(** The voices of the registry in the order the two loops visit them. *)
Definition allVoices (m : list (Z * list Voice)) : list Voice :=
  List.concat (map snd m).

Definition stealTarget (currentTime : R) (m : list (Z * list Voice)) : option Voice :=
  fst (fold_left (consider currentTime) (allVoices m) (None, None)).

Definition stealOldestVoice (currentTime : R) (st : State) : State :=
  match stealTarget currentTime (voices st) with
  | Some targetVoice =>
      let st := emit st [Stop (id targetVoice) LeftSource None;
                         Stop (id targetVoice) RightSource None] in
      removeVoice targetVoice st
  | None => st
  end.

Definition checkPolyphonyLimit (currentTime : R) (st : State) : State :=
  if totalVoices st >=? maxPolyphony st
  then stealOldestVoice currentTime st
  else st.

(** *** Release *)

Definition getReleaseTime (voice : Voice) : R :=
  match zones voice with
  | [] => EnvelopeCalculator.calculateReleaseTime None
  | zone :: _ =>
      EnvelopeCalculator.calculateReleaseTime
        (option_map IZR (releaseVolEnv (generators zone)))
  end.

(** One turn of the loop of [releaseNote]: the voice afterwards and the
    calls made on its nodes. *)
Definition releaseVoice (currentTime : R) (voice : Voice) : Voice * list AudioEvent :=
  if isReleasing voice then (voice, [])
  else
    let releaseTime := getReleaseTime voice in
    let currentGain := gainValue voice in
    let targetGain := 0.0001%R in
    let ramp :=
      if Rle_dec currentGain targetGain then
        [SetValueAtTime (id voice) currentGain currentTime;
         LinearRampToValueAtTime (id voice) 0 (currentTime + 0.01)]
      else
        [SetValueAtTime (id voice) currentGain currentTime;
         ExponentialRampToValueAtTime (id voice) targetGain (currentTime + releaseTime)] in
    (mkVoice (id voice) (midiNote voice) (velocity voice) (startTime voice)
       (Some (currentTime + releaseTime)%R) true (zones voice) (gainValue voice),
     (CancelScheduledValues (id voice) currentTime :: ramp
      ++ [Stop (id voice) LeftSource (Some (currentTime + releaseTime + 0.1)%R);
          Stop (id voice) RightSource (Some (currentTime + releaseTime + 0.1)%R)])%list).

Fixpoint releaseVoices (currentTime : R) (vs : list Voice)
    : list Voice * list AudioEvent :=
  match vs with
  | [] => ([], [])
  | voice :: rest =>
      let '(voice', events) := releaseVoice currentTime voice in
      let '(rest', events') := releaseVoices currentTime rest in
      (voice' :: rest', (events ++ events')%list)
  end.

Definition releaseNote (currentTime : R) (midiNote : Z) (st : State) : State :=
  match voicesGet (voices st) midiNote with
  | None => st
  | Some [] => st
  | Some noteVoices =>
      let '(noteVoices', events) := releaseVoices currentTime noteVoices in
      emit (setVoices st (voicesSet (voices st) midiNote noteVoices')) events
  end.

Definition noteOff (currentTime : R) (midiNote : Z) (st : State) : State :=
  match voicesGet (voices st) midiNote with
  | None => st
  | Some [] => st
  | Some _ =>
      if sustainPedal st
      then setSustainedNotes st (setAdd (sustainedNotes st) midiNote)
      else releaseNote currentTime midiNote st
  end.

Definition setPedal (st : State) (isDown : bool) : State :=
  mkState (sampleManager st) (sf2Data st) (voices st) isDown (sustainedNotes st)
    (maxPolyphony st) (masterGain st) (audio st) (console st) (nextVoice st).

Definition setSustainPedal (currentTime : R) (isDown : bool) (st : State) : State :=
  let st := setPedal st isDown in
  if negb isDown then
    let st :=
      fold_left (fun st midiNote => releaseNote currentTime midiNote st)
        (sustainedNotes st) st in
    setSustainedNotes st []
  else st.

Definition allNotesOff (currentTime : R) (st : State) : State :=
  let st :=
    fold_left (fun st midiNote => releaseNote currentTime midiNote st)
      (map fst (voices st)) st in
  setSustainedNotes st [].

Definition panic (st : State) : State :=
  let stops :=
    flat_map (fun voice => [Stop (id voice) LeftSource None;
                            Stop (id voice) RightSource None])
      (allVoices (voices st)) in
  setSustainedNotes (setVoices (emit st stops) []) [].

(** *** noteOn *)

(** The fade given to the voices already sounding on the key. *)
Definition fadeOut (now : R) (oldVoice : Voice) : list AudioEvent :=
  let fadeOutTime := 0.02%R in
  [CancelScheduledValues (id oldVoice) now;
   SetValueAtTime (id oldVoice) (gainValue oldVoice) now;
   LinearRampToValueAtTime (id oldVoice) 0 (now + fadeOutTime);
   Stop (id oldVoice) LeftSource (Some (now + fadeOutTime)%R);
   Stop (id oldVoice) RightSource (Some (now + fadeOutTime)%R)].

Definition fadeExisting (now : R) (midiNote : Z) (st : State) : State :=
  match voicesGet (voices st) midiNote with
  | Some existingVoices => emit st (flat_map (fadeOut now) existingVoices)
  | None => st
  end.

(** [this.voices.get(midiNote)!.push(voice)], the key set first if absent. *)
Definition registerVoice (midiNote : Z) (voice : Voice) (st : State) : State :=
  let m :=
    match voicesGet (voices st) midiNote with
    | Some _ => voices st
    | None => voicesSet (voices st) midiNote []
    end in
  let noteVoices :=
    match voicesGet m midiNote with Some vs => vs | None => [] end in
  setVoices st (voicesSet m midiNote (noteVoices ++ [voice])%list).

Definition setSampleManager (st : State) (sm : SampleManager.State) : State :=
  mkState sm (sf2Data st) (voices st) (sustainPedal st) (sustainedNotes st)
    (maxPolyphony st) (masterGain st) (audio st) (console st) (nextVoice st).

Definition bumpNextVoice (st : State) : State :=
  mkState (sampleManager st) (sf2Data st) (voices st) (sustainPedal st)
    (sustainedNotes st) (maxPolyphony st) (masterGain st) (audio st) (console st)
    (nextVoice st + 1).

(** [await noteOn(midiNote, velocity)], run to its end with no other call
    in between.  [now] is the audio clock when the call is made, [startTime]
    when the samples are loaded, [dateNow] is [Date.now()].  Resuming a
    suspended context changes nothing of the state kept here.  The result is
    [Diverge] when a cache insertion does not end; [noteOn] never throws. *)
Definition noteOn (audioContext : AudioContext) (now startTime : R) (dateNow : Z)
    (midiNote velocity : Z) (st : State) : Result State :=
  if (midiNote <? 21) || (midiNote >? 108) then
    Ok (log st ("MIDI note " ++ showZ midiNote ++ " out of range (21-108)"))
  else if (velocity <? 0) || (velocity >? 127) then
    Ok (log st ("Velocity " ++ showZ velocity ++ " out of range (0-127)"))
  else
    let zones := selectZones (sf2Data st) midiNote velocity in
    match zones with
    | [] =>
        Ok (log st ("No zones found for MIDI " ++ showZ midiNote
                    ++ ", velocity " ++ showZ velocity))
    | _ =>
        let st := fadeExisting now midiNote st in
        let st := checkPolyphonyLimit now st in
        played <- StereoManager.playStereoPair audioContext (sampleManager st)
                    (nextVoice st) dateNow startTime midiNote velocity zones ;;
        let '(outcome, sm) := played in
        let st := setSampleManager st sm in
        match outcome with
        | Ok (voice, started) =>
            let st := bumpNextVoice (emit st started) in
            let st := registerVoice midiNote voice st in
            Ok (setSustainedNotes st (setDelete (sustainedNotes st) midiNote))
        | Throw message =>
            Ok (log st ("Failed to play note " ++ showZ midiNote ++ ": " ++ message))
        | Diverge => Diverge
        end
    end.

(** *** Statistics and volume *)

Record Stats : Type := mkStats {
  activeVoices : Z;
  statsSustainedNotes : Z;
  sustainPedalDown : bool;
  statsMaxPolyphony : Z
}.

Definition getStats (st : State) : Stats :=
  mkStats (totalVoices st) (Z.of_nat (List.length (sustainedNotes st)))
    (sustainPedal st) (maxPolyphony st).

Definition getSustainedNotes (st : State) : list Z := sustainedNotes st.

Definition setVolume (volume : R) (st : State) : State :=
  let normalizedVolume := (Rmax 0 (Rmin 100 volume) / 100)%R in
  mkState (sampleManager st) (sf2Data st) (voices st) (sustainPedal st)
    (sustainedNotes st) (maxPolyphony st) normalizedVolume (audio st) (console st)
    (nextVoice st).

(** *** The engine as a state machine *)

(** What can happen to an engine: the calls of its API, each run to its end
    before anything else happens (a [noteOn] is awaited), the [onended]
    callback of a voice's left source, and the audio thread moving the gain
    of a voice.  Calls of [noteOn] that overlap are [Turn]s, below. *)
Inductive Event : Type :=
| NoteOn (now startTime : R) (dateNow : Z) (midiNote velocity : Z)
| NoteOff (now : R) (midiNote : Z)
| SetSustainPedal (now : R) (isDown : bool)
| AllNotesOff (now : R)
| Panic
| SetVolume (volume : R)
| Ended (voice : Voice)
| GainMoved (voice : Z) (value : R).

Definition moveGain (voice : Z) (value : R) (st : State) : State :=
  setVoices st
    (map (fun entry =>
            (fst entry,
             map (fun v =>
                    if id v =? voice
                    then mkVoice (id v) (midiNote v) (velocity v) (startTime v)
                           (releaseTime v) (isReleasing v) (zones v) value
                    else v)
               (snd entry)))
       (voices st)).

Definition step (audioContext : AudioContext) (st : State) (e : Event) : Result State :=
  match e with
  | NoteOn now startTime dateNow midiNote velocity =>
      noteOn audioContext now startTime dateNow midiNote velocity st
  | NoteOff now midiNote => Ok (noteOff now midiNote st)
  | SetSustainPedal now isDown => Ok (setSustainPedal now isDown st)
  | AllNotesOff now => Ok (allNotesOff now st)
  | Panic => Ok (panic st)
  | SetVolume volume => Ok (setVolume volume st)
  | Ended voice => Ok (removeVoice voice st)
  | GainMoved voice value => Ok (moveGain voice value st)
  end.

(** The events one after the other, each run to its end before the next:
    what an engine goes through when every [noteOn] is awaited. *)
Fixpoint run (audioContext : AudioContext) (st : State) (events : list Event)
    : Result State :=
  match events with
  | [] => Ok st
  | e :: rest =>
      st' <- step audioContext st e ;;
      run audioContext st' rest
  end.

(** *** Calls in flight

    [noteOn] is an [async] function.  A call runs at once up to its first
    [await], which is the [await Promise.all] of [playStereoPair]: by then
    it has faded the voices of the key, run [checkPolyphonyLimit] and
    started both [loadSample].  The rest runs later, in turns: each load
    that missed adds its buffer to the cache, [playStereoPair] builds and
    starts the voice, and [noteOn] registers it.  When the caller does not
    await the call, other calls run between these turns. *)

(** Where a call in flight stands: [playStereoPair] at its
    [await Promise.all], [noteOn] at its [await playStereoPair] with the
    voice returned or the error thrown, or [noteOn] returned. *)
Inductive Stage : Type :=
| AwaitingLoads (leftZone : Zone) (leftId : Z)
| AwaitingPair (outcome : Result Voice)
| Returned.

(** What a call in flight keeps: its arguments and zones, the buffers its
    loads have still to add to the cache (left first), and what
    [Promise.all] settles with. *)
Record InFlight : Type := mkInFlight {
  callNote : Z;
  callVelocity : Z;
  callZones : list Zone;
  adding : list (Z * SampleManager.AudioBuffer);
  loaded : Result unit;
  stage : Stage
}.

(** The engine and the calls made on it so far, oldest first. *)
Record Machine : Type := mkMachine {
  engine : State;
  inFlight : list InFlight
}.

Definition setStage (call : InFlight) (s : Stage) : InFlight :=
  mkInFlight (callNote call) (callVelocity call) (callZones call) (adding call)
    (loaded call) s.

Definition setAdding (call : InFlight)
    (buffers : list (Z * SampleManager.AudioBuffer)) : InFlight :=
  mkInFlight (callNote call) (callVelocity call) (callZones call) buffers
    (loaded call) (stage call).

Fixpoint setCall (calls : list InFlight) (k : nat) (call : InFlight) : list InFlight :=
  match calls, k with
  | [], _ => []
  | _ :: rest, O => call :: rest
  | c :: rest, S k' => c :: setCall rest k' call
  end.

(** The buffer a load at its [await] has still to add. *)
Definition pendingAdd (sampleId : Z) (pending : Result SampleManager.Pending)
    : list (Z * SampleManager.AudioBuffer) :=
  match pending with
  | Ok (SampleManager.Miss buffer) => [(sampleId, buffer)]
  | _ => []
  end.

(** [noteOn(midiNote, velocity)] from the call to its first [await] (in a
    context that is running): the call returns at once when it rejects the
    note or finds no zone, and is in flight otherwise. *)
Definition noteOnCalled (audioContext : AudioContext) (now : R) (dateNow : Z)
    (midiNote velocity : Z) (m : Machine) : Result Machine :=
  let st := engine m in
  if (midiNote <? 21) || (midiNote >? 108) then
    Ok (mkMachine
          (log st ("MIDI note " ++ showZ midiNote ++ " out of range (21-108)"))
          (inFlight m))
  else if (velocity <? 0) || (velocity >? 127) then
    Ok (mkMachine
          (log st ("Velocity " ++ showZ velocity ++ " out of range (0-127)"))
          (inFlight m))
  else
    let zones := selectZones (sf2Data st) midiNote velocity in
    match zones with
    | [] =>
        Ok (mkMachine
              (log st ("No zones found for MIDI " ++ showZ midiNote
                       ++ ", velocity " ++ showZ velocity))
              (inFlight m))
    | _ =>
        let st := fadeExisting now midiNote st in
        let st := checkPolyphonyLimit now st in
        match StereoManager.stereoZones midiNote zones with
        | Ok (leftZone, leftId, rightId) =>
            let '(pl, sm1) :=
              SampleManager.loadSampleBegin audioContext (sampleManager st)
                leftId dateNow in
            let '(pr, sm2) :=
              SampleManager.loadSampleBegin audioContext sm1 rightId dateNow in
            Ok (mkMachine (setSampleManager st sm2)
                  (inFlight m
                   ++ [mkInFlight midiNote velocity zones
                         (pendingAdd leftId pl ++ pendingAdd rightId pr)
                         (_ <- pl ;; _ <- pr ;; Ok tt)
                         (AwaitingLoads leftZone leftId)])%list)
        | Throw message =>
            Ok (mkMachine st
                  (inFlight m
                   ++ [mkInFlight midiNote velocity zones [] (Ok tt)
                         (AwaitingPair (Throw message))])%list)
        | Diverge => Diverge
        end
    end.

(** A [loadSample] of call [k] resumes after its [await]: [addToCache], at
    the time [dateNow].  Nothing happens when no load of the call waits. *)
Definition loadResumed (k : nat) (dateNow : Z) (m : Machine) : Result Machine :=
  match nth_error (inFlight m) k with
  | Some call =>
      match adding call with
      | (sampleId, buffer) :: rest =>
          sm <- SampleManager.addToCache (sampleManager (engine m)) sampleId
                  buffer dateNow ;;
          Ok (mkMachine (setSampleManager (engine m) sm)
                (setCall (inFlight m) k (setAdding call rest)))
      | [] => Ok m
      end
  | None => Ok m
  end.

(** [playStereoPair] of call [k] resumes after [await Promise.all], once a
    load has failed or both have returned: it throws, or builds the voice
    and starts both sources at [currentTime]. *)
Definition pairResumed (audioContext : AudioContext) (k : nat) (currentTime : R)
    (m : Machine) : Machine :=
  match nth_error (inFlight m) k with
  | Some call =>
      match stage call with
      | AwaitingLoads leftZone leftId =>
          match loaded call, adding call with
          | Throw message, _ =>
              mkMachine (engine m)
                (setCall (inFlight m) k (setStage call (AwaitingPair (Throw message))))
          | Ok _, [] =>
              match SampleManager.getSampleData (sampleManager (engine m)) leftId with
              | None =>
                  mkMachine (engine m)
                    (setCall (inFlight m) k
                       (setStage call
                          (AwaitingPair
                             (Throw ("Sample data " ++ showZ leftId ++ " not found")))))
              | Some leftSample =>
                  let playbackRate :=
                    PitchCalculator.calculatePlaybackRate audioContext
                      (callNote call) leftSample leftZone in
                  let gain := ((IZR (callVelocity call) / 127) ^ 2)%R in
                  let startTime := currentTime in
                  let fresh := nextVoice (engine m) in
                  let voice :=
                    mkVoice fresh (callNote call) (callVelocity call) startTime
                      None false (callZones call) gain in
                  mkMachine
                    (bumpNextVoice
                       (emit (engine m)
                          [Start fresh LeftSource playbackRate startTime;
                           Start fresh RightSource playbackRate startTime]))
                    (setCall (inFlight m) k (setStage call (AwaitingPair (Ok voice))))
              end
          | _, _ => m
          end
      | _ => m
      end
  | None => m
  end.

(** [noteOn] of call [k] resumes after [await playStereoPair]: it registers
    the voice, or writes the error it caught. *)
Definition noteOnResumed (k : nat) (m : Machine) : Machine :=
  match nth_error (inFlight m) k with
  | Some call =>
      match stage call with
      | AwaitingPair (Ok voice) =>
          let st := registerVoice (callNote call) voice (engine m) in
          mkMachine
            (setSustainedNotes st (setDelete (sustainedNotes st) (callNote call)))
            (setCall (inFlight m) k (setStage call Returned))
      | AwaitingPair (Throw message) =>
          mkMachine
            (log (engine m)
               ("Failed to play note " ++ showZ (callNote call) ++ ": " ++ message))
            (setCall (inFlight m) k (setStage call Returned))
      | _ => m
      end
  | None => m
  end.

(** What runs next: a call or callback that runs to its end ([Sync], an
    awaited [noteOn] included), a [noteOn] that is called and not awaited,
    or a call in flight, the [call]-th made, that resumes. *)
Inductive Turn : Type :=
| Sync (e : Event)
| NoteOnCalled (now : R) (dateNow : Z) (midiNote velocity : Z)
| LoadResumed (call : nat) (dateNow : Z)
| PairResumed (call : nat) (currentTime : R)
| NoteOnResumed (call : nat).

Definition turn (audioContext : AudioContext) (m : Machine) (t : Turn)
    : Result Machine :=
  match t with
  | Sync e =>
      st <- step audioContext (engine m) e ;;
      Ok (mkMachine st (inFlight m))
  | NoteOnCalled now dateNow midiNote velocity =>
      noteOnCalled audioContext now dateNow midiNote velocity m
  | LoadResumed call dateNow => loadResumed call dateNow m
  | PairResumed call currentTime => Ok (pairResumed audioContext call currentTime m)
  | NoteOnResumed call => Ok (noteOnResumed call m)
  end.

Fixpoint runTurns (audioContext : AudioContext) (m : Machine) (turns : list Turn)
    : Result Machine :=
  match turns with
  | [] => Ok m
  | t :: rest =>
      m' <- turn audioContext m t ;;
      runTurns audioContext m' rest
  end.

(** The turns of a [noteOn] that is awaited, when it is the [call]-th
    call: nothing runs between them. *)
Definition awaitedNoteOn (call : nat) (now startTime : R) (dateNow : Z)
    (midiNote velocity : Z) : list Turn :=
  [NoteOnCalled now dateNow midiNote velocity;
   LoadResumed call dateNow; LoadResumed call dateNow;
   PairResumed call startTime; NoteOnResumed call].

End SoundEngine.

(** ** MIDIManager *)

Module MIDIManager.
Local Open Scope string_scope.
Local Open Scope Z_scope.

(** A [MIDIMessageEvent]: the id of the input it came from, if it names
    one, the status byte, the two data bytes and the time stamp.  The
    handlers of a message that has fewer than two data bytes (a program
    change, a real-time message) do not read the bytes it lacks. *)
Record MIDIMessageEvent : Type := mkMIDIMessageEvent {
  target : option string;
  status : Z;
  data1 : Z;
  data2 : Z;
  timeStamp : R
}.

(** [MIDIEvent], by its [type]. *)
Inductive MIDIEvent : Type :=
| MIDINoteOnEvent (note velocity channel : Z) (timestamp : R)
| MIDINoteOffEvent (note velocity channel : Z) (timestamp : R)
| MIDIControlChangeEvent (controller value channel : Z) (timestamp : R)
| MIDIPitchBendEvent (value channel : Z) (timestamp : R)
| MIDIProgramChangeEvent (program channel : Z) (timestamp : R).

Record State : Type := mkState {
  selectedDeviceId : option string;     (* null: all devices *)
  activeNotes : list Z                  (* Set<number> *)
}.

Definition new : State := mkState None [].

Definition selectDevice (st : State) (deviceId : option string) : State :=
  mkState deviceId (activeNotes st).

Definition has (s : list Z) (note : Z) : bool := existsb (Z.eqb note) s.

Definition add (s : list Z) (note : Z) : list Z :=
  if has s note then s else (s ++ [note])%list.

Definition delete (s : list Z) (note : Z) : list Z :=
  filter (fun n => negb (n =? note)) s.

(** A handler returns the manager afterwards, the events it emits to the
    listeners and the lines it writes with [console.warn]. *)
Definition Handled : Type := State * list MIDIEvent * list string.

Definition handleNoteOff (st : State) (note velocity channel : Z) (timestamp : R)
    : Handled :=
  (mkState (selectedDeviceId st) (delete (activeNotes st) note),
   [MIDINoteOffEvent note velocity channel timestamp], []).

Definition handleNoteOn (st : State) (note velocity channel : Z) (timestamp : R)
    : Handled :=
  if velocity =? 0 then handleNoteOff st note 0 channel timestamp
  else if has (activeNotes st) note then
    (st, [],
     ["[MIDIManager] Duplicate NOTE ON for note " ++ showZ note
      ++ ", ignoring (bouncing prevention)"])
  else
    (mkState (selectedDeviceId st) (add (activeNotes st) note),
     [MIDINoteOnEvent note velocity channel timestamp], []).

Definition handleControlChange (st : State) (controller value channel : Z)
    (timestamp : R) : Handled :=
  (st, [MIDIControlChangeEvent controller value channel timestamp], []).

Definition handlePitchBend (st : State) (lsb msb channel : Z) (timestamp : R)
    : Handled :=
  let value := Z.lor (Z.shiftl msb 7) lsb - 8192 in
  (st, [MIDIPitchBendEvent value channel timestamp], []).

Definition handleProgramChange (st : State) (program channel : Z) (timestamp : R)
    : Handled :=
  (st, [MIDIProgramChangeEvent program channel timestamp], []).

Definition handleMIDIMessage (st : State) (event : MIDIMessageEvent) : Handled :=
  let ignored :=
    match selectedDeviceId st, target event with
    | Some selected, Some id => negb (id =? selected)%string
    | _, _ => false
    end in
  if ignored then (st, [], [])
  else
    let statusByte := Z.land (status event) 240 in
    let channel := Z.land (status event) 15 in
    if statusByte =? 144 then
      handleNoteOn st (data1 event) (data2 event) channel (timeStamp event)
    else if statusByte =? 128 then
      handleNoteOff st (data1 event) (data2 event) channel (timeStamp event)
    else if statusByte =? 176 then
      handleControlChange st (data1 event) (data2 event) channel (timeStamp event)
    else if statusByte =? 224 then
      handlePitchBend st (data1 event) (data2 event) channel (timeStamp event)
    else if statusByte =? 192 then
      handleProgramChange st (data1 event) channel (timeStamp event)
    else (st, [], []).

(** The messages of an input, one after the other: the manager afterwards
    and everything emitted, oldest first. *)
Fixpoint run (st : State) (events : list MIDIMessageEvent) : State * list MIDIEvent :=
  match events with
  | [] => (st, [])
  | event :: rest =>
      let '(st1, emitted, _) := handleMIDIMessage st event in
      let '(st2, emitted') := run st1 rest in
      (st2, (emitted ++ emitted')%list)
  end.

End MIDIManager.

(** ** AudioEngine *)

Module AudioEngine.
Local Open Scope string_scope.
Local Open Scope Z_scope.

(** [MIDIControlChange] *)
Definition SustainPedal : Z := 64.
Definition AllSoundOff : Z := 120.
Definition AllNotesOff : Z := 123.

(** What a listener of [initializeMIDI] does: the calls it makes on the
    sound engine and on the callbacks of the configuration. *)
Inductive Call : Type :=
| SoundEngineNoteOn (midiNote velocity : Z)
| SoundEngineNoteOff (midiNote : Z)
| SoundEngineSetSustainPedal (isDown : bool)
| SoundEngineAllNotesOff
| SoundEnginePanic
| OnNoteOn (midiNote velocity : Z)
| OnNoteOff (midiNote : Z)
| OnSustainPedal (isDown : bool).

(** [setTranspose(transpose)]: the value kept in [this.transpose]. *)
Definition setTranspose (transpose : Z) : Z :=
  Z.max (-12) (Z.min 12 transpose).

(** The listeners registered for 'noteon', 'noteoff' and 'cc', run on an
    event the manager emits; [suspended] is whether the audio context is.
    Nothing listens for a pitch bend or a program change. *)
Definition listen (suspended : bool) (transpose : Z) (event : MIDIManager.MIDIEvent)
    : list Call * list string :=
  match event with
  | MIDIManager.MIDINoteOnEvent note velocity _ _ =>
      if suspended then
        ([OnNoteOn note velocity],
         ["⚠️ AudioContext is suspended. Click the page to enable audio."])
      else
        let transposedNote := note + transpose in
        ([SoundEngineNoteOn transposedNote velocity; OnNoteOn note velocity], [])
  | MIDIManager.MIDINoteOffEvent note _ _ _ =>
      let transposedNote := note + transpose in
      ([SoundEngineNoteOff transposedNote; OnNoteOff note], [])
  | MIDIManager.MIDIControlChangeEvent controller value _ _ =>
      if controller =? SustainPedal then
        let isDown := value >=? 64 in
        ([SoundEngineSetSustainPedal isDown; OnSustainPedal isDown], [])
      else if controller =? AllNotesOff then ([SoundEngineAllNotesOff], [])
      else if controller =? AllSoundOff then ([SoundEnginePanic], [])
      else ([], [])
  | _ => ([], [])
  end.

(** A MIDI message through the manager and the listeners. *)
Definition onMIDIMessage (suspended : bool) (transpose : Z)
    (st : MIDIManager.State) (event : MIDIManager.MIDIMessageEvent)
    : MIDIManager.State * list Call :=
  let '(st', emitted, _) := MIDIManager.handleMIDIMessage st event in
  (st', flat_map (fun e => fst (listen suspended transpose e)) emitted).

(** What [initialize] reads of its [AudioEngineConfig]. *)
Record AudioEngineConfig : Type := mkAudioEngineConfig {
  maxPolyphony : option Z;
  cacheSize : option Z
}.

(** [n || fallback] on an optional number. *)
Definition orDefault (n : option Z) (fallback : Z) : Z :=
  match n with
  | Some v => if v =? 0 then fallback else v
  | None => fallback
  end.

(** [initialize(config)] from the downloaded bytes on: the bank is parsed
    and the sample manager and the sound engine are built over it, each
    with its limit defaulted here and again in its constructor.  [Throw] is
    the error [initialize] catches and keeps in its state, returning
    [false].  The download, the progress callbacks and the MIDI set-up are
    not part of the model. *)
Definition initialize (arrayBuffer : list byte) (config : AudioEngineConfig)
    : Result SoundEngine.State :=
  match fst (SF2Parser.parse arrayBuffer) with
  | Ok sf2Data =>
      let sampleManager :=
        SampleManager.new sf2Data
          (SampleManager.mkConfig (Some (orDefault (cacheSize config) 150))) in
      Ok (SoundEngine.new sampleManager sf2Data
            (SoundEngine.mkConfig (Some (orDefault (maxPolyphony config) 64))))
  | Throw message => Throw message
  | Diverge => Diverge
  end.

End AudioEngine.

(** ** Example banks

    An encoder for the file layout the parser reads, and a few small banks
    built with it.  Nothing here is part of the application: the banks are
    the concrete inputs the properties below are evaluated on. *)

Module ExampleBank.
Local Open Scope string_scope.
Local Open Scope Z_scope.

Definition u8 (n : Z) : list byte :=
  match Byte.of_N (Z.to_N (n mod 256)) with
  | Some b => [b]
  | None => []
  end.

Definition le16 (n : Z) : list byte := (u8 n ++ u8 (n / 256))%list.

Definition le32 (n : Z) : list byte := (le16 n ++ le16 (n / 65536))%list.

Definition chars (s : string) : list byte := list_byte_of_string s.

(** A name in a fixed field of [width] bytes, NUL padded. *)
Definition padded (width : nat) (s : string) : list byte :=
  firstn width (chars s ++ repeat x00 width)%list.

Definition chunk (id : string) (payload : list byte) : list byte :=
  (chars id ++ le32 (Z.of_nat (List.length payload)) ++ payload)%list.

Definition listChunk (type : string) (body : list byte) : list byte :=
  chunk "LIST" (chars type ++ body)%list.

Definition riff (body : list byte) : list byte :=
  (chars "RIFF" ++ le32 (4 + Z.of_nat (List.length body))
   ++ chars "sfbk" ++ body)%list.

Definition shdrRecord (name : string)
    (start end_ startLoop endLoop sampleRate pitch correction link type : Z)
    : list byte :=
  (padded 20 name ++ le32 start ++ le32 end_ ++ le32 startLoop ++ le32 endLoop
   ++ le32 sampleRate ++ u8 pitch ++ u8 correction ++ le16 link ++ le16 type)%list.

Definition instRecord (name : string) (bagIndex : Z) : list byte :=
  (padded 20 name ++ le16 bagIndex)%list.

Definition phdrRecord (name : string) (preset bank bagIndex : Z) : list byte :=
  (padded 20 name ++ le16 preset ++ le16 bank ++ le16 bagIndex
   ++ le32 0 ++ le32 0 ++ le32 0)%list.

Definition bagRecord (genIndex modIndex : Z) : list byte :=
  (le16 genIndex ++ le16 modIndex)%list.

Definition genRecord (type amount : Z) : list byte :=
  (le16 type ++ le16 amount)%list.

Definition infoList : list byte :=
  listChunk "INFO" (chunk "ifil" (le16 2 ++ le16 1)%list).

(** Eight 16-bit samples: 100, 200, 300, 400, -1, -2, -3, -4. *)
Definition sdtaList : list byte :=
  listChunk "sdta"
    (chunk "smpl"
       (le16 100 ++ le16 200 ++ le16 300 ++ le16 400
        ++ le16 (-1) ++ le16 (-2) ++ le16 (-3) ++ le16 (-4))%list).

(** One preset naming instrument 0. *)
Definition phdrChunk : list byte :=
  chunk "phdr" (phdrRecord "Grand" 0 0 0 ++ phdrRecord "EOP" 0 0 1)%list.
Definition pbagChunk : list byte :=
  chunk "pbag" (bagRecord 0 0 ++ bagRecord 1 0)%list.
Definition pgenChunk : list byte :=
  chunk "pgen" (genRecord 41 0 ++ genRecord 0 0)%list.

(** One instrument of two zones: a left zone with no key range and no
    velocity range of its own, a right zone with both. *)
Definition instChunk : list byte :=
  chunk "inst" (instRecord "Piano" 0 ++ instRecord "EOI" 2)%list.
Definition ibagChunk : list byte :=
  chunk "ibag" (bagRecord 0 0 ++ bagRecord 2 0 ++ bagRecord 7 0)%list.
Definition igenChunk : list byte :=
  chunk "igen"
    (genRecord 17 (-500) ++ genRecord 53 0
     ++ genRecord 43 (21 + 256 * 108) ++ genRecord 44 (1 + 256 * 127)
     ++ genRecord 17 500 ++ genRecord 38 (-1200) ++ genRecord 53 1
     ++ genRecord 0 0)%list.

(** Three samples and the terminator.  ["L"] is the block [0, 4) with its
    loop inside it; ["R"] is the block [4, 8) with its loop points given, as
    the file format has them, as offsets into the whole sample block;
    ["bad"] ends past the block. *)
Definition shdrChunk : list byte :=
  chunk "shdr"
    (shdrRecord "L" 0 4 1 3 44100 60 0 1 4
     ++ shdrRecord "R" 4 8 5 7 44100 60 0 0 2
     ++ shdrRecord "bad" 6 100 7 9 48000 72 5 0 1
     ++ shdrRecord "EOS" 0 0 0 0 0 0 0 0 0)%list.

Definition bank : list byte :=
  riff (infoList ++ sdtaList
        ++ listChunk "pdta"
             (phdrChunk ++ pbagChunk ++ pgenChunk
              ++ instChunk ++ ibagChunk ++ igenChunk ++ shdrChunk))%list.

(** The same bank without its sample-header chunk. *)
Definition bankWithoutShdr : list byte :=
  riff (infoList ++ sdtaList
        ++ listChunk "pdta"
             (phdrChunk ++ pbagChunk ++ pgenChunk
              ++ instChunk ++ ibagChunk ++ igenChunk))%list.

(** The same bank under a wrong container signature. *)
Definition bankWithBadSignature : list byte :=
  (chars "RIFX" ++ skipn 4 bank)%list.

(** What the parser makes of [bank]. *)
Definition parsed : SF2Data :=
  Eval vm_compute in
    match fst (SF2Parser.parse bank) with
    | Ok d => d
    | _ => mkSF2Data SF2Parser.emptyInfo [] [] []
    end.

(** The generators of the left zone of [bank]: a pan and a sample id. *)
Definition leftGenerators : list SF2Parser.Generator :=
  [SF2Parser.mkGenerator 17 (SF2Parser.Num (-500));
   SF2Parser.mkGenerator 53 (SF2Parser.Num 0)].

(** An audio context at 44.1 kHz that accepts every sample rate, and one at
    48 kHz. *)
Definition context : AudioContext := mkAudioContext 44100 (fun _ => true).
Definition context48k : AudioContext := mkAudioContext 48000 (fun _ => true).

(** A sample recorded at 48 kHz at middle C, a zone that tunes it 5 cents
    up, and a zone that does not tune it. *)
Definition sample48k : Sample :=
  mkSample "C4" [] (mkSampleHeader 0 0 0 0 48000 60 0 None None).

Definition zoneFiveCents : Zone :=
  mkZone (mkRange 0 127) (mkRange 0 127)
    (mkGeneratorMap None None None None (Some 5) None) None None.

Definition zonePlain : Zone :=
  mkZone (mkRange 0 127) (mkRange 0 127) emptyGenerators None None.

(** A zone that tunes 3 cents up. *)
Definition zoneThreeCents : Zone :=
  mkZone (mkRange 0 127) (mkRange 0 127)
    (mkGeneratorMap None None None None (Some 3) None) None None.

(** A one-frame buffer. *)
Definition click : SampleManager.AudioBuffer :=
  SampleManager.mkAudioBuffer 1 1 44100 [0%R].

(** Two loads, a second access to the first sample, and an insertion. *)
Definition cacheOps : list SampleManager.Op :=
  [SampleManager.LoadSample 0 10; SampleManager.LoadSample 1 20;
   SampleManager.GetSample 0 30; SampleManager.AddToCache 7 click 40].

(** An engine over the example bank, with the default configuration. *)
Definition engine : SoundEngine.State :=
  SoundEngine.new (SampleManager.new parsed (SampleManager.mkConfig None))
    parsed (SoundEngine.mkConfig None).

(** Key 64 struck, the pedal pressed, the key let go. *)
Definition heldByPedal : list SoundEngine.Event :=
  [SoundEngine.NoteOn 0 0 0 64 100;
   SoundEngine.SetSustainPedal 1 true;
   SoundEngine.NoteOff 2 64].

(** Two voices of the same age, one struck softly and one struck hard. *)
Definition soft : Voice := mkVoice 0 60 20 0 None false [] 0.
Definition hard : Voice := mkVoice 1 64 100 0 None false [] 0.

Definition softAndHard : SoundEngine.State :=
  SoundEngine.setVoices engine [(60, [soft]); (64, [hard])].

(** Two voices struck equally hard, one at time 0 and one at time 5. *)
Definition older : Voice := mkVoice 0 60 64 0 None false [] 0.
Definition younger : Voice := mkVoice 1 64 64 5 None false [] 0.

Definition olderAndYounger : SoundEngine.State :=
  SoundEngine.setVoices engine [(60, [older]); (64, [younger])].

(** An engine limited to four voices, and five keys struck one after the
    other, each harder than the one before. *)
Definition engineOfFour : SoundEngine.State :=
  SoundEngine.new (SampleManager.new parsed (SampleManager.mkConfig None))
    parsed (SoundEngine.mkConfig (Some 4)).

Definition fourNotes : list SoundEngine.Event :=
  [SoundEngine.NoteOn 0 0 0 60 10; SoundEngine.NoteOn 1 1 1 62 20;
   SoundEngine.NoteOn 2 2 2 64 30; SoundEngine.NoteOn 3 3 3 65 40].

Definition fifthNote : SoundEngine.Event := SoundEngine.NoteOn 4 4 4 67 50.

(** Six keys struck together: the calls, none awaited; then every call
    resumed, load by load, pair by pair, call by call; and the same calls
    each awaited before the next. *)
Definition chord : list Z := [60; 62; 64; 65; 67; 69].

Definition chordCalled : list SoundEngine.Turn :=
  map (fun n => SoundEngine.NoteOnCalled 0 0 n 100) chord.

Definition chordResumed : list SoundEngine.Turn :=
  (flat_map (fun k => [SoundEngine.LoadResumed k 0; SoundEngine.LoadResumed k 0])
     (seq 0 6)
   ++ map (fun k => SoundEngine.PairResumed k 0) (seq 0 6)
   ++ map SoundEngine.NoteOnResumed (seq 0 6))%list.

Definition chordAwaited : list SoundEngine.Event :=
  map (fun n => SoundEngine.NoteOn 0 0 0 n 100) chord.

(** Key 64 struck and not awaited, the pedal pressed while the samples
    load, the call resumed to its end, the key let go. *)
Definition heldWhileLoading : list SoundEngine.Turn :=
  [SoundEngine.NoteOnCalled 0 0 64 100;
   SoundEngine.Sync (SoundEngine.SetSustainPedal 1 true);
   SoundEngine.LoadResumed 0 0; SoundEngine.LoadResumed 0 0;
   SoundEngine.PairResumed 0 0; SoundEngine.NoteOnResumed 0;
   SoundEngine.Sync (SoundEngine.NoteOff 2 64)].

(** The bank with its two good sample headers only, and what the parser
    makes of it. *)
Definition shdrChunkOfTwo : list byte :=
  chunk "shdr"
    (shdrRecord "L" 0 4 1 3 44100 60 0 1 4
     ++ shdrRecord "R" 4 8 5 7 44100 60 0 0 2
     ++ shdrRecord "EOS" 0 0 0 0 0 0 0 0 0)%list.

Definition bankOfTwo : list byte :=
  riff (infoList ++ sdtaList
        ++ listChunk "pdta"
             (phdrChunk ++ pbagChunk ++ pgenChunk
              ++ instChunk ++ ibagChunk ++ igenChunk ++ shdrChunkOfTwo))%list.

Definition parsedOfTwo : SF2Data :=
  Eval vm_compute in
    match fst (SF2Parser.parse bankOfTwo) with
    | Ok d => d
    | _ => mkSF2Data SF2Parser.emptyInfo [] [] []
    end.

(** The name field of an instrument record. *)
Definition nameField : list byte := padded 20 "Piano".

(** A manager of capacity 2 holding two buffers, loaded at times 10 and 20. *)
Definition twoEntries : SampleManager.State :=
  SampleManager.mkState parsed
    [(0, SampleManager.mkCacheEntry click 10 4);
     (1, SampleManager.mkCacheEntry click 20 4)]
    2 8.

End ExampleBank.

(** ** Vocabulary of the properties *)

Module Spec.
Import SF2Parser.
Local Open Scope string_scope.
Local Open Scope Z_scope.

(** The container signature [parse] demands. *)
Definition signatureOk (view : DataView) : Prop :=
  readFourCC view 0 = Ok "RIFF" /\ readFourCC view 8 = Ok "sfbk".

(** The [pdta] list of the file is found and walked to its end, and holds
    no sub-chunk called [name]. *)
Definition subChunkAbsent (view : DataView) (name : string) : Prop :=
  exists chunks table,
    findChunks view = Ok chunks
    /\ subChunks view (PDTA chunks) = Ok table
    /\ getChunk table name = None.

(** The bounds check on the offsets of a sample header. *)
Definition withinBlock (start end_ blockLength : Z) : Prop :=
  0 <= start /\ start < end_ /\ end_ <= blockLength.

(** The invariant the design document gives for a sample record. *)
Definition loopInvariant (s : Sample) : Prop :=
  startLoop (header s) < endLoop (header s) /\ endLoop (header s) <= lengthZ (data s).

(** The empty, silent record that stands for a sample the parser could not
    cut out of the block. *)
Definition isPlaceholder (s : Sample) : Prop :=
  data s = []
  /\ sh_start (header s) = 0 /\ sh_end (header s) = 0
  /\ startLoop (header s) = 0 /\ endLoop (header s) = 0
  /\ pitchCorrection (header s) = 0.

(** The record of a header that passes the check: its PCM is the block
    between the offsets, and offsets and loop points are the header's. *)
Definition isCutFrom (smplData : list Z) (h : ParsedHeader) (s : Sample) : Prop :=
  data s = slice smplData (sh_start (ph_header h)) (sh_end (ph_header h))
  /\ lengthZ (data s) = sh_end (ph_header h) - sh_start (ph_header h)
  /\ sh_start (header s) = sh_start (ph_header h)
  /\ sh_end (header s) = sh_end (ph_header h)
  /\ startLoop (header s) = startLoop (ph_header h)
  /\ endLoop (header s) = endLoop (ph_header h).

(** How a sample record of the bank stands to the header it was read from:
    cut from the block when the header passes the bounds check, a
    placeholder with a warning on the console when it does not. *)
Definition sampleOf (smplData : list Z) (console : list string)
    (h : ParsedHeader) (s : Sample) : Prop :=
  let start := sh_start (ph_header h) in
  let end_ := sh_end (ph_header h) in
  (withinBlock start end_ (lengthZ smplData) /\ isCutFrom smplData h s)
  \/ (~ withinBlock start end_ (lengthZ smplData)
      /\ isPlaceholder s
      /\ exists i, In (invalidIndicesWarning i h (lengthZ smplData)) console).

(** Everything [parse] reads apart from cutting the samples out of the
    PCM block: the signature, the chunks, the INFO list, the sample headers
    and the block, the instruments and the presets, each with the errors it
    throws.  No step of it compares the offsets of a sample header with the
    block. *)
Definition parseAround (view : DataView)
    : Result (SF2Info * list ParsedHeader * list Z * list Instrument * list Preset) :=
  (_ <- validateRIFF view ;;
   chunks <- findChunks view ;;
   info <- parseINFO view (INFO chunks) ;;
   _ <- parseSDTA view (SDTA chunks) ;;
   located <- locateSamples view (PDTA chunks) ;;
   let '(table, sampleHeaders, smplData) := located in
   inst <- chunkProp table "inst" ;;
   ibag <- chunkProp table "ibag" ;;
   igen <- chunkProp table "igen" ;;
   instruments <- parseInstruments view inst ibag igen ;;
   phdr <- chunkProp table "phdr" ;;
   pbag <- chunkProp table "pbag" ;;
   pgen <- chunkProp table "pgen" ;;
   presets <- parsePresets view phdr pbag pgen instruments ;;
   Ok (info, sampleHeaders, smplData, instruments, presets))%result.

(** A cache within its capacity, with one entry per key. *)
Definition cacheWellFormed (st : SampleManager.State) : Prop :=
  0 < SampleManager.maxCacheSize st
  /\ SampleManager.cacheSize st <= SampleManager.maxCacheSize st
  /\ NoDup (map fst (SampleManager.cache st)).

(** [id] is the key of an entry no entry of the cache was accessed before. *)
Definition isOldest (c : SampleManager.Cache) (id : Z) : Prop :=
  exists entry,
    SampleManager.cacheGet c id = Some entry
    /\ forall id' entry', In (id', entry') c ->
         SampleManager.lastAccessed entry <= SampleManager.lastAccessed entry'.

(** An engine within its polyphony limit, over a well-formed cache. *)
Definition engineWellFormed (st : SoundEngine.State) : Prop :=
  0 < SoundEngine.maxPolyphony st
  /\ SoundEngine.totalVoices st <= SoundEngine.maxPolyphony st
  /\ cacheWellFormed (SoundEngine.sampleManager st).

(** Every voice sounding on [midiNote] is releasing. *)
Definition allReleasing (st : SoundEngine.State) (midiNote : Z) : Prop :=
  forall noteVoices,
    SoundEngine.voicesGet (SoundEngine.voices st) midiNote = Some noteVoices ->
    Forall (fun voice => isReleasing voice = true) noteVoices.

(** [offset] is where a top-level LIST chunk of type [type] starts, after
    the 12 bytes of the RIFF header. *)
Definition pointsAtList (view : DataView) (offset : Z) (type : string) : Prop :=
  12 <= offset
  /\ readFourCC view offset = Ok "LIST"
  /\ readFourCC view (offset + 8) = Ok type.

(** A signed 16-bit value. *)
Definition int16 (d : Z) : Prop := -32768 <= d <= 32767.

(** A generator as the file format types it: a pair of bytes for the two
    range generators, a signed 16-bit amount for every other. *)
Definition amountInRange (g : Generator) : Prop :=
  0 <= gtype g < 65536
  /\ match amount g with
     | Rng r =>
         (gtype g = 43 \/ gtype g = 44)
         /\ 0 <= low r <= 255 /\ 0 <= high r <= 255
     | Num n => gtype g <> 43 /\ gtype g <> 44 /\ int16 n
     end.

(** The two copies a zone keeps of its ranges and of its sample id agree. *)
Definition zoneCoherent (z : Zone) : Prop :=
  sampleId z = g_sampleID (generators z)
  /\ keyRange z = match g_keyRange (generators z) with
                  | Some r => r
                  | None => mkRange 0 127
                  end
  /\ velRange z = match g_velRange (generators z) with
                  | Some r => r
                  | None => mkRange 0 127
                  end.

(** A sample [validate] lets through. *)
Definition playable (s : Sample) : Prop :=
  data s <> [] /\ 0 < sampleRate (header s).

(** The bytes the entries of a cache stand for. *)
Fixpoint entriesSize (c : SampleManager.Cache) : Z :=
  match c with
  | [] => 0
  | (_, entry) :: rest => SampleManager.entrySize entry + entriesSize rest
  end.

(** The byte count the manager keeps is the sum over its entries, and every
    entry counts 4 bytes for each frame of its one-channel buffer. *)
Definition memoryAccounted (st : SampleManager.State) : Prop :=
  SampleManager.totalMemoryUsage st = entriesSize (SampleManager.cache st)
  /\ Forall
       (fun e =>
          SampleManager.entrySize (snd e)
          = 4 * SampleManager.bufferLength (SampleManager.buffer (snd e))
          /\ 0 < SampleManager.entrySize (snd e))
       (SampleManager.cache st).

(** A call of the manager that is awaited before the next one is made: the
    second half of a load does not run on its own. *)
Definition awaited (op : SampleManager.Op) : Prop :=
  match op with
  | SampleManager.AddToCache _ _ _ => False
  | _ => True
  end.

(** A frame of an [AudioBuffer] made from 16-bit PCM. *)
Definition normalised (x : R) : Prop := (-1 <= x < 1)%R.

(** The sustain set agrees with the registry: the registry has one list of
    voices for each key and none of them is empty, no note is in the set
    twice, and every note in the set has voices. *)
Definition sustainConsistent (st : SoundEngine.State) : Prop :=
  NoDup (map fst (SoundEngine.voices st))
  /\ (forall entry, In entry (SoundEngine.voices st) -> snd entry <> [])
  /\ NoDup (SoundEngine.sustainedNotes st)
  /\ (forall note, In note (SoundEngine.sustainedNotes st) ->
                   In note (map fst (SoundEngine.voices st))).

End Spec.

(** * Properties *)

Module PitchCalculatorFacts.
Import PitchCalculator.
Local Open Scope R_scope.

Lemma Rpower_2_0 : Rpower 2 0 = 1.
Proof. apply Rpower_O; lra. Qed.

Lemma adjustForSampleRate_ratio playbackRate sampleRate contextRate :
  contextRate <> 0 ->
  adjustForSampleRate playbackRate sampleRate contextRate
  = playbackRate * (sampleRate / contextRate).
Proof.
  intros Hc. unfold adjustForSampleRate.
  destruct (Req_dec_T sampleRate contextRate) as [->|Hne]; [|reflexivity].
  field. exact Hc.
Qed.

(** C1.  With a non-zero output rate, the playback rate is
    2^(((note - originalPitch)*100 + pitchCorrection + fineTune)/1200)
    times sampleRate / outputRate (source rate over output rate); and at the
    sample's own pitch, with no correction, no fine tune and equal rates, it
    is exactly 1. *)
Theorem calculatePlaybackRate_formula
    (ctx : AudioContext) (note : Z) (sample : Sample) (zone : Zone) :
  (contextSampleRate ctx <> 0 ->
   calculatePlaybackRate ctx note sample zone
   = Rpower 2
       (IZR ((note - originalPitch (header sample)) * 100
             + pitchCorrection (header sample)
             + orZero (fineTune (generators zone))) / 1200)
     * (IZR (sampleRate (header sample)) / contextSampleRate ctx))
  /\
  (note = originalPitch (header sample) ->
   pitchCorrection (header sample) = 0%Z ->
   orZero (fineTune (generators zone)) = 0%Z ->
   IZR (sampleRate (header sample)) = contextSampleRate ctx ->
   calculatePlaybackRate ctx note sample zone = 1).
Proof.
  split.
  - intros Hc. unfold calculatePlaybackRate.
    now rewrite adjustForSampleRate_ratio.
  - intros Hn Hp Hf Hr. unfold calculatePlaybackRate, adjustForSampleRate.
    rewrite Hn, Hp, Hf, Hr.
    destruct (Req_dec_T _ _) as [_|Hne]; [|now elim Hne].
    replace (_ / 1200) with 0.
    + apply Rpower_2_0.
    + rewrite Z.sub_diag. simpl. lra.
Qed.

(** The note a semitone above the sample's, through a 44.1 kHz context, is
    played at 2^(105/1200) * 48000/44100; the sample's own note through a
    48 kHz context at exactly 1. *)
Lemma calculatePlaybackRate_formula_witness :
  (contextSampleRate ExampleBank.context <> 0
   /\ calculatePlaybackRate ExampleBank.context 61 ExampleBank.sample48k ExampleBank.zoneFiveCents
      = Rpower 2 (105 / 1200) * (48000 / 44100))
  /\ (60%Z = originalPitch (header ExampleBank.sample48k)
      /\ pitchCorrection (header ExampleBank.sample48k) = 0%Z
      /\ orZero (fineTune (generators ExampleBank.zonePlain)) = 0%Z
      /\ IZR (sampleRate (header ExampleBank.sample48k)) = contextSampleRate ExampleBank.context48k
      /\ calculatePlaybackRate ExampleBank.context48k 60 ExampleBank.sample48k ExampleBank.zonePlain = 1).
Proof.
  assert (H44 : contextSampleRate ExampleBank.context <> 0) by (simpl; lra).
  split.
  - split; [exact H44|].
    exact (proj1 (calculatePlaybackRate_formula ExampleBank.context 61 ExampleBank.sample48k ExampleBank.zoneFiveCents) H44).
  - repeat split.
    exact (proj2 (calculatePlaybackRate_formula ExampleBank.context48k 60 ExampleBank.sample48k ExampleBank.zonePlain)
             eq_refl eq_refl eq_refl eq_refl).
Defined.

(** *** Semitones, positivity and the accuracy check *)

Lemma Rpower_2_pos x : 0 < Rpower 2 x.
Proof. unfold Rpower. apply exp_pos. Qed.

Lemma Rpower_2_1 : Rpower 2 1 = 2.
Proof. apply Rpower_1. lra. Qed.

Lemma totalCents_shift note k op pc ft :
  IZR ((note + k - op) * 100 + pc + ft) / 1200
  = IZR ((note - op) * 100 + pc + ft) / 1200 + IZR k / 12.
Proof.
  rewrite !plus_IZR, !mult_IZR, !minus_IZR, plus_IZR. field.
Qed.

Lemma adjustForSampleRate_scale c playbackRate sampleRate contextRate :
  adjustForSampleRate (c * playbackRate) sampleRate contextRate
  = c * adjustForSampleRate playbackRate sampleRate contextRate.
Proof.
  unfold adjustForSampleRate.
  destruct (Req_dec_T sampleRate contextRate); [reflexivity | ring].
Qed.

Lemma calculatePlaybackRate_shift ctx note k sample zone :
  calculatePlaybackRate ctx (note + k) sample zone
  = Rpower 2 (IZR k / 12) * calculatePlaybackRate ctx note sample zone.
Proof.
  unfold calculatePlaybackRate.
  rewrite totalCents_shift, Rpower_plus, <- adjustForSampleRate_scale.
  f_equal. ring.
Qed.

Lemma adjustForSampleRate_pos playbackRate sampleRate contextRate :
  0 < sampleRate -> 0 < contextRate -> 0 < playbackRate ->
  0 < adjustForSampleRate playbackRate sampleRate contextRate.
Proof.
  intros Hs Hc Hp. rewrite adjustForSampleRate_ratio by lra.
  apply Rmult_lt_0_compat; [exact Hp|]. now apply Rdiv_lt_0_compat.
Qed.

(** X2.  For a sample recorded at a positive rate and a context
    that runs at a positive rate, the playback rate is positive, and a
    higher note always gets a higher rate. *)
Theorem calculatePlaybackRate_positive_increasing
    (ctx : AudioContext) (note : Z) (sample : Sample) (zone : Zone) :
  0 < IZR (sampleRate (header sample)) ->
  0 < contextSampleRate ctx ->
  0 < calculatePlaybackRate ctx note sample zone
  /\ forall higher : Z, (note < higher)%Z ->
       calculatePlaybackRate ctx note sample zone
       < calculatePlaybackRate ctx higher sample zone.
Proof.
  intros Hs Hc.
  assert (Hpos : forall n, 0 < calculatePlaybackRate ctx n sample zone).
  { intros n. unfold calculatePlaybackRate.
    apply adjustForSampleRate_pos; [exact Hs | exact Hc | apply Rpower_2_pos]. }
  split; [apply Hpos|].
  intros higher Hlt.
  replace higher with (note + (higher - note))%Z by lia.
  rewrite calculatePlaybackRate_shift.
  rewrite <- (Rmult_1_l (calculatePlaybackRate ctx note sample zone)) at 1.
  apply Rmult_lt_compat_r; [apply Hpos|].
  rewrite <- Rpower_2_0. apply Rpower_lt; [lra|].
  apply Rdiv_lt_0_compat; [|lra]. apply IZR_lt. lia.
Qed.

(** The 48 kHz sample through the 44.1 kHz context: middle C has a positive
    rate, and the C sharp above it a higher one. *)
Lemma calculatePlaybackRate_positive_increasing_witness :
  0 < IZR (sampleRate (header ExampleBank.sample48k))
  /\ 0 < contextSampleRate ExampleBank.context
  /\ 0 < calculatePlaybackRate ExampleBank.context 60 ExampleBank.sample48k
           ExampleBank.zonePlain
  /\ calculatePlaybackRate ExampleBank.context 60 ExampleBank.sample48k
       ExampleBank.zonePlain
     < calculatePlaybackRate ExampleBank.context 61 ExampleBank.sample48k
         ExampleBank.zonePlain.
Proof.
  assert (Hs : 0 < IZR (sampleRate (header ExampleBank.sample48k))) by (simpl; lra).
  assert (Hc : 0 < contextSampleRate ExampleBank.context) by (simpl; lra).
  split; [exact Hs|]. split; [exact Hc|].
  pose proof (calculatePlaybackRate_positive_increasing ExampleBank.context 60
                ExampleBank.sample48k ExampleBank.zonePlain Hs Hc) as [Hpos Hinc].
  split; [exact Hpos|]. apply Hinc. lia.
Defined.

Lemma midiToFrequency_pos n : 0 < midiToFrequency n.
Proof.
  unfold midiToFrequency. apply Rmult_lt_0_compat; [lra | apply Rpower_2_pos].
Qed.

Lemma midiToFrequency_shift n k :
  midiToFrequency (n + k) = Rpower 2 (IZR k / 12) * midiToFrequency n.
Proof.
  unfold midiToFrequency.
  replace (IZR (n + k - 69) / 12) with (IZR k / 12 + IZR (n - 69) / 12)
    by (rewrite !minus_IZR, plus_IZR; field).
  rewrite Rpower_plus. ring.
Qed.

Lemma ln_2_pos : 0 < ln 2.
Proof. rewrite <- ln_1. apply ln_increasing; lra. Qed.

Lemma log2_Rpower x : ln (Rpower 2 x) / ln 2 = x.
Proof.
  unfold Rpower. rewrite ln_exp. field. pose proof ln_2_pos. lra.
Qed.

(** The frequency a sample is played at, against the frequency of the note. *)
Lemma played_over_target ctx note sample zone :
  contextSampleRate ctx <> 0 ->
  playbackRateToFrequency (calculatePlaybackRate ctx note sample zone)
    (originalPitch (header sample)) (sampleRate (header sample))
  = midiToFrequency note
    * (Rpower 2 (IZR (pitchCorrection (header sample)
                      + orZero (fineTune (generators zone))) / 1200)
       * (IZR (sampleRate (header sample)) / contextSampleRate ctx)).
Proof.
  intros Hc. unfold playbackRateToFrequency, calculatePlaybackRate.
  rewrite adjustForSampleRate_ratio by exact Hc.
  replace note with (originalPitch (header sample)
                     + (note - originalPitch (header sample)))%Z at 2 by lia.
  rewrite midiToFrequency_shift.
  set (f := midiToFrequency (originalPitch (header sample))).
  set (r := IZR (sampleRate (header sample)) / contextSampleRate ctx).
  replace (IZR ((note - originalPitch (header sample)) * 100
                + pitchCorrection (header sample)
                + orZero (fineTune (generators zone))) / 1200)
    with (IZR (note - originalPitch (header sample)) / 12
          + IZR (pitchCorrection (header sample)
                 + orZero (fineTune (generators zone))) / 1200)
    by (rewrite !plus_IZR, mult_IZR; field).
  rewrite Rpower_plus. ring.
Qed.

(** X3.  [validatePitchAccuracy] compares with 5 the cent error it has
    computed.  In exact arithmetic that error is pitchCorrection + fineTune
    + 1200 * log2(sampleRate / contextRate), whatever the note and the
    sample's own pitch are.  With positive rates and a rounding error of at
    most a twentieth of a cent: the check passes when this sum lies within 4.9
    cents of 0 and fails when it lies 5.1 cents or more from 0; with equal
    rates it passes when pitchCorrection + fineTune lies in -4..4 and fails
    when it lies outside -5..5.  At 5 cents the rounding decides. *)
Theorem validatePitchAccuracy_spec
    (ctx : AudioContext) (rounding : R) (note : Z) (sample : Sample) (zone : Zone) :
  0 < IZR (sampleRate (header sample)) ->
  0 < contextSampleRate ctx ->
  Rabs rounding <= 1 / 20 ->
  (Rabs (IZR (pitchCorrection (header sample)
              + orZero (fineTune (generators zone)))
         + 1200 * (ln (IZR (sampleRate (header sample))
                       / contextSampleRate ctx) / ln 2)) <= 49 / 10 ->
   validatePitchAccuracy ctx rounding note sample zone = true)
  /\ (51 / 10 <= Rabs (IZR (pitchCorrection (header sample)
                            + orZero (fineTune (generators zone)))
                       + 1200 * (ln (IZR (sampleRate (header sample))
                                     / contextSampleRate ctx) / ln 2)) ->
      validatePitchAccuracy ctx rounding note sample zone = false)
  /\ (IZR (sampleRate (header sample)) = contextSampleRate ctx ->
      ((-4 <= pitchCorrection (header sample)
              + orZero (fineTune (generators zone)) <= 4)%Z ->
       validatePitchAccuracy ctx rounding note sample zone = true)
      /\ ((pitchCorrection (header sample)
           + orZero (fineTune (generators zone)) < -5
           \/ 5 < pitchCorrection (header sample)
                  + orZero (fineTune (generators zone)))%Z ->
          validatePitchAccuracy ctx rounding note sample zone = false)).
Proof.
  intros Hs Hc Hround.
  pose proof (played_over_target ctx note sample zone) as Hplayed.
  specialize (Hplayed ltac:(lra)).
  set (corr := (pitchCorrection (header sample)
                + orZero (fineTune (generators zone)))%Z) in *.
  set (ratio := IZR (sampleRate (header sample)) / contextSampleRate ctx) in *.
  assert (Hratio : 0 < ratio) by (now apply Rdiv_lt_0_compat).
  assert (Hval : validatePitchAccuracy ctx rounding note sample zone
                 = if Rle_dec (Rabs (IZR corr + 1200 * (ln ratio / ln 2) + rounding)) 5
                   then true else false).
  { unfold validatePitchAccuracy. rewrite Hplayed.
    pose proof (midiToFrequency_pos note) as Hf.
    replace (midiToFrequency note * (Rpower 2 (IZR corr / 1200) * ratio)
             / midiToFrequency note)
      with (Rpower 2 (IZR corr / 1200) * ratio) by (field; lra).
    unfold log2.
    pose proof (Rpower_2_pos (IZR corr / 1200)) as Hp.
    destruct (Rlt_dec 0 (Rpower 2 (IZR corr / 1200) * ratio)) as [_|Hn];
      [|elim Hn; now apply Rmult_lt_0_compat].
    rewrite ln_mult by assumption.
    replace (1200 * ((ln (Rpower 2 (IZR corr / 1200)) + ln ratio) / ln 2))
      with (1200 * (ln (Rpower 2 (IZR corr / 1200)) / ln 2)
            + 1200 * (ln ratio / ln 2))
      by (field; pose proof ln_2_pos; lra).
    rewrite log2_Rpower.
    replace (1200 * (IZR corr / 1200)) with (IZR corr) by field.
    reflexivity. }
  rewrite Hval. clear Hval.
  set (exact := IZR corr + 1200 * (ln ratio / ln 2)).
  assert (Hnear : Rabs exact <= 49 / 10 ->
                  (if Rle_dec (Rabs (exact + rounding)) 5 then true else false) = true).
  { intros Habs. destruct (Rle_dec _ 5) as [_|Hn]; [reflexivity|]. exfalso. apply Hn.
    revert Habs Hround. unfold Rabs.
    destruct (Rcase_abs exact), (Rcase_abs rounding), (Rcase_abs (exact + rounding));
      lra. }
  assert (Hfar : 51 / 10 <= Rabs exact ->
                 (if Rle_dec (Rabs (exact + rounding)) 5 then true else false) = false).
  { intros Habs. destruct (Rle_dec _ 5) as [Hle|_]; [|reflexivity]. exfalso.
    revert Habs Hround Hle. unfold Rabs.
    destruct (Rcase_abs exact), (Rcase_abs rounding), (Rcase_abs (exact + rounding));
      lra. }
  split; [exact Hnear|]. split; [exact Hfar|].
  intros Heq.
  assert (H1 : ratio = 1) by (unfold ratio; rewrite Heq; field; lra).
  assert (Hexact : exact = IZR corr).
  { unfold exact. rewrite H1, ln_1. field. pose proof ln_2_pos. lra. }
  split.
  - intros [Hlo Hhi]. apply Hnear. rewrite Hexact.
    apply IZR_le in Hlo, Hhi. unfold Rabs. destruct (Rcase_abs (IZR corr)); lra.
  - intros Hout. apply Hfar. rewrite Hexact. unfold Rabs.
    destruct (Rcase_abs (IZR corr)), Hout as [Hlt|Hlt];
      [apply (Z.le_succ_l) in Hlt | apply (Z.le_succ_l) in Hlt
      | apply (Z.le_succ_l) in Hlt | apply (Z.le_succ_l) in Hlt];
      apply IZR_le in Hlt; rewrite ?succ_IZR in Hlt; lra.
Qed.

(** The 48 kHz sample through the 48 kHz context, tuned 3 cents up, passes
    the check an octave above its own pitch, with a rounding error of a
    twentieth of a cent. *)
Lemma validatePitchAccuracy_spec_witness :
  0 < IZR (sampleRate (header ExampleBank.sample48k))
  /\ 0 < contextSampleRate ExampleBank.context48k
  /\ Rabs (1 / 20) <= 1 / 20
  /\ validatePitchAccuracy ExampleBank.context48k (1 / 20) 72 ExampleBank.sample48k
       ExampleBank.zoneThreeCents = true.
Proof.
  assert (Hs : 0 < IZR (sampleRate (header ExampleBank.sample48k))) by (simpl; lra).
  assert (Hc : 0 < contextSampleRate ExampleBank.context48k) by (simpl; lra).
  assert (Hr : Rabs (1 / 20) <= 1 / 20) by (rewrite Rabs_pos_eq; lra).
  split; [exact Hs|]. split; [exact Hc|]. split; [exact Hr|].
  destruct (validatePitchAccuracy_spec ExampleBank.context48k (1 / 20) 72
              ExampleBank.sample48k ExampleBank.zoneThreeCents Hs Hc Hr)
    as (_ & _ & Hequal).
  apply Hequal; [reflexivity | cbn; lia].
Defined.

End PitchCalculatorFacts.

Module EnvelopeCalculatorFacts.
Import EnvelopeCalculator.
Local Open Scope R_scope.

Lemma timecentsToSeconds_0 : timecentsToSeconds 0 = 1.
Proof.
  unfold timecentsToSeconds. replace (0 / 1200) with 0 by lra.
  apply Rpower_O; lra.
Qed.

Lemma timecentsToSeconds_1200 : timecentsToSeconds 1200 = 2.
Proof.
  unfold timecentsToSeconds. replace (1200 / 1200) with 1 by lra.
  apply Rpower_1; lra.
Qed.

Lemma Rpower_2_minus_7 : Rpower 2 (- INR 7) = / 128.
Proof.
  rewrite Rpower_Ropp, Rpower_pow by lra. f_equal. simpl. lra.
Qed.

Lemma timecentsToSeconds_very_negative : timecentsToSeconds (-100000) < 0.01.
Proof.
  unfold timecentsToSeconds.
  apply Rlt_trans with (Rpower 2 (- INR 7)).
  - apply Rpower_lt; [lra|]. simpl. lra.
  - rewrite Rpower_2_minus_7. lra.
Qed.

Lemma calculateReleaseTime_clamp (timecents : R) :
  calculateReleaseTime (Some timecents)
  = Rmax 0.01 (Rmin 10 (Rpower 2 (timecents / 1200))).
Proof.
  unfold calculateReleaseTime, timecentsToSeconds.
  set (s := Rpower 2 (timecents / 1200)).
  destruct (Rlt_dec s 0.01) as [Hlo|Hlo].
  - rewrite Rmin_right by lra. now rewrite Rmax_left by lra.
  - destruct (Rgt_dec s 10) as [Hhi|Hhi].
    + rewrite Rmin_left by lra. now rewrite Rmax_right by lra.
    + rewrite Rmin_right by lra. now rewrite Rmax_right by lra.
Qed.

(** C5.  The release time of a timecents value is 2^(timecents/1200)
    seconds clamped to [0.01, 10]; an unset value gives 0.2 seconds; and
    0, 1200 and -100000 timecents give 1, 2 and 0.01 seconds. *)
Theorem calculateReleaseTime_spec :
  (forall timecents : R,
      calculateReleaseTime (Some timecents)
      = Rmax 0.01 (Rmin 10 (Rpower 2 (timecents / 1200)))
      /\ 0.01 <= calculateReleaseTime (Some timecents) <= 10)
  /\ calculateReleaseTime None = 0.2
  /\ calculateReleaseTime (Some 0) = 1
  /\ calculateReleaseTime (Some 1200) = 2
  /\ calculateReleaseTime (Some (-100000)) = 0.01.
Proof.
  repeat split.
  - apply calculateReleaseTime_clamp.
  - rewrite calculateReleaseTime_clamp. apply Rmax_l.
  - rewrite calculateReleaseTime_clamp. apply Rmax_lub; [lra | apply Rmin_l].
  - unfold calculateReleaseTime. rewrite timecentsToSeconds_0.
    destruct (Rlt_dec 1 0.01); [lra|]. destruct (Rgt_dec 1 10); [lra|]. reflexivity.
  - unfold calculateReleaseTime. rewrite timecentsToSeconds_1200.
    destruct (Rlt_dec 2 0.01); [lra|]. destruct (Rgt_dec 2 10); [lra|]. reflexivity.
  - unfold calculateReleaseTime.
    destruct (Rlt_dec _ _) as [_|H]; [reflexivity|].
    elim H. apply timecentsToSeconds_very_negative.
Qed.

(** *** Attack, hold and decay; the conversion itself *)

Lemma timecentsToSeconds_pos tc : 0 < timecentsToSeconds tc.
Proof. unfold timecentsToSeconds, Rpower. apply exp_pos. Qed.

Lemma timecentsToSeconds_le a b :
  a <= b -> timecentsToSeconds a <= timecentsToSeconds b.
Proof.
  intros H. unfold timecentsToSeconds. apply Rle_Rpower; lra.
Qed.

Lemma timecentsToSeconds_plus a b :
  timecentsToSeconds (a + b) = timecentsToSeconds a * timecentsToSeconds b.
Proof.
  unfold timecentsToSeconds. rewrite <- Rpower_plus. f_equal. field.
Qed.

Lemma timecentsToSeconds_octaves (n : nat) :
  timecentsToSeconds (1200 * INR n) = 2 ^ n
  /\ timecentsToSeconds (- (1200 * INR n)) = / 2 ^ n.
Proof.
  unfold timecentsToSeconds. split.
  - replace (1200 * INR n / 1200) with (INR n) by field.
    apply Rpower_pow. lra.
  - replace (- (1200 * INR n) / 1200) with (- INR n) by field.
    rewrite Rpower_Ropp, Rpower_pow by lra. reflexivity.
Qed.

Lemma calculateAttackTime_clamp tc :
  calculateAttackTime (Some tc) = Rmax 0.001 (Rmin 5 (timecentsToSeconds tc)).
Proof.
  unfold calculateAttackTime. set (s := timecentsToSeconds tc).
  destruct (Rlt_dec s 0.001) as [Hlo|Hlo].
  - rewrite Rmin_right by lra. now rewrite Rmax_left by lra.
  - destruct (Rgt_dec s 5) as [Hhi|Hhi].
    + rewrite Rmin_left by lra. now rewrite Rmax_right by lra.
    + rewrite Rmin_right by lra. now rewrite Rmax_right by lra.
Qed.

Lemma calculateDecayTime_clamp tc :
  calculateDecayTime (Some tc) = Rmax 0.001 (Rmin 10 (timecentsToSeconds tc)).
Proof.
  unfold calculateDecayTime. set (s := timecentsToSeconds tc).
  destruct (Rlt_dec s 0.001) as [Hlo|Hlo].
  - rewrite Rmin_right by lra. now rewrite Rmax_left by lra.
  - destruct (Rgt_dec s 10) as [Hhi|Hhi].
    + rewrite Rmin_left by lra. now rewrite Rmax_right by lra.
    + rewrite Rmin_right by lra. now rewrite Rmax_right by lra.
Qed.

(** The lower clamp of the hold time never applies: a power of 2 is
    positive. *)
Lemma calculateHoldTime_clamp tc :
  calculateHoldTime (Some tc) = Rmin 5 (timecentsToSeconds tc).
Proof.
  unfold calculateHoldTime. pose proof (timecentsToSeconds_pos tc) as Hpos.
  set (s := timecentsToSeconds tc) in *.
  destruct (Rlt_dec s 0) as [Hlo|Hlo]; [lra|].
  destruct (Rgt_dec s 5) as [Hhi|Hhi].
  - now rewrite Rmin_left by lra.
  - now rewrite Rmin_right by lra.
Qed.

Lemma clamp_bounds lo hi x : lo <= hi -> lo <= Rmax lo (Rmin hi x) <= hi.
Proof.
  intros H. split; [apply Rmax_l|]. apply Rmax_lub; [exact H | apply Rmin_l].
Qed.

Lemma clamp_le lo hi x y : x <= y -> Rmax lo (Rmin hi x) <= Rmax lo (Rmin hi y).
Proof.
  intros H. apply Rle_max_compat_l. apply Rle_min_compat_l. exact H.
Qed.

(** X4.  The attack time is 2^(timecents/1200) seconds clamped to
    [0.001, 5] and the decay time the same clamped to [0.001, 10].  The
    hold time is min(5, 2^(timecents/1200)), between 0 and 5: a power of 2
    is never below 0, so the clamp at 0 changes no value.  Unset values give
    0.001, 0 and 0.1 seconds. *)
Theorem envelope_times_clamped :
  (forall tc : R,
      calculateAttackTime (Some tc) = Rmax 0.001 (Rmin 5 (Rpower 2 (tc / 1200)))
      /\ 0.001 <= calculateAttackTime (Some tc) <= 5)
  /\ (forall tc : R,
        calculateHoldTime (Some tc) = Rmin 5 (Rpower 2 (tc / 1200))
        /\ 0 <= calculateHoldTime (Some tc) <= 5)
  /\ (forall tc : R,
        calculateDecayTime (Some tc) = Rmax 0.001 (Rmin 10 (Rpower 2 (tc / 1200)))
        /\ 0.001 <= calculateDecayTime (Some tc) <= 10)
  /\ calculateAttackTime None = 0.001
  /\ calculateHoldTime None = 0
  /\ calculateDecayTime None = 0.1.
Proof.
  split; [|split; [|split]].
  - intros tc. split; [apply calculateAttackTime_clamp|].
    rewrite calculateAttackTime_clamp. apply clamp_bounds. lra.
  - intros tc. split; [apply calculateHoldTime_clamp|].
    rewrite calculateHoldTime_clamp. pose proof (timecentsToSeconds_pos tc).
    split; [apply Rmin_glb; lra | apply Rmin_l].
  - intros tc. split; [apply calculateDecayTime_clamp|].
    rewrite calculateDecayTime_clamp. apply clamp_bounds. lra.
  - repeat split.
Qed.

(** X5.  A larger timecents value never gives a shorter time:
    the conversion and the release, attack, hold and decay times are
    monotone. *)
Theorem envelope_times_monotone (shorter longer : R) :
  shorter <= longer ->
  timecentsToSeconds shorter <= timecentsToSeconds longer
  /\ calculateReleaseTime (Some shorter) <= calculateReleaseTime (Some longer)
  /\ calculateAttackTime (Some shorter) <= calculateAttackTime (Some longer)
  /\ calculateHoldTime (Some shorter) <= calculateHoldTime (Some longer)
  /\ calculateDecayTime (Some shorter) <= calculateDecayTime (Some longer).
Proof.
  intros H. pose proof (timecentsToSeconds_le _ _ H) as Hle.
  split; [exact Hle|].
  rewrite !calculateReleaseTime_clamp, !calculateAttackTime_clamp,
    !calculateHoldTime_clamp, !calculateDecayTime_clamp.
  fold (timecentsToSeconds shorter) (timecentsToSeconds longer).
  split; [now apply clamp_le|]. split; [now apply clamp_le|].
  split; [now apply Rle_min_compat_l | now apply clamp_le].
Qed.

(** From the MEDIUM to the VERY_SLOW preset the release time does not
    shrink. *)
Lemma envelope_times_monotone_witness :
  PRESETS.MEDIUM <= PRESETS.VERY_SLOW
  /\ calculateReleaseTime (Some PRESETS.MEDIUM)
     <= calculateReleaseTime (Some PRESETS.VERY_SLOW).
Proof.
  assert (H : PRESETS.MEDIUM <= PRESETS.VERY_SLOW)
    by (unfold PRESETS.MEDIUM, PRESETS.VERY_SLOW; lra).
  split; [exact H|].
  exact (proj1 (proj2 (envelope_times_monotone _ _ H))).
Defined.

End EnvelopeCalculatorFacts.

Module SF2ParserFacts.
Import SF2Parser.
Local Open Scope string_scope.
Local Open Scope Z_scope.
Local Open Scope result_scope.

(** *** Reads *)

Lemma byteAt_Some view offset b :
  byteAt view offset = Some b -> 0 <= offset < byteLength view /\ 0 <= b < 256.
Proof.
  unfold byteAt.
  destruct (0 <=? offset) eqn:H0; [|discriminate].
  destruct (offset <? byteLength view) eqn:H1; [|discriminate].
  cbn [andb]. destruct (nth_error view (Z.to_nat offset)) as [x|]; [|discriminate].
  apply Z.leb_le in H0. apply Z.ltb_lt in H1.
  cbn [andb option_map]. intros [= <-]. split; [lia|].
  destruct x; vm_compute; split; congruence.
Qed.

Lemma getUint8_Ok view offset b :
  getUint8 view offset = Ok b -> 0 <= offset < byteLength view /\ 0 <= b < 256.
Proof.
  unfold getUint8. destruct (byteAt view offset) eqn:H; [|discriminate].
  intros [= <-]. now apply byteAt_Some.
Qed.

Lemma Ok_inj {A} (a b : A) : Ok a = Ok b -> a = b.
Proof. congruence. Qed.

Lemma getUint16_Ok view offset n :
  getUint16 view offset = Ok n ->
  0 <= offset /\ offset + 2 <= byteLength view /\ 0 <= n < 65536.
Proof.
  unfold getUint16.
  destruct (byteAt view offset) as [b0|] eqn:H0; [|discriminate].
  destruct (byteAt view (offset + 1)) as [b1|] eqn:H1; [|discriminate].
  intros E%Ok_inj. subst n.
  apply byteAt_Some in H0, H1. lia.
Qed.

Lemma getUint32_Ok view offset n :
  getUint32 view offset = Ok n ->
  0 <= offset /\ offset + 4 <= byteLength view /\ 0 <= n < 4294967296.
Proof.
  unfold getUint32.
  destruct (byteAt view offset) as [b0|] eqn:H0; [|discriminate].
  destruct (byteAt view (offset + 1)) as [b1|] eqn:H1; [|discriminate].
  destruct (byteAt view (offset + 2)) as [b2|] eqn:H2; [|discriminate].
  destruct (byteAt view (offset + 3)) as [b3|] eqn:H3; [|discriminate].
  intros E%Ok_inj. subst n.
  apply byteAt_Some in H0, H1, H2, H3. lia.
Qed.

Lemma bind_Ok {A B} (r : Result A) (k : A -> Result B) b :
  bind r k = Ok b -> exists a, r = Ok a /\ k a = Ok b.
Proof. destruct r; simpl; [eauto | discriminate | discriminate]. Qed.

Lemma bind_not_Diverge {A B} (r : Result A) (k : A -> Result B) :
  r <> Diverge -> (forall a, r = Ok a -> k a <> Diverge) -> bind r k <> Diverge.
Proof. destruct r; simpl; [eauto | discriminate | congruence]. Qed.

Lemma getUint8_total view offset : getUint8 view offset <> Diverge.
Proof. unfold getUint8. destruct (byteAt _ _); discriminate. Qed.

Lemma getInt8_total view offset : getInt8 view offset <> Diverge.
Proof.
  unfold getInt8. apply bind_not_Diverge; [apply getUint8_total | discriminate].
Qed.

Lemma getUint16_total view offset : getUint16 view offset <> Diverge.
Proof. unfold getUint16. repeat destruct (byteAt _ _); discriminate. Qed.

Lemma getUint32_total view offset : getUint32 view offset <> Diverge.
Proof. unfold getUint32. repeat destruct (byteAt _ _); discriminate. Qed.

Lemma readFourCC_total view offset : readFourCC view offset <> Diverge.
Proof.
  unfold readFourCC.
  repeat (apply bind_not_Diverge; [apply getUint8_total | intros ? _]).
  discriminate.
Qed.

Lemma readStringLoop_total view n : forall offset,
  readStringLoop view offset n <> Diverge.
Proof.
  induction n as [|n IH]; intros offset; simpl; [discriminate|].
  apply bind_not_Diverge; [apply getUint8_total | intros c _].
  destruct (c =? 0); [discriminate|].
  apply bind_not_Diverge; [apply IH | discriminate].
Qed.

Lemma readString_total view offset maxLength :
  readString view offset maxLength <> Diverge.
Proof. apply readStringLoop_total. Qed.

Create HintDb total.

#[local] Hint Resolve getUint8_total getInt8_total getUint16_total
  getUint32_total readFourCC_total readString_total : total.

(** Closes a goal [c <> Diverge] for a [c] built from reads and
    conditionals. *)
Ltac total :=
  repeat first
    [ progress auto with total
    | discriminate
    | apply bind_not_Diverge; [| intros ? ?]
    | match goal with
      | |- (if ?b then _ else _) <> Diverge => destruct b
      | |- (let '_ := ?x in _) <> Diverge => destruct x
      | |- match ?x with _ => _ end <> Diverge => destruct x eqn:?
      end ].

(** *** Record loops *)

(** [recordCount width k size] counts the turns of
    [for (let i = 0; i < size / width - k; i++)]: the loop runs for the [i]
    with [width * (i + k) < size]. *)
Lemma recordCount_spec width k size i :
  0 < width -> 0 <= k -> 0 <= size -> 0 <= i ->
  i < Z.of_nat (recordCount width k size) <-> width * (i + k) < size.
Proof.
  intros Hw Hk Hs Hi. unfold recordCount.
  assert (Hq : forall j, j <= (size - 1) / width <-> width * j < size).
  { intros j. split; intros H.
    - assert (width * j <= size - 1); [|lia].
      apply Z.le_trans with (width * ((size - 1) / width)); [nia|].
      apply Z.mul_div_le. lia.
    - apply Z.div_le_lower_bound; lia. }
  specialize (Hq (i + k)).
  lia.
Qed.

(** *** The loops end *)

Lemma findChunksLoop_total view : forall fuel chunks currentOffset,
  (Z.to_nat (byteLength view - currentOffset) < fuel)%nat ->
  findChunksLoop fuel view chunks currentOffset <> Diverge.
Proof.
  induction fuel as [|fuel IH]; intros chunks cur Hfuel; [lia|].
  simpl. destruct (cur <? byteLength view - 8); [|discriminate].
  apply bind_not_Diverge; [total | intros listID _].
  apply bind_not_Diverge; [total | intros listSize Hsize].
  apply bind_not_Diverge; [total | intros listType _].
  apply getUint32_Ok in Hsize. apply IH. lia.
Qed.

Lemma findChunks_total view : findChunks view <> Diverge.
Proof.
  unfold findChunks. apply bind_not_Diverge.
  - apply findChunksLoop_total. unfold byteLength. lia.
  - intros chunks _. total.
Qed.

Lemma parseINFOChunk_total view chunkID currentOffset chunkSize info :
  parseINFOChunk view chunkID currentOffset chunkSize info <> Diverge.
Proof. unfold parseINFOChunk. destruct info. total. Qed.

Lemma parseINFOLoop_total view endOffset : forall fuel currentOffset info,
  (Z.to_nat (byteLength view - currentOffset) < fuel)%nat ->
  parseINFOLoop fuel view endOffset currentOffset info <> Diverge.
Proof.
  induction fuel as [|fuel IH]; intros cur info Hfuel; [lia|].
  simpl. destruct (cur <? endOffset - 8); [|discriminate].
  apply bind_not_Diverge; [total | intros chunkID _].
  apply bind_not_Diverge; [total | intros chunkSize Hsize].
  apply bind_not_Diverge; [apply parseINFOChunk_total | intros info' _].
  apply getUint32_Ok in Hsize. apply IH. lia.
Qed.

Lemma parseINFO_total view offset : parseINFO view offset <> Diverge.
Proof.
  unfold parseINFO. apply bind_not_Diverge; [total | intros listSize Hsize].
  apply getUint32_Ok in Hsize.
  apply parseINFOLoop_total. unfold byteLength in *. lia.
Qed.

Lemma scanSubChunks_total view endOffset : forall fuel currentOffset chunks,
  (Z.to_nat (byteLength view - currentOffset) < fuel)%nat ->
  scanSubChunks fuel view endOffset currentOffset chunks <> Diverge.
Proof.
  induction fuel as [|fuel IH]; intros cur chunks Hfuel; [lia|].
  simpl. destruct (cur <? endOffset - 8); [|discriminate].
  apply bind_not_Diverge; [total | intros chunkID _].
  apply bind_not_Diverge; [total | intros chunkSize Hsize].
  apply getUint32_Ok in Hsize. apply IH. lia.
Qed.

Lemma subChunks_total view offset : subChunks view offset <> Diverge.
Proof.
  unfold subChunks. apply bind_not_Diverge; [total | intros listSize Hsize].
  apply getUint32_Ok in Hsize.
  apply scanSubChunks_total. unfold byteLength in *. lia.
Qed.

Lemma validateRIFF_total view : validateRIFF view <> Diverge.
Proof. unfold validateRIFF. total. Qed.

Lemma newInt16Array_total view byteOffset size :
  newInt16Array view byteOffset size <> Diverge.
Proof. unfold newInt16Array. total. Qed.

Lemma parseSDTA_total view offset : parseSDTA view offset <> Diverge.
Proof. unfold parseSDTA. pose proof newInt16Array_total. total. Qed.

Lemma checkRequired_total chunks required : checkRequired chunks required <> Diverge.
Proof.
  induction required as [|c rest IH]; simpl; [discriminate|].
  destruct (getChunk chunks c); [exact IH | discriminate].
Qed.

Lemma chunkProp_total chunks name : chunkProp chunks name <> Diverge.
Proof. unfold chunkProp. destruct (getChunk chunks name); discriminate. Qed.

Lemma parseSampleHeadersLoop_total view chunk n : forall i,
  parseSampleHeadersLoop view chunk i n <> Diverge.
Proof.
  induction n as [|n IH]; intros i; simpl; [discriminate|].
  pose proof (IH (i + 1)). total.
Qed.

Lemma parseBagsLoop_total view chunk n : forall i,
  parseBagsLoop view chunk i n <> Diverge.
Proof.
  induction n as [|n IH]; intros i; simpl; [discriminate|].
  pose proof (IH (i + 1)). total.
Qed.

Lemma parseGeneratorsLoop_total view chunk n : forall i,
  parseGeneratorsLoop view chunk i n <> Diverge.
Proof.
  induction n as [|n IH]; intros i; simpl; [discriminate|].
  pose proof (IH (i + 1)). total.
Qed.

Lemma zoneOfBag_total bags generators b : zoneOfBag bags generators b <> Diverge.
Proof. unfold zoneOfBag. total. Qed.

Lemma instrumentZonesLoop_total bags generators n : forall b,
  instrumentZonesLoop bags generators b n <> Diverge.
Proof.
  induction n as [|n IH]; intros b; simpl; [discriminate|].
  pose proof (IH (b + 1)). pose proof (zoneOfBag_total bags generators b). total.
Qed.

Lemma presetZonesLoop_total bags generators instruments n : forall b,
  presetZonesLoop bags generators instruments b n <> Diverge.
Proof.
  induction n as [|n IH]; intros b; simpl; [discriminate|].
  pose proof (IH (b + 1)). pose proof (zoneOfBag_total bags generators b). total.
Qed.

Lemma parseInstrumentsLoop_total view instChunk bags generators n : forall i,
  parseInstrumentsLoop view instChunk bags generators i n <> Diverge.
Proof.
  induction n as [|n IH]; intros i; simpl; [discriminate|].
  pose proof (IH (i + 1)).
  pose proof (instrumentZonesLoop_total bags generators). total.
Qed.

Lemma parsePresetsLoop_total view phdrChunk bags generators instruments n : forall i,
  parsePresetsLoop view phdrChunk bags generators instruments i n <> Diverge.
Proof.
  induction n as [|n IH]; intros i; simpl; [discriminate|].
  pose proof (IH (i + 1)).
  pose proof (presetZonesLoop_total bags generators instruments). total.
Qed.

#[local] Hint Resolve findChunks_total parseINFO_total subChunks_total
  validateRIFF_total newInt16Array_total parseSDTA_total checkRequired_total
  chunkProp_total parseSampleHeadersLoop_total parseBagsLoop_total
  parseGeneratorsLoop_total parseInstrumentsLoop_total parsePresetsLoop_total
  : total.

Lemma locateSamples_total view offset : locateSamples view offset <> Diverge.
Proof. unfold locateSamples, parseSampleHeaders. total. Qed.

Lemma parsePDTA_total view offset samples :
  fst (parsePDTA view offset samples) <> Diverge.
Proof.
  unfold parsePDTA. pose proof (locateSamples_total view offset).
  destruct (locateSamples view offset) as [[[chunks headers] smplData]| |];
    [|discriminate|congruence].
  destruct (extractSamples smplData 0 headers samples) as [samples' warnings].
  cbn [fst]. unfold parseInstruments, parsePresets, parseBags, parseGenerators.
  total.
Qed.

(** [parse] always comes to an end: it returns a bank or throws. *)
Lemma parse_total bytes : fst (parse bytes) <> Diverge.
Proof.
  unfold parse, parseBody.
  match goal with
  | |- context [match ?c with Ok _ => _ | Throw m => _ | Diverge => _ end] =>
      assert (Hc : c <> Diverge) by total; destruct c as [[[chunks info] samples]| |]
  end; [|discriminate|congruence].
  pose proof (parsePDTA_total bytes (PDTA chunks) samples) as Hp.
  destruct (parsePDTA bytes (PDTA chunks) samples) as [r console].
  cbn [fst] in *. destruct r; [discriminate|discriminate|congruence].
Qed.

(** *** What a successful parse went through *)

Ltac invert_bind :=
  repeat match goal with
    | H : bind _ _ = Ok _ |- _ =>
        let a := fresh "a" in
        let E := fresh "E" in
        apply bind_Ok in H; destruct H as (a & E & H)
    end.

Lemma parseSDTA_empty view offset l : parseSDTA view offset = Ok l -> l = [].
Proof.
  unfold parseSDTA. intros H. invert_bind.
  destruct (negb _); [discriminate|]. invert_bind. congruence.
Qed.

Lemma validateRIFF_Ok view : validateRIFF view = Ok tt -> Spec.signatureOk view.
Proof.
  unfold validateRIFF, Spec.signatureOk. intros H. invert_bind.
  destruct (a =? "RIFF")%string eqn:Hriff; [|discriminate].
  cbn [negb] in H. invert_bind.
  destruct (a1 =? "sfbk")%string eqn:Hsfbk; [|discriminate].
  apply String.eqb_eq in Hriff, Hsfbk. subst. now split.
Qed.

Lemma checkRequired_Ok chunks required :
  checkRequired chunks required = Ok tt ->
  forall name, In name required -> getChunk chunks name <> None.
Proof.
  induction required as [|c rest IH]; simpl; intros H name Hin; [contradiction|].
  destruct (getChunk chunks c) eqn:Hc; [|discriminate].
  destruct Hin as [<-|Hin]; [congruence | now apply IH].
Qed.

Lemma locateSamples_Ok view offset table headers smplData :
  locateSamples view offset = Ok (table, headers, smplData) ->
  subChunks view offset = Ok table
  /\ (forall name, In name requiredChunks -> getChunk table name <> None).
Proof.
  unfold locateSamples. intros H. invert_bind.
  destruct (_ >? _); [discriminate|]. invert_bind.
  injection H as <- <- <-. split; [assumption|].
  destruct a0. now apply checkRequired_Ok.
Qed.

(** The steps behind a bank [parse] returns. *)
Lemma parse_Ok bytes bank console :
  parse bytes = (Ok bank, console) ->
  exists chunks table headers smplData,
    validateRIFF bytes = Ok tt
    /\ findChunks bytes = Ok chunks
    /\ locateSamples bytes (PDTA chunks) = Ok (table, headers, smplData)
    /\ extractSamples smplData 0 headers [] = (samples bank, console).
Proof.
  unfold parse, parseBody.
  match goal with
  | |- context [match ?c with Ok _ => _ | Throw m => _ | Diverge => _ end] =>
      destruct c as [[[chunks info0] samples0]| |] eqn:Hprefix
  end; [|discriminate|discriminate].
  invert_bind. injection Hprefix as <- <- <-.
  apply parseSDTA_empty in E2. subst.
  unfold parsePDTA.
  destruct (locateSamples bytes (PDTA a0)) as [[[table headers] smplData]| |] eqn:Hloc;
    [|discriminate|discriminate].
  destruct (extractSamples smplData 0 headers []) as [samples' warnings] eqn:Hext.
  match goal with
  | |- context [(?r, warnings)] => destruct r as [bank'| |] eqn:Hrest
  end; [|discriminate|discriminate].
  cbn. intros [= <- <-].
  exists a0, table, headers, smplData. destruct a. repeat split; try assumption.
  match type of Hrest with
  | match ?c with _ => _ end = _ =>
      destruct c as [d| |] eqn:Hc; [|discriminate|discriminate]
  end.
  injection Hrest as ->. invert_bind.
  apply Ok_inj in E2, Hc. subst. exact Hext.
Qed.

(** *** C6 *)

(** C6.  For every byte buffer, [parse] throws, and so returns no bank,
    when the container signature is wrong or when one of the seven required
    sub-chunks (phdr, pbag, pgen, inst, ibag, igen, shdr) is absent from the
    pdta list; in particular when the sample-header chunk shdr is. *)
Theorem parse_rejects_malformed (bytes : list byte) :
  (~ Spec.signatureOk bytes
   \/ (exists name, In name requiredChunks /\ Spec.subChunkAbsent bytes name)
   -> exists message, fst (parse bytes) = Throw message)
  /\ (Spec.subChunkAbsent bytes "shdr"
      -> exists message, fst (parse bytes) = Throw message).
Proof.
  assert (Hgen : ~ Spec.signatureOk bytes
            \/ (exists name, In name requiredChunks /\ Spec.subChunkAbsent bytes name)
            -> exists message, fst (parse bytes) = Throw message).
  { intros Hbad.
    destruct (parse bytes) as [r console] eqn:Hparse.
    pose proof (parse_total bytes) as Htotal. rewrite Hparse in Htotal.
    cbn [fst] in *.
    destruct r as [bank|message|]; [exfalso | eauto | congruence].
    apply parse_Ok in Hparse.
    destruct Hparse as (chunks & table & headers & smplData & Hriff & Hfind & Hloc & _).
    destruct Hbad as [Hsig | (name & Hin & chunks' & table' & Hfind' & Hsub' & Habsent)].
    - apply Hsig. now apply validateRIFF_Ok.
    - apply locateSamples_Ok in Hloc. destruct Hloc as [Hsub Hall].
      rewrite Hfind in Hfind'. injection Hfind' as <-.
      rewrite Hsub in Hsub'. injection Hsub' as <-.
      now apply (Hall name). }
  split; [exact Hgen|].
  intros Habsent. apply Hgen. right. exists "shdr". split; [|assumption].
  simpl. tauto.
Qed.

(** The example bank parses; without its shdr chunk, and under the
    signature RIFX, it is rejected. *)
Lemma parse_rejects_malformed_witness :
  (exists bank, fst (parse ExampleBank.bank) = Ok bank)
  /\ (Spec.subChunkAbsent ExampleBank.bankWithoutShdr "shdr"
      /\ exists message, fst (parse ExampleBank.bankWithoutShdr) = Throw message)
  /\ (~ Spec.signatureOk ExampleBank.bankWithBadSignature
      /\ exists message, fst (parse ExampleBank.bankWithBadSignature) = Throw message).
Proof.
  assert (Habsent : Spec.subChunkAbsent ExampleBank.bankWithoutShdr "shdr").
  { unfold Spec.subChunkAbsent. eexists. eexists.
    split; [vm_compute; reflexivity|]. split; vm_compute; reflexivity. }
  assert (Hsig : ~ Spec.signatureOk ExampleBank.bankWithBadSignature).
  { intros [H _]. vm_compute in H. discriminate H. }
  split; [eexists; vm_compute; reflexivity|].
  split.
  - split; [exact Habsent|].
    exact (proj2 (parse_rejects_malformed ExampleBank.bankWithoutShdr) Habsent).
  - split; [exact Hsig|].
    exact (proj1 (parse_rejects_malformed ExampleBank.bankWithBadSignature)
             (or_introl Hsig)).
Defined.

(** *** C7 *)

Lemma invalidIndices_false start end_ len :
  invalidIndices start end_ len = false <-> Spec.withinBlock start end_ len.
Proof.
  unfold invalidIndices, Spec.withinBlock.
  rewrite !orb_false_iff, !Z.ltb_ge, !Z.geb_leb, !Z.gtb_ltb, !Z.leb_gt, Z.ltb_ge.
  lia.
Qed.

Lemma invalidIndices_true start end_ len :
  invalidIndices start end_ len = true <-> ~ Spec.withinBlock start end_ len.
Proof.
  rewrite <- invalidIndices_false. destruct (invalidIndices start end_ len); split;
    congruence.
Qed.

Lemma slice_length {A} (l : list A) start end_ :
  Spec.withinBlock start end_ (lengthZ l) ->
  lengthZ (slice l start end_) = end_ - start.
Proof.
  unfold Spec.withinBlock, slice, lengthZ. intros H.
  rewrite length_firstn, length_skipn. lia.
Qed.

Lemma extractSample_spec smplData i h :
  Spec.sampleOf smplData (snd (extractSample smplData i h)) h
    (fst (extractSample smplData i h)).
Proof.
  unfold extractSample, Spec.sampleOf.
  destruct (invalidIndices _ _ _) eqn:Hinv; cbn [fst snd].
  - right. apply invalidIndices_true in Hinv. split; [exact Hinv|].
    split; [unfold Spec.isPlaceholder; cbn; tauto|]. exists i. now left.
  - left. apply invalidIndices_false in Hinv. split; [exact Hinv|].
    unfold Spec.isCutFrom. cbn [data header sh_start sh_end startLoop endLoop].
    pose proof (slice_length smplData _ _ Hinv). tauto.
Qed.

Lemma sampleOf_more smplData console console' h s :
  incl console console' ->
  Spec.sampleOf smplData console h s -> Spec.sampleOf smplData console' h s.
Proof.
  intros Hincl [Hcut | (Hout & Hph & i & Hin)]; [now left | right].
  split; [exact Hout|]. split; [exact Hph|]. exists i. now apply Hincl.
Qed.

Lemma extractSamples_spec smplData : forall headers i acc samples' console,
  extractSamples smplData i headers acc = (samples', console) ->
  exists added,
    samples' = (acc ++ added)%list
    /\ Forall2 (Spec.sampleOf smplData console) headers added.
Proof.
  induction headers as [|h rest IH]; intros i acc samples' console; simpl.
  - intros [= <- <-]. exists []. now rewrite app_nil_r.
  - pose proof (extractSample_spec smplData i h) as Hone.
    destruct (extractSample smplData i h) as [sample warned].
    destruct (extractSamples smplData (i + 1) rest (acc ++ [sample]))
      as [samples'' warnings] eqn:Hrest.
    intros [= <- <-]. apply IH in Hrest. destruct Hrest as (added & -> & Hall).
    exists (sample :: added). split; [now rewrite <- app_assoc|].
    constructor.
    + eapply sampleOf_more; [|exact Hone]. now apply incl_appl.
    + eapply Forall2_impl; [|exact Hall].
      intros h' s'. apply sampleOf_more. now apply incl_appr.
Qed.

(** [parse] returns exactly when everything around the samples is read,
    and throws what that throws. *)
Lemma parse_parseAround bytes :
  match Spec.parseAround bytes with
  | Ok (info, headers, smplData, instruments, presets) =>
      parse bytes
      = (Ok (mkSF2Data info (fst (extractSamples smplData 0 headers []))
               presets instruments),
         snd (extractSamples smplData 0 headers []))
  | Throw message => fst (parse bytes) = Throw ("SF2 Parse Error: " ++ message)
  | Diverge => fst (parse bytes) = Diverge
  end.
Proof.
  unfold Spec.parseAround, parse, parseBody.
  destruct (validateRIFF bytes) as [[]| |]; cbn [bind fst]; try reflexivity.
  destruct (findChunks bytes) as [chunks| |]; cbn [bind fst]; try reflexivity.
  destruct (parseINFO bytes (INFO chunks)) as [info| |]; cbn [bind fst]; try reflexivity.
  destruct (parseSDTA bytes (SDTA chunks)) as [samples0| |] eqn:Hsdta;
    cbn [bind fst]; try reflexivity.
  apply parseSDTA_empty in Hsdta. subst samples0.
  unfold parsePDTA.
  destruct (locateSamples bytes (PDTA chunks)) as [[[table headers] smplData]| |];
    cbn [bind fst]; try reflexivity.
  destruct (extractSamples smplData 0 headers []) as [samples' warnings] eqn:Hext.
  cbn [fst snd].
  repeat match goal with
    | |- context [bind (chunkProp ?t ?n) _] =>
        destruct (chunkProp t n); cbn [bind fst]; try reflexivity
    | |- context [bind (parseInstruments ?a ?b ?c ?d) _] =>
        destruct (parseInstruments a b c d); cbn [bind fst]; try reflexivity
    | |- context [bind (parsePresets ?a ?b ?c ?d ?e) _] =>
        destruct (parsePresets a b c d e); cbn [bind fst]; try reflexivity
    end.
  rewrite Hext. reflexivity.
Qed.

(** C7, as the parser has it.  Whatever the offsets of the sample headers
    are, [parse] returns as soon as everything else of the file is read: a
    header that fails the check 0 <= start < end <= blockLength never makes
    it throw.  Every sample record of the bank returned stands for one
    header of the shdr chunk, in order.  A header whose offsets pass the
    check gives the PCM of the block between them, of length end - start,
    with the loop points copied from the header as they are.  A header that
    fails the check gives an empty placeholder, all offsets and loop points
    0, and a warning on the console.  And [parse] throws only what reading
    the rest of the file throws. *)
Theorem parse_samples_cut_or_placeholder (bytes : list byte) :
  (forall info headers smplData instruments presets,
      Spec.parseAround bytes = Ok (info, headers, smplData, instruments, presets) ->
      exists samples console,
        parse bytes = (Ok (mkSF2Data info samples presets instruments), console)
        /\ Forall2 (Spec.sampleOf smplData console) headers samples)
  /\ (forall bank console,
        parse bytes = (Ok bank, console) ->
        exists headers smplData,
          Spec.parseAround bytes
          = Ok (info bank, headers, smplData, instruments bank, presets bank)
          /\ Forall2 (Spec.sampleOf smplData console) headers (samples bank))
  /\ (forall message,
        Spec.parseAround bytes = Throw message ->
        fst (parse bytes) = Throw ("SF2 Parse Error: " ++ message)).
Proof.
  pose proof (parse_parseAround bytes) as H.
  split; [|split].
  - intros info headers smplData instruments presets Haround.
    rewrite Haround in H.
    destruct (extractSamples smplData 0 headers []) as [samples console] eqn:Hext.
    exists samples, console. split; [exact H|].
    apply extractSamples_spec in Hext.
    destruct Hext as (added & -> & Hall). exact Hall.
  - intros bank console Hparse.
    destruct (Spec.parseAround bytes)
      as [[[[[info headers] smplData] instruments] presets]|message|].
    + rewrite Hparse in H. injection H as -> ->.
      exists headers, smplData. split; [reflexivity|].
      destruct (extractSamples smplData 0 headers []) as [samples console] eqn:Hext.
      apply extractSamples_spec in Hext.
      destruct Hext as (added & -> & Hall). exact Hall.
    + rewrite Hparse in H. discriminate H.
    + rewrite Hparse in H. discriminate H.
  - intros message Haround. rewrite Haround in H. exact H.
Qed.

(** The example bank parses to [ExampleBank.parsed], with one warning for
    its third header. *)
Lemma parse_example :
  parse ExampleBank.bank
  = (Ok ExampleBank.parsed,
     ["Sample 2 (bad): Invalid indices (start=6, end=100, max=8)"]).
Proof. vm_compute. reflexivity. Qed.

(** The example bank: its third header fails the check, and the bank is
    returned with a placeholder and one warning. *)
Lemma parse_samples_cut_or_placeholder_witness :
  exists info headers smplData instruments presets,
    Spec.parseAround ExampleBank.bank
    = Ok (info, headers, smplData, instruments, presets)
    /\ Exists (fun h => ~ Spec.withinBlock (sh_start (ph_header h))
                          (sh_end (ph_header h)) (lengthZ smplData)) headers
    /\ parse ExampleBank.bank
       = (Ok ExampleBank.parsed,
          ["Sample 2 (bad): Invalid indices (start=6, end=100, max=8)"])
    /\ Forall2
         (Spec.sampleOf smplData
            ["Sample 2 (bad): Invalid indices (start=6, end=100, max=8)"])
         headers (samples ExampleBank.parsed).
Proof.
  do 5 eexists.
  match goal with
  | |- ?around /\ _ => assert (Haround : around) by (vm_compute; reflexivity)
  end.
  split; [exact Haround|].
  split.
  { apply Exists_cons_tl, Exists_cons_tl, Exists_cons_hd.
    unfold Spec.withinBlock. cbn. lia. }
  destruct (proj1 (parse_samples_cut_or_placeholder ExampleBank.bank)
              _ _ _ _ _ Haround)
    as (cut & console & Hparse & Hall).
  assert (Hexample : parse ExampleBank.bank
                     = (Ok ExampleBank.parsed,
                        ["Sample 2 (bad): Invalid indices (start=6, end=100, max=8)"]))
    by (vm_compute; reflexivity).
  split; [exact Hexample|].
  rewrite Hexample in Hparse.
  assert (Hcut : samples ExampleBank.parsed = cut).
  { apply (f_equal (fun r => match fst r with Ok b => samples b | _ => [] end)) in Hparse.
    exact Hparse. }
  assert (Hconsole : ["Sample 2 (bad): Invalid indices (start=6, end=100, max=8)"]
                     = console)
    by (apply (f_equal snd) in Hparse; exact Hparse).
  rewrite Hcut, Hconsole. exact Hall.
Defined.

(** The example bank parses, and two of its three sample records break
    loopStart < loopEnd <= pcm.length: the second, cut from the block
    [4, 8), keeps the loop points 5 and 7 of its header over 4 samples of
    PCM; the third, a placeholder, has both loop points at 0. *)
Lemma loop_invariant_counterexample :
  exists bank console s1 s2,
    parse ExampleBank.bank = (Ok bank, console)
    /\ nth_error (samples bank) 1 = Some s1
    /\ lengthZ (data s1) = 4 /\ startLoop (header s1) = 5 /\ endLoop (header s1) = 7
    /\ ~ Spec.loopInvariant s1
    /\ nth_error (samples bank) 2 = Some s2
    /\ Spec.isPlaceholder s2
    /\ ~ Spec.loopInvariant s2.
Proof.
  eexists. eexists. eexists. eexists.
  split; [apply parse_example|].
  split; [reflexivity|].
  split; [reflexivity|]. split; [reflexivity|]. split; [reflexivity|].
  split; [unfold Spec.loopInvariant; cbn; lia|].
  split; [reflexivity|].
  split; [repeat split|].
  unfold Spec.loopInvariant; cbn; lia.
Qed.

(** *** C10 *)

Lemma applyGenerator_keyRange zone gen :
  gtype gen <> 43 -> keyRange (applyGenerator zone gen) = keyRange zone.
Proof.
  intros Hne. unfold applyGenerator.
  destruct zone as [kr vr [gkr gvr gsid gpan gft grel] sid iid].
  destruct (gtype gen =? 43) eqn:H43; [apply Z.eqb_eq in H43; contradiction|].
  repeat match goal with
    | |- context [if ?b then _ else _] => destruct b
    end; destruct (amount gen); reflexivity.
Qed.

Lemma applyGenerator_velRange zone gen :
  gtype gen <> 44 -> velRange (applyGenerator zone gen) = velRange zone.
Proof.
  intros Hne. unfold applyGenerator.
  destruct zone as [kr vr [gkr gvr gsid gpan gft grel] sid iid].
  destruct (gtype gen =? 44) eqn:H44; [apply Z.eqb_eq in H44; contradiction|].
  repeat match goal with
    | |- context [if ?b then _ else _] => destruct b
    end; destruct (amount gen); reflexivity.
Qed.

Lemma fold_applyGenerator_keyRange generators : forall zone,
  (forall g, In g generators -> gtype g <> 43) ->
  keyRange (fold_left applyGenerator generators zone) = keyRange zone.
Proof.
  induction generators as [|g rest IH]; intros zone H; simpl; [reflexivity|].
  rewrite IH by (intros; apply H; now right).
  apply applyGenerator_keyRange, H. now left.
Qed.

Lemma fold_applyGenerator_velRange generators : forall zone,
  (forall g, In g generators -> gtype g <> 44) ->
  velRange (fold_left applyGenerator generators zone) = velRange zone.
Proof.
  induction generators as [|g rest IH]; intros zone H; simpl; [reflexivity|].
  rewrite IH by (intros; apply H; now right).
  apply applyGenerator_velRange, H. now left.
Qed.

(** C10.  A zone built from generators with no key-range generator (type
    43) has the key range [0, 127], and one built with no velocity-range
    generator (type 44) the velocity range [0, 127]; so a zone of the first
    preset built with neither is selected for every note and every velocity
    in 0..127. *)
Theorem default_ranges_match_all (generators : list Generator) :
  ((forall g, In g generators -> gtype g <> 43) ->
   keyRange (buildZone generators) = mkRange 0 127)
  /\ ((forall g, In g generators -> gtype g <> 44) ->
      velRange (buildZone generators) = mkRange 0 127)
  /\ ((forall g, In g generators -> gtype g <> 43 /\ gtype g <> 44) ->
      forall (sf2Data : SF2Data) (first : Preset) (others : list Preset)
             (midiNote velocity : Z),
        presets sf2Data = first :: others ->
        In (buildZone generators) (presetZones first) ->
        0 <= midiNote <= 127 -> 0 <= velocity <= 127 ->
        SoundEngine.zoneMatches midiNote velocity (buildZone generators) = true
        /\ In (buildZone generators)
             (SoundEngine.selectZones sf2Data midiNote velocity)).
Proof.
  assert (Hkey : (forall g, In g generators -> gtype g <> 43) ->
                 keyRange (buildZone generators) = mkRange 0 127).
  { intros H. unfold buildZone. now rewrite fold_applyGenerator_keyRange. }
  assert (Hvel : (forall g, In g generators -> gtype g <> 44) ->
                 velRange (buildZone generators) = mkRange 0 127).
  { intros H. unfold buildZone. now rewrite fold_applyGenerator_velRange. }
  split; [exact Hkey|]. split; [exact Hvel|].
  intros H sf2Data first others midiNote velocity Hpresets Hin Hnote Hvelocity.
  assert (Hmatch : SoundEngine.zoneMatches midiNote velocity (buildZone generators) = true).
  { unfold SoundEngine.zoneMatches.
    rewrite Hkey, Hvel by (intros g Hg; now apply H). cbn [low high].
    rewrite !andb_true_iff, !Z.geb_leb, !Z.leb_le. lia. }
  split; [exact Hmatch|].
  unfold SoundEngine.selectZones. rewrite Hpresets.
  apply filter_In. now split.
Qed.

(** The left zone of the example bank carries a pan and a sample id only;
    parsed, it is selected for note 0 at velocity 0 and for note 127 at
    velocity 127. *)
Lemma default_ranges_match_all_witness :
  (forall g, In g ExampleBank.leftGenerators -> gtype g <> 43 /\ gtype g <> 44)
  /\ keyRange (buildZone ExampleBank.leftGenerators) = mkRange 0 127
  /\ velRange (buildZone ExampleBank.leftGenerators) = mkRange 0 127
  /\ In (buildZone ExampleBank.leftGenerators)
       (SoundEngine.selectZones ExampleBank.parsed 0 0)
  /\ In (buildZone ExampleBank.leftGenerators)
       (SoundEngine.selectZones ExampleBank.parsed 127 127).
Proof.
  assert (H : forall g, In g ExampleBank.leftGenerators ->
                        gtype g <> 43 /\ gtype g <> 44).
  { intros g [<-|[<-|[]]]; split; discriminate. }
  pose proof (default_ranges_match_all ExampleBank.leftGenerators) as (Hk & Hv & Hsel).
  split; [exact H|].
  split; [apply Hk; intros g Hg; apply (H g Hg)|].
  split; [apply Hv; intros g Hg; apply (H g Hg)|].
  split.
  - refine (proj2 (Hsel H ExampleBank.parsed _ _ 0 0 eq_refl _ _ _)).
    + left. reflexivity.
    + lia.
    + lia.
  - refine (proj2 (Hsel H ExampleBank.parsed _ _ 127 127 eq_refl _ _ _)).
    + left. reflexivity.
    + lia.
    + lia.
Defined.


(** *** Every input is answered *)

Lemma readFourCC_Ok view offset s :
  readFourCC view offset = Ok s -> 0 <= offset /\ offset + 4 <= byteLength view.
Proof.
  unfold readFourCC. intros H. invert_bind.
  apply getUint8_Ok in E, E2. lia.
Qed.

(** X6.  [parse] answers every byte buffer: its loops over chunks end
    whatever sizes the file declares, and it either returns a bank or throws
    an error whose message starts with "SF2 Parse Error: ".  A buffer of
    fewer than 12 bytes, the empty one included, is rejected. *)
Theorem parse_returns_or_throws (bytes : list byte) :
  ((exists bank, fst (parse bytes) = Ok bank)
   \/ (exists message,
         fst (parse bytes) = Throw ("SF2 Parse Error: " ++ message)))
  /\ (byteLength bytes < 12 -> exists message, fst (parse bytes) = Throw message).
Proof.
  split.
  - pose proof (parse_total bytes) as Htotal. unfold parse in *.
    destruct (parseBody bytes) as [r console]. cbn [fst] in *.
    destruct r as [bank|message|]; [left; eauto | right; eauto | congruence].
  - intros Hshort. pose proof (parse_total bytes) as Htotal.
    destruct (parse bytes) as [r console] eqn:Hparse. cbn [fst] in *.
    destruct r as [bank|message|]; [exfalso | eauto | congruence].
    apply parse_Ok in Hparse.
    destruct Hparse as (chunks & table & headers & smplData & Hriff & _).
    apply validateRIFF_Ok in Hriff. destruct Hriff as [_ Hsfbk].
    apply readFourCC_Ok in Hsfbk. lia.
Qed.

(** The empty buffer is rejected. *)
Lemma parse_returns_or_throws_witness :
  byteLength [] < 12 /\ exists message, fst (parse []) = Throw message.
Proof.
  assert (H : byteLength [] < 12) by (cbn; lia).
  split; [exact H|].
  exact (proj2 (parse_returns_or_throws []) H).
Defined.

(** *** findChunks *)

Lemma findChunksLoop_located view : forall fuel chunks currentOffset found,
  12 <= currentOffset ->
  (INFO chunks = -1 \/ Spec.pointsAtList view (INFO chunks) "INFO") ->
  (SDTA chunks = -1 \/ Spec.pointsAtList view (SDTA chunks) "sdta") ->
  (PDTA chunks = -1 \/ Spec.pointsAtList view (PDTA chunks) "pdta") ->
  findChunksLoop fuel view chunks currentOffset = Ok found ->
  (INFO found = -1 \/ Spec.pointsAtList view (INFO found) "INFO")
  /\ (SDTA found = -1 \/ Spec.pointsAtList view (SDTA found) "sdta")
  /\ (PDTA found = -1 \/ Spec.pointsAtList view (PDTA found) "pdta").
Proof.
  induction fuel as [|fuel IH]; intros chunks cur found Hcur Hi Hs Hp; simpl;
    [discriminate|].
  destruct (cur <? byteLength view - 8); [|intros [= <-]; tauto].
  intros H. invert_bind.
  rename a into listID, a0 into listSize, a1 into listType.
  pose proof (getUint32_Ok _ _ _ E0) as Hsize.
  revert H. apply IH; [lia | | |].
  - destruct (listID =? "LIST")%string eqn:Hid; [|exact Hi].
    destruct (listType =? "INFO")%string eqn:Hty.
    + right. apply String.eqb_eq in Hid, Hty. subst. cbn [INFO].
      unfold Spec.pointsAtList. tauto.
    + destruct (listType =? "sdta")%string; [exact Hi|].
      destruct (listType =? "pdta")%string; exact Hi.
  - destruct (listID =? "LIST")%string eqn:Hid; [|exact Hs].
    destruct (listType =? "INFO")%string eqn:Hty; [exact Hs|].
    destruct (listType =? "sdta")%string eqn:Hty'.
    + right. apply String.eqb_eq in Hid, Hty'. subst. cbn [SDTA].
      unfold Spec.pointsAtList. tauto.
    + destruct (listType =? "pdta")%string; exact Hs.
  - destruct (listID =? "LIST")%string eqn:Hid; [|exact Hp].
    destruct (listType =? "INFO")%string eqn:Hty; [exact Hp|].
    destruct (listType =? "sdta")%string eqn:Hty'; [exact Hp|].
    destruct (listType =? "pdta")%string eqn:Hty''; [|exact Hp].
    right. apply String.eqb_eq in Hid, Hty''. subst. cbn [PDTA].
    unfold Spec.pointsAtList. tauto.
Qed.

(** X7.  The three offsets [findChunks] returns each point, at or
    after byte 12, at a chunk whose id reads LIST and whose type reads INFO,
    sdta and pdta. *)
Theorem findChunks_points_at_lists (view : DataView) (chunks : Chunks) :
  findChunks view = Ok chunks ->
  Spec.pointsAtList view (INFO chunks) "INFO"
  /\ Spec.pointsAtList view (SDTA chunks) "sdta"
  /\ Spec.pointsAtList view (PDTA chunks) "pdta".
Proof.
  unfold findChunks. intros H. invert_bind.
  apply findChunksLoop_located in E; cbn [INFO SDTA PDTA]; [|lia|tauto|tauto|tauto].
  destruct E as (Hi & Hs & Hp).
  destruct (INFO a =? -1) eqn:Ei; [discriminate|].
  destruct (SDTA a =? -1) eqn:Es; [discriminate|].
  destruct (PDTA a =? -1) eqn:Ep; [discriminate|].
  injection H as <-.
  apply Z.eqb_neq in Ei, Es, Ep. tauto.
Qed.

(** In the example bank the three lists start at bytes 12, 36 and 72. *)
Lemma findChunks_points_at_lists_witness :
  findChunks ExampleBank.bank = Ok (mkChunks 12 36 72)
  /\ Spec.pointsAtList ExampleBank.bank 12 "INFO"
  /\ Spec.pointsAtList ExampleBank.bank 36 "sdta"
  /\ Spec.pointsAtList ExampleBank.bank 72 "pdta".
Proof.
  assert (H : findChunks ExampleBank.bank = Ok (mkChunks 12 36 72))
    by (vm_compute; reflexivity).
  split; [exact H|].
  exact (findChunks_points_at_lists _ _ H).
Defined.

(** *** Generators and zones *)

Lemma land_255 n : 0 <= Z.land n 255 <= 255.
Proof.
  assert (H : Z.land n 255 = n mod 256)
    by (change 255 with (Z.ones 8); now rewrite Z.land_ones by lia).
  rewrite H. pose proof (Z.mod_pos_bound n 256 ltac:(lia)). lia.
Qed.

Lemma parseGeneratorsLoop_amounts view chunk n : forall i generators,
  parseGeneratorsLoop view chunk i n = Ok generators ->
  Forall Spec.amountInRange generators /\ List.length generators = n.
Proof.
  induction n as [|n IH]; intros i generators; simpl.
  - intros [= <-]. split; [constructor | reflexivity].
  - intros H. invert_bind. injection H as <-.
    apply IH in E1. destruct E1 as [Hall Hlen].
    apply getUint16_Ok in E, E0.
    split; [|simpl; now rewrite Hlen].
    constructor; [|exact Hall].
    unfold Spec.amountInRange, Spec.int16.
    destruct ((a =? 43) || (a =? 44)) eqn:Hrange; cbn [gtype amount low high].
    + apply orb_true_iff in Hrange. rewrite !Z.eqb_eq in Hrange.
      pose proof (land_255 a0). pose proof (land_255 (Z.shiftr a0 8)). lia.
    + apply orb_false_iff in Hrange. rewrite !Z.eqb_neq in Hrange.
      destruct (a0 >? 32767) eqn:Hsign; [apply Z.gtb_lt in Hsign | rewrite Z.gtb_ltb in Hsign; apply Z.ltb_ge in Hsign]; lia.
Qed.

(** X8.  [parseGenerators] returns one generator for every 4
    bytes of the chunk.  A generator of type 43 or 44 carries a range of two
    bytes, each in 0..255; every other carries a signed 16-bit number,
    -32768..32767; no other combination is produced. *)
Theorem parseGenerators_amounts
    (view : DataView) (chunk : Chunk) (generators : list Generator) :
  parseGenerators view chunk = Ok generators ->
  Forall Spec.amountInRange generators
  /\ List.length generators = recordCount 4 0 (size chunk).
Proof. apply parseGeneratorsLoop_amounts. Qed.

(** The eight generators of the igen chunk of the example bank. *)
Lemma parseGenerators_amounts_witness :
  exists generators,
    parseGenerators ExampleBank.bank (mkChunk 280 32) = Ok generators
    /\ Forall Spec.amountInRange generators
    /\ List.length generators = 8%nat.
Proof.
  eexists. 
  assert (H : parseGenerators ExampleBank.bank (mkChunk 280 32)
              = Ok [mkGenerator 17 (Num (-500)); mkGenerator 53 (Num 0);
                    mkGenerator 43 (Rng (mkRange 21 108));
                    mkGenerator 44 (Rng (mkRange 1 127));
                    mkGenerator 17 (Num 500); mkGenerator 38 (Num (-1200));
                    mkGenerator 53 (Num 1); mkGenerator 0 (Num 0)])
    by (vm_compute; reflexivity).
  split; [exact H|].
  exact (parseGenerators_amounts _ _ _ H).
Defined.

Lemma applyGenerator_coherent zone gen :
  Spec.zoneCoherent zone -> Spec.zoneCoherent (applyGenerator zone gen).
Proof.
  unfold Spec.zoneCoherent, applyGenerator.
  destruct zone as [kr vr [gkr gvr gsid gpan gft grel] sid iid].
  cbn [sampleId keyRange velRange generators g_sampleID g_keyRange g_velRange].
  intros (Hs & Hk & Hv).
  repeat match goal with
    | |- context [if ?b then _ else _] => destruct b
    end;
    destruct (amount gen);
    cbn [sampleId keyRange velRange generators g_sampleID g_keyRange g_velRange];
    auto.
Qed.

Lemma fold_applyGenerator_coherent generators : forall zone,
  Spec.zoneCoherent zone ->
  Spec.zoneCoherent (fold_left applyGenerator generators zone).
Proof.
  induction generators as [|g rest IH]; intros zone H; simpl; [exact H|].
  apply IH. now apply applyGenerator_coherent.
Qed.

Lemma buildZone_last generators gen :
  buildZone (generators ++ [gen]) = applyGenerator (buildZone generators) gen.
Proof. unfold buildZone. now rewrite fold_left_app. Qed.

(** X9.  A zone keeps its key range, velocity range and sample id
    twice, on the zone and in its generator map; [buildZone] keeps the two
    copies equal, a range that no generator sets being [0, 127].  The last
    range or sample-id generator of a list is the one that counts, and a
    numeric generator of a type other than 17, 52, 38, 53 and 41 changes
    nothing. *)
Theorem buildZone_bookkeeping (generators : list Generator) :
  Spec.zoneCoherent (buildZone generators)
  /\ (forall r : Range,
        keyRange (buildZone (generators ++ [mkGenerator 43 (Rng r)])) = r)
  /\ (forall r : Range,
        velRange (buildZone (generators ++ [mkGenerator 44 (Rng r)])) = r)
  /\ (forall a : Z,
        sampleId (buildZone (generators ++ [mkGenerator 53 (Num a)])) = Some a)
  /\ (forall type (a : Z),
        buildZone (generators ++ [mkGenerator type (Num a)]) = buildZone generators
        \/ In type [17; 52; 38; 53; 41]).
Proof.
  split.
  { unfold buildZone. apply fold_applyGenerator_coherent.
    unfold Spec.zoneCoherent. cbn. tauto. }
  split; [|split; [|split]].
  - intros r. rewrite buildZone_last.
    destruct (buildZone generators) as [kr vr [gkr gvr gsid gpan gft grel] sid iid].
    reflexivity.
  - intros r. rewrite buildZone_last.
    destruct (buildZone generators) as [kr vr [gkr gvr gsid gpan gft grel] sid iid].
    reflexivity.
  - intros a. rewrite buildZone_last.
    destruct (buildZone generators) as [kr vr [gkr gvr gsid gpan gft grel] sid iid].
    reflexivity.
  - intros type a. rewrite buildZone_last.
    destruct (buildZone generators) as [kr vr [gkr gvr gsid gpan gft grel] sid iid].
    unfold applyGenerator. cbn [gtype amount].
    destruct (type =? 43) eqn:E43; [now left|].
    destruct (type =? 44) eqn:E44; [now left|].
    destruct (type =? 17) eqn:E17; [apply Z.eqb_eq in E17; subst; right; simpl; tauto|].
    destruct (type =? 52) eqn:E52; [apply Z.eqb_eq in E52; subst; right; simpl; tauto|].
    destruct (type =? 38) eqn:E38; [apply Z.eqb_eq in E38; subst; right; simpl; tauto|].
    destruct (type =? 53) eqn:E53; [apply Z.eqb_eq in E53; subst; right; simpl; tauto|].
    destruct (type =? 41) eqn:E41; [apply Z.eqb_eq in E41; subst; right; simpl; tauto|].
    now left.
Qed.

(** *** The samples of a bank *)

Lemma parseSampleHeadersLoop_length view chunk n : forall i headers,
  parseSampleHeadersLoop view chunk i n = Ok headers -> List.length headers = n.
Proof.
  induction n as [|n IH]; intros i headers; simpl.
  - now intros [= <-].
  - intros H. invert_bind. injection H as <-. simpl. f_equal.
    eapply IH. eassumption.
Qed.

Lemma to_N_bounded b : 0 <= Z.of_N (Byte.to_N b) < 256.
Proof. destruct b; vm_compute; split; congruence. Qed.

Lemma decodeInt16_int16 : forall n bytes,
  (List.length bytes <= n)%nat -> Forall Spec.int16 (decodeInt16 bytes).
Proof.
  induction n as [|n IH]; intros bytes Hlen.
  - destruct bytes; [constructor | simpl in Hlen; lia].
  - destruct bytes as [|b0 [|b1 rest]]; try constructor.
    + pose proof (to_N_bounded b0). pose proof (to_N_bounded b1).
      unfold Spec.int16.
      destruct (_ >? 32767) eqn:Hsign;
        [apply Z.gtb_lt in Hsign | rewrite Z.gtb_ltb in Hsign; apply Z.ltb_ge in Hsign];
        lia.
    + apply IH. simpl in Hlen. lia.
Qed.

Lemma Forall_slice {A} (P : A -> Prop) (l : list A) start end_ :
  Forall P l -> Forall P (slice l start end_).
Proof.
  intros H. unfold slice.
  rewrite <- (firstn_skipn (Z.to_nat start) l) in H.
  apply Forall_app in H. destruct H as [_ H].
  rewrite <- (firstn_skipn (Z.to_nat (end_ - start)) (skipn (Z.to_nat start) l)) in H.
  apply Forall_app in H. tauto.
Qed.

Lemma locateSamples_headers view offset table headers smplData :
  locateSamples view offset = Ok (table, headers, smplData) ->
  exists shdr,
    getChunk table "shdr" = Some shdr
    /\ parseSampleHeaders view shdr = Ok headers
    /\ Forall Spec.int16 smplData.
Proof.
  unfold locateSamples. intros H. invert_bind.
  destruct (_ >? _); [discriminate|]. invert_bind.
  injection H as <- <- <-.
  unfold chunkProp in E1. destruct (getChunk a "shdr") as [shdr|] eqn:Hshdr;
    [|discriminate].
  injection E1 as <-. exists shdr. split; [reflexivity|]. split; [assumption|].
  unfold newInt16Array in E5.
  destruct (negb _); [discriminate|]. destruct (_ >? _); [discriminate|].
  injection E5 as <-. eapply decodeInt16_int16. reflexivity.
Qed.

Lemma extractSamples_console smplData : forall headers i acc samples' console,
  extractSamples smplData i headers acc = (samples', console) ->
  (List.length console <= List.length headers)%nat
  /\ exists added,
       samples' = (acc ++ added)%list
       /\ List.length added = List.length headers
       /\ (Forall (fun s => data s <> []) added -> console = [])
       /\ (Forall Spec.int16 smplData ->
           Forall (fun s => Forall Spec.int16 (data s)) added).
Proof.
  induction headers as [|h rest IH]; intros i acc samples' console; simpl.
  - intros [= <- <-]. split; [simpl; lia|]. exists []. rewrite app_nil_r.
    repeat split; auto.
  - unfold extractSample.
    destruct (invalidIndices _ _ _) eqn:Hinv;
      destruct (extractSamples smplData (i + 1) rest _) as [samples'' warnings] eqn:Hrest;
      intros [= <- <-]; apply IH in Hrest;
      destruct Hrest as (Hlen & added & -> & Hadded & Hquiet & Hint).
    + split; [simpl; lia|].
      eexists (_ :: added). split; [now rewrite <- app_assoc|].
      split; [simpl; now rewrite Hadded|]. split.
      * intros Hall. inversion Hall as [|? ? Hdata _]. now elim Hdata.
      * intros Hs. constructor; [constructor | now apply Hint].
    + split; [simpl; lia|].
      eexists (_ :: added). split; [now rewrite <- app_assoc|].
      split; [simpl; now rewrite Hadded|]. split.
      * intros Hall. inversion Hall as [|? ? _ Hall']. simpl. now apply Hquiet.
      * intros Hs. constructor; [|now apply Hint].
        cbn [data]. now apply Forall_slice.
Qed.

(** What [parse] made the samples of a bank from. *)
Lemma parse_samples bytes bank console :
  parse bytes = (Ok bank, console) ->
  exists chunks table shdr headers,
    findChunks bytes = Ok chunks
    /\ subChunks bytes (PDTA chunks) = Ok table
    /\ getChunk table "shdr" = Some shdr
    /\ parseSampleHeaders bytes shdr = Ok headers
    /\ List.length (samples bank) = List.length headers
    /\ (List.length console <= List.length headers)%nat
    /\ (Forall (fun s => data s <> []) (samples bank) -> console = [])
    /\ Forall (fun s => Forall Spec.int16 (data s)) (samples bank).
Proof.
  intros H. apply parse_Ok in H.
  destruct H as (chunks & table & headers & smplData & _ & Hfind & Hloc & Hext).
  pose proof (locateSamples_Ok _ _ _ _ _ Hloc) as [Hsub _].
  apply locateSamples_headers in Hloc. destruct Hloc as (shdr & Hshdr & Hheaders & Hint).
  apply extractSamples_console in Hext.
  destruct Hext as (Hlen & added & Hadded & Hcount & Hquiet & Hdata).
  cbn [app] in Hadded. subst added.
  exists chunks, table, shdr, headers. repeat split; auto.
Qed.

Lemma recordCount_whole width n :
  0 < width -> 1 <= n -> Z.of_nat (recordCount width 1 (width * n)) = n - 1.
Proof.
  intros Hw Hn. unfold recordCount.
  assert (Hq : (width * n - 1) / width = n - 1).
  { symmetry. apply Z.div_unique with (r := width - 1); lia. }
  rewrite Hq. lia.
Qed.

(** X10.  A bank [parse] returns has one sample record for every
    46-byte record of the shdr chunk but the last, the terminator: a chunk
    of n records gives n - 1 samples.  At most one warning is written for
    each. *)
Theorem parse_sample_count
    (bytes : list byte) (bank : SF2Data) (console : list string) :
  parse bytes = (Ok bank, console) ->
  exists chunks table shdr,
    findChunks bytes = Ok chunks
    /\ subChunks bytes (PDTA chunks) = Ok table
    /\ getChunk table "shdr" = Some shdr
    /\ List.length (samples bank) = recordCount 46 1 (size shdr)
    /\ (forall n, size shdr = 46 * n -> 1 <= n -> lengthZ (samples bank) = n - 1)
    /\ (List.length console <= List.length (samples bank))%nat.
Proof.
  intros H. apply parse_samples in H.
  destruct H as (chunks & table & shdr & headers & Hfind & Hsub & Hshdr & Hheaders
                 & Hcount & Hlen & _).
  apply parseSampleHeadersLoop_length in Hheaders.
  exists chunks, table, shdr.
  split; [exact Hfind|]. split; [exact Hsub|]. split; [exact Hshdr|].
  split; [congruence|]. split; [|lia].
  intros n Hsize Hn. unfold lengthZ. rewrite Hcount, Hheaders, Hsize.
  now apply recordCount_whole.
Qed.

(** The shdr chunk of the example bank holds four records, the bank three
    samples. *)
Lemma parse_sample_count_witness :
  parse ExampleBank.bank
  = (Ok ExampleBank.parsed,
     ["Sample 2 (bad): Invalid indices (start=6, end=100, max=8)"])
  /\ exists chunks table shdr,
       findChunks ExampleBank.bank = Ok chunks
       /\ subChunks ExampleBank.bank (PDTA chunks) = Ok table
       /\ getChunk table "shdr" = Some shdr
       /\ List.length (samples ExampleBank.parsed) = recordCount 46 1 (size shdr).
Proof.
  split; [apply parse_example|].
  destruct (parse_sample_count _ _ _ parse_example)
    as (chunks & table & shdr & Hfind & Hsub & Hshdr & Hcount & _).
  exists chunks, table, shdr. auto.
Defined.

(** *** validate *)

Lemma validateLoop_spec samples : forall i,
  (fst (validateLoop samples i) = true <-> Forall Spec.playable samples)
  /\ (fst (validateLoop samples i) = true -> snd (validateLoop samples i) = []).
Proof.
  induction samples as [|s rest IH]; intros i; simpl.
  - split; [split; auto|auto].
  - unfold lengthZ.
    destruct (Z.of_nat (List.length (data s)) =? 0) eqn:Hdata.
    + split; [|discriminate]. split; [discriminate|].
      intros Hall. inversion Hall as [|? ? [Hnonempty _] _].
      apply Z.eqb_eq in Hdata. destruct (data s); [now elim Hnonempty | discriminate].
    + destruct (sampleRate (header s) <=? 0) eqn:Hrate.
      * split; [|discriminate]. split; [discriminate|].
        intros Hall. inversion Hall as [|? ? [_ Hpos] _].
        apply Z.leb_le in Hrate. lia.
      * destruct (IH (i + 1)) as [Hiff Hquiet]. split; [|exact Hquiet].
        rewrite Hiff. split.
        -- intros Hall. constructor; [|exact Hall].
           apply Z.eqb_neq in Hdata. apply Z.leb_gt in Hrate.
           split; [|exact Hrate]. intros Hnil. rewrite Hnil in Hdata. now elim Hdata.
        -- intros Hall. now inversion Hall.
Qed.

Lemma validate_spec sf2Data :
  (fst (validate sf2Data) = true
   <-> samples sf2Data <> [] /\ Forall Spec.playable (samples sf2Data))
  /\ (fst (validate sf2Data) = true -> snd (validate sf2Data) = []).
Proof.
  unfold validate, lengthZ. destruct (samples sf2Data) as [|s rest] eqn:Hs.
  - cbn. split; [split; [discriminate | intros [H _]; now elim H] | discriminate].
  - replace (Z.of_nat (List.length (s :: rest)) =? 0) with false
      by (symmetry; apply Z.eqb_neq; simpl; lia).
    destruct (validateLoop_spec (s :: rest) 0) as [Hiff Hquiet].
    split; [|exact Hquiet]. rewrite Hiff. split; [split; [discriminate | assumption] | tauto].
Qed.

(** X11.  [validate] accepts a bank exactly when it has a sample
    and every sample has data and a positive sample rate; it then writes no
    warning.  For a bank that [parse] returned, acceptance implies that
    [parse] wrote no warning either, that is, that no sample header failed
    the bounds check: a bank parsed with a warning is never accepted. *)
Theorem validate_accepts_only_cut_samples
    (bytes : list byte) (bank : SF2Data) (console : list string) :
  parse bytes = (Ok bank, console) ->
  (fst (validate bank) = true
   <-> samples bank <> [] /\ Forall Spec.playable (samples bank))
  /\ (fst (validate bank) = true -> console = [] /\ snd (validate bank) = [])
  /\ (console <> [] -> fst (validate bank) = false).
Proof.
  intros H. apply parse_samples in H.
  destruct H as (_ & _ & _ & _ & _ & _ & _ & _ & _ & _ & Hquiet & _).
  destruct (validate_spec bank) as [Hiff Hsilent].
  assert (Hvalid : fst (validate bank) = true -> console = []).
  { intros Htrue. apply Hquiet. apply Hiff in Htrue. destruct Htrue as [_ Hall].
    eapply Forall_impl; [|exact Hall]. now intros s [Hdata _]. }
  split; [exact Hiff|]. split; [auto|].
  intros Hwarned. destruct (fst (validate bank)); [|reflexivity].
  now elim Hwarned; apply Hvalid.
Qed.

Lemma parse_bankOfTwo :
  parse ExampleBank.bankOfTwo = (Ok ExampleBank.parsedOfTwo, []).
Proof. vm_compute. reflexivity. Qed.

(** The bank of two good samples is accepted; the example bank, parsed
    with a warning for its third header, is not. *)
Lemma validate_accepts_only_cut_samples_witness :
  parse ExampleBank.bankOfTwo = (Ok ExampleBank.parsedOfTwo, [])
  /\ fst (validate ExampleBank.parsedOfTwo) = true
  /\ parse ExampleBank.bank
     = (Ok ExampleBank.parsed,
        ["Sample 2 (bad): Invalid indices (start=6, end=100, max=8)"])
  /\ fst (validate ExampleBank.parsed) = false.
Proof.
  split; [apply parse_bankOfTwo|]. split; [vm_compute; reflexivity|].
  split; [apply parse_example|].
  apply (proj2 (proj2 (validate_accepts_only_cut_samples _ _ _ parse_example))).
  discriminate.
Defined.

(** *** readString *)

Lemma readStringLoop_spec view n : forall offset s,
  readStringLoop view offset n = Ok s ->
  (String.length s <= n)%nat
  /\ (forall i, (i < String.length s)%nat ->
        exists c, byteAt view (offset + Z.of_nat i) = Some c
                  /\ c <> 0
                  /\ String.get i s = Some (fromCharCode c))
  /\ ((String.length s < n)%nat ->
      byteAt view (offset + Z.of_nat (String.length s)) = Some 0).
Proof.
  induction n as [|n IH]; intros offset s; simpl.
  - intros [= <-]. simpl. split; [lia|]. split; intros; lia.
  - intros H. invert_bind. rename a into char.
    unfold getUint8 in E. destruct (byteAt view offset) as [b|] eqn:Hb; [|discriminate].
    injection E as ->.
    destruct (char =? 0) eqn:Hnul.
    + injection H as <-. apply Z.eqb_eq in Hnul. subst char. simpl.
      split; [lia|]. split; [intros; lia|].
      intros _. now rewrite Z.add_0_r.
    + invert_bind. injection H as <-. apply Z.eqb_neq in Hnul.
      apply IH in E. destruct E as (Hlen & Hchars & Hstop).
      cbn [String.length String.get].
      split; [lia|]. split.
      * intros [|i] Hi.
        -- exists char. rewrite Z.add_0_r. auto.
        -- destruct (Hchars i ltac:(lia)) as (c & Hc & Hc0 & Hget).
           exists c. replace (offset + Z.of_nat (S i)) with (offset + 1 + Z.of_nat i) by lia.
           auto.
      * intros Hshort.
        replace (offset + Z.of_nat (S (String.length a)))
          with (offset + 1 + Z.of_nat (String.length a)) by lia.
        apply Hstop. lia.
Qed.

(** X12.  A string [readString] returns has at most [maxLength]
    characters, one for each byte from [offset] on, none of them NUL; if it
    is shorter than [maxLength], the byte after it is the NUL that ended
    it. *)
Theorem readString_spec (view : DataView) (offset maxLength : Z) (s : string) :
  readString view offset maxLength = Ok s ->
  Z.of_nat (String.length s) <= Z.max 0 maxLength
  /\ (forall i, (i < String.length s)%nat ->
        exists c, byteAt view (offset + Z.of_nat i) = Some c
                  /\ c <> 0
                  /\ String.get i s = Some (fromCharCode c))
  /\ (Z.of_nat (String.length s) < maxLength ->
      byteAt view (offset + Z.of_nat (String.length s)) = Some 0).
Proof.
  unfold readString. intros H. apply readStringLoop_spec in H.
  destruct H as (Hlen & Hchars & Hstop).
  split; [lia|]. split; [exact Hchars|].
  intros Hshort. apply Hstop. lia.
Qed.

(** The 20-byte name field of the instrument record reads as "Piano". *)
Lemma readString_spec_witness :
  readString ExampleBank.nameField 0 20 = Ok "Piano"
  /\ byteAt ExampleBank.nameField (0 + Z.of_nat (String.length "Piano")) = Some 0.
Proof.
  assert (H : readString ExampleBank.nameField 0 20 = Ok "Piano")
    by (vm_compute; reflexivity).
  split; [exact H|].
  apply (proj2 (proj2 (readString_spec _ _ _ _ H))). simpl. lia.
Defined.

End SF2ParserFacts.

Module SampleManagerFacts.
Import SampleManager.
Local Open Scope Z_scope.
Local Open Scope result_scope.

(** *** The cache as a map *)

Lemma cacheGet_In c : forall id entry,
  cacheGet c id = Some entry -> In (id, entry) c.
Proof.
  induction c as [|[k e] rest IH]; simpl; intros id entry H; [discriminate|].
  destruct (k =? id) eqn:Hk.
  - apply Z.eqb_eq in Hk. injection H as <-. subst. now left.
  - right. now apply IH.
Qed.

Lemma In_cacheGet c : forall id entry,
  NoDup (map fst c) -> In (id, entry) c -> cacheGet c id = Some entry.
Proof.
  induction c as [|[k e] rest IH]; simpl; intros id entry Hnd Hin; [contradiction|].
  inversion Hnd as [|? ? Hnot Hnd']; subst.
  destruct Hin as [[= -> ->]|Hin].
  - now rewrite Z.eqb_refl.
  - destruct (k =? id) eqn:Hk; [|now apply IH].
    apply Z.eqb_eq in Hk. subst. elim Hnot.
    change id with (fst (id, entry)). now apply in_map.
Qed.

Lemma cacheGet_key c id : cacheGet c id <> None <-> In id (map fst c).
Proof.
  induction c as [|[k e] rest IH]; simpl; [tauto|].
  destruct (k =? id) eqn:Hk.
  - apply Z.eqb_eq in Hk. split; [now left | discriminate].
  - apply Z.eqb_neq in Hk. rewrite IH. tauto.
Qed.

Lemma cacheDelete_length c id entry :
  cacheGet c id = Some entry ->
  List.length c = S (List.length (cacheDelete c id)).
Proof.
  induction c as [|[k e] rest IH]; simpl; [discriminate|].
  destruct (k =? id); [reflexivity|]. intros H. simpl. now rewrite <- IH.
Qed.

Lemma cacheDelete_keys c id k :
  In k (map fst (cacheDelete c id)) -> In k (map fst c).
Proof.
  induction c as [|[k' e] rest IH]; simpl; [tauto|].
  destruct (k' =? id); simpl; tauto.
Qed.

Lemma cacheDelete_NoDup c id : NoDup (map fst c) -> NoDup (map fst (cacheDelete c id)).
Proof.
  induction c as [|[k e] rest IH]; simpl; intros Hnd; [constructor|].
  inversion Hnd as [|? ? Hnot Hnd']; subst.
  destruct (k =? id); [assumption|]. simpl. constructor; [|now apply IH].
  intros Hin. apply Hnot. eapply cacheDelete_keys, Hin.
Qed.

Lemma cacheDelete_gone c id :
  NoDup (map fst c) -> cacheGet (cacheDelete c id) id = None.
Proof.
  induction c as [|[k e] rest IH]; simpl; intros Hnd; [reflexivity|].
  inversion Hnd as [|? ? Hnot Hnd']; subst.
  destruct (k =? id) eqn:Hk.
  - apply Z.eqb_eq in Hk. subst.
    destruct (cacheGet rest id) eqn:Hget; [|reflexivity].
    elim Hnot. apply cacheGet_key. congruence.
  - simpl. rewrite Hk. now apply IH.
Qed.

Lemma cacheSet_keys c id entry k :
  In k (map fst (cacheSet c id entry)) <-> k = id \/ In k (map fst c).
Proof.
  induction c as [|[k' e] rest IH]; simpl; [intuition|].
  destruct (k' =? id) eqn:Hk; simpl.
  - apply Z.eqb_eq in Hk. subst. intuition.
  - rewrite IH. intuition.
Qed.

Lemma cacheSet_NoDup c id entry :
  NoDup (map fst c) -> NoDup (map fst (cacheSet c id entry)).
Proof.
  induction c as [|[k e] rest IH]; simpl; intros Hnd.
  - constructor; [intros [] | constructor].
  - inversion Hnd as [|? ? Hnot Hnd']; subst.
    destruct (k =? id) eqn:Hk; simpl; [now constructor|].
    apply Z.eqb_neq in Hk. constructor; [|now apply IH].
    rewrite cacheSet_keys. intros [->|Hin]; [now apply Hk | now apply Hnot].
Qed.

Lemma cacheSet_length c id entry :
  (List.length (cacheSet c id entry) <= S (List.length c))%nat
  /\ (List.length c <= List.length (cacheSet c id entry))%nat.
Proof.
  induction c as [|[k e] rest IH]; simpl; [lia|].
  destruct (k =? id); simpl; lia.
Qed.

Lemma cacheSet_present c id entry old :
  cacheGet c id = Some old -> List.length (cacheSet c id entry) = List.length c.
Proof.
  induction c as [|[k e] rest IH]; simpl; [discriminate|].
  destruct (k =? id); simpl; [reflexivity|]. intros H. now rewrite IH.
Qed.

(** *** evictLRU *)

(** What the loop of [evictLRU] has found after [entries], given what it
    had found before them. *)
Lemma findOldest_spec entries : forall oldestId oldestTime resultId resultTime,
  findOldest entries oldestId oldestTime = (resultId, resultTime) ->
  ((resultId, resultTime) = (oldestId, oldestTime)
   \/ exists id entry,
        In (id, entry) entries /\ resultId = Some id
        /\ resultTime = Some (lastAccessed entry))
  /\ (forall id entry, In (id, entry) entries ->
        exists t, resultTime = Some t /\ t <= lastAccessed entry)
  /\ (forall t0, oldestTime = Some t0 -> exists t, resultTime = Some t /\ t <= t0).
Proof.
  induction entries as [|[id entry] rest IH];
    intros oldestId oldestTime resultId resultTime; simpl.
  - intros [= <- <-]. split; [now left|]. split; [contradiction|]. eauto with zarith.
  - destruct (belowBound (lastAccessed entry) oldestTime) eqn:Hbelow; intros H;
      apply IH in H; destruct H as (Hfrom & Hall & Hmono).
    + destruct (Hmono _ eq_refl) as (t & Ht & Hle).
      split; [|split].
      * right. destruct Hfrom as [[= -> ->] | (id' & entry' & Hin & -> & ->)].
        -- exists id, entry. auto.
        -- exists id', entry'. auto.
      * intros id' entry' [[= <- <-]|Hin]; [eauto | eauto].
      * intros t0 ->. simpl in Hbelow. apply Z.ltb_lt in Hbelow.
        exists t. split; [assumption | lia].
    + split; [|split].
      * destruct Hfrom as [Hsame | (id' & entry' & Hin & -> & ->)]; [now left|].
        right. exists id', entry'. auto.
      * intros id' entry' [[= <- <-]|Hin]; [|eauto].
        destruct oldestTime as [t0|]; [|discriminate].
        simpl in Hbelow. apply Z.ltb_ge in Hbelow.
        destruct (Hmono _ eq_refl) as (t & Ht & Hle). exists t. split; [assumption | lia].
      * exact Hmono.
Qed.

(** On a cache that is not empty, the loop finds the key of an entry that
    no entry is older than. *)
Lemma findOldest_oldest c :
  c <> [] ->
  exists id entry,
    fst (findOldest c None None) = Some id
    /\ In (id, entry) c
    /\ forall id' entry', In (id', entry') c -> lastAccessed entry <= lastAccessed entry'.
Proof.
  intros Hne.
  destruct (findOldest c None None) as [resultId resultTime] eqn:H.
  apply findOldest_spec in H. destruct H as (Hfrom & Hall & _).
  destruct c as [|[k e] rest]; [contradiction|].
  destruct (Hall k e (or_introl eq_refl)) as (t & Ht & _).
  destruct Hfrom as [[= -> ->] | (id & entry & Hin & -> & Htime)]; [discriminate|].
  exists id, entry. split; [reflexivity|]. split; [assumption|].
  intros id' entry' Hin'. destruct (Hall _ _ Hin') as (t' & Ht' & Hle).
  congruence.
Qed.

Lemma evictLRU_maxCacheSize st : maxCacheSize (evictLRU st) = maxCacheSize st.
Proof.
  unfold evictLRU. destruct (fst _); [|reflexivity].
  destruct (cacheGet _ _); reflexivity.
Qed.

Lemma evictLRU_sf2Data st : sf2Data (evictLRU st) = sf2Data st.
Proof.
  unfold evictLRU. destruct (fst _); [|reflexivity].
  destruct (cacheGet _ _); reflexivity.
Qed.

(** [evictLRU] on a cache that is not empty deletes one entry, the key of
    which [findOldest] chose. *)
Lemma evictLRU_deletes st :
  cache st <> [] ->
  exists id,
    fst (findOldest (cache st) None None) = Some id
    /\ cache (evictLRU st) = cacheDelete (cache st) id
    /\ List.length (cache st) = S (List.length (cache (evictLRU st)))
    /\ exists entry, In (id, entry) (cache st)
         /\ forall id' entry', In (id', entry') (cache st) ->
              lastAccessed entry <= lastAccessed entry'.
Proof.
  intros Hne. destruct (findOldest_oldest _ Hne) as (id & entry & Hfind & Hin & Hmin).
  exists id. unfold evictLRU. rewrite Hfind.
  destruct (cacheGet (cache st) id) as [e|] eqn:Hget.
  - cbn [cache]. split; [reflexivity|]. split; [reflexivity|].
    split; [eapply cacheDelete_length, Hget | eauto].
  - exfalso. revert Hget. apply cacheGet_key.
    change id with (fst (id, entry)). now apply in_map.
Qed.

Lemma evictLRU_NoDup st :
  NoDup (map fst (cache st)) -> NoDup (map fst (cache (evictLRU st))).
Proof.
  intros Hnd. unfold evictLRU. destruct (fst _); [|assumption].
  destruct (cacheGet _ _); [|assumption]. cbn [cache]. now apply cacheDelete_NoDup.
Qed.

(** *** addToCache *)

(** With a capacity of at least 1 the eviction loop ends, below capacity,
    having evicted nothing if the cache was below capacity already. *)
Lemma evictWhileFull_ends : forall fuel st,
  0 < maxCacheSize st ->
  (List.length (cache st) < fuel)%nat ->
  exists mid,
    evictWhileFull fuel st = Ok mid
    /\ cacheSize mid < maxCacheSize mid
    /\ cacheSize mid <= cacheSize st
    /\ maxCacheSize mid = maxCacheSize st
    /\ sf2Data mid = sf2Data st
    /\ (NoDup (map fst (cache st)) -> NoDup (map fst (cache mid)))
    /\ (cacheSize st < maxCacheSize st -> mid = st)
    /\ (cacheSize st = maxCacheSize st -> mid = evictLRU st).
Proof.
  induction fuel as [|fuel IH]; intros st Hmax Hfuel; [lia|].
  simpl. destruct (cacheSize st >=? maxCacheSize st) eqn:Hfull.
  - rewrite Z.geb_leb in Hfull. apply Z.leb_le in Hfull.
    assert (Hne : cache st <> []).
    { intros Hnil. unfold cacheSize in Hfull. rewrite Hnil in Hfull. simpl in Hfull. lia. }
    destruct (evictLRU_deletes st Hne) as (id & _ & _ & Hlen & _).
    destruct (IH (evictLRU st)) as (mid & Hrun & Hbelow & Hle & Hsame & Hsf2 & Hnd & Hkeep & _).
    + now rewrite evictLRU_maxCacheSize.
    + lia.
    + exists mid. rewrite Hrun. rewrite evictLRU_maxCacheSize in *.
      rewrite evictLRU_sf2Data in Hsf2. unfold cacheSize in *.
      repeat split; try assumption; try lia.
      * intros H. now apply Hnd, evictLRU_NoDup.
      * intros Heq. apply Hkeep. lia.
  - rewrite Z.geb_leb in Hfull. apply Z.leb_gt in Hfull.
    exists st. repeat split; try assumption; try lia. tauto.
Qed.

Lemma addToCache_ok st sampleId buffer now :
  Spec.cacheWellFormed st ->
  exists mid,
    evictWhileFull (S (List.length (cache st))) st = Ok mid
    /\ cacheSize mid < maxCacheSize st
    /\ (cacheSize st < maxCacheSize st -> mid = st)
    /\ (cacheSize st = maxCacheSize st -> mid = evictLRU st)
    /\ exists st',
         addToCache st sampleId buffer now = Ok st'
         /\ cache st' = cacheSet (cache mid) sampleId
                          (mkCacheEntry buffer now
                             (bufferLength buffer * numberOfChannels buffer * 4))
         /\ maxCacheSize st' = maxCacheSize st
         /\ sf2Data st' = sf2Data st
         /\ Spec.cacheWellFormed st'.
Proof.
  intros (Hmax & Hsize & Hnd).
  destruct (evictWhileFull_ends (S (List.length (cache st))) st Hmax)
    as (mid & Hrun & Hbelow & Hle & Hsame & Hsf2 & Hnd' & Hkeep & Hevict); [lia|].
  exists mid. rewrite Hsame in Hbelow.
  repeat split; try assumption.
  unfold addToCache. rewrite Hrun. cbn [bind].
  eexists. split; [reflexivity|].
  unfold Spec.cacheWellFormed, cacheSize in *. cbn [cache maxCacheSize sf2Data].
  pose proof (cacheSet_length (cache mid) sampleId
                (mkCacheEntry buffer now
                   (bufferLength buffer * numberOfChannels buffer * 4))).
  repeat split; try assumption; try lia.
  now apply cacheSet_NoDup, Hnd'.
Qed.

(** *** Every call keeps the cache well formed *)

Lemma touch_wf st id entry now :
  cacheGet (cache st) id = Some entry ->
  Spec.cacheWellFormed st ->
  Spec.cacheWellFormed (touch st id entry now)
  /\ maxCacheSize (touch st id entry now) = maxCacheSize st.
Proof.
  intros Hget (Hmax & Hsize & Hnd).
  unfold Spec.cacheWellFormed, touch, cacheSize in *. cbn [cache maxCacheSize].
  rewrite (cacheSet_present _ _ _ _ Hget).
  repeat split; try assumption. now apply cacheSet_NoDup.
Qed.

Lemma loadSampleBegin_wf audioContext st sampleId now :
  Spec.cacheWellFormed st ->
  Spec.cacheWellFormed (snd (loadSampleBegin audioContext st sampleId now))
  /\ maxCacheSize (snd (loadSampleBegin audioContext st sampleId now)) = maxCacheSize st
  /\ fst (loadSampleBegin audioContext st sampleId now) <> Diverge.
Proof.
  intros Hwf. unfold loadSampleBegin.
  destruct (cacheGet (cache st) sampleId) as [cached|] eqn:Hget; cbn [fst snd].
  - destruct (touch_wf st sampleId cached now Hget Hwf).
    split; [assumption|]. split; [assumption | discriminate].
  - destruct (getSampleData st sampleId) as [sample|]; cbn [fst snd];
      (split; [assumption|]); (split; [reflexivity|]); [|discriminate].
    unfold createAudioBuffer, createBuffer.
    destruct (_ || _); discriminate.
Qed.

Lemma loadSampleEnd_ok st sampleId pending now :
  Spec.cacheWellFormed st ->
  exists buffer st',
    loadSampleEnd st sampleId pending now = Ok (buffer, st')
    /\ Spec.cacheWellFormed st'
    /\ maxCacheSize st' = maxCacheSize st.
Proof.
  intros Hwf. destruct pending as [buffer|buffer]; simpl.
  - exists buffer, st. auto.
  - destruct (addToCache_ok st sampleId buffer now Hwf)
      as (mid & _ & _ & _ & _ & st' & Hadd & _ & Hmax & _ & Hwf').
    rewrite Hadd. exists buffer, st'. auto.
Qed.

Lemma cache_step_wf audioContext st op :
  Spec.cacheWellFormed st ->
  (exists st', step audioContext st op = Ok st'
               /\ Spec.cacheWellFormed st'
               /\ maxCacheSize st' = maxCacheSize st)
  \/ exists message, step audioContext st op = Throw message.
Proof.
  intros Hwf. destruct op as [sampleId now|sampleId now|sampleId buffer now|]; simpl.
  - unfold loadSample.
    destruct (loadSampleBegin_wf audioContext st sampleId now Hwf) as (Hwf1 & Hmax1 & Htotal).
    destruct (loadSampleBegin audioContext st sampleId now) as [r st1].
    cbn [fst snd] in *.
    destruct r as [pending|message|]; [|right; cbn; eauto|congruence].
    destruct (loadSampleEnd_ok st1 sampleId pending now Hwf1) as (b & st' & Hend & Hwf' & Hmax').
    left. cbn [bind]. rewrite Hend. exists st'. cbn.
    split; [reflexivity|]. split; [assumption | congruence].
  - left. unfold getSample. destruct (cacheGet (cache st) sampleId) as [cached|] eqn:Hget.
    + destruct (touch_wf st sampleId cached now Hget Hwf). eexists; eauto.
    + eexists; eauto.
  - destruct (addToCache_ok st sampleId buffer now Hwf)
      as (mid & _ & _ & _ & _ & st' & Hadd & _ & Hmax & _ & Hwf').
    left. eauto.
  - left. exists (clearCache st). destruct Hwf as (Hmax & _ & _).
    unfold Spec.cacheWellFormed, clearCache, cacheSize. cbn.
    repeat split; try lia. constructor.
Qed.

Lemma cache_run_wf audioContext ops : forall st,
  Spec.cacheWellFormed st ->
  exists st', run audioContext st ops = Ok st'
              /\ Spec.cacheWellFormed st'
              /\ maxCacheSize st' = maxCacheSize st.
Proof.
  induction ops as [|op rest IH]; intros st Hwf; simpl; [eauto|].
  destruct (cache_step_wf audioContext st op Hwf) as [(st1 & -> & Hwf1 & Hmax1) | (m & ->)].
  - destruct (IH st1 Hwf1) as (st' & Hrun & Hwf' & Hmax'). exists st'.
    split; [assumption|]. split; [assumption | congruence].
  - now apply IH.
Qed.

Lemma cache_new_wf sf2Data config :
  0 < maxCacheSize (new sf2Data config) -> Spec.cacheWellFormed (new sf2Data config).
Proof.
  intros Hmax. unfold Spec.cacheWellFormed, cacheSize.
  change (cache (new sf2Data config)) with (@nil (Z * CacheEntry)).
  split; [assumption|]. split; [cbn [List.length Z.of_nat]; lia | constructor].
Qed.

(** C4.  A sample manager made with a capacity of at least 1 (150 when
    none is configured) never holds more entries than its capacity,
    whatever calls are made on it.  In every state it reaches, [addToCache]
    first evicts and then inserts: the state between the two is below
    capacity, it is the state before when that was below capacity already,
    and when the cache was full it is that state less the entry with the
    oldest [lastAccessed]. *)
Theorem cache_within_capacity
    (audioContext : AudioContext) (sf2Data : SF2Data)
    (config : SampleManagerConfig) (ops : list Op) :
  0 < maxCacheSize (new sf2Data config) ->
  maxCacheSize (new sf2Data (mkConfig None)) = 150
  /\ exists st,
      run audioContext (new sf2Data config) ops = Ok st
      /\ maxCacheSize st = maxCacheSize (new sf2Data config)
      /\ statsSize st <= statsMaxSize st
      /\ forall sampleId buffer now,
          exists mid st',
            evictWhileFull (S (List.length (cache st))) st = Ok mid
            /\ cacheSize mid < maxCacheSize st
            /\ (cacheSize st < maxCacheSize st -> mid = st)
            /\ (cacheSize st = maxCacheSize st ->
                exists oldest,
                  Spec.isOldest (cache st) oldest
                  /\ cache mid = cacheDelete (cache st) oldest
                  /\ cacheGet (cache mid) oldest = None
                  /\ cacheSize mid = cacheSize st - 1)
            /\ addToCache st sampleId buffer now = Ok st'
            /\ cache st' = cacheSet (cache mid) sampleId
                             (mkCacheEntry buffer now
                                (bufferLength buffer * numberOfChannels buffer * 4))
            /\ cacheSize st' <= maxCacheSize st'.
Proof.
  intros Hmax. split; [reflexivity|].
  destruct (cache_run_wf audioContext ops _ (cache_new_wf sf2Data config Hmax))
    as (st & Hrun & Hwf & Hsame).
  exists st. split; [assumption|]. split; [assumption|].
  split; [apply Hwf|].
  intros sampleId buffer now.
  destruct (addToCache_ok st sampleId buffer now Hwf)
    as (mid & Hloop & Hbelow & Hkeep & Hevict & st' & Hadd & Hcache & Hmax' & _ & Hwf').
  exists mid, st'.
  split; [assumption|]. split; [assumption|]. split; [assumption|].
  split; [|split; [assumption|]; split; [assumption | apply Hwf']].
  intros Hfull. specialize (Hevict Hfull). subst mid.
  assert (Hne : cache st <> []).
  { intros Hnil. unfold cacheSize in Hfull. rewrite Hnil in Hfull. simpl in Hfull.
    destruct Hwf. lia. }
  destruct (evictLRU_deletes st Hne) as (oldest & _ & Hdel & Hlen & entry & Hin & Hmin).
  destruct Hwf as (_ & _ & Hnd).
  exists oldest. split; [|split; [|split]].
  - exists entry. split; [now apply In_cacheGet | exact Hmin].
  - exact Hdel.
  - rewrite Hdel. now apply cacheDelete_gone.
  - unfold cacheSize. lia.
Qed.

(** A cache of capacity 2 over the example bank: after samples 0 and 1
    are loaded and sample 0 is read again, an insertion evicts sample 1,
    the one accessed longest ago, not sample 0, the one inserted first. *)
Lemma cache_evicts_least_recently_used :
  exists st,
    run ExampleBank.context
      (new ExampleBank.parsed (mkConfig (Some 2))) ExampleBank.cacheOps = Ok st
    /\ map fst (cache st) = [0; 7]
    /\ map (fun e => lastAccessed (snd e)) (cache st) = [30; 40].
Proof. eexists. split; [reflexivity|]. split; reflexivity. Qed.

Lemma cache_within_capacity_witness :
  0 < maxCacheSize (new ExampleBank.parsed (mkConfig (Some 2)))
  /\ exists st,
      run ExampleBank.context
        (new ExampleBank.parsed (mkConfig (Some 2))) ExampleBank.cacheOps = Ok st
      /\ statsSize st <= statsMaxSize st.
Proof.
  assert (H : 0 < maxCacheSize (new ExampleBank.parsed (mkConfig (Some 2))))
    by reflexivity.
  split; [exact H|].
  destruct (cache_within_capacity ExampleBank.context ExampleBank.parsed
              (mkConfig (Some 2)) ExampleBank.cacheOps H)
    as (_ & st & Hrun & _ & Hle & _).
  exists st. split; assumption.
Defined.


(** *** Lookups after an update *)

Lemma cacheGet_set_same c : forall id entry,
  cacheGet (cacheSet c id entry) id = Some entry.
Proof.
  induction c as [|[k e] rest IH]; intros id entry; simpl.
  - now rewrite Z.eqb_refl.
  - destruct (k =? id) eqn:Hk; simpl; rewrite Hk; [reflexivity | apply IH].
Qed.

Lemma cacheGet_set_other c : forall id entry other,
  other <> id -> cacheGet (cacheSet c id entry) other = cacheGet c other.
Proof.
  induction c as [|[k e] rest IH]; intros id entry other Hne; simpl.
  - destruct (id =? other) eqn:H; [apply Z.eqb_eq in H; congruence | reflexivity].
  - destruct (k =? id) eqn:Hk; simpl.
    + apply Z.eqb_eq in Hk. subst k.
      destruct (id =? other) eqn:H; [apply Z.eqb_eq in H; congruence | reflexivity].
    + destruct (k =? other); [reflexivity | now apply IH].
Qed.

Lemma cacheGet_delete_other c : forall id other,
  other <> id -> cacheGet (cacheDelete c id) other = cacheGet c other.
Proof.
  induction c as [|[k e] rest IH]; intros id other Hne; simpl; [reflexivity|].
  destruct (k =? id) eqn:Hk; simpl.
  - apply Z.eqb_eq in Hk. subst k.
    destruct (id =? other) eqn:H; [apply Z.eqb_eq in H; congruence | reflexivity].
  - destruct (k =? other); [reflexivity | now apply IH].
Qed.

Lemma cacheSet_keys_present c : forall id entry old,
  cacheGet c id = Some old -> map fst (cacheSet c id entry) = map fst c.
Proof.
  induction c as [|[k e] rest IH]; intros id entry old; simpl; [discriminate|].
  destruct (k =? id) eqn:Hk; simpl; [reflexivity|].
  intros H. f_equal. eapply IH. eassumption.
Qed.

Lemma cacheSet_keys_absent c : forall id entry,
  cacheGet c id = None -> map fst (cacheSet c id entry) = (map fst c ++ [id])%list.
Proof.
  induction c as [|[k e] rest IH]; intros id entry; simpl; [reflexivity|].
  destruct (k =? id) eqn:Hk; simpl; [discriminate|].
  intros H. f_equal. now apply IH.
Qed.

Lemma cacheSet_twice c : forall id entry entry',
  cacheSet (cacheSet c id entry) id entry' = cacheSet c id entry'.
Proof.
  induction c as [|[k e] rest IH]; intros id entry entry'; simpl.
  - now rewrite Z.eqb_refl.
  - destruct (k =? id) eqn:Hk; simpl; rewrite Hk; [reflexivity|].
    f_equal. apply IH.
Qed.

(** *** A hit, and a load followed by a lookup *)

(** X13.  [loadSample] on a sample the cache holds returns the cached
    buffer without building one, whatever the audio context is; the entry
    keeps its buffer and its size and gets the time of the call; no other
    entry changes; the keys keep their order; the size of the cache and the
    byte count stay as they were. *)
Theorem loadSample_hit
    (audioContext : AudioContext) (st : State) (sampleId now : Z)
    (cached : CacheEntry) :
  cacheGet (cache st) sampleId = Some cached ->
  loadSample audioContext st sampleId now
  = Ok (buffer cached, touch st sampleId cached now)
  /\ cacheGet (cache (touch st sampleId cached now)) sampleId
     = Some (mkCacheEntry (buffer cached) now (entrySize cached))
  /\ (forall other, other <> sampleId ->
        cacheGet (cache (touch st sampleId cached now)) other
        = cacheGet (cache st) other)
  /\ map fst (cache (touch st sampleId cached now)) = map fst (cache st)
  /\ cacheSize (touch st sampleId cached now) = cacheSize st
  /\ totalMemoryUsage (touch st sampleId cached now) = totalMemoryUsage st.
Proof.
  intros Hget.
  split; [unfold loadSample, loadSampleBegin; now rewrite Hget|].
  unfold touch. cbn [cache totalMemoryUsage].
  split; [apply cacheGet_set_same|].
  split; [intros other Hne; now apply cacheGet_set_other|].
  split; [eapply cacheSet_keys_present; eassumption|].
  split; [|reflexivity].
  unfold cacheSize. cbn [cache]. f_equal. eapply cacheSet_present. eassumption.
Qed.

(** Sample 0 of the manager of two entries, asked for again at time 30. *)
Lemma loadSample_hit_witness :
  cacheGet (cache ExampleBank.twoEntries) 0
  = Some (mkCacheEntry ExampleBank.click 10 4)
  /\ loadSample ExampleBank.context ExampleBank.twoEntries 0 30
     = Ok (ExampleBank.click,
           touch ExampleBank.twoEntries 0 (mkCacheEntry ExampleBank.click 10 4) 30)
  /\ map fst (cache (touch ExampleBank.twoEntries 0
                       (mkCacheEntry ExampleBank.click 10 4) 30))
     = [0; 1].
Proof.
  assert (H : cacheGet (cache ExampleBank.twoEntries) 0
              = Some (mkCacheEntry ExampleBank.click 10 4)) by reflexivity.
  split; [exact H|].
  destruct (loadSample_hit ExampleBank.context _ 0 30 _ H)
    as (Hload & _ & _ & Hkeys & _).
  split; [exact Hload | exact Hkeys].
Defined.

Lemma createAudioBuffer_Ok audioContext sample buffer :
  createAudioBuffer audioContext sample = Ok buffer ->
  buffer = mkAudioBuffer (Z.of_nat (List.length (data sample))) 1
             (sampleRate (header sample))
             (map (fun d => (IZR d / 32768)%R) (data sample))
  /\ 0 < Z.of_nat (List.length (data sample))
  /\ supportsSampleRate audioContext (sampleRate (header sample)) = true.
Proof.
  unfold createAudioBuffer, createBuffer.
  destruct (Z.of_nat (List.length (data sample)) <=? 0) eqn:Hlen; [discriminate|].
  destruct (supportsSampleRate audioContext (sampleRate (header sample)));
    [|discriminate].
  cbn. intros [= <-]. apply Z.leb_gt in Hlen. auto.
Qed.

(** X14.  After a [loadSample] that returned, [getSample] on the
    same id returns the buffer that was loaded, and the entry of that id
    carries the time of the load.  If the cache did not hold the id, the
    buffer is the one built from the sample at that index of the bank, one
    frame for each 16-bit value. *)
Theorem loadSample_then_getSample
    (audioContext : AudioContext) (st : State) (sampleId now : Z)
    (loaded : AudioBuffer) (st' : State) :
  loadSample audioContext st sampleId now = Ok (loaded, st') ->
  (forall later, fst (getSample st' sampleId later) = Some loaded)
  /\ (exists entry,
        cacheGet (cache st') sampleId = Some entry
        /\ buffer entry = loaded /\ lastAccessed entry = now)
  /\ (cacheGet (cache st) sampleId = None ->
      exists sample,
        getSampleData st sampleId = Some sample
        /\ createAudioBuffer audioContext sample = Ok loaded
        /\ bufferLength loaded = Z.of_nat (List.length (data sample))).
Proof.
  intros Hload.
  assert (Hentry : exists entry,
             cacheGet (cache st') sampleId = Some entry
             /\ buffer entry = loaded /\ lastAccessed entry = now).
  { unfold loadSample, loadSampleBegin in Hload.
    destruct (cacheGet (cache st) sampleId) as [cached|] eqn:Hget.
    - cbn in Hload. injection Hload as <- <-.
      eexists. split; [apply cacheGet_set_same|]. split; reflexivity.
    - destruct (getSampleData st sampleId) as [sample|]; [|discriminate].
      destruct (createAudioBuffer audioContext sample) as [b| |]; try discriminate.
      cbn in Hload. unfold addToCache in Hload.
      destruct (evictWhileFull _ st) as [mid| |]; try discriminate.
      cbn in Hload. injection Hload as <- <-. cbn [cache].
      eexists. split; [apply cacheGet_set_same|]. split; reflexivity. }
  split; [|split; [exact Hentry|]].
  - intros later. destruct Hentry as (entry & Hget & <- & _).
    unfold getSample. now rewrite Hget.
  - intros Hmiss. unfold loadSample, loadSampleBegin in Hload.
    rewrite Hmiss in Hload.
    destruct (getSampleData st sampleId) as [sample|]; [|discriminate].
    destruct (createAudioBuffer audioContext sample) as [b| |] eqn:Hb;
      try discriminate.
    cbn in Hload. destruct (addToCache st sampleId b now) as [st''| |];
      try discriminate.
    cbn in Hload. injection Hload as <- <-.
    exists sample. split; [reflexivity|]. split; [exact Hb|].
    apply createAudioBuffer_Ok in Hb. destruct Hb as (-> & _). reflexivity.
Qed.

(** Sample 0 of the example bank, loaded into a new manager and looked up. *)
Lemma loadSample_then_getSample_witness :
  exists loaded st',
    loadSample ExampleBank.context
      (new ExampleBank.parsed (mkConfig None)) 0 10 = Ok (loaded, st')
    /\ fst (getSample st' 0 20) = Some loaded.
Proof.
  eexists. eexists.
  assert (H : loadSample ExampleBank.context
                (new ExampleBank.parsed (mkConfig None)) 0 10 = Ok (_, _))
    by reflexivity.
  split; [exact H|].
  exact (proj1 (loadSample_then_getSample _ _ _ _ _ _ H) 20).
Defined.

(** *** The byte count *)

Lemma entriesSize_set_present c : forall id old entry,
  cacheGet c id = Some old ->
  Spec.entriesSize (cacheSet c id entry)
  = Spec.entriesSize c - entrySize old + entrySize entry.
Proof.
  induction c as [|[k e] rest IH]; intros id old entry; simpl; [discriminate|].
  destruct (k =? id) eqn:Hk; simpl.
  - intros [= ->]. lia.
  - intros H. rewrite (IH _ _ _ H). lia.
Qed.

Lemma entriesSize_set_absent c : forall id entry,
  cacheGet c id = None ->
  Spec.entriesSize (cacheSet c id entry) = Spec.entriesSize c + entrySize entry.
Proof.
  induction c as [|[k e] rest IH]; intros id entry; simpl; [lia|].
  destruct (k =? id) eqn:Hk; simpl; [discriminate|].
  intros H. rewrite (IH _ _ H). lia.
Qed.

Lemma entriesSize_delete c : forall id old,
  cacheGet c id = Some old ->
  Spec.entriesSize (cacheDelete c id) = Spec.entriesSize c - entrySize old.
Proof.
  induction c as [|[k e] rest IH]; intros id old; simpl; [discriminate|].
  destruct (k =? id) eqn:Hk; simpl.
  - intros [= ->]. lia.
  - intros H. rewrite (IH _ _ H). lia.
Qed.

Lemma Forall_cacheSet (P : CacheEntry -> Prop) c : forall id entry,
  Forall (fun e => P (snd e)) c -> P entry ->
  Forall (fun e => P (snd e)) (cacheSet c id entry).
Proof.
  induction c as [|[k e] rest IH]; intros id entry Hall Hentry; simpl.
  - now constructor.
  - inversion Hall as [|? ? Hhead Htail]; subst.
    destruct (k =? id); constructor; auto.
Qed.

Lemma Forall_cacheDelete (P : CacheEntry -> Prop) c : forall id,
  Forall (fun e => P (snd e)) c -> Forall (fun e => P (snd e)) (cacheDelete c id).
Proof.
  induction c as [|[k e] rest IH]; intros id Hall; simpl; [constructor|].
  inversion Hall as [|? ? Hhead Htail]; subst.
  destruct (k =? id); [assumption | constructor; auto].
Qed.

Lemma cacheGet_delete_None c : forall id other,
  cacheGet c other = None -> cacheGet (cacheDelete c id) other = None.
Proof.
  induction c as [|[k e] rest IH]; intros id other; simpl; [reflexivity|].
  destruct (k =? other) eqn:Hother; [discriminate|].
  intros H. destruct (k =? id); [exact H|]. simpl. rewrite Hother. now apply IH.
Qed.

Lemma touch_accounted st id entry now :
  cacheGet (cache st) id = Some entry ->
  Spec.memoryAccounted st -> Spec.memoryAccounted (touch st id entry now).
Proof.
  intros Hget [Htotal Hsizes]. unfold Spec.memoryAccounted, touch.
  cbn [cache totalMemoryUsage]. split.
  - rewrite (entriesSize_set_present _ _ _ _ Hget). cbn [entrySize]. lia.
  - apply (Forall_cacheSet
             (fun e => entrySize e = 4 * bufferLength (buffer e) /\ 0 < entrySize e));
      [exact Hsizes|].
    cbn [entrySize buffer]. apply cacheGet_In in Hget.
    rewrite Forall_forall in Hsizes. exact (Hsizes _ Hget).
Qed.

Lemma evictLRU_accounted st :
  Spec.memoryAccounted st -> Spec.memoryAccounted (evictLRU st).
Proof.
  intros [Htotal Hsizes]. unfold evictLRU.
  destruct (fst (findOldest (cache st) None None)) as [oldestId|]; [|now split].
  destruct (cacheGet (cache st) oldestId) as [entry|] eqn:Hget; [|now split].
  unfold Spec.memoryAccounted. cbn [cache totalMemoryUsage]. split.
  - rewrite (entriesSize_delete _ _ _ Hget). lia.
  - now apply (Forall_cacheDelete
                 (fun e => entrySize e = 4 * bufferLength (buffer e)
                           /\ 0 < entrySize e)).
Qed.

Lemma evictLRU_miss st id :
  cacheGet (cache st) id = None -> cacheGet (cache (evictLRU st)) id = None.
Proof.
  intros Hmiss. unfold evictLRU.
  destruct (fst (findOldest (cache st) None None)) as [oldestId|]; [|exact Hmiss].
  destruct (cacheGet (cache st) oldestId); [|exact Hmiss].
  cbn [cache]. now apply cacheGet_delete_None.
Qed.

(** An insertion under a key the cache does not hold keeps the count
    exact. *)
Lemma addToCache_accounted st sampleId loaded now st' :
  Spec.cacheWellFormed st ->
  Spec.memoryAccounted st ->
  cacheGet (cache st) sampleId = None ->
  numberOfChannels loaded = 1 -> 0 < bufferLength loaded ->
  addToCache st sampleId loaded now = Ok st' ->
  Spec.memoryAccounted st'.
Proof.
  intros Hwf Hacc Hmiss Hchannels Hlength Hadd.
  destruct (addToCache_ok st sampleId loaded now Hwf)
    as (mid & Hmid & _ & Hbelow & Hfull & _).
  assert (Hmid' : Spec.memoryAccounted mid /\ cacheGet (cache mid) sampleId = None).
  { destruct Hwf as (_ & Hsize & _).
    destruct (Z.eq_dec (cacheSize st) (maxCacheSize st)) as [Heq|Hne].
    - rewrite (Hfull Heq). split; [now apply evictLRU_accounted | now apply evictLRU_miss].
    - rewrite (Hbelow ltac:(lia)). now split. }
  destruct Hmid' as [[Htotal Hsizes] Hmiss'].
  unfold addToCache in Hadd. rewrite Hmid in Hadd. cbn in Hadd.
  injection Hadd as <-. unfold Spec.memoryAccounted. cbn [cache totalMemoryUsage].
  split.
  - rewrite (entriesSize_set_absent _ _ _ Hmiss'). cbn [entrySize]. lia.
  - apply (Forall_cacheSet
             (fun e => entrySize e = 4 * bufferLength (buffer e) /\ 0 < entrySize e));
      [exact Hsizes|].
    cbn [entrySize buffer]. rewrite Hchannels. lia.
Qed.

Lemma cache_step_accounted audioContext st op st' :
  Spec.awaited op ->
  Spec.cacheWellFormed st -> Spec.memoryAccounted st ->
  step audioContext st op = Ok st' ->
  Spec.memoryAccounted st'.
Proof.
  intros Hawaited Hwf Hacc.
  destruct op as [sampleId now|sampleId now|sampleId loaded now|]; cbn [step].
  - unfold loadSample, loadSampleBegin.
    destruct (cacheGet (cache st) sampleId) as [cached|] eqn:Hget.
    + cbn. intros [= <-]. now apply touch_accounted.
    + destruct (getSampleData st sampleId) as [sample|]; [|discriminate].
      destruct (createAudioBuffer audioContext sample) as [b| |] eqn:Hb;
        try discriminate.
      cbn. destruct (addToCache st sampleId b now) as [st''| |] eqn:Hadd;
        try discriminate.
      cbn. intros [= <-]. apply createAudioBuffer_Ok in Hb.
      destruct Hb as (-> & Hlen & _).
      eapply addToCache_accounted; try eassumption; [reflexivity | exact Hlen].
  - unfold getSample.
    destruct (cacheGet (cache st) sampleId) as [cached|] eqn:Hget;
      cbn; intros [= <-]; [now apply touch_accounted | exact Hacc].
  - contradiction.
  - intros [= <-]. unfold Spec.memoryAccounted, clearCache. cbn. split; [reflexivity | constructor].
Qed.

Lemma cache_run_accounted audioContext ops : forall st,
  Forall Spec.awaited ops ->
  Spec.cacheWellFormed st -> Spec.memoryAccounted st ->
  exists st',
    run audioContext st ops = Ok st'
    /\ Spec.cacheWellFormed st' /\ Spec.memoryAccounted st'.
Proof.
  induction ops as [|op rest IH]; intros st Hops Hwf Hacc; simpl; [eauto|].
  inversion Hops as [|? ? Hop Hrest]; subst.
  destruct (cache_step_wf audioContext st op Hwf)
    as [(st1 & Hstep & Hwf1 & _) | (message & Hstep)]; rewrite Hstep.
  - apply IH; [assumption | assumption |].
    exact (cache_step_accounted audioContext st op st1 Hop Hwf Hacc Hstep).
  - now apply IH.
Qed.

Lemma entriesSize_nonneg c :
  Forall (fun e => entrySize (snd e) = 4 * bufferLength (buffer (snd e))
                   /\ 0 < entrySize (snd e)) c ->
  0 <= Spec.entriesSize c.
Proof.
  induction 1 as [|[k e] rest [_ Hpos] _ IH]; simpl in *; lia.
Qed.

(** X15.  For a manager of capacity at least 1 and every sequence of
    [loadSample], [getSample] and [clearCache] calls, each awaited before
    the next: the byte count the manager keeps is the sum of the sizes of
    the entries the cache holds, every entry counting 4 bytes for each frame
    of its buffer; so the count is not negative, [getCacheStats] reports
    that sum in MB, and [clearCache] resets it to 0. *)
Theorem memory_accounted_when_awaited
    (audioContext : AudioContext) (sf2Data : SF2Data)
    (config : SampleManagerConfig) (ops : list Op) :
  0 < maxCacheSize (new sf2Data config) ->
  Forall Spec.awaited ops ->
  exists st,
    run audioContext (new sf2Data config) ops = Ok st
    /\ Spec.memoryAccounted st
    /\ totalMemoryUsage st = Spec.entriesSize (cache st)
    /\ 0 <= totalMemoryUsage st
    /\ (0 <= getMemoryUsage st)%R
    /\ memoryUsageMB (getCacheStats st)
       = (IZR (Spec.entriesSize (cache st)) / (1024 * 1024))%R
    /\ totalMemoryUsage (clearCache st) = 0.
Proof.
  intros Hmax Hops.
  destruct (cache_run_accounted audioContext ops (new sf2Data config) Hops)
    as (st & Hrun & _ & Hacc).
  - now apply cache_new_wf.
  - unfold Spec.memoryAccounted, new. cbn. split; [reflexivity | constructor].
  - exists st. split; [exact Hrun|]. split; [exact Hacc|].
    destruct Hacc as [Htotal Hsizes].
    pose proof (entriesSize_nonneg _ Hsizes) as Hnonneg.
    split; [exact Htotal|]. split; [lia|]. split; [|split].
    + unfold getMemoryUsage. apply Rmult_le_pos.
      * apply IZR_le. lia.
      * left. apply Rinv_0_lt_compat. lra.
    + unfold getCacheStats, getMemoryUsage. cbn [memoryUsageMB]. now rewrite Htotal.
    + reflexivity.
Qed.

(** Two loads into a cache of capacity 2, a lookup and a load that hits. *)
Lemma memory_accounted_when_awaited_witness :
  0 < maxCacheSize (new ExampleBank.parsed (mkConfig (Some 2)))
  /\ Forall Spec.awaited
       [LoadSample 0 10; LoadSample 1 20; GetSample 0 30; LoadSample 1 40]
  /\ exists st,
       run ExampleBank.context (new ExampleBank.parsed (mkConfig (Some 2)))
         [LoadSample 0 10; LoadSample 1 20; GetSample 0 30; LoadSample 1 40] = Ok st
       /\ totalMemoryUsage st = Spec.entriesSize (cache st).
Proof.
  assert (Hmax : 0 < maxCacheSize (new ExampleBank.parsed (mkConfig (Some 2))))
    by (cbn; lia).
  assert (Hops : Forall Spec.awaited
                   [LoadSample 0 10; LoadSample 1 20; GetSample 0 30; LoadSample 1 40])
    by (repeat constructor).
  split; [exact Hmax|]. split; [exact Hops|].
  destruct (memory_accounted_when_awaited ExampleBank.context ExampleBank.parsed
              (mkConfig (Some 2)) _ Hmax Hops) as (st & Hrun & _ & Htotal & _).
  exists st. split; [exact Hrun | exact Htotal].
Defined.

(** *** What was used last is not what goes first *)

Lemma In_cacheSet_other c : forall id entry other e,
  other <> id -> In (other, e) c -> In (other, e) (cacheSet c id entry).
Proof.
  induction c as [|[k e0] rest IH]; intros id entry other e Hne; simpl; [tauto|].
  intros [[= -> ->]|Hin].
  - destruct (other =? id) eqn:H; [apply Z.eqb_eq in H; congruence | now left].
  - destruct (k =? id); right; [assumption | now apply IH].
Qed.

(** X16.  In a cache with one entry for each key: after [getSample] has
    found an id at a time later than the last access of every other entry,
    and some other entry exists, [evictLRU] deletes an entry of another id;
    the entry of the id stays, with its buffer and the time of the lookup. *)
Theorem recently_used_survives_eviction
    (st : State) (sampleId now : Z) (found : AudioBuffer) (other : Z) :
  NoDup (map fst (cache st)) ->
  fst (getSample st sampleId now) = Some found ->
  In other (map fst (cache st)) -> other <> sampleId ->
  (forall id entry, In (id, entry) (cache st) -> id <> sampleId ->
                    lastAccessed entry < now) ->
  exists evicted entry,
    evicted <> sampleId
    /\ cache (evictLRU (snd (getSample st sampleId now)))
       = cacheDelete (cache (snd (getSample st sampleId now))) evicted
    /\ cacheGet (cache (evictLRU (snd (getSample st sampleId now)))) sampleId
       = Some entry
    /\ buffer entry = found /\ lastAccessed entry = now.
Proof.
  intros Hnd Hfound Hother Hne Holder.
  unfold getSample in *.
  destruct (cacheGet (cache st) sampleId) as [cached|] eqn:Hget; [|discriminate].
  cbn [fst snd] in *. injection Hfound as <-.
  set (st1 := touch st sampleId cached now).
  assert (Hget1 : cacheGet (cache st1) sampleId
                  = Some (mkCacheEntry (buffer cached) now (entrySize cached)))
    by apply cacheGet_set_same.
  assert (Hnd1 : NoDup (map fst (cache st1))) by now apply cacheSet_NoDup.
  assert (Hne1 : cache st1 <> []).
  { intros Hnil. rewrite Hnil in Hget1. discriminate. }
  destruct (evictLRU_deletes st1 Hne1)
    as (evicted & _ & Hcache & _ & oldest & Hin & Hmin).
  assert (Hevicted : evicted <> sampleId).
  { intros ->. apply (In_cacheGet _ _ _ Hnd1) in Hin.
    rewrite Hget1 in Hin. injection Hin as <-.
    apply in_map_iff in Hother. destruct Hother as ([k e] & Hk & Hin).
    cbn in Hk. subst k.
    pose proof (Holder _ _ Hin Hne) as Hlt.
    pose proof (Hmin other e (In_cacheSet_other _ _ _ _ _ Hne Hin)) as Hle.
    cbn [lastAccessed] in Hle. lia. }
  exists evicted, (mkCacheEntry (buffer cached) now (entrySize cached)).
  split; [exact Hevicted|]. split; [exact Hcache|].
  split; [|split; reflexivity].
  rewrite Hcache, cacheGet_delete_other by congruence. exact Hget1.
Qed.

(** Of the two entries loaded at 10 and 20, the first is looked up at 30:
    the second is the one evicted. *)
Lemma recently_used_survives_eviction_witness :
  NoDup (map fst (cache ExampleBank.twoEntries))
  /\ fst (getSample ExampleBank.twoEntries 0 30) = Some ExampleBank.click
  /\ In 1 (map fst (cache ExampleBank.twoEntries))
  /\ map fst (cache (evictLRU (snd (getSample ExampleBank.twoEntries 0 30)))) = [0]
  /\ exists evicted entry,
       evicted <> 0
       /\ cache (evictLRU (snd (getSample ExampleBank.twoEntries 0 30)))
          = cacheDelete (cache (snd (getSample ExampleBank.twoEntries 0 30))) evicted
       /\ cacheGet (cache (evictLRU (snd (getSample ExampleBank.twoEntries 0 30)))) 0
          = Some entry
       /\ buffer entry = ExampleBank.click /\ lastAccessed entry = 30.
Proof.
  assert (Hnd : NoDup (map fst (cache ExampleBank.twoEntries))).
  { cbn. repeat constructor; cbn; intuition lia. }
  assert (Hin : In 1 (map fst (cache ExampleBank.twoEntries))) by (cbn; tauto).
  split; [exact Hnd|]. split; [reflexivity|]. split; [exact Hin|].
  split; [reflexivity|].
  apply (recently_used_survives_eviction ExampleBank.twoEntries 0 30
           ExampleBank.click 1 Hnd eq_refl Hin); [lia|].
  cbn. intros id entry [[= <- <-]|[[= <- <-]|[]]] Hne; cbn; lia.
Defined.

(** *** From PCM to an audio buffer *)

Lemma normalised_int16 d : Spec.int16 d -> Spec.normalised (IZR d / 32768).
Proof.
  unfold Spec.int16, Spec.normalised. intros [Hlo Hhi].
  apply IZR_le in Hlo, Hhi.
  split.
  - apply Rmult_le_reg_r with 32768%R; [lra|].
    unfold Rdiv. rewrite Rmult_assoc, Rinv_l by lra. lra.
  - apply Rmult_lt_reg_r with 32768%R; [lra|].
    unfold Rdiv. rewrite Rmult_assoc, Rinv_l by lra. lra.
Qed.

(** X17.  For a sample of a bank [parse] returned: a buffer
    [createAudioBuffer] makes of it has one channel, the sample rate of the
    header, one frame for each PCM value, and every frame in [-1, 1) (the
    PCM values are signed 16-bit numbers, divided by 32768); and for a
    sample with no data, such as the placeholder of a header that failed the
    bounds check, no buffer is made: the call throws. *)
Theorem createAudioBuffer_normalised
    (audioContext : AudioContext) (bytes : list byte) (bank : SF2Data)
    (console : list string) (sample : Sample) :
  SF2Parser.parse bytes = (Ok bank, console) ->
  In sample (samples bank) ->
  (forall made, createAudioBuffer audioContext sample = Ok made ->
     Forall Spec.normalised (channelData made)
     /\ List.length (channelData made) = List.length (data sample)
     /\ bufferLength made = Z.of_nat (List.length (data sample))
     /\ 0 < bufferLength made
     /\ numberOfChannels made = 1
     /\ bufferSampleRate made = sampleRate (header sample))
  /\ (data sample = [] ->
      createAudioBuffer audioContext sample = Throw "NotSupportedError").
Proof.
  intros Hparse Hin.
  apply SF2ParserFacts.parse_samples in Hparse.
  destruct Hparse as (_ & _ & _ & _ & _ & _ & _ & _ & _ & _ & _ & Hint).
  rewrite Forall_forall in Hint. specialize (Hint _ Hin).
  split.
  - intros made Hmade. apply createAudioBuffer_Ok in Hmade.
    destruct Hmade as (-> & Hlen & _). cbn.
    split; [|rewrite length_map; auto].
    apply Forall_map. eapply Forall_impl; [|exact Hint].
    intros d. apply normalised_int16.
  - intros Hempty. unfold createAudioBuffer, createBuffer. now rewrite Hempty.
Qed.

(** The first sample of the example bank. *)
Lemma createAudioBuffer_normalised_witness :
  exists sample made,
    SF2Parser.parse ExampleBank.bank
    = (Ok ExampleBank.parsed,
       ["Sample 2 (bad): Invalid indices (start=6, end=100, max=8)"%string])
    /\ In sample (samples ExampleBank.parsed)
    /\ createAudioBuffer ExampleBank.context sample = Ok made
    /\ Forall Spec.normalised (channelData made).
Proof.
  exists (mkSample "L" [100; 200; 300; 400]
            (mkSampleHeader 0 4 1 3 44100 60 0 None None)).
  eexists.
  assert (Hin : In (mkSample "L" [100; 200; 300; 400]
                      (mkSampleHeader 0 4 1 3 44100 60 0 None None))
                  (samples ExampleBank.parsed)) by (left; reflexivity).
  split; [apply SF2ParserFacts.parse_example|]. split; [exact Hin|].
  split; [reflexivity|].
  exact (proj1 (proj1 (createAudioBuffer_normalised ExampleBank.context _ _ _ _
                         SF2ParserFacts.parse_example Hin) _ eq_refl)).
Defined.

(** *** Preloading *)

Lemma idsAdd_In ids id x : In x (idsAdd ids id) <-> x = id \/ In x ids.
Proof.
  unfold idsAdd. destruct (existsb (Z.eqb id) ids) eqn:Hhas.
  - split; [tauto|]. intros [->|H]; [|exact H].
    apply existsb_exists in Hhas. destruct Hhas as (y & Hy & Heq).
    apply Z.eqb_eq in Heq. now subst.
  - rewrite in_app_iff. simpl. intuition congruence.
Qed.

Lemma idsAdd_NoDup ids id : NoDup ids -> NoDup (idsAdd ids id).
Proof.
  intros Hnd. unfold idsAdd. destruct (existsb (Z.eqb id) ids) eqn:Hhas; [exact Hnd|].
  apply NoDup_app; [exact Hnd | repeat constructor; simpl; tauto |].
  intros x Hin [<-|[]].
  assert (existsb (Z.eqb id) ids = true); [|congruence].
  apply existsb_exists. exists id. split; [exact Hin | apply Z.eqb_refl].
Qed.

Lemma rangeIds_fold midiStart midiEnd zones : forall ids,
  let collect :=
    fold_left
      (fun sampleIds zone =>
         let keyRange := keyRange zone in
         if (low keyRange <=? midiEnd) && (high keyRange >=? midiStart) then
           match sampleId zone with
           | Some sampleId => idsAdd sampleIds sampleId
           | None => sampleIds
           end
         else sampleIds) zones ids in
  (NoDup ids -> NoDup collect)
  /\ forall id,
       In id collect
       <-> In id ids
           \/ exists zone,
                In zone zones
                /\ low (keyRange zone) <= midiEnd
                /\ midiStart <= high (keyRange zone)
                /\ sampleId zone = Some id.
Proof.
  induction zones as [|zone rest IH]; intros ids; cbn zeta; simpl.
  - split; [auto|]. intros id. split; [tauto|]. intros [H|(z & [] & _)]. exact H.
  - cbn zeta in IH.
    destruct ((low (keyRange zone) <=? midiEnd) && (high (keyRange zone) >=? midiStart))
      eqn:Hrange.
    + apply andb_true_iff in Hrange. rewrite Z.leb_le, Z.geb_leb, Z.leb_le in Hrange.
      destruct (sampleId zone) as [sid|] eqn:Hsid.
      * destruct (IH (idsAdd ids sid)) as [Hnd Hin].
        split; [intros H; now apply Hnd, idsAdd_NoDup|].
        intros id. rewrite Hin, idsAdd_In. split.
        -- intros [[->|H]|(z & Hz & H)]; [right; exists zone; tauto | tauto |].
           right. exists z. tauto.
        -- intros [H|(z & [<-|Hz] & Hlo & Hhi & Hs)]; [tauto | |].
           ++ left. left. congruence.
           ++ right. exists z. tauto.
      * destruct (IH ids) as [Hnd Hin]. split; [exact Hnd|].
        intros id. rewrite Hin. split.
        -- intros [H|(z & Hz & H)]; [tauto|]. right. exists z. tauto.
        -- intros [H|(z & [<-|Hz] & Hlo & Hhi & Hs)]; [tauto | congruence |].
           right. exists z. tauto.
    + destruct (IH ids) as [Hnd Hin]. split; [exact Hnd|].
      intros id. rewrite Hin. split.
      * intros [H|(z & Hz & H)]; [tauto|]. right. exists z. tauto.
      * intros [H|(z & [<-|Hz] & Hlo & Hhi & Hs)]; [tauto | |].
        -- apply andb_false_iff in Hrange.
           rewrite Z.leb_gt, Z.geb_leb, Z.leb_gt in Hrange. lia.
        -- right. exists z. tauto.
Qed.

Lemma rangeSampleIds_spec
    (sf2Data : SF2Data) (midiStart midiEnd : Z) :
  NoDup (rangeSampleIds sf2Data midiStart midiEnd)
  /\ (forall id,
        In id (rangeSampleIds sf2Data midiStart midiEnd)
        <-> exists first others zone,
              presets sf2Data = first :: others
              /\ In zone (presetZones first)
              /\ low (keyRange zone) <= midiEnd
              /\ midiStart <= high (keyRange zone)
              /\ sampleId zone = Some id)
  /\ (forall midiNote velocity zone id,
        midiStart <= midiNote <= midiEnd ->
        In zone (SoundEngine.selectZones sf2Data midiNote velocity) ->
        sampleId zone = Some id ->
        In id (rangeSampleIds sf2Data midiStart midiEnd)).
Proof.
  assert (Hspec : NoDup (rangeSampleIds sf2Data midiStart midiEnd)
            /\ forall id,
                 In id (rangeSampleIds sf2Data midiStart midiEnd)
                 <-> exists first others zone,
                       presets sf2Data = first :: others
                       /\ In zone (presetZones first)
                       /\ low (keyRange zone) <= midiEnd
                       /\ midiStart <= high (keyRange zone)
                       /\ sampleId zone = Some id).
  { unfold rangeSampleIds. destruct (presets sf2Data) as [|first others].
    - split; [constructor|]. intros id. split; [intros []|].
      intros (f & o & z & H & _). discriminate.
    - destruct (rangeIds_fold midiStart midiEnd (presetZones first) []) as [Hnd Hin].
      split; [apply Hnd; constructor|].
      intros id. cbn zeta in Hin. rewrite Hin. split.
      + intros [[]|(z & Hz)]. exists first, others, z. tauto.
      + intros (f & o & z & [= <- <-] & Hz). right. exists z. exact Hz. }
  destruct Hspec as [Hnd Hin]. split; [exact Hnd|]. split; [exact Hin|].
  intros midiNote velocity zone id Hnote Hsel Hid.
  apply Hin. unfold SoundEngine.selectZones in Hsel.
  destruct (presets sf2Data) as [|first others]; [contradiction|].
  apply filter_In in Hsel. destruct Hsel as [Hzone Hmatch].
  unfold SoundEngine.zoneMatches in Hmatch.
  rewrite !andb_true_iff, !Z.geb_leb, !Z.leb_le in Hmatch.
  exists first, others, zone. repeat split; auto; lia.
Qed.

(** The ids [preloadForMIDIRange] collects hold no duplicate;
    they are the sample ids of the zones of the first preset whose key range
    meets [midiStart, midiEnd]; and they include the sample id of every zone
    [selectZones] returns for a note of that range, at any velocity. *)
Theorem preloadForMIDIRange_covers_selectZones
    (sf2Data : SF2Data) (midiStart midiEnd : Z) :
  NoDup (rangeSampleIds sf2Data midiStart midiEnd)
  /\ (forall id,
        In id (rangeSampleIds sf2Data midiStart midiEnd)
        <-> exists first others zone,
              presets sf2Data = first :: others
              /\ In zone (presetZones first)
              /\ low (keyRange zone) <= midiEnd
              /\ midiStart <= high (keyRange zone)
              /\ sampleId zone = Some id)
  /\ (forall midiNote velocity zone id,
        midiStart <= midiNote <= midiEnd ->
        In zone (SoundEngine.selectZones sf2Data midiNote velocity) ->
        sampleId zone = Some id ->
        In id (rangeSampleIds sf2Data midiStart midiEnd)).
Proof.
  destruct (rangeSampleIds_spec sf2Data midiStart midiEnd) as (Hnd & Hin & Hcover).
  split; [exact Hnd|]. split; [exact Hin|].
  intros midiNote velocity zone id Hnote Hsel Hid.
  eapply Hcover; eassumption.
Qed.

Lemma loadSampleBegin_keys audioContext st sampleId now :
  map fst (cache (snd (loadSampleBegin audioContext st sampleId now)))
  = map fst (cache st)
  /\ (forall b, fst (loadSampleBegin audioContext st sampleId now) = Ok (Hit b) ->
        In sampleId (map fst (cache st))).
Proof.
  unfold loadSampleBegin.
  destruct (cacheGet (cache st) sampleId) as [cached|] eqn:Hget; cbn [fst snd].
  - split; [eapply cacheSet_keys_present; eassumption|].
    intros _ _. apply cacheGet_key. congruence.
  - destruct (getSampleData st sampleId) as [sample|]; cbn [fst snd];
      [|split; [reflexivity | discriminate]].
    split; [reflexivity|].
    destruct (createAudioBuffer audioContext sample); discriminate.
Qed.

Lemma beginAll_spec audioContext now sampleIds : forall st,
  Spec.cacheWellFormed st ->
  Spec.cacheWellFormed (snd (beginAll audioContext st sampleIds now))
  /\ maxCacheSize (snd (beginAll audioContext st sampleIds now)) = maxCacheSize st
  /\ map fst (cache (snd (beginAll audioContext st sampleIds now)))
     = map fst (cache st)
  /\ map fst (fst (beginAll audioContext st sampleIds now)) = sampleIds
  /\ (forall id b,
        In (id, Ok (Hit b)) (fst (beginAll audioContext st sampleIds now)) ->
        In id (map fst (cache st))).
Proof.
  induction sampleIds as [|id rest IH]; intros st Hwf; simpl.
  - split; [exact Hwf|]. split; [reflexivity|]. split; [reflexivity|].
    split; [reflexivity|]. intros ? ? [].
  - destruct (loadSampleBegin_wf audioContext st id now Hwf) as (Hwf1 & Hmax1 & _).
    destruct (loadSampleBegin_keys audioContext st id now) as [Hkeys1 Hhit1].
    destruct (loadSampleBegin audioContext st id now) as [p st1].
    cbn [fst snd] in *.
    destruct (IH st1 Hwf1) as (Hwf2 & Hmax2 & Hkeys2 & Hids & Hhits).
    destruct (beginAll audioContext st1 rest now) as [ps st2].
    cbn [fst snd map] in *.
    split; [exact Hwf2|]. split; [congruence|]. split; [congruence|].
    split; [now f_equal|].
    intros id' b [[= -> ->]|Hin].
    + eapply Hhit1. reflexivity.
    + rewrite <- Hkeys1. eapply Hhits. eassumption.
Qed.

Lemma cacheSize_keys st st' :
  map fst (cache st') = map fst (cache st) -> cacheSize st' = cacheSize st.
Proof.
  intros H. unfold cacheSize.
  rewrite <- (length_map fst (cache st')), H, length_map. reflexivity.
Qed.

Lemma endAll_spec now : forall pending st,
  Spec.cacheWellFormed st ->
  cacheSize st + Z.of_nat (List.length pending) <= maxCacheSize st ->
  exists st',
    endAll st pending now = Ok st'
    /\ Spec.cacheWellFormed st'
    /\ maxCacheSize st' = maxCacheSize st
    /\ (forall id, In id (map fst (cache st)) -> In id (map fst (cache st')))
    /\ (forall id b, In (id, Ok (Miss b)) pending -> In id (map fst (cache st'))).
Proof.
  induction pending as [|[id r] rest IH]; intros st Hwf Hroom; simpl.
  - exists st. split; [reflexivity|]. split; [exact Hwf|]. split; [reflexivity|].
    split; [auto|]. intros ? ? [].
  - cbn [List.length] in Hroom.
    destruct r as [[b|b]| |].
    + cbn. destruct (IH st Hwf ltac:(lia)) as (st' & Hend & Hwf' & Hmax & Hkeep & Hmiss).
      exists st'. split; [exact Hend|]. split; [exact Hwf'|]. split; [exact Hmax|].
      split; [exact Hkeep|].
      intros id' b' [H|H]; [discriminate | eapply Hmiss; eassumption].
    + destruct (addToCache_ok st id b now Hwf)
        as (mid & _ & _ & Hbelow & _ & st1 & Hadd & Hcache & Hmax1 & _ & Hwf1).
      rewrite (Hbelow ltac:(lia)) in Hcache.
      cbn. rewrite Hadd. cbn.
      assert (Hsize1 : cacheSize st1 <= cacheSize st + 1).
      { unfold cacheSize. rewrite Hcache.
        pose proof (cacheSet_length (cache st) id
                      (mkCacheEntry b now (bufferLength b * numberOfChannels b * 4))).
        lia. }
      destruct (IH st1 Hwf1 ltac:(lia)) as (st' & Hend & Hwf' & Hmax & Hkeep & Hmiss).
      exists st'. split; [exact Hend|]. split; [exact Hwf'|]. split; [congruence|].
      assert (Hkeys : forall k, k = id \/ In k (map fst (cache st)) ->
                                In k (map fst (cache st'))).
      { intros k Hk. apply Hkeep. rewrite Hcache. now apply cacheSet_keys. }
      split; [intros k Hk; apply Hkeys; now right|].
      intros id' b' [[= -> ->]|H]; [apply Hkeys; now left | eapply Hmiss; eassumption].
    + destruct (IH st Hwf ltac:(lia)) as (st' & Hend & Hwf' & Hmax & Hkeep & Hmiss).
      exists st'. split; [exact Hend|]. split; [exact Hwf'|]. split; [exact Hmax|].
      split; [exact Hkeep|].
      intros id' b' [H|H]; [discriminate | eapply Hmiss; eassumption].
    + destruct (IH st Hwf ltac:(lia)) as (st' & Hend & Hwf' & Hmax & Hkeep & Hmiss).
      exists st'. split; [exact Hend|]. split; [exact Hwf'|]. split; [exact Hmax|].
      split; [exact Hkeep|].
      intros id' b' [H|H]; [discriminate | eapply Hmiss; eassumption].
Qed.

Lemma firstThrow_Ok pending :
  firstThrow pending = Ok tt ->
  forall id r, In (id, r) pending -> exists p, r = Ok p.
Proof.
  induction pending as [|[id0 r0] rest IH]; simpl; [intros _ ? ? []|].
  destruct r0 as [p| |]; try discriminate. cbn.
  intros H id r [[= <- <-]|Hin]; [eauto | now apply (IH H id)].
Qed.

(** With room for every id, [preloadSamples] evicts nothing and leaves every
    id it loaded in the cache. *)
Lemma preloadSamples_caches_all audioContext st sampleIds now :
  Spec.cacheWellFormed st ->
  cacheSize st + Z.of_nat (List.length sampleIds) <= maxCacheSize st ->
  exists st',
    snd (preloadSamples audioContext st sampleIds now) = Ok st'
    /\ Spec.cacheWellFormed st'
    /\ (forall id, In id (map fst (cache st)) -> In id (map fst (cache st')))
    /\ (fst (preloadSamples audioContext st sampleIds now) = Ok tt ->
        forall id, In id sampleIds -> cacheGet (cache st') id <> None).
Proof.
  intros Hwf Hroom. unfold preloadSamples.
  destruct (beginAll_spec audioContext now sampleIds st Hwf)
    as (Hwf1 & Hmax1 & Hkeys1 & Hids & Hhits).
  destruct (beginAll audioContext st sampleIds now) as [pending st1].
  cbn [fst snd] in *.
  assert (Hlen : List.length pending = List.length sampleIds)
    by (rewrite <- Hids; now rewrite length_map).
  destruct (endAll_spec now pending st1 Hwf1) as (st' & Hend & Hwf' & _ & Hkeep & Hmiss).
  { rewrite (cacheSize_keys _ _ Hkeys1), Hmax1, Hlen. exact Hroom. }
  exists st'. split; [exact Hend|]. split; [exact Hwf'|].
  split; [intros id Hid; apply Hkeep; now rewrite Hkeys1|].
  intros Hok id Hid. apply cacheGet_key.
  rewrite <- Hids in Hid. apply in_map_iff in Hid.
  destruct Hid as ([id' r] & Heq & Hin). cbn in Heq. subst id'.
  destruct (firstThrow_Ok _ Hok _ _ Hin) as ([b|b] & ->).
  - apply Hkeep. rewrite Hkeys1. eapply Hhits. eassumption.
  - eapply Hmiss. eassumption.
Qed.

(** X18.  On a well-formed manager with room for every id of the
    range, [preloadForMIDIRange] ends, keeps the cache well formed and
    evicts nothing; and if it does not throw, every sample that a zone
    [selectZones] returns for a note of the range names is in the cache
    afterwards. *)
Theorem preloadForMIDIRange_caches_selected
    (audioContext : AudioContext) (st : State) (midiStart midiEnd now : Z) :
  Spec.cacheWellFormed st ->
  cacheSize st
  + Z.of_nat (List.length (rangeSampleIds (sf2Data st) midiStart midiEnd))
  <= maxCacheSize st ->
  exists st',
    snd (preloadForMIDIRange audioContext st midiStart midiEnd now) = Ok st'
    /\ Spec.cacheWellFormed st'
    /\ (forall id, In id (map fst (cache st)) -> In id (map fst (cache st')))
    /\ (fst (preloadForMIDIRange audioContext st midiStart midiEnd now) = Ok tt ->
        forall midiNote velocity zone id,
          midiStart <= midiNote <= midiEnd ->
          In zone (SoundEngine.selectZones (sf2Data st) midiNote velocity) ->
          sampleId zone = Some id ->
          cacheGet (cache st') id <> None).
Proof.
  intros Hwf Hroom. unfold preloadForMIDIRange.
  destruct (preloadSamples_caches_all audioContext st _ now Hwf Hroom)
    as (st' & Hend & Hwf' & Hkeep & Hall).
  exists st'. split; [exact Hend|]. split; [exact Hwf'|]. split; [exact Hkeep|].
  intros Hok midiNote velocity zone id Hnote Hsel Hid.
  apply (Hall Hok).
  destruct (rangeSampleIds_spec (sf2Data st) midiStart midiEnd) as (_ & _ & Hcover).
  eapply Hcover; eassumption.
Qed.

(** The piano range of the example bank, preloaded into a new manager:
    samples 0 and 1, and both are cached. *)
Lemma preloadForMIDIRange_caches_selected_witness :
  Spec.cacheWellFormed (new ExampleBank.parsed (mkConfig None))
  /\ rangeSampleIds ExampleBank.parsed 21 108 = [0; 1]
  /\ fst (preloadForMIDIRange ExampleBank.context
            (new ExampleBank.parsed (mkConfig None)) 21 108 10) = Ok tt
  /\ exists st',
       snd (preloadForMIDIRange ExampleBank.context
              (new ExampleBank.parsed (mkConfig None)) 21 108 10) = Ok st'
       /\ cacheGet (cache st') 1 <> None.
Proof.
  assert (Hwf : Spec.cacheWellFormed (new ExampleBank.parsed (mkConfig None)))
    by (apply cache_new_wf; cbn; lia).
  assert (Hok : fst (preloadForMIDIRange ExampleBank.context
                       (new ExampleBank.parsed (mkConfig None)) 21 108 10) = Ok tt)
    by reflexivity.
  split; [exact Hwf|]. split; [reflexivity|]. split; [exact Hok|].
  destruct (preloadForMIDIRange_caches_selected ExampleBank.context
              (new ExampleBank.parsed (mkConfig None)) 21 108 10 Hwf)
    as (st' & Hend & _ & _ & Hcached).
  - cbn. lia.
  - exists st'. split; [exact Hend|].
    apply (Hcached Hok 60 100
             (mkZone (mkRange 21 108) (mkRange 1 127)
                (mkGeneratorMap (Some (mkRange 21 108)) (Some (mkRange 1 127))
                   (Some 1) (Some 500) None (Some (-1200)))
                (Some 1) None) 1);
      [lia | cbn; tauto | reflexivity].
Defined.

End SampleManagerFacts.

(** ** StereoManager *)

Module StereoManagerFacts.
Import StereoManager.
Local Open Scope string_scope.
Local Open Scope Z_scope.
Local Open Scope result_scope.


Lemma find_existsb {A} (f : A -> bool) l :
  existsb f l = match find f l with Some _ => true | None => false end.
Proof.
  induction l as [|x rest IH]; simpl; [reflexivity|].
  destruct (f x); [reflexivity | exact IH].
Qed.

Lemma playStereoPair_without_pair
    audioContext sm fresh dateNow currentTime midiNote velocity zones :
  hasStereoPair zones = false ->
  exists message,
    playStereoPair audioContext sm fresh dateNow currentTime
      midiNote velocity zones = Ok (Throw message, sm).
Proof.
  unfold hasStereoPair, playStereoPair, stereoZones.
  rewrite !find_existsb.
  destruct (find (hasPan (-500)) zones) as [l|];
    destruct (find (hasPan 500) zones) as [r|]; cbn; try discriminate; eauto.
Qed.



Lemma loadSampleBegin_miss audioContext sm sampleId now sample made :
  SampleManager.cacheGet (SampleManager.cache sm) sampleId = None ->
  SampleManager.getSampleData sm sampleId = Some sample ->
  SampleManager.createAudioBuffer audioContext sample = Ok made ->
  SampleManager.loadSampleBegin audioContext sm sampleId now
  = (Ok (SampleManager.Miss made), sm).
Proof.
  intros Hmiss Hsample Hmade. unfold SampleManager.loadSampleBegin.
  now rewrite Hmiss, Hsample, Hmade.
Qed.

Lemma addToCache_below st sampleId made now :
  SampleManager.cacheSize st < SampleManager.maxCacheSize st ->
  SampleManager.addToCache st sampleId made now
  = Ok (SampleManager.mkState (SampleManager.sf2Data st)
          (SampleManager.cacheSet (SampleManager.cache st) sampleId
             (SampleManager.mkCacheEntry made now
                (SampleManager.bufferLength made
                 * SampleManager.numberOfChannels made * 4)))
          (SampleManager.maxCacheSize st)
          (SampleManager.totalMemoryUsage st
           + SampleManager.bufferLength made
             * SampleManager.numberOfChannels made * 4)).
Proof.
  intros H. unfold SampleManager.addToCache.
  cbn [SampleManager.evictWhileFull].
  destruct (SampleManager.cacheSize st >=? SampleManager.maxCacheSize st) eqn:E;
    [|reflexivity].
  rewrite Z.geb_leb in E. apply Z.leb_le in E. lia.
Qed.

Lemma cacheSet_absent c : forall id entry,
  SampleManager.cacheGet c id = None ->
  SampleManager.cacheSet c id entry = (c ++ [(id, entry)])%list.
Proof.
  induction c as [|[k e] rest IH]; intros id entry; simpl; [reflexivity|].
  destruct (k =? id); [discriminate|]. intros H. f_equal. now apply IH.
Qed.

(** X20.  When both zones of a pair name the same sample, the cache
    does not hold it and has room for two more entries: the two loads of
    [playStereoPair] both build the buffer and both add it; the cache gains
    one entry, and the byte count grows by twice the size of the buffer. *)
Theorem loadPair_same_sample_counts_twice
    (audioContext : AudioContext) (sm : SampleManager.State)
    (sampleId dateNow : Z) (sample : Sample) (made : SampleManager.AudioBuffer) :
  SampleManager.cacheGet (SampleManager.cache sm) sampleId = None ->
  SampleManager.getSampleData sm sampleId = Some sample ->
  SampleManager.createAudioBuffer audioContext sample = Ok made ->
  SampleManager.cacheSize sm + 1 < SampleManager.maxCacheSize sm ->
  exists sm',
    loadPair audioContext sm sampleId sampleId dateNow = (Ok tt, Ok sm')
    /\ SampleManager.cache sm'
       = (SampleManager.cache sm
          ++ [(sampleId,
               SampleManager.mkCacheEntry made dateNow
                 (SampleManager.bufferLength made * 1 * 4))])%list
    /\ SampleManager.cacheSize sm' = SampleManager.cacheSize sm + 1
    /\ SampleManager.totalMemoryUsage sm'
       = SampleManager.totalMemoryUsage sm
         + 2 * (SampleManager.bufferLength made * 1 * 4).
Proof.
  intros Hmiss Hsample Hmade Hroom.
  pose proof (SampleManagerFacts.createAudioBuffer_Ok _ _ _ Hmade) as (Hshape & _).
  assert (Hchannels : SampleManager.numberOfChannels made = 1) by now rewrite Hshape.
  unfold loadPair.
  rewrite (loadSampleBegin_miss _ _ _ _ _ _ Hmiss Hsample Hmade).
  cbn beta iota.
  rewrite (loadSampleBegin_miss _ _ _ _ _ _ Hmiss Hsample Hmade).
  cbn [SampleManager.loadSampleEnd bind snd].
  rewrite addToCache_below by lia. cbn [bind snd].
  rewrite addToCache_below.
  2:{ unfold SampleManager.cacheSize. cbn [SampleManager.cache SampleManager.maxCacheSize].
      rewrite (cacheSet_absent _ _ _ Hmiss), length_app.
      unfold SampleManager.cacheSize in Hroom. simpl. lia. }
  cbn [bind snd]. eexists. split; [reflexivity|].
  cbn [SampleManager.cache SampleManager.totalMemoryUsage
       SampleManager.maxCacheSize SampleManager.sf2Data].
  rewrite SampleManagerFacts.cacheSet_twice, Hchannels.
  rewrite (cacheSet_absent _ _ _ Hmiss).
  split; [reflexivity|]. split.
  - unfold SampleManager.cacheSize. cbn [SampleManager.cache].
    rewrite length_app. simpl. lia.
  - lia.
Qed.

(** Sample 0 of the example bank, 4 frames of 4 bytes, loaded as both
    halves of a pair: one entry, 32 bytes counted. *)
Lemma loadPair_same_sample_counts_twice_witness :
  exists sample made sm',
    SampleManager.getSampleData
      (SampleManager.new ExampleBank.parsed (SampleManager.mkConfig None)) 0
    = Some sample
    /\ SampleManager.createAudioBuffer ExampleBank.context sample = Ok made
    /\ loadPair ExampleBank.context
         (SampleManager.new ExampleBank.parsed (SampleManager.mkConfig None)) 0 0 5
       = (Ok tt, Ok sm')
    /\ SampleManager.cacheSize sm' = 1
    /\ SampleManager.totalMemoryUsage sm' = 32.
Proof.
  exists (mkSample "L" [100; 200; 300; 400]
            (mkSampleHeader 0 4 1 3 44100 60 0 None None)).
  eexists.
  assert (Hsample : SampleManager.getSampleData
                      (SampleManager.new ExampleBank.parsed
                         (SampleManager.mkConfig None)) 0
                    = Some (mkSample "L" [100; 200; 300; 400]
                              (mkSampleHeader 0 4 1 3 44100 60 0 None None)))
    by reflexivity.
  assert (Hmade : SampleManager.createAudioBuffer ExampleBank.context
                    (mkSample "L" [100; 200; 300; 400]
                       (mkSampleHeader 0 4 1 3 44100 60 0 None None)) = Ok _)
    by reflexivity.
  destruct (loadPair_same_sample_counts_twice ExampleBank.context
              (SampleManager.new ExampleBank.parsed (SampleManager.mkConfig None))
              0 5 _ _ eq_refl Hsample Hmade)
    as (sm' & Hpair & _ & Hsize & Htotal).
  - cbn. lia.
  - exists sm'. split; [exact Hsample|]. split; [exact Hmade|].
    split; [exact Hpair|]. split; [exact Hsize | exact Htotal].
Defined.

End StereoManagerFacts.

Module SoundEngineFacts.
Import SoundEngine.
Local Open Scope Z_scope.
Local Open Scope result_scope.

(** Evaluates the engine on a concrete input, leaving the arithmetic of the
    reals alone. *)
Ltac eval_engine :=
  lazy -[Rlt_dec Rle_dec Req_dec_T Rplus Rminus Rmult Rdiv Rinv Ropp IZR Rpower pow
         PitchCalculator.calculatePlaybackRate
         EnvelopeCalculator.calculateReleaseTime].

(** The same, leaving the choice of the voice to steal alone as well. *)
Ltac eval_engine_but_steal :=
  lazy -[stealTarget
         Rlt_dec Rle_dec Req_dec_T Rplus Rminus Rmult Rdiv Rinv Ropp IZR Rpower pow
         PitchCalculator.calculatePlaybackRate
         EnvelopeCalculator.calculateReleaseTime].

(** Settles the comparisons of reals in the goal, innermost first. *)
Ltac decide_Rlt :=
  repeat match goal with
    | |- context [Rlt_dec ?a ?b] =>
        lazymatch a with
        | context [Rlt_dec] => fail
        | _ =>
            lazymatch b with
            | context [Rlt_dec] => fail
            | _ =>
                destruct (Rlt_dec a b) as [?|?];
                [try (exfalso; lra) | try (exfalso; lra)];
                cbv beta iota
            end
        end
    end.

(** *** The registry *)

Lemma fold_total m : forall total,
  fold_left (fun total (entry : Z * list Voice) =>
               total + Z.of_nat (List.length (snd entry))) m total
  = total + Z.of_nat (List.length (allVoices m)).
Proof.
  induction m as [|[k vs] rest IH]; intros total; simpl.
  - lia.
  - rewrite IH. unfold allVoices. simpl. rewrite length_app. lia.
Qed.

Lemma totalVoices_length st :
  totalVoices st = Z.of_nat (List.length (allVoices (voices st))).
Proof. unfold totalVoices. now rewrite fold_total. Qed.

Lemma allVoices_cons k vs m : allVoices ((k, vs) :: m) = (vs ++ allVoices m)%list.
Proof. reflexivity. Qed.

Lemma voicesGet_set_same m : forall note vs,
  voicesGet (voicesSet m note vs) note = Some vs.
Proof.
  induction m as [|[k old] rest IH]; intros note vs; simpl.
  - now rewrite Z.eqb_refl.
  - destruct (k =? note) eqn:Hk; simpl; rewrite Hk; [reflexivity | apply IH].
Qed.

Lemma voicesGet_set_other m : forall note vs other,
  other <> note -> voicesGet (voicesSet m note vs) other = voicesGet m other.
Proof.
  induction m as [|[k old] rest IH]; intros note vs other Hne; simpl.
  - destruct (note =? other) eqn:Hk; [|reflexivity].
    apply Z.eqb_eq in Hk. congruence.
  - destruct (k =? note) eqn:Hk; simpl.
    + apply Z.eqb_eq in Hk. subst k.
      destruct (note =? other) eqn:Hk'; [|reflexivity].
      apply Z.eqb_eq in Hk'. congruence.
    + destruct (k =? other); [reflexivity | now apply IH].
Qed.

Lemma voicesSet_length_present m : forall note old vs,
  voicesGet m note = Some old ->
  (List.length (allVoices (voicesSet m note vs)) + List.length old
   = List.length (allVoices m) + List.length vs)%nat.
Proof.
  induction m as [|[k o] rest IH]; intros note old vs; simpl; [discriminate|].
  destruct (k =? note) eqn:Hk.
  - intros [= ->]. rewrite !allVoices_cons, !length_app. lia.
  - intros H. rewrite !allVoices_cons, !length_app. specialize (IH _ _ vs H). lia.
Qed.

Lemma voicesSet_length_absent m : forall note vs,
  voicesGet m note = None ->
  List.length (allVoices (voicesSet m note vs))
  = (List.length (allVoices m) + List.length vs)%nat.
Proof.
  induction m as [|[k o] rest IH]; intros note vs; simpl.
  - intros _. unfold allVoices. simpl. rewrite length_app. simpl. lia.
  - destruct (k =? note) eqn:Hk; [discriminate|].
    intros H. rewrite !allVoices_cons, !length_app, IH by assumption. lia.
Qed.

Lemma voicesSet_same m : forall note vs,
  voicesGet m note = Some vs -> voicesSet m note vs = m.
Proof.
  induction m as [|[k o] rest IH]; intros note vs; simpl; [discriminate|].
  destruct (k =? note) eqn:Hk.
  - now intros [= ->].
  - intros H. now rewrite IH.
Qed.

Lemma voicesSet_twice m : forall note vs vs',
  voicesSet (voicesSet m note vs) note vs' = voicesSet m note vs'.
Proof.
  induction m as [|[k o] rest IH]; intros note vs vs'; simpl.
  - now rewrite Z.eqb_refl.
  - destruct (k =? note) eqn:Hk; simpl; rewrite Hk; [reflexivity | now rewrite IH].
Qed.

(** *** removeVoice *)

Lemma spliceVoice_length voice vs :
  existsb (isVoice voice) vs = true ->
  List.length vs = S (List.length (spliceVoice voice vs)).
Proof.
  induction vs as [|v rest IH]; simpl; [discriminate|].
  destruct (isVoice voice v); simpl; [reflexivity|]. intros H. now rewrite <- IH.
Qed.

Lemma removeFromRegistry_length voice m :
  List.length (allVoices m)
  = ((if existsb (isVoice voice) (allVoices m) then 1 else 0)
     + List.length (allVoices (fst (removeFromRegistry voice m))))%nat.
Proof.
  induction m as [|[k vs] rest IH]; [reflexivity|].
  cbn [removeFromRegistry]. rewrite allVoices_cons, existsb_app.
  destruct (existsb (isVoice voice) vs) eqn:Hin; cbn [orb].
  - pose proof (spliceVoice_length voice vs Hin) as Hlen.
    destruct (spliceVoice voice vs) as [|v vs'] eqn:Hsp; cbn [fst].
    + rewrite length_app, Hlen. cbn [List.length]. lia.
    + rewrite allVoices_cons, !length_app, Hlen. cbn [List.length]. lia.
  - destruct (removeFromRegistry voice rest) as [rest' deleted]. cbn [fst] in *.
    rewrite allVoices_cons, !length_app. lia.
Qed.

Lemma removeVoice_voices voice st :
  voices (removeVoice voice st) = fst (removeFromRegistry voice (voices st)).
Proof.
  unfold removeVoice. cbn [emit voices].
  destruct (removeFromRegistry voice (voices st)) as [m [deleted|]]; reflexivity.
Qed.

Lemma removeVoice_maxPolyphony voice st :
  maxPolyphony (removeVoice voice st) = maxPolyphony st.
Proof.
  unfold removeVoice. cbn [emit voices].
  destruct (removeFromRegistry voice (voices st)) as [m [deleted|]]; reflexivity.
Qed.

Lemma removeVoice_sampleManager voice st :
  sampleManager (removeVoice voice st) = sampleManager st.
Proof.
  unfold removeVoice. cbn [emit voices].
  destruct (removeFromRegistry voice (voices st)) as [m [deleted|]]; reflexivity.
Qed.

Lemma removeVoice_total voice st :
  totalVoices st
  = (if existsb (isVoice voice) (allVoices (voices st)) then 1 else 0)
    + totalVoices (removeVoice voice st).
Proof.
  rewrite !totalVoices_length, removeVoice_voices.
  rewrite (removeFromRegistry_length voice (voices st)) at 1.
  destruct (existsb _ _); lia.
Qed.

(** *** Voice stealing *)

Local Open Scope R_scope.

(** Once a voice is held, the loop ends holding a voice: the one held or a
    later one, of a priority no higher than any it has seen. *)
Lemma fold_consider_some currentTime l : forall v p,
  exists v' p',
    fold_left (consider currentTime) l (Some v, Some p) = (Some v', Some p')
    /\ (v' = v \/ In v' l)
    /\ p' <= p
    /\ (forall u, In u l -> p' <= priority currentTime u)
    /\ (p = priority currentTime v -> p' = priority currentTime v').
Proof.
  induction l as [|u rest IH]; intros v p; simpl.
  - exists v, p. repeat split; auto; try lra. contradiction.
  - unfold consider at 2. cbn [snd below].
    destruct (Rlt_dec (priority currentTime u) p) as [Hlt|Hge].
    + destruct (IH u (priority currentTime u)) as (v' & p' & Hfold & Hin & Hle & Hall & Hp).
      exists v', p'. rewrite Hfold. repeat split; auto; try lra.
      * destruct Hin as [->|Hin]; auto.
      * intros w [<-|Hw]; [lra | auto].
    + destruct (IH v p) as (v' & p' & Hfold & Hin & Hle & Hall & Hp).
      exists v', p'. rewrite Hfold. repeat split; auto.
      * destruct Hin as [->|Hin]; auto.
      * intros w [<-|Hw]; [lra | auto].
Qed.

(** With a voice in the registry, [stealOldestVoice] finds its target: a
    voice of the registry whose priority is the lowest. *)
Lemma stealTarget_lowest currentTime m :
  allVoices m <> [] ->
  exists target,
    stealTarget currentTime m = Some target
    /\ In target (allVoices m)
    /\ forall v, In v (allVoices m) ->
         priority currentTime target <= priority currentTime v.
Proof.
  unfold stealTarget. destruct (allVoices m) as [|v rest]; [congruence|]. intros _.
  simpl. unfold consider at 2. cbn [snd below].
  destruct (fold_consider_some currentTime rest v (priority currentTime v))
    as (v' & p' & Hfold & Hin & Hle & Hall & Hp).
  exists v'. rewrite Hfold. specialize (Hp eq_refl). subst p'.
  repeat split; auto.
  - destruct Hin as [->|Hin]; auto.
  - intros w [<-|Hw]; auto.
Qed.

Local Close Scope R_scope.

Lemma In_existsb_isVoice voice l :
  In voice l -> existsb (isVoice voice) l = true.
Proof.
  intros Hin. apply existsb_exists. exists voice. split; [assumption|].
  unfold isVoice. apply Z.eqb_refl.
Qed.

Lemma emit_total st events : totalVoices (emit st events) = totalVoices st.
Proof. reflexivity. Qed.

(** A steal takes exactly one voice out of a registry that has one. *)
Lemma stealOldestVoice_total currentTime st :
  allVoices (voices st) <> [] ->
  totalVoices st = 1 + totalVoices (stealOldestVoice currentTime st).
Proof.
  intros Hne. destruct (stealTarget_lowest currentTime _ Hne) as (target & Htarget & Hin & _).
  unfold stealOldestVoice. rewrite Htarget.
  rewrite <- (emit_total st [Stop (id target) LeftSource None;
                             Stop (id target) RightSource None]) at 1.
  rewrite (removeVoice_total target).
  cbn [emit voices]. now rewrite In_existsb_isVoice.
Qed.

Lemma stealOldestVoice_maxPolyphony currentTime st :
  maxPolyphony (stealOldestVoice currentTime st) = maxPolyphony st.
Proof.
  unfold stealOldestVoice. destruct (stealTarget _ _); [|reflexivity].
  now rewrite removeVoice_maxPolyphony.
Qed.

Lemma stealOldestVoice_sampleManager currentTime st :
  sampleManager (stealOldestVoice currentTime st) = sampleManager st.
Proof.
  unfold stealOldestVoice. destruct (stealTarget _ _); [|reflexivity].
  now rewrite removeVoice_sampleManager.
Qed.

(** [checkPolyphonyLimit] steals one voice when the registry is at or over
    a limit of at least 1, and does nothing below the limit. *)
Lemma checkPolyphonyLimit_spec currentTime st :
  0 < maxPolyphony st ->
  (maxPolyphony st <= totalVoices st ->
   totalVoices (checkPolyphonyLimit currentTime st) = totalVoices st - 1)
  /\ (totalVoices st < maxPolyphony st -> checkPolyphonyLimit currentTime st = st).
Proof.
  intros Hmax. unfold checkPolyphonyLimit. split; intros H.
  - destruct (totalVoices st >=? maxPolyphony st) eqn:Hfull.
    + assert (Hne : allVoices (voices st) <> []).
      { intros Hnil. rewrite totalVoices_length, Hnil in H. simpl in H. lia. }
      pose proof (stealOldestVoice_total currentTime st Hne). lia.
    + rewrite Z.geb_leb in Hfull. apply Z.leb_gt in Hfull. lia.
  - destruct (totalVoices st >=? maxPolyphony st) eqn:Hfull; [|reflexivity].
    rewrite Z.geb_leb in Hfull. apply Z.leb_le in Hfull. lia.
Qed.

Lemma checkPolyphonyLimit_maxPolyphony currentTime st :
  maxPolyphony (checkPolyphonyLimit currentTime st) = maxPolyphony st.
Proof.
  unfold checkPolyphonyLimit. destruct (_ >=? _); [|reflexivity].
  apply stealOldestVoice_maxPolyphony.
Qed.

Lemma checkPolyphonyLimit_sampleManager currentTime st :
  sampleManager (checkPolyphonyLimit currentTime st) = sampleManager st.
Proof.
  unfold checkPolyphonyLimit. destruct (_ >=? _); [|reflexivity].
  apply stealOldestVoice_sampleManager.
Qed.

(** *** Release *)

Lemma releaseVoice_releasing currentTime voice :
  isReleasing (fst (releaseVoice currentTime voice)) = true.
Proof.
  unfold releaseVoice. destruct (isReleasing voice) eqn:H; [exact H | reflexivity].
Qed.

Lemma releaseVoice_noop currentTime voice :
  isReleasing voice = true -> releaseVoice currentTime voice = (voice, []).
Proof. intros H. unfold releaseVoice. now rewrite H. Qed.

Lemma releaseVoices_fst currentTime vs :
  fst (releaseVoices currentTime vs)
  = map (fun v => fst (releaseVoice currentTime v)) vs.
Proof.
  induction vs as [|v rest IH]; simpl; [reflexivity|].
  destruct (releaseVoice currentTime v) as [v' events].
  destruct (releaseVoices currentTime rest) as [rest' events'].
  simpl in *. now rewrite IH.
Qed.

Lemma releaseVoices_length currentTime vs :
  List.length (fst (releaseVoices currentTime vs)) = List.length vs.
Proof. rewrite releaseVoices_fst. apply length_map. Qed.

Lemma releaseVoices_releasing currentTime vs :
  Forall (fun v => isReleasing v = true) (fst (releaseVoices currentTime vs)).
Proof.
  rewrite releaseVoices_fst. apply Forall_map, Forall_forall.
  intros v _. apply releaseVoice_releasing.
Qed.

Lemma releaseVoices_noop currentTime vs :
  Forall (fun v => isReleasing v = true) vs ->
  releaseVoices currentTime vs = (vs, []).
Proof.
  induction 1 as [|v rest Hv _ IH]; simpl; [reflexivity|].
  now rewrite releaseVoice_noop, IH.
Qed.

Lemma emit_nothing st : emit (setVoices st (voices st)) [] = st.
Proof. destruct st. unfold emit, setVoices. cbn. now rewrite app_nil_r. Qed.

(** What [releaseNote] makes of the registry: the voices of the note are
    released, the others are as before. *)
Lemma releaseNote_voices currentTime midiNote st :
  voices (releaseNote currentTime midiNote st)
  = match voicesGet (voices st) midiNote with
    | Some noteVoices =>
        voicesSet (voices st) midiNote (fst (releaseVoices currentTime noteVoices))
    | None => voices st
    end.
Proof.
  unfold releaseNote.
  destruct (voicesGet (voices st) midiNote) as [[|v rest]|] eqn:Hget;
    [symmetry; now apply voicesSet_same | | reflexivity].
  destruct (releaseVoices currentTime (v :: rest)) as [noteVoices' events].
  reflexivity.
Qed.

Lemma releaseNote_get_same currentTime midiNote st noteVoices :
  voicesGet (voices st) midiNote = Some noteVoices ->
  voicesGet (voices (releaseNote currentTime midiNote st)) midiNote
  = Some (fst (releaseVoices currentTime noteVoices)).
Proof.
  intros H. rewrite releaseNote_voices, H. apply voicesGet_set_same.
Qed.

Lemma releaseNote_get_other currentTime midiNote st other :
  other <> midiNote ->
  voicesGet (voices (releaseNote currentTime midiNote st)) other
  = voicesGet (voices st) other.
Proof.
  intros H. rewrite releaseNote_voices.
  destruct (voicesGet (voices st) midiNote); [|reflexivity].
  now apply voicesGet_set_other.
Qed.

Lemma releaseNote_fields currentTime midiNote st :
  sustainedNotes (releaseNote currentTime midiNote st) = sustainedNotes st
  /\ sustainPedal (releaseNote currentTime midiNote st) = sustainPedal st
  /\ maxPolyphony (releaseNote currentTime midiNote st) = maxPolyphony st
  /\ sampleManager (releaseNote currentTime midiNote st) = sampleManager st.
Proof.
  unfold releaseNote.
  destruct (voicesGet (voices st) midiNote) as [[|v rest]|]; auto.
  destruct (releaseVoices currentTime (v :: rest)) as [noteVoices' events].
  auto.
Qed.

Lemma releaseNote_total currentTime midiNote st :
  totalVoices (releaseNote currentTime midiNote st) = totalVoices st.
Proof.
  rewrite !totalVoices_length, releaseNote_voices.
  destruct (voicesGet (voices st) midiNote) as [noteVoices|] eqn:Hget; [|reflexivity].
  pose proof (voicesSet_length_present _ _ _
                (fst (releaseVoices currentTime noteVoices)) Hget) as H.
  rewrite releaseVoices_length in H. lia.
Qed.

(** After [releaseNote] every voice of the note is releasing. *)
Lemma releaseNote_releases currentTime midiNote st :
  Spec.allReleasing (releaseNote currentTime midiNote st) midiNote.
Proof.
  intros noteVoices. destruct (voicesGet (voices st) midiNote) as [vs|] eqn:Hget.
  - rewrite (releaseNote_get_same _ _ _ _ Hget). intros [= <-].
    apply releaseVoices_releasing.
  - unfold releaseNote. rewrite Hget. congruence.
Qed.

(** C9.  Releasing is idempotent.  After [releaseNote] every voice of the
    note is releasing; [releaseNote] leaves a voice that is releasing as it
    is and makes no call on its nodes; so a second [releaseNote] of the
    note changes nothing in the engine: no flag, no release time, no gain
    change, no stop. *)
Theorem releaseNote_idempotent
    (first second : R) (midiNote : Z) (st : State) :
  Spec.allReleasing (releaseNote first midiNote st) midiNote
  /\ (forall voice,
        isReleasing (fst (releaseVoice first voice)) = true
        /\ releaseVoice second (fst (releaseVoice first voice))
           = (fst (releaseVoice first voice), []))
  /\ releaseNote second midiNote (releaseNote first midiNote st)
     = releaseNote first midiNote st
  /\ audio (releaseNote second midiNote (releaseNote first midiNote st))
     = audio (releaseNote first midiNote st).
Proof.
  pose proof (releaseNote_releases first midiNote st) as Hall.
  assert (Hsame : releaseNote second midiNote (releaseNote first midiNote st)
                  = releaseNote first midiNote st).
  { set (st1 := releaseNote first midiNote st) in *.
    unfold releaseNote at 1.
    destruct (voicesGet (voices st1) midiNote) as [[|v rest]|] eqn:Hget; try reflexivity.
    rewrite (releaseVoices_noop second (v :: rest)) by (now apply Hall).
    rewrite (voicesSet_same _ _ _ Hget). apply emit_nothing. }
  split; [exact Hall|]. split.
  - intros voice. split; [apply releaseVoice_releasing|].
    apply releaseVoice_noop, releaseVoice_releasing.
  - split; [exact Hsame | now rewrite Hsame].
Qed.

(** *** The sustain pedal *)

Lemma setHas_In s note : setHas s note = true <-> In note s.
Proof.
  unfold setHas. rewrite existsb_exists. split.
  - intros (n & Hin & Heq). apply Z.eqb_eq in Heq. now subst.
  - intros Hin. exists note. split; [assumption | apply Z.eqb_refl].
Qed.

Lemma setAdd_In s note : In note (setAdd s note).
Proof.
  unfold setAdd. destruct (setHas s note) eqn:H.
  - now apply setHas_In.
  - apply in_or_app. right. now left.
Qed.

Lemma setAdd_length s note :
  Z.of_nat (List.length (setAdd s note))
  = Z.of_nat (List.length s) + (if setHas s note then 0 else 1).
Proof.
  unfold setAdd. destruct (setHas s note); [lia|].
  rewrite length_app. simpl. lia.
Qed.

Lemma releaseNote_allReleasing currentTime midiNote st held :
  held = midiNote \/ Spec.allReleasing st held ->
  Spec.allReleasing (releaseNote currentTime midiNote st) held.
Proof.
  intros H. destruct (Z.eq_dec held midiNote) as [->|Hne].
  - apply releaseNote_releases.
  - destruct H as [->|H]; [congruence|].
    intros noteVoices. rewrite releaseNote_get_other by assumption. apply H.
Qed.

Lemma fold_releaseNote_allReleasing currentTime notes : forall st held,
  In held notes \/ Spec.allReleasing st held ->
  Spec.allReleasing
    (fold_left (fun st midiNote => releaseNote currentTime midiNote st) notes st) held.
Proof.
  induction notes as [|n rest IH]; intros st held H; simpl.
  - destruct H as [[]|H]. exact H.
  - apply IH. destruct H as [[->|Hin]|H]; [right | now left | right].
    + apply releaseNote_allReleasing. now left.
    + apply releaseNote_allReleasing. now right.
Qed.

Lemma fold_releaseNote_pedal currentTime notes : forall st,
  sustainPedal
    (fold_left (fun st midiNote => releaseNote currentTime midiNote st) notes st)
  = sustainPedal st.
Proof.
  induction notes as [|n rest IH]; intros st; simpl; [reflexivity|].
  rewrite IH. apply releaseNote_fields.
Qed.

(** C8, as the engine has it.  For a note with live voices: a noteOff
    with the pedal down puts the note in the sustain set and leaves the
    voices and the audio graph alone, and the sustained count that
    [getStats] reports goes up by one if the note was not in the set, and
    stays if it was; a noteOff with the pedal up releases every voice of
    the note at once; and lifting the pedal releases every voice of every
    note of the sustain set and empties the set, so the count is 0. *)
Theorem sustain_pedal_defers_release
    (now : R) (midiNote : Z) (st : State) (noteVoices : list Voice) :
  voicesGet (voices st) midiNote = Some noteVoices ->
  noteVoices <> [] ->
  (sustainPedal st = true ->
   In midiNote (sustainedNotes (noteOff now midiNote st))
   /\ voices (noteOff now midiNote st) = voices st
   /\ audio (noteOff now midiNote st) = audio st
   /\ statsSustainedNotes (getStats (noteOff now midiNote st))
      = statsSustainedNotes (getStats st)
        + (if setHas (sustainedNotes st) midiNote then 0 else 1))
  /\ (sustainPedal st = false ->
      noteOff now midiNote st = releaseNote now midiNote st
      /\ Spec.allReleasing (noteOff now midiNote st) midiNote
      /\ sustainedNotes (noteOff now midiNote st) = sustainedNotes st)
  /\ (sustainPedal (setSustainPedal now false st) = false
      /\ sustainedNotes (setSustainPedal now false st) = []
      /\ statsSustainedNotes (getStats (setSustainPedal now false st)) = 0
      /\ forall held, In held (sustainedNotes st) ->
           Spec.allReleasing (setSustainPedal now false st) held).
Proof.
  intros Hget Hne.
  assert (Hoff : noteOff now midiNote st
                 = if sustainPedal st
                   then setSustainedNotes st (setAdd (sustainedNotes st) midiNote)
                   else releaseNote now midiNote st).
  { unfold noteOff. rewrite Hget. destruct noteVoices; [congruence | reflexivity]. }
  split; [|split].
  - intros Hdown. rewrite Hoff, Hdown. cbn [setSustainedNotes sustainedNotes voices audio].
    split; [apply setAdd_In|]. split; [reflexivity|]. split; [reflexivity|].
    unfold getStats. cbn [statsSustainedNotes sustainedNotes]. apply setAdd_length.
  - intros Hup. rewrite Hoff, Hup. split; [reflexivity|].
    split; [|apply releaseNote_fields].
    apply releaseNote_allReleasing. now left.
  - unfold setSustainPedal. cbn [negb].
    set (released := fold_left _ _ _).
    assert (Hpedal : sustainPedal released = false).
    { subst released. now rewrite fold_releaseNote_pedal. }
    split; [exact Hpedal|]. split; [reflexivity|]. split; [reflexivity|].
    intros held Hin noteVoices'. cbn [setSustainedNotes voices].
    apply (fold_releaseNote_allReleasing now (sustainedNotes (setPedal st false))
             (setPedal st false) held). now left.
Qed.

(** Struck, held by the pedal and let go, key 64 is sustained; a second
    noteOff for the key while the pedal is still down finds the note in the
    sustain set already, and the sustained count stays at 1. *)
Lemma noteOff_again_counterexample :
  exists st noteVoices,
    run ExampleBank.context ExampleBank.engine ExampleBank.heldByPedal = Ok st
    /\ voicesGet (voices st) 64 = Some noteVoices
    /\ noteVoices <> []
    /\ sustainPedal st = true
    /\ statsSustainedNotes (getStats st) = 1
    /\ In 64 (sustainedNotes (noteOff 3 64 st))
    /\ ~ (statsSustainedNotes (getStats st)
          < statsSustainedNotes (getStats (noteOff 3 64 st))).
Proof.
  eexists. eexists.
  split; [eval_engine; reflexivity|].
  split; [reflexivity|].
  split; [discriminate|].
  split; [reflexivity|].
  split; [reflexivity|].
  split; [now left|].
  cbn. lia.
Qed.

Lemma sustain_pedal_defers_release_witness :
  exists st noteVoices,
    run ExampleBank.context ExampleBank.engine
      [NoteOn 0 0 0 64 100; SetSustainPedal 1 true] = Ok st
    /\ voicesGet (voices st) 64 = Some noteVoices
    /\ noteVoices <> []
    /\ sustainPedal st = true
    /\ statsSustainedNotes (getStats (noteOff 2 64 st)) = 1
    /\ statsSustainedNotes
         (getStats (setSustainPedal 3 false (noteOff 2 64 st))) = 0
    /\ Spec.allReleasing (setSustainPedal 3 false (noteOff 2 64 st)) 64.
Proof.
  eexists. eexists.
  split; [eval_engine; reflexivity|].
  match goal with
  | |- voicesGet (voices ?st) 64 = Some ?vs /\ _ =>
      assert (Hget : voicesGet (voices st) 64 = Some vs) by reflexivity;
      assert (Hne : vs <> []) by discriminate;
      pose proof (sustain_pedal_defers_release 2 64 st vs Hget Hne) as (Hdown & _ & _);
      pose proof (sustain_pedal_defers_release 3 64 (noteOff 2 64 st) vs
                    (eq_trans (f_equal (fun m => voicesGet m 64)
                                 (proj1 (proj2 (Hdown eq_refl)))) Hget) Hne)
        as (_ & _ & Hlift)
  end.
  split; [exact Hget|]. split; [exact Hne|]. split; [reflexivity|].
  split; [exact (proj2 (proj2 (proj2 (Hdown eq_refl))))|].
  split; [exact (proj1 (proj2 (proj2 Hlift)))|].
  apply (proj2 (proj2 (proj2 Hlift))). apply (proj1 (Hdown eq_refl)).
Defined.

(** *** noteOn *)

Lemma loadPair_wf audioContext sm leftId rightId dateNow :
  Spec.cacheWellFormed sm ->
  fst (StereoManager.loadPair audioContext sm leftId rightId dateNow) <> Diverge
  /\ exists sm',
      snd (StereoManager.loadPair audioContext sm leftId rightId dateNow) = Ok sm'
      /\ Spec.cacheWellFormed sm'.
Proof.
  intros Hwf. unfold StereoManager.loadPair.
  destruct (SampleManagerFacts.loadSampleBegin_wf audioContext sm leftId dateNow Hwf)
    as (Hwf1 & _ & Hl).
  destruct (SampleManager.loadSampleBegin audioContext sm leftId dateNow) as [pl sm1].
  cbn [fst snd] in Hwf1, Hl.
  destruct (SampleManagerFacts.loadSampleBegin_wf audioContext sm1 rightId dateNow Hwf1)
    as (Hwf2 & _ & Hr).
  destruct (SampleManager.loadSampleBegin audioContext sm1 rightId dateNow) as [pr sm2].
  cbn [fst snd] in *.
  split.
  - destruct pl; [|discriminate|congruence]. destruct pr; [|discriminate|congruence].
    discriminate.
  - assert (H3 : exists sm3,
               match pl with
               | Ok p => r <- SampleManager.loadSampleEnd sm2 leftId p dateNow ;; Ok (snd r)
               | _ => Ok sm2
               end = Ok sm3 /\ Spec.cacheWellFormed sm3).
    { destruct pl as [p| |]; eauto.
      destruct (SampleManagerFacts.loadSampleEnd_ok sm2 leftId p dateNow Hwf2)
        as (b & sm3 & -> & Hwf3 & _). cbn. eauto. }
    destruct H3 as (sm3 & -> & Hwf3). cbn [bind].
    destruct pr as [p| |]; eauto.
    destruct (SampleManagerFacts.loadSampleEnd_ok sm3 rightId p dateNow Hwf3)
      as (b & sm4 & -> & Hwf4 & _). cbn. eauto.
Qed.

Lemma playStereoPair_ok audioContext sm fresh dateNow currentTime midiNote velocity zones :
  Spec.cacheWellFormed sm ->
  exists outcome sm',
    StereoManager.playStereoPair audioContext sm fresh dateNow currentTime
      midiNote velocity zones = Ok (outcome, sm')
    /\ Spec.cacheWellFormed sm'
    /\ outcome <> Diverge.
Proof.
  intros Hwf. unfold StereoManager.playStereoPair.
  destruct (StereoManager.stereoZones midiNote zones) as [[[leftZone leftId] rightId]|m|] eqn:Hz.
  - destruct (loadPair_wf audioContext sm leftId rightId dateNow Hwf) as (Hl & sm' & Hs & Hwf').
    destruct (StereoManager.loadPair audioContext sm leftId rightId dateNow) as [loaded r].
    cbn [fst snd] in *. subst r. cbn [bind].
    eexists. eexists. split; [reflexivity|]. split; [assumption|].
    destruct loaded; [|discriminate|congruence]. cbn [bind].
    destruct (SampleManager.getSampleData sm' leftId); discriminate.
  - eexists. eexists. split; [reflexivity|]. split; [assumption | discriminate].
  - exfalso. unfold StereoManager.stereoZones in Hz.
    destruct (find _ zones) as [l|]; destruct (find _ zones) as [r|]; try discriminate.
    destruct (sampleId l); destruct (sampleId r); discriminate.
Qed.

Lemma registerVoice_total midiNote voice st :
  totalVoices (registerVoice midiNote voice st) = totalVoices st + 1.
Proof.
  rewrite !totalVoices_length. unfold registerVoice. cbn [setVoices voices].
  destruct (voicesGet (voices st) midiNote) as [vs|] eqn:Hget.
  - rewrite Hget.
    pose proof (voicesSet_length_present _ _ _ (vs ++ [voice])%list Hget) as H.
    rewrite length_app in H. simpl in H. lia.
  - rewrite voicesGet_set_same, voicesSet_twice.
    rewrite voicesSet_length_absent by assumption. simpl. lia.
Qed.

(** [noteOn] ends, and leaves the engine well formed: whatever it adds to
    the registry, it adds after [checkPolyphonyLimit], and it adds at most
    one voice. *)
Lemma noteOn_wf audioContext now startTime dateNow midiNote velocity st :
  Spec.engineWellFormed st ->
  exists st',
    noteOn audioContext now startTime dateNow midiNote velocity st = Ok st'
    /\ Spec.engineWellFormed st'
    /\ maxPolyphony st' = maxPolyphony st
    /\ (totalVoices st' = totalVoices st
        \/ totalVoices st' = totalVoices (checkPolyphonyLimit now st)
        \/ totalVoices st' = totalVoices (checkPolyphonyLimit now st) + 1).
Proof.
  intros Hwf. pose proof Hwf as (Hmax & Htotal & Hcache). unfold noteOn.
  destruct ((midiNote <? 21) || (midiNote >? 108));
    [eexists; split; [reflexivity|];
     split; [exact Hwf | split; [reflexivity | left; reflexivity]]|].
  destruct ((velocity <? 0) || (velocity >? 127));
    [eexists; split; [reflexivity|];
     split; [exact Hwf | split; [reflexivity | left; reflexivity]]|].
  destruct (selectZones (sf2Data st) midiNote velocity) as [|zone zones] eqn:Hzones;
    [eexists; split; [reflexivity|];
     split; [exact Hwf | split; [reflexivity | left; reflexivity]]|].
  set (st1 := fadeExisting now midiNote st).
  assert (H1 : voices st1 = voices st /\ maxPolyphony st1 = maxPolyphony st
               /\ sampleManager st1 = sampleManager st /\ nextVoice st1 = nextVoice st).
  { subst st1. unfold fadeExisting. destruct (voicesGet _ _); auto. }
  destruct H1 as (Hv1 & Hm1 & Hs1 & Hn1).
  assert (Ht1 : totalVoices st1 = totalVoices st) by (unfold totalVoices; now rewrite Hv1).
  assert (Hc1 : totalVoices (checkPolyphonyLimit now st1)
                = totalVoices (checkPolyphonyLimit now st)).
  { unfold checkPolyphonyLimit. rewrite Ht1, Hm1.
    destruct (_ >=? _); [|assumption].
    unfold stealOldestVoice. rewrite Hv1.
    destruct (stealTarget now (voices st)) as [target|]; [|assumption].
    rewrite !totalVoices_length, !removeVoice_voices. cbn [emit voices]. now rewrite Hv1. }
  set (st2 := checkPolyphonyLimit now st1) in *.
  assert (Hm2 : maxPolyphony st2 = maxPolyphony st).
  { subst st2. now rewrite checkPolyphonyLimit_maxPolyphony. }
  assert (Hs2 : sampleManager st2 = sampleManager st).
  { subst st2. now rewrite checkPolyphonyLimit_sampleManager. }
  assert (Ht2 : totalVoices st2 < maxPolyphony st \/ totalVoices st2 = totalVoices st - 1).
  { subst st2. destruct (checkPolyphonyLimit_spec now st1) as (Hsteal & Hkeep); [lia|].
    destruct (Z_lt_le_dec (totalVoices st1) (maxPolyphony st1)) as [Hlt|Hge].
    - left. rewrite (Hkeep Hlt). lia.
    - right. rewrite (Hsteal Hge). lia. }
  rewrite Hs2 in *.
  destruct (playStereoPair_ok audioContext (sampleManager st) (nextVoice st2) dateNow
              startTime midiNote velocity (zone :: zones) Hcache)
    as (outcome & sm' & Hplay & Hwf' & Hout).
  rewrite Hplay. cbn [bind].
  destruct outcome as [[voice started]| message |]; [| |congruence].
  - eexists. split; [reflexivity|].
    unfold Spec.engineWellFormed.
    cbn [setSustainedNotes maxPolyphony sampleManager].
    assert (Hreg : forall s notes, totalVoices (setSustainedNotes s notes) = totalVoices s)
      by reflexivity.
    rewrite Hreg, registerVoice_total.
    change (totalVoices (bumpNextVoice (emit (setSampleManager st2 sm') started)))
      with (totalVoices st2).
    change (maxPolyphony (registerVoice midiNote voice
                            (bumpNextVoice (emit (setSampleManager st2 sm') started))))
      with (maxPolyphony st2).
    change (sampleManager (registerVoice midiNote voice
                             (bumpNextVoice (emit (setSampleManager st2 sm') started))))
      with sm'.
    rewrite Hm2. split; [|split]; [split; [|split] | reflexivity |];
      try assumption; lia.
  - eexists. split; [reflexivity|].
    unfold Spec.engineWellFormed.
    change (totalVoices (log (setSampleManager st2 sm') _)) with (totalVoices st2).
    cbn [log setSampleManager maxPolyphony sampleManager].
    rewrite Hm2. split; [|split]; [split; [|split] | reflexivity |];
      try assumption; lia.
Qed.

(** *** Every event keeps the engine well formed *)

Lemma wf_of st st' :
  maxPolyphony st' = maxPolyphony st ->
  sampleManager st' = sampleManager st ->
  totalVoices st' <= totalVoices st ->
  Spec.engineWellFormed st -> Spec.engineWellFormed st'.
Proof.
  intros Hm Hs Ht (Hmax & Htotal & Hcache). unfold Spec.engineWellFormed.
  rewrite Hm, Hs. split; [assumption|]. split; [lia | assumption].
Qed.

Lemma fold_releaseNote_fields currentTime notes : forall st,
  let st' := fold_left (fun st midiNote => releaseNote currentTime midiNote st) notes st in
  maxPolyphony st' = maxPolyphony st
  /\ sampleManager st' = sampleManager st
  /\ totalVoices st' = totalVoices st.
Proof.
  induction notes as [|n rest IH]; intros st; simpl; [auto|].
  destruct (IH (releaseNote currentTime n st)) as (Hm & Hs & Ht).
  destruct (releaseNote_fields currentTime n st) as (_ & _ & Hm' & Hs').
  rewrite Hm, Hs, Ht, Hm', Hs', releaseNote_total. auto.
Qed.

Lemma moveGain_total voice value st : totalVoices (moveGain voice value st) = totalVoices st.
Proof.
  rewrite !totalVoices_length. unfold moveGain. cbn [setVoices voices].
  induction (voices st) as [|[k vs] rest IH]; [reflexivity|].
  cbn [map fst snd]. rewrite !allVoices_cons, !length_app, length_map. lia.
Qed.

Lemma engine_step_wf audioContext st e :
  Spec.engineWellFormed st ->
  exists st',
    step audioContext st e = Ok st'
    /\ Spec.engineWellFormed st'
    /\ maxPolyphony st' = maxPolyphony st.
Proof.
  intros Hwf.
  destruct e as [now startTime dateNow midiNote velocity | now midiNote | now isDown
                | now | | volume | voice | voice value]; cbn [step].
  - destruct (noteOn_wf audioContext now startTime dateNow midiNote velocity st Hwf)
      as (st' & Hon & Hwf' & Hmax & _). eauto.
  - eexists. split; [reflexivity|]. unfold noteOff.
    destruct (voicesGet (voices st) midiNote) as [[|v vs]|]; auto.
    destruct (sustainPedal st); [auto|].
    destruct (releaseNote_fields now midiNote st) as (_ & _ & Hm & Hs).
    split; [|assumption].
    apply (wf_of st); [assumption | assumption | | assumption].
    rewrite releaseNote_total. lia.
  - eexists. split; [reflexivity|]. unfold setSustainPedal.
    destruct isDown; cbn [negb]; [auto|].
    destruct (fold_releaseNote_fields now (sustainedNotes (setPedal st false))
                (setPedal st false)) as (Hm & Hs & Ht).
    split; [|exact Hm].
    apply (wf_of st); [exact Hm | exact Hs | | assumption].
    change (totalVoices (setSustainedNotes ?s [])) with (totalVoices s).
    rewrite Ht. apply Z.le_refl.
  - eexists. split; [reflexivity|]. unfold allNotesOff.
    destruct (fold_releaseNote_fields now (map fst (voices st)) st) as (Hm & Hs & Ht).
    split; [|exact Hm].
    apply (wf_of st); [exact Hm | exact Hs | | assumption].
    change (totalVoices (setSustainedNotes ?s [])) with (totalVoices s).
    rewrite Ht. apply Z.le_refl.
  - eexists. split; [reflexivity|]. split; [|reflexivity].
    apply (wf_of st); [reflexivity | reflexivity | | assumption].
    rewrite (totalVoices_length st). cbn. lia.
  - eexists. split; [reflexivity|]. auto.
  - eexists. split; [reflexivity|]. split; [|apply removeVoice_maxPolyphony].
    apply (wf_of st);
      [apply removeVoice_maxPolyphony | apply removeVoice_sampleManager | | assumption].
    rewrite (removeVoice_total voice st). destruct (existsb _ _); lia.
  - eexists. split; [reflexivity|]. split; [|reflexivity].
    apply (wf_of st); [reflexivity | reflexivity | | assumption].
    rewrite moveGain_total. apply Z.le_refl.
Qed.

Lemma engine_run_wf audioContext events : forall st,
  Spec.engineWellFormed st ->
  exists st',
    run audioContext st events = Ok st'
    /\ Spec.engineWellFormed st'
    /\ maxPolyphony st' = maxPolyphony st.
Proof.
  induction events as [|e rest IH]; intros st Hwf; simpl; [eauto|].
  destruct (engine_step_wf audioContext st e Hwf) as (st1 & -> & Hwf1 & Hmax1).
  destruct (IH st1 Hwf1) as (st' & Hrun & Hwf' & Hmax'). cbn [bind].
  exists st'. split; [assumption|]. split; [assumption | congruence].
Qed.

Lemma engine_new_wf sm sf2Data config :
  Spec.cacheWellFormed sm ->
  0 < maxPolyphony (new sm sf2Data config) ->
  Spec.engineWellFormed (new sm sf2Data config).
Proof.
  intros Hcache Hmax. split; [assumption|]. split; [|assumption].
  rewrite totalVoices_length. cbn [new voices allVoices map List.concat List.length Z.of_nat].
  lia.
Qed.

(** For calls each awaited before the next.  An engine made with a
    polyphony limit of at least 1 (64 when none is configured) never holds
    more voices than its limit, whatever notes are struck and whatever else
    happens to it.  In every state it reaches, [checkPolyphonyLimit] steals
    exactly one voice when the registry holds as many voices as the limit,
    and none when it holds fewer; and a [noteOn] ends with at most one voice
    more than the check left, within the limit. *)
Theorem polyphony_within_limit
    (audioContext : AudioContext) (sm : SampleManager.State) (sf2Data : SF2Data)
    (config : SoundEngineConfig) (events : list Event) :
  Spec.cacheWellFormed sm ->
  0 < maxPolyphony (new sm sf2Data config) ->
  maxPolyphony (new sm sf2Data (mkConfig None)) = 64
  /\ exists st,
      run audioContext (new sm sf2Data config) events = Ok st
      /\ maxPolyphony st = maxPolyphony (new sm sf2Data config)
      /\ activeVoices (getStats st) <= statsMaxPolyphony (getStats st)
      /\ (forall now,
            (maxPolyphony st <= totalVoices st ->
             totalVoices (checkPolyphonyLimit now st) = totalVoices st - 1)
            /\ (totalVoices st < maxPolyphony st -> checkPolyphonyLimit now st = st))
      /\ (forall now startTime dateNow midiNote velocity,
            exists st',
              noteOn audioContext now startTime dateNow midiNote velocity st = Ok st'
              /\ totalVoices st' <= totalVoices (checkPolyphonyLimit now st) + 1
              /\ totalVoices st' <= maxPolyphony st').
Proof.
  intros Hcache Hmax. split; [reflexivity|].
  destruct (engine_run_wf audioContext events _ (engine_new_wf sm sf2Data config Hcache Hmax))
    as (st & Hrun & Hwf & Hsame).
  exists st. split; [assumption|]. split; [assumption|].
  split; [apply Hwf|]. split.
  - intros now. apply checkPolyphonyLimit_spec, Hwf.
  - intros now startTime dateNow midiNote velocity.
    destruct (noteOn_wf audioContext now startTime dateNow midiNote velocity st Hwf)
      as (st' & Hon & Hwf' & Hmax' & Hcount).
    exists st'. split; [assumption|]. split; [|apply Hwf'].
    destruct (checkPolyphonyLimit_spec now st (proj1 Hwf)) as (Hsteal & Hkeep).
    destruct (Z_lt_le_dec (totalVoices st) (maxPolyphony st)) as [Hlt|Hge].
    + rewrite (Hkeep Hlt) in *. lia.
    + rewrite (Hsteal Hge) in *. destruct Hwf as (_ & Hle & _). lia.
Qed.

Lemma polyphony_within_limit_witness :
  Spec.cacheWellFormed
    (SampleManager.new ExampleBank.parsed (SampleManager.mkConfig None))
  /\ 0 < maxPolyphony ExampleBank.engineOfFour
  /\ exists st,
      run ExampleBank.context ExampleBank.engineOfFour
        (ExampleBank.fourNotes ++ [ExampleBank.fifthNote]) = Ok st
      /\ activeVoices (getStats st) <= statsMaxPolyphony (getStats st).
Proof.
  assert (Hcache : Spec.cacheWellFormed
                     (SampleManager.new ExampleBank.parsed (SampleManager.mkConfig None))).
  { split; [reflexivity|]. split; [discriminate | constructor]. }
  assert (Hmax : 0 < maxPolyphony ExampleBank.engineOfFour) by reflexivity.
  split; [exact Hcache|]. split; [exact Hmax|].
  destruct (polyphony_within_limit ExampleBank.context _ ExampleBank.parsed
              (mkConfig (Some 4)) (ExampleBank.fourNotes ++ [ExampleBank.fifthNote])
              Hcache Hmax)
    as (_ & st & Hrun & _ & Hle & _).
  exists st. split; assumption.
Defined.

(** C3.  The limit is not kept when calls overlap.  On an engine limited
    to four voices, six [noteOn] are called one after the other and none is
    awaited: each runs [checkPolyphonyLimit] when it is called, before any
    of them has registered its voice, so each finds an empty registry and
    steals nothing; each registers its voice when it resumes, and when all
    six have returned the registry holds six voices.  The same six calls,
    each awaited before the next, leave no more than four. *)
Theorem overlapping_noteOn_exceeds_limit :
  maxPolyphony ExampleBank.engineOfFour = 4
  /\ (exists m,
        runTurns ExampleBank.context (mkMachine ExampleBank.engineOfFour [])
          (ExampleBank.chordCalled ++ ExampleBank.chordResumed) = Ok m
        /\ map stage (inFlight m) = repeat Returned 6
        /\ console (engine m) = []
        /\ Forall (fun call => match call with Stop _ _ _ => False | _ => True end)
             (audio (engine m))
        /\ activeVoices (getStats (engine m)) = 6
        /\ statsMaxPolyphony (getStats (engine m)) = 4)
  /\ (exists st,
        run ExampleBank.context ExampleBank.engineOfFour ExampleBank.chordAwaited
        = Ok st
        /\ activeVoices (getStats st) <= 4
        /\ statsMaxPolyphony (getStats st) = 4).
Proof.
  split; [reflexivity|]. split.
  - assert (H : { m | runTurns ExampleBank.context
                        (mkMachine ExampleBank.engineOfFour [])
                        (ExampleBank.chordCalled ++ ExampleBank.chordResumed) = Ok m
                      /\ map stage (inFlight m) = repeat Returned 6
                      /\ console (engine m) = []
                      /\ Forall (fun call =>
                                   match call with Stop _ _ _ => False | _ => True end)
                           (audio (engine m))
                      /\ activeVoices (getStats (engine m)) = 6
                      /\ statsMaxPolyphony (getStats (engine m)) = 4 }).
    { eexists. split; [eval_engine; reflexivity|].
      split; [reflexivity|]. split; [reflexivity|].
      split; [repeat constructor|]. split; reflexivity. }
    destruct H as [m H]. exists m. exact H.
  - destruct (engine_run_wf ExampleBank.context ExampleBank.chordAwaited
                ExampleBank.engineOfFour) as (st & Hrun & Hwf & Hmax).
    { apply engine_new_wf; [|reflexivity].
      split; [reflexivity|]. split; [discriminate | constructor]. }
    exists st. split; [exact Hrun|].
    cbn [getStats activeVoices statsMaxPolyphony]. rewrite Hmax.
    split; [|reflexivity]. destruct Hwf as (_ & Hle & _). rewrite Hmax in Hle. exact Hle.
Qed.

(** *** C2 *)

(** What a steal does, whatever the priorities: with a voice in the
    registry, the one voice whose priority is the lowest is stopped,
    disconnected and taken out of the registry, and no other. *)
Lemma stealOldestVoice_takes_lowest currentTime st :
  allVoices (voices st) <> [] ->
  exists target,
    stealTarget currentTime (voices st) = Some target
    /\ In target (allVoices (voices st))
    /\ (forall v, In v (allVoices (voices st)) ->
          (priority currentTime target <= priority currentTime v)%R)
    /\ voices (stealOldestVoice currentTime st)
       = fst (removeFromRegistry target (voices st))
    /\ audio (stealOldestVoice currentTime st)
       = (audio st ++ [Stop (id target) LeftSource None;
                       Stop (id target) RightSource None;
                       Disconnect (id target)])%list
    /\ totalVoices (stealOldestVoice currentTime st) = totalVoices st - 1.
Proof.
  intros Hne.
  destruct (stealTarget_lowest currentTime _ Hne) as (target & Htarget & Hin & Hmin).
  exists target. split; [assumption|]. split; [assumption|]. split; [assumption|].
  pose proof (stealOldestVoice_total currentTime st Hne) as Htotal.
  unfold stealOldestVoice in *. rewrite Htarget in *.
  split; [now rewrite removeVoice_voices|]. split; [|lia].
  unfold removeVoice. cbn [emit voices audio].
  destruct (removeFromRegistry target (voices st)) as [m [deleted|]];
    cbn; now rewrite <- app_assoc.
Qed.

(** Four keys struck on an engine of four voices, each harder than the one
    before, and then a fifth: the voice stolen for it is the fourth, the
    hardest struck and the youngest of the four. *)
Lemma five_notes_steal_the_fourth :
  exists st4 st5,
    run ExampleBank.context ExampleBank.engineOfFour ExampleBank.fourNotes = Ok st4
    /\ map (fun v => (midiNote v, velocity v)) (allVoices (voices st4))
       = [(60, 10); (62, 20); (64, 30); (65, 40)]
    /\ step ExampleBank.context st4 ExampleBank.fifthNote = Ok st5
    /\ map (fun v => (midiNote v, velocity v)) (allVoices (voices st5))
       = [(60, 10); (62, 20); (64, 30); (67, 50)]
    /\ totalVoices st5 = 4.
Proof.
  eexists. eexists.
  split; [eval_engine; reflexivity|].
  split; [reflexivity|].
  split.
  - eval_engine_but_steal.
    match goal with
    | |- context [stealTarget ?t ?m] => eassert (H : stealTarget t m = Some _)
    end.
    { unfold stealTarget. eval_engine. decide_Rlt. reflexivity. }
    rewrite H. eval_engine. reflexivity.
  - split; reflexivity.
Qed.

(** C2, on the code.  Of two voices of the same age the one struck harder
    (velocity 100 against 20) is the one stolen; of two voices struck
    equally hard the younger (started at 5 against 0) is the one stolen;
    and with four voices struck harder and harder sounding on an engine of
    four, a fifth note steals the fourth voice, not the first. *)
Theorem steal_takes_hardest_and_youngest :
  (stealTarget 1 (voices ExampleBank.softAndHard) = Some ExampleBank.hard
   /\ voices (stealOldestVoice 1 ExampleBank.softAndHard)
      = [(60, [ExampleBank.soft])])
  /\ (stealTarget 10 (voices ExampleBank.olderAndYounger) = Some ExampleBank.younger
      /\ voices (stealOldestVoice 10 ExampleBank.olderAndYounger)
         = [(60, [ExampleBank.older])])
  /\ exists st4 st5,
      run ExampleBank.context ExampleBank.engineOfFour ExampleBank.fourNotes = Ok st4
      /\ map (fun v => (midiNote v, velocity v)) (allVoices (voices st4))
         = [(60, 10); (62, 20); (64, 30); (65, 40)]
      /\ step ExampleBank.context st4 ExampleBank.fifthNote = Ok st5
      /\ map (fun v => (midiNote v, velocity v)) (allVoices (voices st5))
         = [(60, 10); (62, 20); (64, 30); (67, 50)]
      /\ totalVoices st5 = 4.
Proof.
  assert (H1 : stealTarget 1 (voices ExampleBank.softAndHard) = Some ExampleBank.hard).
  { unfold stealTarget. eval_engine. decide_Rlt. reflexivity. }
  assert (H2 : stealTarget 10 (voices ExampleBank.olderAndYounger)
               = Some ExampleBank.younger).
  { unfold stealTarget. eval_engine. decide_Rlt. reflexivity. }
  split; [|split].
  - split; [exact H1|]. unfold stealOldestVoice. rewrite H1. reflexivity.
  - split; [exact H2|]. unfold stealOldestVoice. rewrite H2. reflexivity.
  - exact five_notes_steal_the_fourth.
Qed.


(** *** Notes that are refused or fail *)

(** X21.  [noteOn] with a note outside 21..108 or a velocity outside
    0..127 does nothing but write one line to the console (the line about
    the note when the note is out of range): no voice is added, faded or
    stolen, no call is made on an audio node, the sustain set, the sample
    manager and the statistics stay as they were. *)
Theorem noteOn_rejects_out_of_range
    (audioContext : AudioContext) (now startTime : R) (dateNow : Z)
    (midiNote velocity : Z) (st : State) :
  midiNote < 21 \/ 108 < midiNote \/ velocity < 0 \/ 127 < velocity ->
  exists line,
    noteOn audioContext now startTime dateNow midiNote velocity st
    = Ok (log st line)
    /\ (midiNote < 21 \/ 108 < midiNote ->
        line = ("MIDI note " ++ showZ midiNote ++ " out of range (21-108)")%string)
    /\ voices (log st line) = voices st
    /\ audio (log st line) = audio st
    /\ sustainedNotes (log st line) = sustainedNotes st
    /\ sampleManager (log st line) = sampleManager st
    /\ getStats (log st line) = getStats st.
Proof.
  intros Hout. unfold noteOn.
  destruct ((midiNote <? 21) || (midiNote >? 108)) eqn:Hnote.
  - eexists. split; [reflexivity|]. repeat split.
  - apply orb_false_iff in Hnote. rewrite Z.ltb_ge, Z.gtb_ltb, Z.ltb_ge in Hnote.
    destruct ((velocity <? 0) || (velocity >? 127)) eqn:Hvel.
    + eexists. split; [reflexivity|]. split; [lia|]. repeat split.
    + apply orb_false_iff in Hvel. rewrite Z.ltb_ge, Z.gtb_ltb, Z.ltb_ge in Hvel. lia.
Qed.

(** Note 109 is refused. *)
Lemma noteOn_rejects_out_of_range_witness :
  (109 < 21 \/ 108 < 109 \/ 100 < 0 \/ 127 < 100)
  /\ exists line,
       noteOn ExampleBank.context 0 0 0 109 100 ExampleBank.engine
       = Ok (log ExampleBank.engine line)
       /\ voices (log ExampleBank.engine line) = voices ExampleBank.engine.
Proof.
  assert (H : 109 < 21 \/ 108 < 109 \/ 100 < 0 \/ 127 < 100) by lia.
  split; [exact H|].
  destruct (noteOn_rejects_out_of_range ExampleBank.context 0 0 0 109 100
              ExampleBank.engine H) as (line & Hcall & _ & Hvoices & _).
  exists line. split; [exact Hcall | exact Hvoices].
Defined.

Lemma fadeExisting_fields now midiNote st :
  voices (fadeExisting now midiNote st) = voices st
  /\ sustainedNotes (fadeExisting now midiNote st) = sustainedNotes st
  /\ sustainPedal (fadeExisting now midiNote st) = sustainPedal st
  /\ maxPolyphony (fadeExisting now midiNote st) = maxPolyphony st
  /\ sampleManager (fadeExisting now midiNote st) = sampleManager st
  /\ console (fadeExisting now midiNote st) = console st
  /\ nextVoice (fadeExisting now midiNote st) = nextVoice st
  /\ sf2Data (fadeExisting now midiNote st) = sf2Data st
  /\ totalVoices (fadeExisting now midiNote st) = totalVoices st
  /\ audio (fadeExisting now midiNote st)
     = (audio st
        ++ flat_map (fadeOut now)
             (match voicesGet (voices st) midiNote with
              | Some existingVoices => existingVoices
              | None => []
              end))%list.
Proof.
  unfold fadeExisting. destruct (voicesGet (voices st) midiNote); cbn;
    rewrite ?app_nil_r; repeat split.
Qed.

Lemma removeVoice_fields voice st :
  sustainPedal (removeVoice voice st) = sustainPedal st
  /\ console (removeVoice voice st) = console st
  /\ nextVoice (removeVoice voice st) = nextVoice st
  /\ sf2Data (removeVoice voice st) = sf2Data st
  /\ audio (removeVoice voice st) = (audio st ++ [Disconnect (id voice)])%list.
Proof.
  unfold removeVoice. cbn.
  destruct (removeFromRegistry voice (voices st)) as [m [deleted|]]; cbn; repeat split.
Qed.

Lemma checkPolyphonyLimit_fields now st :
  sustainPedal (checkPolyphonyLimit now st) = sustainPedal st
  /\ console (checkPolyphonyLimit now st) = console st
  /\ nextVoice (checkPolyphonyLimit now st) = nextVoice st
  /\ sf2Data (checkPolyphonyLimit now st) = sf2Data st.
Proof.
  unfold checkPolyphonyLimit, stealOldestVoice.
  destruct (totalVoices st >=? maxPolyphony st); [|repeat split].
  destruct (stealTarget now (voices st)) as [target|]; [|repeat split].
  destruct (removeVoice_fields target
              (emit st [Stop (id target) LeftSource None;
                        Stop (id target) RightSource None]))
    as (Hp & Hc & Hn & Hs & _).
  rewrite Hp, Hc, Hn, Hs. repeat split.
Qed.

(** X22.  [noteOn] in range whose zones hold no stereo pair plays
    nothing: it ends with one "Failed to play note" line on the console and
    the sample manager untouched.  But the polyphony check has run before
    the attempt: the registry is the one [checkPolyphonyLimit] leaves, so at
    the limit a voice has been stolen and the count is one lower than
    before the call. *)
Theorem noteOn_failure_still_steals
    (audioContext : AudioContext) (now startTime : R) (dateNow : Z)
    (midiNote velocity : Z) (st : State) :
  21 <= midiNote <= 108 -> 0 <= velocity <= 127 ->
  selectZones (sf2Data st) midiNote velocity <> [] ->
  StereoManager.hasStereoPair (selectZones (sf2Data st) midiNote velocity) = false ->
  exists st' message,
    noteOn audioContext now startTime dateNow midiNote velocity st = Ok st'
    /\ console st'
       = (console st
          ++ ["Failed to play note " ++ showZ midiNote ++ ": " ++ message]%string)%list
    /\ voices st' = voices (checkPolyphonyLimit now st)
    /\ audio st' = audio (checkPolyphonyLimit now (fadeExisting now midiNote st))
    /\ sampleManager st' = sampleManager st
    /\ nextVoice st' = nextVoice st
    /\ (0 < maxPolyphony st -> maxPolyphony st <= totalVoices st ->
        totalVoices st' = totalVoices st - 1).
Proof.
  intros Hnote Hvel Hzones Hpair. unfold noteOn.
  replace ((midiNote <? 21) || (midiNote >? 108)) with false
    by (symmetry; apply orb_false_iff; rewrite Z.ltb_ge, Z.gtb_ltb, Z.ltb_ge; lia).
  replace ((velocity <? 0) || (velocity >? 127)) with false
    by (symmetry; apply orb_false_iff; rewrite Z.ltb_ge, Z.gtb_ltb, Z.ltb_ge; lia).
  destruct (selectZones (sf2Data st) midiNote velocity) as [|zone zones] eqn:Hsel;
    [now elim Hzones|].
  set (before := checkPolyphonyLimit now (fadeExisting now midiNote st)).
  destruct (StereoManagerFacts.playStereoPair_without_pair audioContext
              (sampleManager before) (nextVoice before) dateNow startTime
              midiNote velocity (zone :: zones) Hpair) as (message & Hplay).
  rewrite Hplay. cbn [bind].
  destruct (fadeExisting_fields now midiNote st)
    as (Hv & _ & _ & Hmax & Hsm & Hc & Hn & _ & Htotal & _).
  eexists. exists message. split; [reflexivity|].
  cbn [console voices audio sampleManager nextVoice log setSampleManager].
  destruct (checkPolyphonyLimit_fields now (fadeExisting now midiNote st))
    as (_ & Hc' & Hn' & _).
  fold before in Hc', Hn'.
  split; [now rewrite Hc', Hc|].
  split.
  { unfold before, checkPolyphonyLimit, stealOldestVoice, totalVoices.
    rewrite Hv, Hmax.
    destruct (_ >=? _); [|exact Hv].
    destruct (stealTarget now (voices st)) as [target|]; [|exact Hv].
    rewrite !removeVoice_voices. cbn [voices emit]. now rewrite Hv. }
  split; [reflexivity|].
  split; [unfold before; now rewrite checkPolyphonyLimit_sampleManager|].
  split; [congruence|].
  intros Hpos Hfull.
  change (totalVoices before = totalVoices st - 1).
  unfold before.
  destruct (checkPolyphonyLimit_spec now (fadeExisting now midiNote st))
    as [Hsteal _]; [now rewrite Hmax|].
  rewrite Hsteal by (rewrite Hmax, Htotal; exact Hfull).
  now rewrite Htotal.
Qed.

(** Middle C at velocity 0 on the example bank: only the left zone
    matches. *)
Lemma noteOn_failure_still_steals_witness :
  21 <= 60 <= 108 /\ 0 <= 0 <= 127
  /\ selectZones (sf2Data ExampleBank.engine) 60 0 <> []
  /\ StereoManager.hasStereoPair (selectZones (sf2Data ExampleBank.engine) 60 0) = false
  /\ exists st' message,
       noteOn ExampleBank.context 0 0 0 60 0 ExampleBank.engine = Ok st'
       /\ console st'
          = (console ExampleBank.engine
             ++ ["Failed to play note " ++ showZ 60 ++ ": " ++ message]%string)%list
       /\ voices st' = voices (checkPolyphonyLimit 0 ExampleBank.engine).
Proof.
  assert (Hnote : 21 <= 60 <= 108) by lia.
  assert (Hvel : 0 <= 0 <= 127) by lia.
  assert (Hzones : selectZones (sf2Data ExampleBank.engine) 60 0 <> [])
    by (vm_compute; discriminate).
  assert (Hpair : StereoManager.hasStereoPair
                    (selectZones (sf2Data ExampleBank.engine) 60 0) = false)
    by reflexivity.
  split; [exact Hnote|]. split; [exact Hvel|]. split; [exact Hzones|].
  split; [exact Hpair|].
  destruct (noteOn_failure_still_steals ExampleBank.context 0 0 0 60 0
              ExampleBank.engine Hnote Hvel Hzones Hpair)
    as (st' & message & Hcall & Hconsole & Hvoices & _).
  exists st', message. auto.
Defined.

(** *** A note that is played *)

Lemma app_one_neq {A} (l : list A) (x : A) : (l ++ [x])%list <> l.
Proof.
  intros H. apply (f_equal (@List.length A)) in H.
  rewrite length_app in H. simpl in H. lia.
Qed.

(** X23.  A [noteOn] that returns without writing to the console has
    played the note: the note and the velocity are in range; the registry is
    the one the polyphony check left, with one new voice appended to the
    list of the key, behind the voices already sounding on it, which stay
    registered while they fade; the voice is not releasing, starts at the
    time the samples were loaded and has gain (velocity/127)^2, between 0
    and 1; both sources are started at that time at the same rate; and the
    note is taken out of the sustain set. *)
Theorem noteOn_registers
    (audioContext : AudioContext) (now startTime : R) (dateNow : Z)
    (midiNote velocity : Z) (st st' : State) :
  noteOn audioContext now startTime dateNow midiNote velocity st = Ok st' ->
  console st' = console st ->
  exists voice,
    voice = mkVoice (nextVoice st) midiNote velocity startTime None false
              (selectZones (sf2Data st) midiNote velocity)
              ((IZR velocity / 127) ^ 2)%R
    /\ voices st'
       = voicesSet (voices (checkPolyphonyLimit now st)) midiNote
           (match voicesGet (voices (checkPolyphonyLimit now st)) midiNote with
            | Some sounding => sounding ++ [voice]
            | None => [voice]
            end)%list
    /\ totalVoices st' = totalVoices (checkPolyphonyLimit now st) + 1
    /\ ~ In midiNote (sustainedNotes st')
    /\ nextVoice st' = nextVoice st + 1
    /\ (exists playbackRate,
          audio st'
          = (audio (checkPolyphonyLimit now (fadeExisting now midiNote st))
             ++ [Start (nextVoice st) LeftSource playbackRate startTime;
                 Start (nextVoice st) RightSource playbackRate startTime])%list)
    /\ 21 <= midiNote <= 108 /\ 0 <= velocity <= 127
    /\ (0 <= gainValue voice <= 1)%R.
Proof.
  unfold noteOn.
  destruct ((midiNote <? 21) || (midiNote >? 108)) eqn:Hnote.
  { intros [= <-] H. cbn in H. now apply app_one_neq in H. }
  destruct ((velocity <? 0) || (velocity >? 127)) eqn:Hvel.
  { intros [= <-] H. cbn in H. now apply app_one_neq in H. }
  apply orb_false_iff in Hnote, Hvel.
  rewrite Z.ltb_ge, Z.gtb_ltb, Z.ltb_ge in Hnote, Hvel.
  destruct (selectZones (sf2Data st) midiNote velocity) as [|zone zones] eqn:Hsel.
  { intros [= <-] H. cbn in H. now apply app_one_neq in H. }
  destruct (fadeExisting_fields now midiNote st)
    as (Hv & Hsus & _ & Hmax & Hsm & Hc & Hn & _ & Htotal & _).
  destruct (checkPolyphonyLimit_fields now (fadeExisting now midiNote st))
    as (_ & Hc' & Hn' & _).
  assert (Hvoices : voices (checkPolyphonyLimit now (fadeExisting now midiNote st))
                    = voices (checkPolyphonyLimit now st)).
  { unfold checkPolyphonyLimit, stealOldestVoice, totalVoices.
    rewrite Hv, Hmax.
    destruct (_ >=? _); [|exact Hv].
    destruct (stealTarget now (voices st)) as [target|]; [|exact Hv].
    rewrite !removeVoice_voices. cbn [voices emit]. now rewrite Hv. }
  set (before := checkPolyphonyLimit now (fadeExisting now midiNote st)) in *.
  unfold StereoManager.playStereoPair.
  destruct (StereoManager.stereoZones midiNote (zone :: zones))
    as [[[leftZone leftId] rightId]| |]; cbn [bind].
  2:{ intros [= <-] H. cbn in H. rewrite Hc', Hc in H. now apply app_one_neq in H. }
  2:{ discriminate. }
  destruct (StereoManager.loadPair audioContext (sampleManager before)
              leftId rightId dateNow) as [loaded [sm'| |]]; cbn [bind];
    try discriminate.
  destruct loaded as [[]| |]; cbn [bind].
  2:{ intros [= <-] H. cbn in H. rewrite Hc', Hc in H. now apply app_one_neq in H. }
  2:{ discriminate. }
  destruct (SampleManager.getSampleData sm' leftId) as [leftSample|].
  2:{ intros [= <-] H. cbn in H. rewrite Hc', Hc in H. now apply app_one_neq in H. }
  intros [= <-] _. rewrite Hn', Hn.
  eexists. split; [reflexivity|].
  cbn [voices sustainedNotes nextVoice audio setSustainedNotes registerVoice
       setVoices bumpNextVoice emit setSampleManager].
  rewrite <- Hvoices.
  assert (Hreg : forall m v,
             voicesSet
               (match voicesGet m midiNote with
                | Some _ => m
                | None => voicesSet m midiNote []
                end) midiNote
               (match voicesGet
                        (match voicesGet m midiNote with
                         | Some _ => m
                         | None => voicesSet m midiNote []
                         end) midiNote with
                | Some vs => vs
                | None => []
                end ++ [v])%list
             = voicesSet m midiNote
                 (match voicesGet m midiNote with
                  | Some sounding => sounding ++ [v]
                  | None => [v]
                  end)%list).
  { intros m v. destruct (voicesGet m midiNote) as [vs|] eqn:Hget.
    - now rewrite Hget.
    - now rewrite voicesGet_set_same, voicesSet_twice. }
  split; [apply Hreg|].
  split.
  { pose proof (registerVoice_total midiNote
                  (mkVoice (nextVoice st) midiNote velocity startTime None false
                     (zone :: zones) ((IZR velocity / 127) ^ 2)%R)
                  before) as Hone.
    rewrite !totalVoices_length in *. unfold registerVoice in Hone.
    cbn [voices setVoices] in *. rewrite <- Hvoices. exact Hone. }
  split.
  { unfold setDelete. rewrite filter_In. intros [_ H].
    rewrite Z.eqb_refl in H. discriminate. }
  split; [now rewrite Hn', Hn|].
  split; [eexists; reflexivity|].
  split; [lia|]. split; [lia|].
  cbn [gainValue].
  assert (Hv0 : (0 <= IZR velocity / 127 <= 1)%R).
  { destruct Hvel as [Hlo Hhi]. apply IZR_le in Hlo, Hhi.
    split.
    - apply Rmult_le_pos; [exact Hlo | lra].
    - apply Rmult_le_reg_r with 127%R; [lra|].
      unfold Rdiv. rewrite Rmult_assoc, Rinv_l by lra. lra. }
  split; [apply pow2_ge_0|].
  replace 1%R with (1 ^ 2)%R by lra.
  apply pow_incr. exact Hv0.
Qed.

(** Key 64 struck on a new engine over the example bank. *)
Lemma noteOn_registers_witness :
  exists st',
    noteOn ExampleBank.context 0 0 0 64 100 ExampleBank.engine = Ok st'
    /\ console st' = console ExampleBank.engine
    /\ totalVoices st' = totalVoices (checkPolyphonyLimit 0 ExampleBank.engine) + 1.
Proof.
  assert (Hplayed : { st' | noteOn ExampleBank.context 0 0 0 64 100 ExampleBank.engine
                            = Ok st'
                            /\ console st' = console ExampleBank.engine }).
  { eexists. split; [eval_engine; reflexivity | reflexivity]. }
  destruct Hplayed as (st' & Hcall & Hconsole).
  exists st'. split; [exact Hcall|]. split; [exact Hconsole|].
  destruct (noteOn_registers _ _ _ _ _ _ _ _ Hcall Hconsole)
    as (voice & _ & _ & Htotal & _).
  exact Htotal.
Defined.

(** *** The sustain set and the registry *)

Lemma consistent_fields st st' :
  voices st' = voices st -> sustainedNotes st' = sustainedNotes st ->
  Spec.sustainConsistent st -> Spec.sustainConsistent st'.
Proof.
  unfold Spec.sustainConsistent. intros -> ->. tauto.
Qed.

Lemma voicesGet_In m : forall note vs,
  voicesGet m note = Some vs -> In (note, vs) m.
Proof.
  induction m as [|[k old] rest IH]; intros note vs; simpl; [discriminate|].
  destruct (k =? note) eqn:Hk.
  - apply Z.eqb_eq in Hk. intros [= ->]. left. now subst.
  - intros H. right. now apply IH.
Qed.

Lemma voicesGet_keys m note : voicesGet m note <> None <-> In note (map fst m).
Proof.
  induction m as [|[k old] rest IH]; simpl; [tauto|].
  destruct (k =? note) eqn:Hk.
  - apply Z.eqb_eq in Hk. split; [now left | discriminate].
  - apply Z.eqb_neq in Hk. rewrite IH. tauto.
Qed.

Lemma voicesSet_keys m : forall note vs k,
  In k (map fst (voicesSet m note vs)) <-> k = note \/ In k (map fst m).
Proof.
  induction m as [|[k0 old] rest IH]; intros note vs k; simpl; [intuition congruence|].
  destruct (k0 =? note) eqn:Hk; simpl.
  - apply Z.eqb_eq in Hk. subst. intuition congruence.
  - rewrite IH. tauto.
Qed.

Lemma voicesSet_NoDup m : forall note vs,
  NoDup (map fst m) -> NoDup (map fst (voicesSet m note vs)).
Proof.
  induction m as [|[k old] rest IH]; intros note vs Hnd; simpl.
  - repeat constructor. simpl. tauto.
  - inversion Hnd as [|? ? Hnotin Hnd']; subst.
    destruct (k =? note) eqn:Hk; simpl; [now constructor|].
    constructor; [|now apply IH].
    rewrite voicesSet_keys. apply Z.eqb_neq in Hk. simpl in Hnotin. intuition congruence.
Qed.

Lemma voicesSet_entries m : forall note vs entry,
  In entry (voicesSet m note vs) -> snd entry = vs \/ In entry m.
Proof.
  induction m as [|[k old] rest IH]; intros note vs entry; simpl.
  - intros [<-|[]]. now left.
  - destruct (k =? note); simpl.
    + intros [<-|H]; [now left | right; now right].
    + intros [<-|H]; [right; now left|].
      apply IH in H. tauto.
Qed.

Lemma removeFromRegistry_subset voice m : forall k,
  In k (map fst (fst (removeFromRegistry voice m))) -> In k (map fst m).
Proof.
  induction m as [|[k0 vs] rest IH]; intros k; simpl; [tauto|].
  destruct (existsb (isVoice voice) vs).
  - destruct (spliceVoice voice vs); cbn [fst map]; simpl; tauto.
  - destruct (removeFromRegistry voice rest) as [rest' deleted].
    cbn [fst map] in *. simpl. intros [H|H]; [now left | right; now apply IH].
Qed.

Lemma removeFromRegistry_consistent voice m :
  (NoDup (map fst m) -> NoDup (map fst (fst (removeFromRegistry voice m))))
  /\ ((forall entry, In entry m -> snd entry <> []) ->
      forall entry, In entry (fst (removeFromRegistry voice m)) -> snd entry <> [])
  /\ match snd (removeFromRegistry voice m) with
     | Some note =>
         forall k, In k (map fst m) -> k <> note ->
                   In k (map fst (fst (removeFromRegistry voice m)))
     | None => map fst (fst (removeFromRegistry voice m)) = map fst m
     end.
Proof.
  induction m as [|[k vs] rest IH]; simpl.
  - split; [auto|]. split; [auto | reflexivity].
  - destruct (existsb (isVoice voice) vs).
    + destruct (spliceVoice voice vs) as [|v vs'] eqn:Hsplice; cbn [fst snd map].
      * split; [intros Hnd; now inversion Hnd|].
        split; [intros H entry Hin; apply H; now right|].
        intros k' [<-|Hin] Hne; [now elim Hne | exact Hin].
      * split; [auto|]. split; [|reflexivity].
        intros H entry [<-|Hin]; [discriminate | apply H; now right].
    + pose proof (removeFromRegistry_subset voice rest) as Hsub.
      destruct (removeFromRegistry voice rest) as [rest' deleted].
      cbn [fst snd map] in *. destruct IH as (Hnd & Hne & Hkeys).
      split; [|split].
      * intros H. inversion H as [|? ? Hnotin Hnd']; subst.
        constructor; [|now apply Hnd].
        intros Hin. apply Hnotin. now apply Hsub.
      * intros H entry [<-|Hin]; [apply H; now left|].
        apply Hne; [|exact Hin]. intros e He. apply H. now right.
      * destruct deleted as [note|].
        -- intros k' [<-|Hin] Hnote; [now left | right; now apply Hkeys].
        -- now f_equal.
Qed.

Lemma setDelete_In s note x : In x (setDelete s note) <-> In x s /\ x <> note.
Proof.
  unfold setDelete. rewrite filter_In.
  destruct (x =? note) eqn:H; [apply Z.eqb_eq in H | apply Z.eqb_neq in H];
    cbn; intuition congruence.
Qed.

Lemma setDelete_NoDup s note : NoDup s -> NoDup (setDelete s note).
Proof. apply NoDup_filter. Qed.

Lemma removeVoice_consistent voice st :
  Spec.sustainConsistent st -> Spec.sustainConsistent (removeVoice voice st).
Proof.
  intros (Hkeys & Hne & Hnd & Hsub). unfold removeVoice. cbn [voices emit].
  destruct (removeFromRegistry_consistent voice (voices st)) as (Hkeys' & Hne' & Hdel).
  destruct (removeFromRegistry voice (voices st)) as [m deleted].
  cbn [fst snd] in *. unfold Spec.sustainConsistent.
  destruct deleted as [note|]; cbn.
  - split; [auto|]. split; [auto|]. split; [now apply setDelete_NoDup|].
    intros n Hn. apply setDelete_In in Hn. destruct Hn as [Hn Hneq].
    apply Hdel; auto.
  - split; [auto|]. split; [auto|]. split; [exact Hnd|].
    intros n Hn. rewrite Hdel. auto.
Qed.

Lemma voicesSet_keys_present m : forall note vs old,
  voicesGet m note = Some old -> map fst (voicesSet m note vs) = map fst m.
Proof.
  induction m as [|[k o] rest IH]; intros note vs old; simpl; [discriminate|].
  destruct (k =? note); simpl; [reflexivity|].
  intros H. f_equal. eapply IH. eassumption.
Qed.

Lemma releaseNote_consistent currentTime midiNote st :
  Spec.sustainConsistent st ->
  Spec.sustainConsistent (releaseNote currentTime midiNote st).
Proof.
  intros (Hkeys & Hne & Hnd & Hsub).
  destruct (releaseNote_fields currentTime midiNote st) as (Hsus & _).
  pose proof (releaseNote_voices currentTime midiNote st) as Hvoices.
  unfold Spec.sustainConsistent. rewrite Hsus, Hvoices.
  destruct (voicesGet (voices st) midiNote) as [noteVoices|] eqn:Hget;
    [|tauto].
  rewrite (voicesSet_keys_present _ _ _ _ Hget).
  split; [exact Hkeys|]. split; [|tauto].
  intros entry Hin. apply voicesSet_entries in Hin. destruct Hin as [Hin|Hin];
    [|now apply Hne].
  rewrite Hin. apply voicesGet_In in Hget. apply Hne in Hget. cbn in Hget.
  intros Hnil. apply (f_equal (@List.length Voice)) in Hnil.
  rewrite releaseVoices_length in Hnil. destruct noteVoices; [now elim Hget | discriminate].
Qed.

Lemma fold_releaseNote_consistent currentTime notes : forall st,
  Spec.sustainConsistent st ->
  Spec.sustainConsistent
    (fold_left (fun st midiNote => releaseNote currentTime midiNote st) notes st).
Proof.
  induction notes as [|n rest IH]; intros st H; simpl; [exact H|].
  apply IH. now apply releaseNote_consistent.
Qed.

Lemma clear_sustained_consistent st :
  Spec.sustainConsistent st -> Spec.sustainConsistent (setSustainedNotes st []).
Proof.
  intros (Hkeys & Hne & _ & _). unfold Spec.sustainConsistent. cbn.
  split; [exact Hkeys|]. split; [exact Hne|]. split; [constructor | intros ? []].
Qed.

Lemma registerVoice_voices midiNote voice st :
  voices (registerVoice midiNote voice st)
  = voicesSet (voices st) midiNote
      (match voicesGet (voices st) midiNote with
       | Some sounding => sounding ++ [voice]
       | None => [voice]
       end)%list.
Proof.
  unfold registerVoice. cbn [voices setVoices].
  destruct (voicesGet (voices st) midiNote) as [vs|] eqn:Hget.
  - now rewrite Hget.
  - now rewrite voicesGet_set_same, voicesSet_twice.
Qed.

Lemma registered_consistent midiNote voice st :
  Spec.sustainConsistent st ->
  Spec.sustainConsistent
    (setSustainedNotes (registerVoice midiNote voice st)
       (setDelete (sustainedNotes (registerVoice midiNote voice st)) midiNote)).
Proof.
  intros (Hkeys & Hne & Hnd & Hsub). unfold Spec.sustainConsistent.
  cbn [voices sustainedNotes setSustainedNotes].
  rewrite registerVoice_voices.
  replace (sustainedNotes (registerVoice midiNote voice st)) with (sustainedNotes st)
    by reflexivity.
  split; [now apply voicesSet_NoDup|]. split; [|split].
  - intros entry Hin. apply voicesSet_entries in Hin. destruct Hin as [Hin|Hin];
      [|now apply Hne].
    rewrite Hin. destruct (voicesGet (voices st) midiNote) as [vs|]; [|discriminate].
    intros Hnil. apply (f_equal (@List.length Voice)) in Hnil.
    rewrite length_app in Hnil. simpl in Hnil. lia.
  - now apply setDelete_NoDup.
  - intros n Hn. apply setDelete_In in Hn. destruct Hn as [Hn _].
    apply voicesSet_keys. right. now apply Hsub.
Qed.

Lemma setAdd_spec s note x : In x (setAdd s note) <-> x = note \/ In x s.
Proof.
  unfold setAdd. destruct (setHas s note) eqn:Hhas.
  - apply setHas_In in Hhas. intuition congruence.
  - rewrite in_app_iff. simpl. intuition congruence.
Qed.

Lemma setAdd_NoDup s note : NoDup s -> NoDup (setAdd s note).
Proof.
  intros Hnd. unfold setAdd. destruct (setHas s note) eqn:Hhas; [exact Hnd|].
  apply NoDup_app; [exact Hnd | repeat constructor; simpl; tauto |].
  intros x Hin [<-|[]]. apply setHas_In in Hin. congruence.
Qed.

Lemma noteOff_consistent currentTime midiNote st :
  Spec.sustainConsistent st -> Spec.sustainConsistent (noteOff currentTime midiNote st).
Proof.
  intros H. unfold noteOff.
  destruct (voicesGet (voices st) midiNote) as [[|v vs]|] eqn:Hget; try exact H.
  destruct (sustainPedal st); [|now apply releaseNote_consistent].
  destruct H as (Hkeys & Hne & Hnd & Hsub). unfold Spec.sustainConsistent. cbn.
  split; [exact Hkeys|]. split; [exact Hne|]. split; [now apply setAdd_NoDup|].
  intros n Hn. apply setAdd_spec in Hn. destruct Hn as [->|Hn]; [|now apply Hsub].
  apply voicesGet_keys. congruence.
Qed.

Lemma checkPolyphonyLimit_consistent currentTime st :
  Spec.sustainConsistent st ->
  Spec.sustainConsistent (checkPolyphonyLimit currentTime st).
Proof.
  intros H. unfold checkPolyphonyLimit, stealOldestVoice.
  destruct (_ >=? _); [|exact H].
  destruct (stealTarget currentTime (voices st)) as [target|]; [|exact H].
  apply removeVoice_consistent. eapply consistent_fields; [| |exact H]; reflexivity.
Qed.

Lemma moveGain_consistent voice value st :
  Spec.sustainConsistent st -> Spec.sustainConsistent (moveGain voice value st).
Proof.
  intros (Hkeys & Hne & Hnd & Hsub). unfold Spec.sustainConsistent, moveGain.
  cbn [voices sustainedNotes setVoices].
  rewrite map_map. cbn [fst].
  split; [exact Hkeys|]. split; [|tauto].
  intros entry Hin. apply in_map_iff in Hin. destruct Hin as (e & <- & He).
  cbn [snd]. apply Hne in He. destruct (snd e); [now elim He | discriminate].
Qed.

Lemma noteOn_consistent audioContext now startTime dateNow midiNote velocity st st' :
  noteOn audioContext now startTime dateNow midiNote velocity st = Ok st' ->
  Spec.sustainConsistent st -> Spec.sustainConsistent st'.
Proof.
  intros Hcall H. unfold noteOn in Hcall.
  destruct (_ || _); [injection Hcall as <-; exact H|].
  destruct (_ || _); [injection Hcall as <-; exact H|].
  destruct (selectZones (sf2Data st) midiNote velocity) as [|zone zones];
    [injection Hcall as <-; exact H|].
  assert (Hbefore : Spec.sustainConsistent
                      (checkPolyphonyLimit now (fadeExisting now midiNote st))).
  { apply checkPolyphonyLimit_consistent.
    destruct (fadeExisting_fields now midiNote st) as (Hv & Hs & _).
    eapply consistent_fields; eassumption. }
  set (before := checkPolyphonyLimit now (fadeExisting now midiNote st)) in *.
  destruct (StereoManager.playStereoPair _ _ _ _ _ _ _ _) as [[outcome sm]| |];
    cbn [bind] in Hcall; try discriminate.
  destruct outcome as [[voice started]|message|]; try discriminate;
    injection Hcall as <-.
  - apply (registered_consistent midiNote voice
             (bumpNextVoice (emit (setSampleManager before sm) started))).
    eapply consistent_fields; [| |exact Hbefore]; reflexivity.
  - eapply consistent_fields; [| |exact Hbefore]; reflexivity.
Qed.

Lemma engine_step_consistent audioContext st e st' :
  step audioContext st e = Ok st' ->
  Spec.sustainConsistent st -> Spec.sustainConsistent st'.
Proof.
  destruct e as [now startTime dateNow midiNote velocity | now midiNote
                | now isDown | now | | volume | voice | voice value];
    cbn [step]; intros Hstep H.
  - eapply noteOn_consistent; eassumption.
  - injection Hstep as <-. now apply noteOff_consistent.
  - injection Hstep as <-. unfold setSustainPedal.
    assert (Hp : Spec.sustainConsistent (setPedal st isDown))
      by (eapply consistent_fields; [| |exact H]; reflexivity).
    destruct isDown; cbn [negb]; [exact Hp|].
    apply clear_sustained_consistent. now apply fold_releaseNote_consistent.
  - injection Hstep as <-. unfold allNotesOff.
    apply clear_sustained_consistent. now apply fold_releaseNote_consistent.
  - injection Hstep as <-. unfold Spec.sustainConsistent, panic. cbn.
    split; [constructor|]. split; [intros ? []|]. split; [constructor | intros ? []].
  - injection Hstep as <-. eapply consistent_fields; [| |exact H]; reflexivity.
  - injection Hstep as <-. now apply removeVoice_consistent.
  - injection Hstep as <-. now apply moveGain_consistent.
Qed.

Lemma engine_run_consistent audioContext events : forall st,
  Spec.engineWellFormed st -> Spec.sustainConsistent st ->
  exists st',
    run audioContext st events = Ok st'
    /\ Spec.engineWellFormed st' /\ Spec.sustainConsistent st'.
Proof.
  induction events as [|e rest IH]; intros st Hwf H; simpl; [eauto|].
  destruct (engine_step_wf audioContext st e Hwf) as (st1 & Hstep & Hwf1 & _).
  rewrite Hstep. cbn [bind]. apply IH; [exact Hwf1|].
  eapply engine_step_consistent; eassumption.
Qed.

Lemma keys_le_voices m :
  (forall entry : Z * list Voice, In entry m -> snd entry <> []) ->
  (List.length m <= List.length (allVoices m))%nat.
Proof.
  induction m as [|[k vs] rest IH]; intros Hne; [simpl; lia|].
  rewrite allVoices_cons, length_app. simpl.
  assert (vs <> []) by (apply (Hne (k, vs)); now left).
  assert (List.length rest <= List.length (allVoices rest))%nat
    by (apply IH; intros e He; apply Hne; now right).
  destruct vs; [congruence | simpl; lia].
Qed.

(** *** Calls in flight *)

Lemma nth_error_last {A} (l : list A) (x : A) :
  nth_error (l ++ [x]) (List.length l) = Some x.
Proof. induction l as [|y l IH]; [reflexivity | exact IH]. Qed.

Lemma setCall_last calls call call' :
  setCall (calls ++ [call]) (List.length calls) call' = (calls ++ [call'])%list.
Proof.
  induction calls as [|c calls IH]; [reflexivity|]. simpl. now rewrite IH.
Qed.

Lemma loadSampleBegin_settles audioContext sm sampleId now :
  fst (SampleManager.loadSampleBegin audioContext sm sampleId now) <> Diverge.
Proof.
  unfold SampleManager.loadSampleBegin.
  destruct (SampleManager.cacheGet _ _); [discriminate|].
  destruct (SampleManager.getSampleData _ _); [|discriminate].
  unfold SampleManager.createAudioBuffer, SampleManager.createBuffer. cbn [fst].
  destruct (_ || _); discriminate.
Qed.

Lemma resumed_none audioContext k dateNow currentTime m :
  nth_error (inFlight m) k = None ->
  loadResumed k dateNow m = Ok m
  /\ pairResumed audioContext k currentTime m = m
  /\ noteOnResumed k m = m.
Proof.
  intros H. unfold loadResumed, pairResumed, noteOnResumed. now rewrite H.
Qed.

Lemma returned_at_once audioContext st calls k dateNow startTime :
  k = List.length calls ->
  match
    (m' <- loadResumed k dateNow (mkMachine st calls) ;;
     m' <- loadResumed k dateNow m' ;;
     m' <- Ok (pairResumed audioContext k startTime m') ;;
     m' <- Ok (noteOnResumed k m') ;;
     Ok m')
  with
  | Ok m' => Ok (engine m')
  | Throw message => Throw message
  | Diverge => Diverge
  end = Ok st.
Proof.
  intros ->.
  assert (H : nth_error (inFlight (mkMachine st calls)) (List.length calls) = None)
    by (apply nth_error_None; cbn; lia).
  destruct (resumed_none audioContext _ dateNow startTime _ H) as (Hl & Hp & Hn).
  rewrite Hl. cbn [bind]. rewrite Hl. cbn [bind]. rewrite Hp, Hn. reflexivity.
Qed.

Ltac in_flight_norm :=
  cbn [bind fst snd app pendingAdd SampleManager.loadSampleEnd
       sampleManager setSampleManager engine inFlight nextVoice
       adding setAdding stage setStage loaded callNote callVelocity callZones].

(** An awaited [noteOn] is its turns run one after the other. *)
Lemma awaitedNoteOn_noteOn audioContext now startTime dateNow midiNote velocity m :
  match runTurns audioContext m
          (awaitedNoteOn (List.length (inFlight m)) now startTime dateNow
             midiNote velocity) with
  | Ok m' => Ok (engine m')
  | Throw message => Throw message
  | Diverge => Diverge
  end
  = noteOn audioContext now startTime dateNow midiNote velocity (engine m).
Proof.
  unfold awaitedNoteOn, noteOn. cbn [runTurns turn]. unfold noteOnCalled.
  destruct (_ || _);
    [cbn [bind]; now apply returned_at_once|].
  destruct (_ || _);
    [cbn [bind]; now apply returned_at_once|].
  destruct (selectZones (sf2Data (engine m)) midiNote velocity) as [|zone zones] eqn:Hz;
    [cbn [bind]; now apply returned_at_once|].
  set (st := checkPolyphonyLimit now (fadeExisting now midiNote (engine m))).
  unfold StereoManager.playStereoPair.
  destruct (StereoManager.stereoZones midiNote (zone :: zones))
    as [[[leftZone leftId] rightId]|message|]; [| |reflexivity].
  - unfold StereoManager.loadPair.
    pose proof (loadSampleBegin_settles audioContext (sampleManager st) leftId dateNow) as Hl.
    destruct (SampleManager.loadSampleBegin audioContext (sampleManager st) leftId dateNow)
      as [pl sm1].
    pose proof (loadSampleBegin_settles audioContext sm1 rightId dateNow) as Hr.
    destruct (SampleManager.loadSampleBegin audioContext sm1 rightId dateNow)
      as [pr sm2].
    cbn [fst] in Hl, Hr. cbn [bind].
    unfold loadResumed, pairResumed, noteOnResumed.
    cbn [inFlight engine]. rewrite nth_error_last.
    destruct pl as [[bl|bl]|ml|]; [| | |congruence];
      destruct pr as [[br|br]|mr|]; try congruence;
      repeat (in_flight_norm;
              first
                [ rewrite setCall_last
                | rewrite nth_error_last
                | match goal with
                  | |- context [SampleManager.addToCache ?a ?b ?c ?d] =>
                      destruct (SampleManager.addToCache a b c d) as [?sm| |];
                      try reflexivity
                  | |- context [SampleManager.getSampleData ?a ?b] =>
                      destruct (SampleManager.getSampleData a b)
                  end ]).
    all: reflexivity.
  - cbn [bind]. unfold loadResumed, pairResumed, noteOnResumed.
    repeat (in_flight_norm; first [rewrite setCall_last | rewrite nth_error_last]).
    reflexivity.
Qed.

(** *** Every turn keeps the cache within capacity and the sustain set
    consistent *)

(** No call changes the capacity of the cache. *)
Lemma loadPair_capacity audioContext sm leftId rightId dateNow sm' :
  Spec.cacheWellFormed sm ->
  snd (StereoManager.loadPair audioContext sm leftId rightId dateNow) = Ok sm' ->
  SampleManager.maxCacheSize sm' = SampleManager.maxCacheSize sm.
Proof.
  intros Hwf. unfold StereoManager.loadPair.
  destruct (SampleManagerFacts.loadSampleBegin_wf audioContext sm leftId dateNow Hwf)
    as (Hwf1 & Hmax1 & _).
  destruct (SampleManager.loadSampleBegin audioContext sm leftId dateNow) as [pl sm1].
  cbn [fst snd] in Hwf1, Hmax1.
  destruct (SampleManagerFacts.loadSampleBegin_wf audioContext sm1 rightId dateNow Hwf1)
    as (Hwf2 & Hmax2 & _).
  destruct (SampleManager.loadSampleBegin audioContext sm1 rightId dateNow) as [pr sm2].
  cbn [fst snd] in *.
  assert (H3 : exists sm3,
             match pl with
             | Ok p => r <- SampleManager.loadSampleEnd sm2 leftId p dateNow ;; Ok (snd r)
             | _ => Ok sm2
             end = Ok sm3
             /\ Spec.cacheWellFormed sm3
             /\ SampleManager.maxCacheSize sm3 = SampleManager.maxCacheSize sm2).
  { destruct pl as [p| |]; eauto.
    destruct (SampleManagerFacts.loadSampleEnd_ok sm2 leftId p dateNow Hwf2)
      as (b & sm3 & -> & Hwf3 & Hmax3). cbn. eauto. }
  destruct H3 as (sm3 & -> & Hwf3 & Hmax3). cbn [bind].
  destruct pr as [p| |]; try (intros [= <-]; congruence).
  destruct (SampleManagerFacts.loadSampleEnd_ok sm3 rightId p dateNow Hwf3)
    as (b & sm4 & -> & _ & Hmax4). cbn. intros [= <-]. congruence.
Qed.

Lemma playStereoPair_capacity
    audioContext sm fresh dateNow currentTime midiNote velocity zones outcome sm' :
  Spec.cacheWellFormed sm ->
  StereoManager.playStereoPair audioContext sm fresh dateNow currentTime
    midiNote velocity zones = Ok (outcome, sm') ->
  SampleManager.maxCacheSize sm' = SampleManager.maxCacheSize sm.
Proof.
  intros Hwf. unfold StereoManager.playStereoPair.
  destruct (StereoManager.stereoZones midiNote zones) as [[[leftZone leftId] rightId]|m|];
    [|intros [= _ <-]; reflexivity | discriminate].
  pose proof (loadPair_capacity audioContext sm leftId rightId dateNow) as Hpair.
  destruct (StereoManager.loadPair audioContext sm leftId rightId dateNow) as [loaded r].
  cbn [snd] in Hpair. destruct r as [sm1| |]; cbn [bind]; try discriminate.
  intros [= _ <-]. now apply Hpair.
Qed.


Lemma noteOn_ends audioContext now startTime dateNow midiNote velocity st :
  Spec.cacheWellFormed (sampleManager st) ->
  exists st',
    noteOn audioContext now startTime dateNow midiNote velocity st = Ok st'
    /\ Spec.cacheWellFormed (sampleManager st')
    /\ SampleManager.maxCacheSize (sampleManager st')
       = SampleManager.maxCacheSize (sampleManager st)
    /\ maxPolyphony st' = maxPolyphony st.
Proof.
  intros Hcache. unfold noteOn.
  destruct (_ || _); [eexists; split; [reflexivity|]; auto|].
  destruct (_ || _); [eexists; split; [reflexivity|]; auto|].
  destruct (selectZones (sf2Data st) midiNote velocity) as [|zone zones];
    [eexists; split; [reflexivity|]; auto|].
  set (before := checkPolyphonyLimit now (fadeExisting now midiNote st)).
  assert (Hsm : sampleManager before = sampleManager st).
  { subst before. rewrite checkPolyphonyLimit_sampleManager.
    apply fadeExisting_fields. }
  assert (Hmax : maxPolyphony before = maxPolyphony st).
  { subst before. rewrite checkPolyphonyLimit_maxPolyphony.
    apply fadeExisting_fields. }
  rewrite Hsm.
  destruct (playStereoPair_ok audioContext (sampleManager st)
              (nextVoice before) dateNow startTime midiNote velocity (zone :: zones) Hcache)
    as (outcome & sm' & Hplay & Hwf' & Hout).
  rewrite Hplay. cbn [bind].
  pose proof (playStereoPair_capacity _ _ _ _ _ _ _ _ _ _ Hcache Hplay)
    as Hcap.
  destruct outcome as [[voice started]|message|]; [| |congruence];
    (eexists; split; [reflexivity|]); (split; [exact Hwf'|]);
    (split; [exact Hcap | exact Hmax]).
Qed.

Lemma step_ends audioContext st e :
  Spec.cacheWellFormed (sampleManager st) ->
  exists st',
    step audioContext st e = Ok st'
    /\ Spec.cacheWellFormed (sampleManager st')
    /\ SampleManager.maxCacheSize (sampleManager st')
       = SampleManager.maxCacheSize (sampleManager st)
    /\ maxPolyphony st' = maxPolyphony st.
Proof.
  intros Hcache.
  destruct e as [now startTime dateNow midiNote velocity | now midiNote | now isDown
                | now | | volume | voice | voice value]; cbn [step].
  - now apply noteOn_ends.
  - eexists. split; [reflexivity|]. unfold noteOff.
    destruct (voicesGet (voices st) midiNote) as [[|v vs]|]; auto.
    destruct (sustainPedal st); [auto|].
    destruct (releaseNote_fields now midiNote st) as (_ & _ & -> & ->).
    auto.
  - eexists. split; [reflexivity|]. unfold setSustainPedal.
    destruct isDown; cbn [negb]; [auto|].
    destruct (fold_releaseNote_fields now
                (sustainedNotes (setPedal st false)) (setPedal st false))
      as (Hm & Hs & _).
    cbn [setSustainedNotes sampleManager maxPolyphony]. rewrite Hs, Hm. auto.
  - eexists. split; [reflexivity|]. unfold allNotesOff.
    destruct (fold_releaseNote_fields now (map fst (voices st)) st)
      as (Hm & Hs & _).
    cbn [setSustainedNotes sampleManager maxPolyphony]. rewrite Hs, Hm. auto.
  - eexists. split; [reflexivity|]. auto.
  - eexists. split; [reflexivity|]. auto.
  - eexists. split; [reflexivity|].
    rewrite removeVoice_sampleManager,
      removeVoice_maxPolyphony. auto.
  - eexists. split; [reflexivity|]. auto.
Qed.

Lemma turn_sound audioContext m t :
  Spec.cacheWellFormed (sampleManager (engine m)) ->
  Spec.sustainConsistent (engine m) ->
  exists m',
    turn audioContext m t = Ok m'
    /\ Spec.cacheWellFormed (sampleManager (engine m'))
    /\ Spec.sustainConsistent (engine m')
    /\ SampleManager.maxCacheSize (sampleManager (engine m'))
       = SampleManager.maxCacheSize (sampleManager (engine m))
    /\ maxPolyphony (engine m') = maxPolyphony (engine m).
Proof.
  intros Hcache Hcons.
  destruct t as [e | now dateNow midiNote velocity | k dateNow | k currentTime | k];
    cbn [turn].
  - destruct (step_ends audioContext (engine m) e Hcache)
      as (st' & Hstep & Hcache' & Hcap & Hmax).
    rewrite Hstep. cbn [bind]. eexists. split; [reflexivity|].
    cbn [engine]. split; [exact Hcache'|]. split; [|auto].
    eapply engine_step_consistent; eassumption.
  - unfold noteOnCalled.
    destruct (_ || _); [eexists; split; [reflexivity|]; cbn [engine]; auto|].
    destruct (_ || _); [eexists; split; [reflexivity|]; cbn [engine]; auto|].
    destruct (selectZones (sf2Data (engine m)) midiNote velocity) as [|zone zones];
      [eexists; split; [reflexivity|]; cbn [engine]; auto|].
    set (before := checkPolyphonyLimit now (fadeExisting now midiNote (engine m))).
    assert (Hsm : sampleManager before = sampleManager (engine m)).
    { subst before. rewrite checkPolyphonyLimit_sampleManager.
      apply fadeExisting_fields. }
    assert (Hmax : maxPolyphony before = maxPolyphony (engine m)).
    { subst before. rewrite checkPolyphonyLimit_maxPolyphony.
      apply fadeExisting_fields. }
    assert (Hbefore : Spec.sustainConsistent before).
    { subst before. apply checkPolyphonyLimit_consistent.
      destruct (fadeExisting_fields now midiNote (engine m))
        as (Hv & Hs & _).
      eapply consistent_fields; eassumption. }
    destruct (StereoManager.stereoZones midiNote (zone :: zones))
      as [[[leftZone leftId] rightId]|message|] eqn:Hzones.
    + rewrite Hsm.
      destruct (SampleManagerFacts.loadSampleBegin_wf audioContext
                  (sampleManager (engine m)) leftId dateNow Hcache)
        as (Hwf1 & Hmax1 & _).
      destruct (SampleManager.loadSampleBegin audioContext (sampleManager (engine m))
                  leftId dateNow) as [pl sm1].
      cbn [fst snd] in Hwf1, Hmax1.
      destruct (SampleManagerFacts.loadSampleBegin_wf audioContext sm1 rightId dateNow Hwf1)
        as (Hwf2 & Hmax2 & _).
      destruct (SampleManager.loadSampleBegin audioContext sm1 rightId dateNow)
        as [pr sm2].
      cbn [fst snd] in Hwf2, Hmax2.
      eexists. split; [reflexivity|]. cbn [engine setSampleManager sampleManager maxPolyphony].
      split; [exact Hwf2|]. split; [|split; [congruence | exact Hmax]].
      eapply consistent_fields; [| |exact Hbefore]; reflexivity.
    + eexists. split; [reflexivity|]. cbn [engine]. rewrite Hsm.
      split; [exact Hcache|]. split; [exact Hbefore|]. split; [reflexivity | exact Hmax].
    + exfalso. unfold StereoManager.stereoZones in Hzones.
      destruct (find _ _) as [l|]; destruct (find _ _) as [r|]; try discriminate.
      destruct (sampleId l); destruct (sampleId r); discriminate.
  - unfold loadResumed.
    destruct (nth_error (inFlight m) k) as [call|]; [|eauto 6].
    destruct (adding call) as [|[sampleId buffer] rest]; [eauto 6|].
    destruct (SampleManagerFacts.loadSampleEnd_ok (sampleManager (engine m)) sampleId
                (SampleManager.Miss buffer) dateNow Hcache)
      as (b & sm' & Hend & Hwf' & Hmax').
    cbn [SampleManager.loadSampleEnd] in Hend.
    destruct (SampleManager.addToCache (sampleManager (engine m)) sampleId buffer dateNow)
      as [sm| |]; cbn [bind] in Hend; try discriminate.
    injection Hend as _ <-. cbn [bind].
    eexists. split; [reflexivity|]. cbn [engine setSampleManager sampleManager maxPolyphony].
    split; [exact Hwf'|]. split; [|auto].
    eapply consistent_fields; [| |exact Hcons]; reflexivity.
  - eexists. split; [reflexivity|]. unfold pairResumed.
    destruct (nth_error (inFlight m) k) as [call|]; [|auto].
    destruct (stage call) as [leftZone leftId| |]; auto.
    destruct (loaded call) as [[]|message|]; auto.
    destruct (adding call); auto.
    destruct (SampleManager.getSampleData _ _); cbn [engine]; auto.
  - eexists. split; [reflexivity|]. unfold noteOnResumed.
    destruct (nth_error (inFlight m) k) as [call|]; [|auto].
    destruct (stage call) as [leftZone leftId|[voice|message|]|]; auto; cbn [engine].
    split; [exact Hcache|].
    split; [now apply registered_consistent|]. auto.
Qed.

Lemma runTurns_sound audioContext turns : forall m,
  Spec.cacheWellFormed (sampleManager (engine m)) ->
  Spec.sustainConsistent (engine m) ->
  exists m',
    runTurns audioContext m turns = Ok m'
    /\ Spec.cacheWellFormed (sampleManager (engine m'))
    /\ Spec.sustainConsistent (engine m')
    /\ SampleManager.maxCacheSize (sampleManager (engine m'))
       = SampleManager.maxCacheSize (sampleManager (engine m))
    /\ maxPolyphony (engine m') = maxPolyphony (engine m).
Proof.
  induction turns as [|t rest IH]; intros m Hcache Hcons; simpl; [eauto 6|].
  destruct (turn_sound audioContext m t Hcache Hcons)
    as (m1 & -> & Hcache1 & Hcons1 & Hcap1 & Hmax1).
  cbn [bind].
  destruct (IH m1 Hcache1 Hcons1) as (m' & Hrun & Hcache' & Hcons' & Hcap' & Hmax').
  exists m'. split; [exact Hrun|]. split; [exact Hcache'|]. split; [exact Hcons'|].
  split; congruence.
Qed.

(** Calls that are all awaited are turns of their own. *)
Lemma run_runTurns audioContext events : forall st calls,
  runTurns audioContext (mkMachine st calls) (map Sync events)
  = (st' <- run audioContext st events ;; Ok (mkMachine st' calls)).
Proof.
  induction events as [|e rest IH]; intros st calls; simpl; [reflexivity|].
  destruct (step audioContext st e) as [st1| |]; cbn [bind]; [apply IH | reflexivity..].
Qed.

Lemma new_consistent sm sf2Data config :
  Spec.sustainConsistent (new sm sf2Data config).
Proof.
  unfold Spec.sustainConsistent, new. cbn.
  split; [constructor|]. split; [intros ? []|]. split; [constructor | intros ? []].
Qed.

(** X24.  For every sequence of calls and callbacks on a new engine over a
    well-formed sample manager, [noteOn] calls that overlap included, each
    resumed whenever its turn comes: the run ends, the registry has no empty
    list of voices, the sustain set holds no note twice, and every sustained
    note has voices in the registry; so the statistics never report more
    sustained notes than active voices, and none when no voice is active. *)
Theorem sustain_set_consistent
    (audioContext : AudioContext) (sm : SampleManager.State) (sf2Data : SF2Data)
    (config : SoundEngineConfig) (turns : list Turn) :
  Spec.cacheWellFormed sm ->
  exists m,
    runTurns audioContext (mkMachine (new sm sf2Data config) []) turns = Ok m
    /\ Spec.sustainConsistent (engine m)
    /\ (forall note, In note (getSustainedNotes (engine m)) ->
          exists sounding,
            voicesGet (voices (engine m)) note = Some sounding /\ sounding <> [])
    /\ statsSustainedNotes (getStats (engine m)) <= activeVoices (getStats (engine m))
    /\ (activeVoices (getStats (engine m)) = 0 -> getSustainedNotes (engine m) = []).
Proof.
  intros Hsm.
  destruct (runTurns_sound audioContext turns (mkMachine (new sm sf2Data config) []))
    as (m & Hrun & _ & Hcons & _).
  - exact Hsm.
  - apply new_consistent.
  - exists m. split; [exact Hrun|]. split; [exact Hcons|].
    set (st := engine m) in *.
    destruct Hcons as (Hkeys & Hne & Hnd & Hsub).
    assert (Hcount : statsSustainedNotes (getStats st) <= activeVoices (getStats st)).
    { cbn [getStats statsSustainedNotes activeVoices]. rewrite totalVoices_length.
      pose proof (NoDup_incl_length Hnd Hsub) as Hle.
      rewrite length_map in Hle.
      pose proof (keys_le_voices _ Hne). lia. }
    split; [|split; [exact Hcount|]].
    + intros note Hnote. apply Hsub, voicesGet_keys in Hnote.
      destruct (voicesGet (voices st) note) as [sounding|] eqn:Hget; [|now elim Hnote].
      exists sounding. split; [reflexivity|].
      apply voicesGet_In in Hget. exact (Hne _ Hget).
    + intros Hzero. rewrite Hzero in Hcount.
      cbn [getStats statsSustainedNotes] in Hcount. unfold getSustainedNotes.
      destruct (sustainedNotes st); [reflexivity | simpl in Hcount; lia].
Qed.

(** Key 64 struck and not awaited, the pedal pressed while its samples
    load, the voice registered, the key let go. *)
Lemma sustain_set_consistent_witness :
  Spec.cacheWellFormed
    (SampleManager.new ExampleBank.parsed (SampleManager.mkConfig None))
  /\ exists m,
       runTurns ExampleBank.context (mkMachine ExampleBank.engine [])
         ExampleBank.heldWhileLoading = Ok m
       /\ statsSustainedNotes (getStats (engine m))
          <= activeVoices (getStats (engine m)).
Proof.
  assert (Hsm : Spec.cacheWellFormed
                  (SampleManager.new ExampleBank.parsed (SampleManager.mkConfig None)))
    by (apply SampleManagerFacts.cache_new_wf; cbn; lia).
  split; [exact Hsm|].
  destruct (sustain_set_consistent ExampleBank.context _ ExampleBank.parsed
              (mkConfig None) ExampleBank.heldWhileLoading Hsm)
    as (m & Hrun & _ & _ & Hcount & _).
  exists m. split; [exact Hrun | exact Hcount].
Defined.

(** *** allNotesOff and panic *)

Lemma fold_releaseNote_keys currentTime notes : forall st,
  map fst (voices (fold_left (fun st midiNote => releaseNote currentTime midiNote st)
                     notes st))
  = map fst (voices st).
Proof.
  induction notes as [|n rest IH]; intros st; simpl; [reflexivity|].
  rewrite IH, releaseNote_voices.
  destruct (voicesGet (voices st) n) eqn:Hget; [|reflexivity].
  eapply voicesSet_keys_present. eassumption.
Qed.

Lemma In_voicesGet m : forall note vs,
  NoDup (map fst m) -> In (note, vs) m -> voicesGet m note = Some vs.
Proof.
  induction m as [|[k old] rest IH]; intros note vs Hnd; simpl; [tauto|].
  inversion Hnd as [|? ? Hnotin Hnd']; subst.
  intros [[= -> ->]|Hin]; [now rewrite Z.eqb_refl|].
  destruct (k =? note) eqn:Hk; [|now apply IH].
  apply Z.eqb_eq in Hk. subst k. elim Hnotin.
  apply in_map_iff. now exists (note, vs).
Qed.

(** X25.  After [allNotesOff] on a registry with one list for
    each key, every voice of the registry is releasing; no voice is removed
    and no key either; the sustain set is empty; the pedal stays as it is. *)
Theorem allNotesOff_releases_all (now : R) (st : State) :
  NoDup (map fst (voices st)) ->
  (forall voice, In voice (allVoices (voices (allNotesOff now st))) ->
                 isReleasing voice = true)
  /\ (forall midiNote, Spec.allReleasing (allNotesOff now st) midiNote)
  /\ totalVoices (allNotesOff now st) = totalVoices st
  /\ map fst (voices (allNotesOff now st)) = map fst (voices st)
  /\ sustainedNotes (allNotesOff now st) = []
  /\ sustainPedal (allNotesOff now st) = sustainPedal st.
Proof.
  intros Hnd.
  assert (Hkeys : map fst (voices (allNotesOff now st)) = map fst (voices st))
    by apply fold_releaseNote_keys.
  assert (Hall : forall midiNote, Spec.allReleasing (allNotesOff now st) midiNote).
  { intros midiNote. unfold allNotesOff.
    assert (H : Spec.allReleasing
                  (fold_left (fun st midiNote => releaseNote now midiNote st)
                     (map fst (voices st)) st) midiNote); [|exact H].
    apply fold_releaseNote_allReleasing.
    destruct (voicesGet (voices st) midiNote) as [vs|] eqn:Hget.
    - left. apply voicesGet_keys. congruence.
    - right. unfold Spec.allReleasing. congruence. }
  split; [|split; [exact Hall|]].
  - intros voice Hin. unfold allVoices in Hin. apply in_concat in Hin.
    destruct Hin as (vs & Hvs & Hin). apply in_map_iff in Hvs.
    destruct Hvs as ([k vs'] & <- & Hentry). cbn [snd] in Hin.
    apply In_voicesGet in Hentry; [|now rewrite Hkeys].
    apply Hall in Hentry. rewrite Forall_forall in Hentry. now apply Hentry.
  - split; [|split; [exact Hkeys|split]].
    + unfold allNotesOff.
      destruct (fold_releaseNote_fields now (map fst (voices st)) st) as (_ & _ & Ht).
      exact Ht.
    + reflexivity.
    + unfold allNotesOff. cbn [sustainPedal setSustainedNotes].
      apply fold_releaseNote_pedal.
Qed.

(** Two keys struck, then all notes off. *)
Lemma allNotesOff_releases_all_witness :
  exists st,
    run ExampleBank.context ExampleBank.engine
      [NoteOn 0 0 0 60 100; NoteOn 1 1 1 64 100] = Ok st
    /\ NoDup (map fst (voices st))
    /\ totalVoices (allNotesOff 2 st) = 2
    /\ forall voice, In voice (allVoices (voices (allNotesOff 2 st))) ->
                     isReleasing voice = true.
Proof.
  assert (Hrun : { st | run ExampleBank.context ExampleBank.engine
                          [NoteOn 0 0 0 60 100; NoteOn 1 1 1 64 100] = Ok st
                        /\ map fst (voices st) = [60; 64]
                        /\ totalVoices st = 2 }).
  { eexists. split; [eval_engine; reflexivity|]. split; reflexivity. }
  destruct Hrun as (st & Hrun & Hkeys & Htotal).
  assert (Hnd : NoDup (map fst (voices st))).
  { rewrite Hkeys. repeat constructor; simpl; intuition lia. }
  exists st. split; [exact Hrun|]. split; [exact Hnd|].
  destruct (allNotesOff_releases_all 2 st Hnd) as (Hall & _ & Ht & _).
  split; [now rewrite Ht | exact Hall].
Defined.

(** [panic] stops both sources of every voice at once, two calls
    for each voice and nothing else; it empties the registry and the sustain
    set, so the statistics report 0 voices and 0 sustained notes, the pedal
    and the limit unchanged.  An [onended] callback that arrives afterwards
    only disconnects the nodes of its voice; a second [panic] changes
    nothing. *)
Theorem panic_silences (st : State) :
  voices (panic st) = []
  /\ sustainedNotes (panic st) = []
  /\ getStats (panic st) = mkStats 0 0 (sustainPedal st) (maxPolyphony st)
  /\ audio (panic st)
     = (audio st
        ++ flat_map (fun voice => [Stop (id voice) LeftSource None;
                                   Stop (id voice) RightSource None])
             (allVoices (voices st)))%list
  /\ Z.of_nat (List.length (audio (panic st)))
     = Z.of_nat (List.length (audio st)) + 2 * totalVoices st
  /\ (forall voice,
        voices (removeVoice voice (panic st)) = []
        /\ sustainedNotes (removeVoice voice (panic st)) = []
        /\ audio (removeVoice voice (panic st))
           = (audio (panic st) ++ [Disconnect (id voice)])%list)
  /\ panic (panic st) = panic st.
Proof.
  split; [reflexivity|]. split; [reflexivity|]. split; [reflexivity|].
  split; [reflexivity|]. split; [|split].
  - unfold panic. cbn [audio setSustainedNotes setVoices emit].
    rewrite length_app, totalVoices_length.
    assert (H : forall l : list Voice,
               List.length
                 (flat_map (fun voice => [Stop (id voice) LeftSource None;
                                          Stop (id voice) RightSource None]) l)
               = (2 * List.length l)%nat).
    { induction l as [|v l IH]; simpl; [reflexivity | rewrite IH; lia]. }
    rewrite H. lia.
  - intros voice. repeat split.
  - unfold panic, setSustainedNotes, setVoices, emit. simpl.
    now rewrite app_nil_r.
Qed.

(** *** removeVoice *)

Lemma removeFromRegistry_absent voice m :
  existsb (isVoice voice) (allVoices m) = false ->
  removeFromRegistry voice m = (m, None).
Proof.
  induction m as [|[k vs] rest IH]; simpl; [reflexivity|].
  rewrite allVoices_cons, existsb_app. intros H.
  apply orb_false_iff in H. destruct H as [Hvs Hrest].
  rewrite Hvs, (IH Hrest). reflexivity.
Qed.

(** X26.  [removeVoice] on a voice that is not registered, as
    when a stolen or replaced voice ends later, leaves the registry, the
    sustain set and the count as they are; on a registered voice it lowers
    the count by exactly one.  Either way it disconnects the nodes of the
    voice, and it adds neither a key nor a sustained note. *)
Theorem removeVoice_counts (voice : Voice) (st : State) :
  (existsb (isVoice voice) (allVoices (voices st)) = false ->
   voices (removeVoice voice st) = voices st
   /\ sustainedNotes (removeVoice voice st) = sustainedNotes st
   /\ totalVoices (removeVoice voice st) = totalVoices st)
  /\ (existsb (isVoice voice) (allVoices (voices st)) = true ->
      totalVoices (removeVoice voice st) = totalVoices st - 1)
  /\ audio (removeVoice voice st) = (audio st ++ [Disconnect (id voice)])%list
  /\ (forall note, In note (sustainedNotes (removeVoice voice st)) ->
                   In note (sustainedNotes st))
  /\ (forall note, In note (map fst (voices (removeVoice voice st))) ->
                   In note (map fst (voices st))).
Proof.
  split; [|split; [|split; [|split]]].
  - intros Habsent. unfold removeVoice. cbn [voices emit].
    rewrite (removeFromRegistry_absent _ _ Habsent).
    split; [reflexivity|]. split; reflexivity.
  - intros Hpresent. pose proof (removeVoice_total voice st) as H.
    rewrite Hpresent in H. lia.
  - apply removeVoice_fields.
  - intros note. unfold removeVoice. cbn [voices emit].
    destruct (removeFromRegistry voice (voices st)) as [m [deleted|]]; cbn; [|tauto].
    intros H. apply setDelete_In in H. tauto.
  - intros note. rewrite removeVoice_voices. apply removeFromRegistry_subset.
Qed.

(** The hard voice of the two is removed once, and a second removal
    changes nothing. *)
Lemma removeVoice_counts_witness :
  existsb (isVoice ExampleBank.hard) (allVoices (voices ExampleBank.softAndHard)) = true
  /\ totalVoices (removeVoice ExampleBank.hard ExampleBank.softAndHard) = 1
  /\ existsb (isVoice ExampleBank.hard)
       (allVoices (voices (removeVoice ExampleBank.hard ExampleBank.softAndHard)))
     = false
  /\ voices (removeVoice ExampleBank.hard
               (removeVoice ExampleBank.hard ExampleBank.softAndHard))
     = voices (removeVoice ExampleBank.hard ExampleBank.softAndHard).
Proof.
  assert (Hin : existsb (isVoice ExampleBank.hard)
                  (allVoices (voices ExampleBank.softAndHard)) = true) by reflexivity.
  assert (Hout : existsb (isVoice ExampleBank.hard)
                   (allVoices (voices (removeVoice ExampleBank.hard
                                         ExampleBank.softAndHard))) = false)
    by reflexivity.
  split; [exact Hin|].
  split.
  - rewrite (proj1 (proj2 (removeVoice_counts ExampleBank.hard
                             ExampleBank.softAndHard)) Hin).
    reflexivity.
  - split; [exact Hout|].
    exact (proj1 (proj1 (removeVoice_counts ExampleBank.hard
                           (removeVoice ExampleBank.hard ExampleBank.softAndHard))
                    Hout)).
Defined.

(** *** The schedule of a release *)

Lemma getReleaseTime_bounds voice : (0.01 <= getReleaseTime voice <= 10)%R.
Proof.
  unfold getReleaseTime.
  assert (Hdefault : (0.01 <= EnvelopeCalculator.calculateReleaseTime None <= 10)%R)
    by (cbn; lra).
  destruct (zones voice) as [|zone rest]; [exact Hdefault|].
  destruct (releaseVolEnv (generators zone)) as [tc|]; [|exact Hdefault].
  cbn [option_map]. rewrite EnvelopeCalculatorFacts.calculateReleaseTime_clamp.
  split; [apply Rmax_l | apply Rmax_lub; [lra | apply Rmin_l]].
Qed.

(** X27.  Releasing a voice that is not releasing marks it, with a
    release time taken from its first zone, between 0.01 and 10 seconds; it
    makes five calls: the scheduled gain values are cancelled, the gain is
    held at its value, a ramp is set (exponential to 0.0001 over the release
    time when the gain is above 0.0001, linear to 0 over 10 ms otherwise),
    and both sources are stopped 0.1 s after the release time, that is
    between 0.11 and 10.1 seconds from now. *)
Theorem release_schedule (now : R) (voice : Voice) :
  isReleasing voice = false ->
  exists release,
    getReleaseTime voice = release
    /\ (0.01 <= release <= 10)%R
    /\ fst (releaseVoice now voice)
       = mkVoice (id voice) (midiNote voice) (velocity voice) (startTime voice)
           (Some (now + release)%R) true (zones voice) (gainValue voice)
    /\ (exists ramp,
          snd (releaseVoice now voice)
          = [CancelScheduledValues (id voice) now;
             SetValueAtTime (id voice) (gainValue voice) now;
             ramp;
             Stop (id voice) LeftSource (Some (now + release + 0.1)%R);
             Stop (id voice) RightSource (Some (now + release + 0.1)%R)]
          /\ ((0.0001 < gainValue voice)%R ->
              ramp = ExponentialRampToValueAtTime (id voice) 0.0001 (now + release))
          /\ ((gainValue voice <= 0.0001)%R ->
              ramp = LinearRampToValueAtTime (id voice) 0 (now + 0.01)))
    /\ (now + 0.11 <= now + release + 0.1 <= now + 10.1)%R.
Proof.
  intros Hheld. exists (getReleaseTime voice).
  pose proof (getReleaseTime_bounds voice) as Hbounds.
  split; [reflexivity|]. split; [exact Hbounds|].
  unfold releaseVoice. rewrite Hheld. cbn [fst snd].
  split; [reflexivity|]. split; [|lra].
  destruct (Rle_dec (gainValue voice) 0.0001) as [Hlow|Hhigh].
  - eexists. split; [reflexivity|]. split; [lra | reflexivity].
  - eexists. split; [reflexivity|]. split; [reflexivity | lra].
Qed.

(** The soft voice, released at time 1. *)
Lemma release_schedule_witness :
  isReleasing ExampleBank.soft = false
  /\ exists release,
       getReleaseTime ExampleBank.soft = release
       /\ (0.01 <= release <= 10)%R
       /\ isReleasing (fst (releaseVoice 1 ExampleBank.soft)) = true.
Proof.
  assert (H : isReleasing ExampleBank.soft = false) by reflexivity.
  split; [exact H|].
  destruct (release_schedule 1 ExampleBank.soft H)
    as (release & Htime & Hbounds & Hvoice & _).
  exists release. split; [exact Htime|]. split; [exact Hbounds|].
  now rewrite Hvoice.
Defined.

(** *** The pedal, lifted *)

(** X28.  With the pedal down and nothing sustained, letting a
    sounding key go and then lifting the pedal leaves the engine exactly as
    releasing the note at the time of the lift does (the pedal now up): the
    [noteOff] itself makes no call on an audio node, and the time the key
    was let go leaves no trace. *)
Theorem pedal_up_is_deferred_release
    (pressed lifted : R) (midiNote : Z) (st : State) (noteVoices : list Voice) :
  sustainPedal st = true ->
  sustainedNotes st = [] ->
  voicesGet (voices st) midiNote = Some noteVoices ->
  noteVoices <> [] ->
  setSustainPedal lifted false (noteOff pressed midiNote st)
  = setPedal (releaseNote lifted midiNote st) false
  /\ voices (setSustainPedal lifted false (noteOff pressed midiNote st))
     = voices (releaseNote lifted midiNote st)
  /\ audio (setSustainPedal lifted false (noteOff pressed midiNote st))
     = audio (releaseNote lifted midiNote st)
  /\ audio (noteOff pressed midiNote st) = audio st.
Proof.
  intros Hpedal Hempty Hget Hne.
  assert (Heq : setSustainPedal lifted false (noteOff pressed midiNote st)
                = setPedal (releaseNote lifted midiNote st) false).
  { unfold noteOff. rewrite Hget.
    destruct noteVoices as [|v vs]; [now elim Hne|].
    rewrite Hpedal, Hempty. unfold setSustainPedal. cbn [negb].
    cbn [setAdd setHas existsb app sustainedNotes setPedal setSustainedNotes fold_left].
    unfold releaseNote. cbn [voices setPedal setSustainedNotes]. rewrite Hget.
    destruct (releaseVoices lifted (v :: vs)) as [released events].
    destruct st. cbn in *. subst. reflexivity. }
  split; [exact Heq|]. rewrite Heq.
  split; [reflexivity|]. split; [reflexivity|].
  unfold noteOff. rewrite Hget. destruct noteVoices; [now elim Hne|].
  now rewrite Hpedal.
Qed.

(** Key 64 struck, the pedal pressed, the key let go at 2, the pedal
    lifted at 3. *)
Lemma pedal_up_is_deferred_release_witness :
  exists st noteVoices,
    run ExampleBank.context ExampleBank.engine
      [NoteOn 0 0 0 64 100; SetSustainPedal 1 true] = Ok st
    /\ sustainPedal st = true
    /\ sustainedNotes st = []
    /\ voicesGet (voices st) 64 = Some noteVoices
    /\ noteVoices <> []
    /\ setSustainPedal 3 false (noteOff 2 64 st) = setPedal (releaseNote 3 64 st) false.
Proof.
  assert (Hrun : { st & { noteVoices |
                   run ExampleBank.context ExampleBank.engine
                     [NoteOn 0 0 0 64 100; SetSustainPedal 1 true] = Ok st
                   /\ sustainPedal st = true
                   /\ sustainedNotes st = []
                   /\ voicesGet (voices st) 64 = Some noteVoices
                   /\ noteVoices <> [] } }).
  { eexists. eexists. split; [eval_engine; reflexivity|].
    split; [reflexivity|]. split; [reflexivity|]. split; [reflexivity|].
    discriminate. }
  destruct Hrun as (st & noteVoices & Hrun & Hpedal & Hempty & Hget & Hne).
  exists st, noteVoices.
  split; [exact Hrun|]. split; [exact Hpedal|]. split; [exact Hempty|].
  split; [exact Hget|]. split; [exact Hne|].
  exact (proj1 (pedal_up_is_deferred_release 2 3 64 st noteVoices
                  Hpedal Hempty Hget Hne)).
Defined.

(** *** The master volume *)

(** [setVolume] sets the master gain to volume/100 clamped to
    [0, 1]: 0 for a volume of 0 or less, 1 for 100 or more; voices, audio
    calls and statistics are untouched. *)
Theorem setVolume_clamps (volume : R) (st : State) :
  (0 <= masterGain (setVolume volume st) <= 1)%R
  /\ ((0 <= volume <= 100)%R -> masterGain (setVolume volume st) = (volume / 100)%R)
  /\ ((volume <= 0)%R -> masterGain (setVolume volume st) = 0%R)
  /\ ((100 <= volume)%R -> masterGain (setVolume volume st) = 1%R)
  /\ voices (setVolume volume st) = voices st
  /\ audio (setVolume volume st) = audio st
  /\ getStats (setVolume volume st) = getStats st.
Proof.
  unfold setVolume. cbn [masterGain voices audio].
  assert (Hclamp : (0 <= Rmax 0 (Rmin 100 volume) <= 100)%R).
  { split; [apply Rmax_l | apply Rmax_lub; [lra | apply Rmin_l]]. }
  split; [lra|]. split; [|split; [|split]].
  - intros [Hlo Hhi]. rewrite Rmin_right, Rmax_right by lra. reflexivity.
  - intros Hlow. rewrite Rmin_right, Rmax_left by lra. lra.
  - intros Hhigh. rewrite Rmin_left, Rmax_right by lra. lra.
  - repeat split.
Qed.

End SoundEngineFacts.

(** * The MIDI manager *)

Module MIDIManagerFacts.
Import MIDIManager.
Local Open Scope Z_scope.

Lemma has_In s note : has s note = true <-> In note s.
Proof.
  unfold has. rewrite existsb_exists. split.
  - intros (x & Hx & Heq). apply Z.eqb_eq in Heq. now subst.
  - intros H. exists note. split; [exact H | apply Z.eqb_refl].
Qed.

Lemma has_add s note other :
  has (add s note) other = true <-> other = note \/ has s other = true.
Proof.
  rewrite !has_In. unfold add. destruct (has s note) eqn:Hhas.
  - apply has_In in Hhas. intuition congruence.
  - rewrite in_app_iff. simpl. intuition congruence.
Qed.

Lemma has_delete s note other :
  has (delete s note) other = true <-> other <> note /\ has s other = true.
Proof.
  rewrite !has_In. unfold delete. rewrite filter_In.
  destruct (other =? note) eqn:H; [apply Z.eqb_eq in H | apply Z.eqb_neq in H];
    cbn; intuition congruence.
Qed.

(** What one message does to the set of active notes and emits. *)
Lemma handleMIDIMessage_cases st event :
  let '(st', emitted, _) := handleMIDIMessage st event in
  (emitted = [] /\ activeNotes st' = activeNotes st)
  \/ (exists note velocity channel timestamp,
        emitted = [MIDINoteOnEvent note velocity channel timestamp]
        /\ velocity <> 0
        /\ has (activeNotes st) note = false
        /\ activeNotes st' = add (activeNotes st) note)
  \/ (exists note velocity channel timestamp,
        emitted = [MIDINoteOffEvent note velocity channel timestamp]
        /\ activeNotes st' = delete (activeNotes st) note)
  \/ (exists e,
        emitted = [e]
        /\ match e with
           | MIDINoteOnEvent _ _ _ _ | MIDINoteOffEvent _ _ _ _ => False
           | _ => True
           end
        /\ activeNotes st' = activeNotes st).
Proof.
  unfold handleMIDIMessage.
  destruct (match selectedDeviceId st, target event with
            | Some selected, Some id => negb (id =? selected)%string
            | _, _ => false
            end); [left; now split|].
  destruct (Z.land (status event) 240 =? 144).
  { unfold handleNoteOn, handleNoteOff.
    destruct (data2 event =? 0) eqn:Hzero.
    - right. right. left. cbn. eauto 10.
    - destruct (has (activeNotes st) (data1 event)) eqn:Hhas.
      + left. now split.
      + right. left. apply Z.eqb_neq in Hzero. cbn. eauto 10. }
  destruct (Z.land (status event) 240 =? 128).
  { right. right. left. cbn. eauto 10. }
  destruct (Z.land (status event) 240 =? 176).
  { right. right. right. cbn. eexists. split; [reflexivity|]. now split. }
  destruct (Z.land (status event) 240 =? 224).
  { right. right. right. cbn. eexists. split; [reflexivity|]. now split. }
  destruct (Z.land (status event) 240 =? 192).
  { right. right. right. cbn. eexists. split; [reflexivity|]. now split. }
  left. now split.
Qed.

(** A note-on the manager emits for a note that is active when the run
    starts comes after a note-off of that note; so does the second of two
    note-ons. *)
Lemma run_bracketed events : forall st,
  (forall before note velocity channel timestamp after,
      snd (run st events)
      = (before ++ MIDINoteOnEvent note velocity channel timestamp :: after)%list ->
      velocity <> 0
      /\ (has (activeNotes st) note = true ->
          exists v c t, In (MIDINoteOffEvent note v c t) before))
  /\ (forall before note v1 c1 t1 between v2 c2 t2 after,
        snd (run st events)
        = (before ++ MIDINoteOnEvent note v1 c1 t1
                  :: between ++ MIDINoteOnEvent note v2 c2 t2 :: after)%list ->
        exists v c t, In (MIDINoteOffEvent note v c t) between).
Proof.
  induction events as [|event rest IH]; intros st; simpl.
  - split; intros; destruct before; discriminate.
  - pose proof (handleMIDIMessage_cases st event) as Hcases.
    destruct (handleMIDIMessage st event) as [[st1 emitted] warned].
    destruct (IH st1) as [IHa IHb].
    destruct (run st1 rest) as [st2 emitted'] eqn:Hrest. cbn [snd] in *.
    destruct Hcases as [[-> Hsame]
                       |[(n & v & c & t & -> & Hv & Hnew & Hadd)
                        |[(n & v & c & t & -> & Hdel)
                         |(e & -> & Hother & Hsame)]]]; cbn [app].
    + rewrite Hsame in *. split; assumption.
    + split.
      * intros before note velocity channel timestamp after Heq.
        destruct before as [|b before']; cbn [app] in Heq.
        -- injection Heq as <- <- <- <- _. split; [exact Hv | congruence].
        -- injection Heq as <- Heq. destruct (IHa _ _ _ _ _ _ Heq) as [Hvel Hoff].
           split; [exact Hvel|]. intros Hactive.
           destruct Hoff as (v' & c' & t' & Hin).
           { rewrite Hadd. apply has_add. now right. }
           exists v', c', t'. now right.
      * intros before note v1 c1 t1 between v2 c2 t2 after Heq.
        destruct before as [|b before']; cbn [app] in Heq.
        -- injection Heq as <- <- <- <- Heq.
           destruct (IHa _ _ _ _ _ _ Heq) as [_ Hoff]. apply Hoff.
           rewrite Hadd. apply has_add. now left.
        -- injection Heq as <- Heq. eapply IHb. exact Heq.
    + split.
      * intros before note velocity channel timestamp after Heq.
        destruct before as [|b before']; cbn [app] in Heq; [discriminate|].
        injection Heq as <- Heq. destruct (IHa _ _ _ _ _ _ Heq) as [Hvel Hoff].
        split; [exact Hvel|]. intros Hactive.
        destruct (Z.eq_dec note n) as [->|Hne].
        -- exists v, c, t. now left.
        -- destruct Hoff as (v' & c' & t' & Hin).
           { rewrite Hdel. apply has_delete. now split. }
           exists v', c', t'. now right.
      * intros before note v1 c1 t1 between v2 c2 t2 after Heq.
        destruct before as [|b before']; cbn [app] in Heq; [discriminate|].
        injection Heq as <- Heq. eapply IHb. exact Heq.
    + rewrite Hsame in *. split.
      * intros before note velocity channel timestamp after Heq.
        destruct before as [|b before']; cbn [app] in Heq.
        -- injection Heq as ->. contradiction.
        -- injection Heq as <- Heq. destruct (IHa _ _ _ _ _ _ Heq) as [Hvel Hoff].
           split; [exact Hvel|]. intros Hactive.
           destruct (Hoff Hactive) as (v' & c' & t' & Hin).
           exists v', c', t'. now right.
      * intros before note v1 c1 t1 between v2 c2 t2 after Heq.
        destruct before as [|b before']; cbn [app] in Heq.
        -- injection Heq as -> _. contradiction.
        -- injection Heq as <- Heq. eapply IHb. exact Heq.
Qed.

(** X29.  Bounce prevention: in what a MIDI manager emits for any
    sequence of messages, from any state, two note-on events of the same
    note are separated by a note-off event of that note; no note-on event
    has velocity 0; and a note-on message with velocity 0 is handled as the
    note-off message of the same note and channel with velocity 0 is. *)
Theorem note_on_never_twice (st : State) (events : list MIDIMessageEvent) :
  (forall before note v1 c1 t1 between v2 c2 t2 after,
      snd (run st events)
      = (before ++ MIDINoteOnEvent note v1 c1 t1
                :: between ++ MIDINoteOnEvent note v2 c2 t2 :: after)%list ->
      exists v c t, In (MIDINoteOffEvent note v c t) between)
  /\ (forall note velocity channel timestamp,
        In (MIDINoteOnEvent note velocity channel timestamp) (snd (run st events)) ->
        velocity <> 0)
  /\ (forall event,
        Z.land (status event) 240 = 144 -> data2 event = 0 ->
        handleMIDIMessage st event
        = handleMIDIMessage st
            (mkMIDIMessageEvent (target event) (128 + Z.land (status event) 15)
               (data1 event) 0 (timeStamp event))).
Proof.
  destruct (run_bracketed events st) as [Ha Hb].
  split; [exact Hb|]. split.
  - intros note velocity channel timestamp Hin.
    apply in_split in Hin. destruct Hin as (before & after & Heq).
    exact (proj1 (Ha _ _ _ _ _ _ Heq)).
  - intros event Hon Hzero. unfold handleMIDIMessage. cbn [target status data1 data2 timeStamp].
    destruct (match selectedDeviceId st, target event with
              | Some selected, Some id => negb (id =? selected)%string
              | _, _ => false
              end); [reflexivity|].
    rewrite Hon. cbn [Z.eqb Pos.eqb].
    assert (Hchannel : 0 <= Z.land (status event) 15 < 16).
    { assert (H : Z.land (status event) 15 = (status event) mod 16)
        by (change 15 with (Z.ones 4); now rewrite Z.land_ones by lia).
      rewrite H. apply Z.mod_pos_bound. lia. }
    assert (Hoff : Z.land (128 + Z.land (status event) 15) 240 = 128
                   /\ Z.land (128 + Z.land (status event) 15) 15
                      = Z.land (status event) 15).
    { remember (Z.land (status event) 15) as ch.
      assert (Hch : ch = 0 \/ ch = 1 \/ ch = 2 \/ ch = 3 \/ ch = 4 \/ ch = 5
                    \/ ch = 6 \/ ch = 7 \/ ch = 8 \/ ch = 9 \/ ch = 10 \/ ch = 11
                    \/ ch = 12 \/ ch = 13 \/ ch = 14 \/ ch = 15) by lia.
      clear - Hch. intuition (subst; split; reflexivity). }
    destruct Hoff as [-> ->]. cbn [Z.eqb Pos.eqb].
    unfold handleNoteOn. rewrite Hzero. reflexivity.
Qed.
End MIDIManagerFacts.

(** * The audio engine *)

Module AudioEngineFacts.
Import AudioEngine.
Local Open Scope result_scope.
Local Open Scope Z_scope.

Lemma orDefault_pos n fallback :
  0 < fallback -> (forall v, n = Some v -> 0 <= v) -> 0 < orDefault n fallback.
Proof.
  intros Hfallback Hn. unfold orDefault. destruct n as [v|]; [|assumption].
  destruct (v =? 0) eqn:Hzero; [assumption|].
  apply Z.eqb_neq in Hzero. specialize (Hn v eq_refl). lia.
Qed.

(** The constructors' defaults leave a limit [initialize] has defaulted as
    it is. *)
Lemma orDefault_twice n fallback :
  fallback <> 0 ->
  (if orDefault n fallback =? 0 then fallback else orDefault n fallback)
  = orDefault n fallback.
Proof.
  intros Hfallback. destruct (orDefault n fallback =? 0) eqn:Hzero; [|reflexivity].
  apply Z.eqb_eq in Hzero. unfold orDefault in *.
  destruct n as [v|]; [|congruence].
  destruct (v =? 0) eqn:Hv; [congruence|]. apply Z.eqb_neq in Hv. congruence.
Qed.

(** X30.  With no limit of the configuration negative, [initialize] on a
    downloaded buffer either fails with the error [parse] throws, or builds
    an engine over the parsed bank whose polyphony limit is
    [maxPolyphony || 64] and whose cache capacity is [cacheSize || 150].
    Every sequence of calls on that engine is then answered, [noteOn] calls
    that overlap included, and leaves no more buffers in the cache than the
    capacity; and calls each awaited before the next leave no more voices
    than the limit. *)
Theorem initialize_builds_bounded_engine
    (audioContext : AudioContext) (arrayBuffer : list byte)
    (config : AudioEngineConfig)
    (turns : list SoundEngine.Turn) (events : list SoundEngine.Event) :
  (forall n, cacheSize config = Some n -> 0 <= n) ->
  (forall n, maxPolyphony config = Some n -> 0 <= n) ->
  (exists message,
      fst (SF2Parser.parse arrayBuffer) = Throw message
      /\ initialize arrayBuffer config = Throw message)
  \/ (exists sf2Data built m st,
        fst (SF2Parser.parse arrayBuffer) = Ok sf2Data
        /\ initialize arrayBuffer config = Ok built
        /\ SoundEngine.sf2Data built = sf2Data
        /\ SoundEngine.maxPolyphony built = orDefault (maxPolyphony config) 64
        /\ SampleManager.maxCacheSize (SoundEngine.sampleManager built)
           = orDefault (cacheSize config) 150
        /\ SoundEngine.runTurns audioContext (SoundEngine.mkMachine built []) turns
           = Ok m
        /\ SampleManager.size
             (SampleManager.getCacheStats
                (SoundEngine.sampleManager (SoundEngine.engine m)))
           <= orDefault (cacheSize config) 150
        /\ SoundEngine.run audioContext built events = Ok st
        /\ SoundEngine.activeVoices (SoundEngine.getStats st)
           <= orDefault (maxPolyphony config) 64).
Proof.
  intros Hcache Hpoly. unfold initialize.
  pose proof (SF2ParserFacts.parse_total arrayBuffer) as Htotal.
  destruct (fst (SF2Parser.parse arrayBuffer)) as [sf2Data|message|];
    [right | left; eauto | congruence].
  set (sm := SampleManager.new sf2Data
               (SampleManager.mkConfig (Some (orDefault (cacheSize config) 150)))).
  set (built := SoundEngine.new sm sf2Data
                  (SoundEngine.mkConfig (Some (orDefault (maxPolyphony config) 64)))).
  assert (Hmaxc : SampleManager.maxCacheSize sm = orDefault (cacheSize config) 150)
    by (apply orDefault_twice; lia).
  assert (Hmaxp : SoundEngine.maxPolyphony built = orDefault (maxPolyphony config) 64)
    by (apply orDefault_twice; lia).
  assert (Hwfc : Spec.cacheWellFormed sm).
  { apply SampleManagerFacts.cache_new_wf. fold sm. rewrite Hmaxc.
    apply orDefault_pos; [lia | assumption]. }
  assert (Hwf : Spec.engineWellFormed built).
  { apply SoundEngineFacts.engine_new_wf; [assumption|]. fold built. rewrite Hmaxp.
    apply orDefault_pos; [lia | assumption]. }
  destruct (SoundEngineFacts.engine_run_wf audioContext events built Hwf)
    as (st & Hrun & Hwf' & Hsame).
  destruct (SoundEngineFacts.runTurns_sound audioContext turns
              (SoundEngine.mkMachine built []))
    as (m & Hturns & Hcache' & _ & Hkeep & _).
  { exact Hwfc. }
  { apply SoundEngineFacts.new_consistent. }
  exists sf2Data, built, m, st.
  split; [reflexivity|]. split; [reflexivity|]. split; [reflexivity|].
  split; [exact Hmaxp|]. split; [exact Hmaxc|]. split; [exact Hturns|].
  split.
  - destruct Hcache' as (_ & Hsize & _).
    cbn [SoundEngine.engine] in Hkeep.
    change (SoundEngine.sampleManager built) with sm in Hkeep.
    rewrite <- Hmaxc, <- Hkeep. exact Hsize.
  - split; [exact Hrun|]. destruct Hwf' as (_ & Hvoices & _).
    rewrite <- Hmaxp, <- Hsame. exact Hvoices.
Qed.

(** The example bank with no limit configured, and with a cache of one
    buffer and a single voice: six calls that overlap leave one buffer in
    the cache, and four calls each awaited leave one voice. *)
Lemma initialize_builds_bounded_engine_witness :
  (exists st,
      initialize ExampleBank.bank (mkAudioEngineConfig None None) = Ok ExampleBank.engine
      /\ SoundEngine.run ExampleBank.context ExampleBank.engine ExampleBank.heldByPedal
         = Ok st
      /\ SoundEngine.activeVoices (SoundEngine.getStats st) <= 64)
  /\ exists built m st,
      initialize ExampleBank.bank (mkAudioEngineConfig (Some 1) (Some 1)) = Ok built
      /\ SoundEngine.runTurns ExampleBank.context (SoundEngine.mkMachine built [])
           (ExampleBank.chordCalled ++ ExampleBank.chordResumed) = Ok m
      /\ SampleManager.size
           (SampleManager.getCacheStats
              (SoundEngine.sampleManager (SoundEngine.engine m))) <= 1
      /\ SoundEngine.run ExampleBank.context built ExampleBank.fourNotes = Ok st
      /\ SoundEngine.activeVoices (SoundEngine.getStats st) <= 1.
Proof.
  split.
  - destruct (initialize_builds_bounded_engine ExampleBank.context ExampleBank.bank
                (mkAudioEngineConfig None None) [] ExampleBank.heldByPedal)
      as [(message & Hthrow & _) | (sf2Data & built & m & st & Hparse & Hinit & _ & _ & _
                                    & _ & _ & Hrun & Hvoices)].
    + intros n [=].
    + intros n [=].
    + exfalso. revert Hthrow. vm_compute. discriminate.
    + assert (Hexample : initialize ExampleBank.bank (mkAudioEngineConfig None None)
                         = Ok ExampleBank.engine) by (vm_compute; reflexivity).
      rewrite Hexample in Hinit. injection Hinit as <-.
      exists st. split; [reflexivity|]. split; [exact Hrun | exact Hvoices].
  - destruct (initialize_builds_bounded_engine ExampleBank.context ExampleBank.bank
                (mkAudioEngineConfig (Some 1) (Some 1))
                (ExampleBank.chordCalled ++ ExampleBank.chordResumed)
                ExampleBank.fourNotes)
      as [(message & Hthrow & _) | (sf2Data & built & m & st & Hparse & Hinit & _ & _ & _
                                    & Hturns & Hsize & Hrun & Hvoices)].
    + intros n [= <-]. lia.
    + intros n [= <-]. lia.
    + exfalso. revert Hthrow. vm_compute. discriminate.
    + exists built, m, st. split; [exact Hinit|]. split; [exact Hturns|].
      split; [exact Hsize|]. split; [exact Hrun | exact Hvoices].
Defined.

End AudioEngineFacts.
